(** * AncestryAtlas: the GEDCOM ingestion pipeline and the tree builders

    A shallow embedding of
    - [server/utils/gedcomParser.js]  (parseDate, parseGedcomFull),
    - [server/utils/geocoder.js]      (cleanPlaceName, geocode, geocodeAll),
    - [server/routes/events.js]       (POST /import-gedcom),
    - [client/src/pages/Profile.jsx]  (buildGedcomTree, buildFamilyTree),
    and the properties the specification states about them.

    JavaScript strings are sequences of UTF-16 code units; they are lists
    of [N] here.  Regular expressions are kept as syntax and run by a
    backtracking matcher with JavaScript's priorities (leftmost start,
    ordered alternation, greedy quantifiers). *)

From Stdlib Require Import NArith Ascii String List Bool Lia DecimalString Sorted.
From stdpp Require Import gmap list.

(* ===================================================================== *)
(** * Strings                                                             *)
(* ===================================================================== *)

Module JsString.

(** A UTF-16 code unit. *)
Definition char := N.
Bind Scope N_scope with char.
Definition jsstring := list char.

(** A Rocq string literal, read as ASCII code units. *)
Fixpoint js (s : string) : jsstring :=
  match s with
  | EmptyString => []
  | String a s' => N_of_ascii a :: js s'
  end.

Arguments js : simpl never.

Definition between (lo hi x : char) : bool := (lo <=? x)%N && (x <=? hi)%N.

(** [\d], [\w], [\s] and [.] of a regular expression without the [u]
    and [s] flags. *)
Definition isDigit (x : char) : bool := between 48 57 x.
Definition isUpper (x : char) : bool := between 65 90 x.
Definition isLower (x : char) : bool := between 97 122 x.
Definition isWord (x : char) : bool :=
  isDigit x || isUpper x || isLower x || (x =? 95)%N.

(** WhiteSpace and LineTerminator of ECMAScript: what [\s] matches and
    what [trim] removes. *)
Definition isSpace (x : char) : bool :=
  between 9 13 x || (x =? 32)%N || (x =? 160)%N || (x =? 5760)%N
  || between 8192 8202 x || (x =? 8232)%N || (x =? 8233)%N
  || (x =? 8239)%N || (x =? 8287)%N || (x =? 12288)%N || (x =? 65279)%N.

Definition isLineTerminator (x : char) : bool :=
  (x =? 10)%N || (x =? 13)%N || (x =? 8232)%N || (x =? 8233)%N.

Definition isDot (x : char) : bool := negb (isLineTerminator x).
Definition isNonSpace (x : char) : bool := negb (isSpace x).

(** [toLowerCase] and [toUpperCase] on the ASCII range. *)
Definition lowerAscii (x : char) : char := if isUpper x then (x + 32)%N else x.
Definition upperAscii (x : char) : char := if isLower x then (x - 32)%N else x.

Definition toLowerCaseAscii (s : jsstring) : jsstring := map lowerAscii s.

Definition eqChar (a b : char) : bool := (a =? b)%N.

Fixpoint eqStr (a b : jsstring) : bool :=
  match a, b with
  | [], [] => true
  | x :: a', y :: b' => eqChar x y && eqStr a' b'
  | _, _ => false
  end.

(** [String.prototype.trim]. *)
Fixpoint trimStart (s : jsstring) : jsstring :=
  match s with
  | x :: s' => if isSpace x then trimStart s' else s
  | [] => []
  end.

Definition trimEnd (s : jsstring) : jsstring := rev (trimStart (rev s)).

Definition trim (s : jsstring) : jsstring := trimEnd (trimStart s).

(** [s.padStart(2, '0')]. *)
Definition padStart2 (s : jsstring) : jsstring :=
  match s with
  | [] => [48; 48]%N
  | [x] => [48%N; x]
  | _ => s
  end.

(** [Array.prototype.join] with a separator. *)
Fixpoint join (sep : jsstring) (l : list jsstring) : jsstring :=
  match l with
  | [] => []
  | [x] => x
  | x :: l' => x ++ sep ++ join sep l'
  end.

(** [s.split(' ')]: split at every occurrence of one separator character;
    an empty string gives one empty field. *)
Fixpoint splitOn (sep : char) (s : jsstring) : list jsstring :=
  match s with
  | [] => [[]]
  | x :: s' =>
      if eqChar x sep then [] :: splitOn sep s'
      else match splitOn sep s' with
           | f :: fs => (x :: f) :: fs
           | [] => [[x]]
           end
  end.

(** Truthiness of a string: non-empty. *)
Definition truthy (s : jsstring) : bool :=
  match s with [] => false | _ => true end.

(** Truthiness of a nullable string. *)
Definition truthyOpt (o : option jsstring) : bool :=
  match o with Some s => truthy s | None => false end.

(** Comparison of code-unit sequences, the order of [Array.prototype.sort]
    without a comparator on strings. *)
Fixpoint ltStr (a b : jsstring) : bool :=
  match a, b with
  | [], [] => false
  | [], _ :: _ => true
  | _ :: _, [] => false
  | x :: a', y :: b' => (x <? y)%N || ((x =? y)%N && ltStr a' b')
  end.

End JsString.
Export JsString.

(* ===================================================================== *)
(** * Regular expressions                                                 *)
(* ===================================================================== *)

Module Regex.

(** The fragment of the regular expressions of the sources.  Every
    unbounded repetition there is over a single character class, so [Star]
    takes a class; [r+] is [r r*], [r?] is [Opt r], [r{4}] is [r r r r] and
    [r{1,2}] is [r r?]. *)
Inductive regex : Type :=
  | Eps
  | Class (p : char -> bool)
  | Cat (r1 r2 : regex)
  | Or (r1 r2 : regex)
  | Opt (r : regex)
  | Star (p : char -> bool)
  | Group (i : nat) (r : regex)
  | Bol
  | Eol
  | WordB.

(** Captures: group number to captured text, latest first. *)
Definition captures := list (nat * jsstring).

Fixpoint capture (i : nat) (c : captures) : option jsstring :=
  match c with
  | [] => None
  | (j, s) :: c' => if Nat.eqb i j then Some s else capture i c'
  end.

Definition isWordOpt (o : option char) : bool :=
  match o with Some x => isWord x | None => false end.

Section Exec.
Context {A : Type}.

(** Greedy repetition of a class: the longest run first, then shorter
    ones, each handed to the continuation. *)
Fixpoint star (p : char -> bool) (k : option char -> jsstring -> option A)
    (prev : option char) (s : jsstring) : option A :=
  match s with
  | x :: s' =>
      if p x then
        match star p k (Some x) s' with
        | Some a => Some a
        | None => k prev s
        end
      else k prev s
  | [] => k prev s
  end.

(** [exec r prev s c k]: match [r] at the position whose preceding
    character is [prev] and whose remaining input is [s]; [k] is the rest
    of the pattern.  The first success in backtracking order is the
    result. *)
Fixpoint exec (r : regex) (prev : option char) (s : jsstring) (c : captures)
    (k : option char -> jsstring -> captures -> option A) : option A :=
  match r with
  | Eps => k prev s c
  | Class p =>
      match s with
      | x :: s' => if p x then k (Some x) s' c else None
      | [] => None
      end
  | Cat r1 r2 => exec r1 prev s c (fun prev' s' c' => exec r2 prev' s' c' k)
  | Or r1 r2 =>
      match exec r1 prev s c k with
      | Some a => Some a
      | None => exec r2 prev s c k
      end
  | Opt r1 =>
      match exec r1 prev s c k with
      | Some a => Some a
      | None => k prev s c
      end
  | Star p => star p (fun prev' s' => k prev' s' c) prev s
  | Group i r1 =>
      exec r1 prev s c
        (fun prev' s' c' => k prev' s' ((i, take (length s - length s') s) :: c'))
  | Bol => match prev with None => k prev s c | Some _ => None end
  | Eol => match s with [] => k prev s c | _ :: _ => None end
  | WordB =>
      if xorb (isWordOpt prev) (isWordOpt (head s)) then k prev s c else None
  end.
End Exec.

(** The result of one match: the text before it, the matched text, the
    text after it, and the captures. *)
Record found := Found {
  f_before : jsstring;
  f_matched : jsstring;
  f_after : jsstring;
  f_caps : captures
}.

Definition matchHere (r : regex) (prev : option char) (s : jsstring)
    : option (jsstring * captures) :=
  exec r prev s [] (fun _ s' c => Some (s', c)).

(** Leftmost match at or after the current position; [pre] is the
    reversed text already passed. *)
Fixpoint searchFrom (r : regex) (pre : jsstring) (s : jsstring) : option found :=
  match matchHere r (head pre) s with
  | Some (s', c) => Some (Found (rev pre) (take (length s - length s') s) s' c)
  | None =>
      match s with
      | x :: s' => searchFrom r (x :: pre) s'
      | [] => None
      end
  end.

(** [RegExp.prototype.exec] / [String.prototype.match] without the [g]
    flag. *)
Definition search (r : regex) (s : jsstring) : option found := searchFrom r [] s.

(** [RegExp.prototype.test]. *)
Definition test (r : regex) (s : jsstring) : bool :=
  match search r s with Some _ => true | None => false end.

(** [s.replace(r, rep)] without the [g] flag and with a replacement that
    has no [$] pattern. *)
Definition replaceFirst (r : regex) (rep : jsstring) (s : jsstring) : jsstring :=
  match search r s with
  | Some f => f_before f ++ rep ++ f_after f
  | None => s
  end.

(** [s.replace(r, rep)] with the [g] flag: every match from left to
    right; after an empty match one character is copied. *)
Fixpoint replaceAllFrom (fuel : nat) (r : regex) (rep : jsstring)
    (pre : jsstring) (s : jsstring) : jsstring :=
  match fuel with
  | O => s
  | S fuel' =>
      match matchHere r (head pre) s with
      | Some (s', _) =>
          if Nat.eqb (length s') (length s) then
            match s with
            | x :: s'' => rep ++ x :: replaceAllFrom fuel' r rep (x :: pre) s''
            | [] => rep
            end
          else
            rep ++ replaceAllFrom fuel' r rep
                     (rev (take (length s - length s') s) ++ pre) s'
      | None =>
          match s with
          | x :: s'' => x :: replaceAllFrom fuel' r rep (x :: pre) s''
          | [] => []
          end
      end
  end.

Definition replaceAll (r : regex) (rep : jsstring) (s : jsstring) : jsstring :=
  replaceAllFrom (S (length s)) r rep [] s.

(** [s.split(r)] for a pattern that matches no empty text. *)
Fixpoint splitFrom (fuel : nat) (r : regex) (pre field : jsstring)
    (s : jsstring) : list jsstring :=
  match fuel with
  | O => [rev field ++ s]
  | S fuel' =>
      match s with
      | [] => [rev field]
      | x :: s'' =>
          match matchHere r (head pre) s with
          | Some (s', _) =>
              if Nat.eqb (length s') (length s) then
                splitFrom fuel' r (x :: pre) (x :: field) s''
              else
                rev field ::
                  splitFrom fuel' r (rev (take (length s - length s') s) ++ pre) [] s'
          | None => splitFrom fuel' r (x :: pre) (x :: field) s''
          end
      end
  end.

Definition split (r : regex) (s : jsstring) : list jsstring :=
  splitFrom (S (length s)) r [] [] s.

(** ** What a pattern matches *)

(** A position during a match: the character before it, the input left,
    and the captures so far. *)
Definition position : Type := option char * jsstring * captures.

(** The last character of a run, or the one before the run. *)
Definition lastOr (prev : option char) (w : jsstring) : option char :=
  match last w with Some x => Some x | None => prev end.

(** [Matches r a b]: the pattern can lead from position [a] to position
    [b], whatever the order in which the matcher tries the ways. *)
Inductive Matches : regex -> position -> position -> Prop :=
  | M_Eps a : Matches Eps a a
  | M_Class p prev x s c :
      p x = true -> Matches (Class p) (prev, x :: s, c) (Some x, s, c)
  | M_Cat r1 r2 a b d :
      Matches r1 a b -> Matches r2 b d -> Matches (Cat r1 r2) a d
  | M_OrL r1 r2 a b : Matches r1 a b -> Matches (Or r1 r2) a b
  | M_OrR r1 r2 a b : Matches r2 a b -> Matches (Or r1 r2) a b
  | M_OptSome r a b : Matches r a b -> Matches (Opt r) a b
  | M_OptNone r a : Matches (Opt r) a a
  | M_Star p prev w s c :
      forallb p w = true -> Matches (Star p) (prev, w ++ s, c) (lastOr prev w, s, c)
  | M_Group i r prev w s c prev' c' :
      Matches r (prev, w ++ s, c) (prev', s, c') ->
      Matches (Group i r) (prev, w ++ s, c) (prev', s, (i, w) :: c')
  | M_Bol s c : Matches Bol (None, s, c) (None, s, c)
  | M_Eol prev c : Matches Eol (prev, [], c) (prev, [], c)
  | M_WordB prev s c :
      xorb (isWordOpt prev) (isWordOpt (head s)) = true ->
      Matches WordB (prev, s, c) (prev, s, c).

(** A pattern without groups. *)
Fixpoint groupFree (r : regex) : bool :=
  match r with
  | Cat r1 r2 | Or r1 r2 => groupFree r1 && groupFree r2
  | Opt r1 => groupFree r1
  | Group _ _ => false
  | _ => true
  end.

(** ** Building blocks *)

Definition lit (x : char) : regex := Class (eqChar x).

(** A literal character under the [i] flag: the two cases of an ASCII
    letter (no character outside ASCII canonicalizes to an ASCII one). *)
Definition liti (x : char) : regex :=
  Class (fun y => eqChar (lowerAscii y) (lowerAscii x)).

Fixpoint cats (l : list regex) : regex :=
  match l with
  | [] => Eps
  | [r] => r
  | r :: l' => Cat r (cats l')
  end.

Fixpoint ors (l : list regex) : regex :=
  match l with
  | [] => Eps
  | [r] => r
  | r :: l' => Or r (ors l')
  end.

Definition str (s : string) : regex := cats (map lit (js s)).
Definition stri (s : string) : regex := cats (map liti (js s)).

Definition plus (p : char -> bool) : regex := Cat (Class p) (Star p).

Definition digit : regex := Class isDigit.
Definition digits4 : regex := cats [digit; digit; digit; digit].
Definition digits12 : regex := Cat digit (Opt digit).

End Regex.
Export Regex.

(* ===================================================================== *)
(** * gedcomParser.js: parseDate                                          *)
(* ===================================================================== *)

Module DateNormalizer.

(** The own properties of [MONTHS]. *)
Definition MONTHS : list (string * string) :=
  [ ("jan", "01"); ("feb", "02"); ("mar", "03"); ("apr", "04"); ("may", "05");
    ("jun", "06"); ("jul", "07"); ("aug", "08"); ("sep", "09"); ("oct", "10");
    ("nov", "11"); ("dec", "12");
    ("january", "01"); ("february", "02"); ("march", "03"); ("april", "04");
    ("june", "06"); ("july", "07"); ("august", "08"); ("september", "09");
    ("october", "10"); ("november", "11"); ("december", "12") ]%string.

Fixpoint assocStr (key : jsstring) (l : list (string * string)) : option jsstring :=
  match l with
  | [] => None
  | (k, v) :: l' => if eqStr key (js k) then Some (js v) else assocStr key l'
  end.

(** [MONTHS[key]] for a key made of word characters in lower case, as it
    is interpolated into the result.  [MONTHS] is an object literal, so a
    key that is not an own property is looked up on [Object.prototype]:
    of its properties, [constructor] and [__proto__] are the two whose
    names are lower-case words; both values are truthy, and a template
    literal prints them as Node does. *)
Definition monthOf (key : jsstring) : option jsstring :=
  match assocStr key MONTHS with
  | Some m => Some m
  | None =>
      if eqStr key (js "constructor") then
        Some (js "function Object() { [native code] }")
      else if eqStr key (js "__proto__") then
        Some (js "[object Object]")
      else None
  end.

(** The group of the pattern below: [abt\.?|about|circa|bef\.?|before|aft\.?|after|est\.?|cal\.?] *)
Definition qualifierWords : regex :=
  ors [ Cat (stri "abt") (Opt (lit 46));
        stri "about";
        stri "circa";
        Cat (stri "bef") (Opt (lit 46));
        stri "before";
        Cat (stri "aft") (Opt (lit 46));
        stri "after";
        Cat (stri "est") (Opt (lit 46));
        Cat (stri "cal") (Opt (lit 46)) ].

(** [/^(abt\.?|about|circa|bef\.?|before|aft\.?|after|est\.?|cal\.?)\s*/i] *)
Definition reQualifier : regex :=
  cats [Bol; Group 1 qualifierWords; Star isSpace].

(** [/^unknown$/i] *)
Definition reUnknown : regex := cats [Bol; stri "unknown"; Eol].

(** [/^\d{4}$/] *)
Definition reYear : regex := cats [Bol; digits4; Eol].

(** [/^(\d{1,2})-(\w+)-(\d{4})$/] *)
Definition reDash : regex :=
  cats [ Bol; Group 1 digits12; lit 45; Group 2 (plus isWord); lit 45;
         Group 3 digits4; Eol ].

(** [/^(\d{1,2})\s+(\w+)\s+(\d{4})$/] *)
Definition reDmy : regex :=
  cats [ Bol; Group 1 digits12; plus isSpace; Group 2 (plus isWord);
         plus isSpace; Group 3 digits4; Eol ].

(** [/^(\w+)\s+(\d{1,2}),?\s+(\d{4})$/] *)
Definition reMdy : regex :=
  cats [ Bol; Group 1 (plus isWord); plus isSpace; Group 2 digits12;
         Opt (lit 44); plus isSpace; Group 3 digits4; Eol ].

(** [/^(\w+)\s+(\d{4})$/] *)
Definition reMy : regex :=
  cats [ Bol; Group 1 (plus isWord); plus isSpace; Group 2 digits4; Eol ].

(** The captures of a match, [m[i]] ([m[i]] of a group that took part in
    the match is a string; all groups of these patterns do). *)
Definition group (i : nat) (f : found) : jsstring :=
  match capture i (f_caps f) with Some s => s | None => [] end.

(** One pattern of [parseDate]: the match, the month looked up from group
    [gm], and the date put together from year [gy], month and day. *)
Definition datePattern (r : regex) (gm : nat)
    (build : found -> jsstring -> jsstring) (cleaned : jsstring)
    : option jsstring :=
  match search r cleaned with
  | Some f =>
      match monthOf (toLowerCaseAscii (group gm f)) with
      | Some month => if truthy month then Some (build f month) else None
      | None => None
      end
  | None => None
  end.

Definition dash : jsstring := js "-".

Definition byYear (cleaned : jsstring) : option jsstring :=
  if test reYear cleaned then Some (cleaned ++ js "-01-01") else None.

Definition byDash : jsstring -> option jsstring :=
  datePattern reDash 2
    (fun f month => group 3 f ++ dash ++ month ++ dash ++ padStart2 (group 1 f)).

Definition byDmy : jsstring -> option jsstring :=
  datePattern reDmy 2
    (fun f month => group 3 f ++ dash ++ month ++ dash ++ padStart2 (group 1 f)).

Definition byMdy : jsstring -> option jsstring :=
  datePattern reMdy 1
    (fun f month => group 3 f ++ dash ++ month ++ dash ++ padStart2 (group 2 f)).

Definition byMy : jsstring -> option jsstring :=
  datePattern reMy 1
    (fun f month => group 2 f ++ dash ++ month ++ js "-01").

(** The first pattern of a list that gives a date. *)
Fixpoint firstOf (ps : list (jsstring -> option jsstring)) (cleaned : jsstring)
    : option jsstring :=
  match ps with
  | [] => None
  | p :: ps' =>
      match p cleaned with
      | Some d => Some d
      | None => firstOf ps' cleaned
      end
  end.

Definition datePatterns : list (jsstring -> option jsstring) :=
  [byYear; byDash; byDmy; byMdy; byMy].

(** [dateStr.replace(/^(abt...)\s*/i, '').trim()] *)
Definition cleanDate (dateStr : jsstring) : jsstring :=
  trim (replaceFirst reQualifier [] dateStr).

(** [parseDate] from the test of [cleaned] on. *)
Definition parseCleaned (cleaned : jsstring) : option jsstring :=
  if negb (truthy cleaned) || test reUnknown cleaned then None
  else firstOf datePatterns cleaned.

(** [parseDate(dateStr)]; the argument is a string or [null]. *)
Definition parseDate (dateStr : option jsstring) : option jsstring :=
  match dateStr with
  | None => None
  | Some s => if truthy s then parseCleaned (cleanDate s) else None
  end.

Definition parseDateS (s : string) : option jsstring := parseDate (Some (js s)).

End DateNormalizer.
Export DateNormalizer.

(* ===================================================================== *)
(** * gedcomParser.js: parseGedcomFull                                    *)
(* ===================================================================== *)

(** [String.prototype.toUpperCase] on a string of one code unit outside
    ASCII (it may give several code units).  The Unicode case tables belong
    to the platform, not to the sources; the development is parametric in
    them. *)
Class UnicodeCase := unicodeUpper : char -> jsstring.

Module Gedcom.

(** [x.toUpperCase()] for a string [x] of one code unit. *)
Definition toUpperCase1 `{UnicodeCase} (x : char) : jsstring :=
  if (x <? 128)%N then [upperAscii x] else unicodeUpper x.

(** An individual under construction: [currentIndi]. *)
Record Indi := {
  gedcomId : jsstring;
  givn : jsstring;
  surn : jsstring;
  sex : option jsstring;
  birth_date : option jsstring;
  birth_place : option jsstring;
  death_date : option jsstring;
  death_place : option jsstring;
  burial_place : option jsstring
}.

Record Fam := {
  gedcomFamId : jsstring;
  husbandId : option jsstring;
  wifeId : option jsstring;
  childIds : list jsstring
}.

Inductive EventKind := birth | death | burial.

(** [currentEvent]: [null], ['birth'], ['death'], ['burial'] or ['name']. *)
Inductive Subcontext := CtxNone | CtxName | CtxEvent (k : EventKind).

Definition newIndi (id : jsstring) : Indi :=
  {| gedcomId := id; givn := []; surn := []; sex := None;
     birth_date := None; birth_place := None;
     death_date := None; death_place := None; burial_place := None |}.

Definition newFam (id : jsstring) : Fam :=
  {| gedcomFamId := id; husbandId := None; wifeId := None; childIds := [] |}.

Definition set_givn (v : jsstring) (i : Indi) : Indi :=
  {| gedcomId := gedcomId i; givn := v; surn := surn i; sex := sex i;
     birth_date := birth_date i; birth_place := birth_place i;
     death_date := death_date i; death_place := death_place i;
     burial_place := burial_place i |}.

Definition set_surn (v : jsstring) (i : Indi) : Indi :=
  {| gedcomId := gedcomId i; givn := givn i; surn := v; sex := sex i;
     birth_date := birth_date i; birth_place := birth_place i;
     death_date := death_date i; death_place := death_place i;
     burial_place := burial_place i |}.

Definition set_sex (v : jsstring) (i : Indi) : Indi :=
  {| gedcomId := gedcomId i; givn := givn i; surn := surn i; sex := Some v;
     birth_date := birth_date i; birth_place := birth_place i;
     death_date := death_date i; death_place := death_place i;
     burial_place := burial_place i |}.

(** [currentIndi[currentEvent].date = v] *)
Definition set_date (k : EventKind) (v : jsstring) (i : Indi) : Indi :=
  {| gedcomId := gedcomId i; givn := givn i; surn := surn i; sex := sex i;
     birth_date := match k with birth => Some v | _ => birth_date i end;
     birth_place := birth_place i;
     death_date := match k with death => Some v | _ => death_date i end;
     death_place := death_place i;
     burial_place := burial_place i |}.

(** [currentIndi[currentEvent].place = v], [currentIndi.burial.place = v] *)
Definition set_place (k : EventKind) (v : jsstring) (i : Indi) : Indi :=
  {| gedcomId := gedcomId i; givn := givn i; surn := surn i; sex := sex i;
     birth_date := birth_date i;
     birth_place := match k with birth => Some v | _ => birth_place i end;
     death_date := death_date i;
     death_place := match k with death => Some v | _ => death_place i end;
     burial_place := match k with burial => Some v | _ => burial_place i end |}.

(** ** The patterns of the line loop *)

(** [/\r?\n/] *)
Definition reNewline : regex := Cat (Opt (lit 13)) (lit 10).

(** [/^(\d+)\s+(.+)$/] *)
Definition reLine : regex :=
  cats [Bol; Group 1 (plus isDigit); plus isSpace; Group 2 (plus isDot); Eol].

(** [@\S+@] *)
Definition reXref : regex := cats [lit 64; plus isNonSpace; lit 64].

(** [/^(@\S+@)\s+INDI$/] and [/^(@\S+@)\s+FAM$/] *)
Definition reRecord (tag : string) : regex :=
  cats [Bol; Group 1 reXref; plus isSpace; str tag; Eol].

(** [/^NAME\s+(G)$/] where the group [G] is [.*] *)
Definition reName : regex :=
  cats [Bol; str "NAME"; plus isSpace; Group 1 (Star isDot); Eol].

(** [/^SEX\s+(\S)$/] *)
Definition reSex : regex :=
  cats [Bol; str "SEX"; plus isSpace; Group 1 (Class isNonSpace); Eol].

(** [/^GIVN\s+(.+)$/], [/^SURN\s+(.+)$/], [/^DATE\s+(.+)$/],
    [/^PLAC\s+(.+)$/] *)
Definition reValue (tag : string) : regex :=
  cats [Bol; str tag; plus isSpace; Group 1 (plus isDot); Eol].

(** [/^HUSB\s+(@\S+@)$/], [/^WIFE\s+(@\S+@)$/], [/^CHIL\s+(@\S+@)$/] *)
Definition reRef (tag : string) : regex :=
  cats [Bol; str tag; plus isSpace; Group 1 reXref; Eol].

(** [/[()]/] *)
Definition reParen : regex := Class (fun x => eqChar x 40 || eqChar x 41).

(** [parseInt] of a string of decimal digits.  The level is only compared
    with 0, 1 and 2, which the floating-point value of a long digit string
    never equals unless the integer does. *)
Definition parseInt (s : jsstring) : N :=
  fold_left (fun n x => (10 * n + (x - 48))%N) s 0%N.

(** [r.match(re)[1]] when the pattern matches. *)
Definition match1 (r : regex) (s : jsstring) : option jsstring :=
  match search r s with
  | Some f => Some (group 1 f)
  | None => None
  end.

(** [if (m) x = f(m[1])] *)
Definition whenMatch {X : Type} (r : regex) (s : jsstring)
    (f : jsstring -> X -> X) (x : X) : X :=
  match match1 r s with
  | Some v => f v x
  | None => x
  end.

(** ** The line loop *)

Record ParserState := {
  individuals : list Indi;
  famRecords : list Fam;
  currentIndi : option Indi;
  currentFam : option Fam;
  currentEvent : Subcontext
}.

Definition initialState : ParserState :=
  {| individuals := []; famRecords := []; currentIndi := None;
     currentFam := None; currentEvent := CtxNone |}.

Definition pushOpt {X : Type} (l : list X) (o : option X) : list X :=
  match o with Some x => l ++ [x] | None => l end.

(** A line of level 0. *)
Definition startRecord (rest : jsstring) (st : ParserState) : ParserState :=
  {| individuals := pushOpt (individuals st) (currentIndi st);
     famRecords := pushOpt (famRecords st) (currentFam st);
     currentIndi := option_map newIndi (match1 (reRecord "INDI") rest);
     currentFam := option_map newFam (match1 (reRecord "FAM") rest);
     currentEvent := CtxNone |}.

(** A line of level 1 while an individual is open. *)
Definition indiLevel1 `{UnicodeCase} (rest : jsstring) (i : Indi) : Indi * Subcontext :=
  if eqStr rest (js "BIRT") then (i, CtxEvent birth)
  else if eqStr rest (js "DEAT") then (i, CtxEvent death)
  else if eqStr rest (js "BURI") then (i, CtxEvent burial)
  else
    ( whenMatch reSex rest
        (fun v => set_sex (flat_map toUpperCase1 v)) i,
      if test reName rest then CtxName else CtxNone ).

(** A line of level 2 while an individual is open. *)
Definition indiLevel2 (ctx : Subcontext) (rest : jsstring) (i : Indi) : Indi :=
  match ctx with
  | CtxName =>
      whenMatch (reValue "SURN") rest
        (fun v => set_surn (trim (replaceAll reParen [] v)))
        (whenMatch (reValue "GIVN") rest (fun v => set_givn (trim v)) i)
  | CtxEvent burial =>
      whenMatch (reValue "PLAC") rest (fun v => set_place burial (trim v)) i
  | CtxEvent k =>
      whenMatch (reValue "PLAC") rest (fun v => set_place k (trim v))
        (whenMatch (reValue "DATE") rest (fun v => set_date k (trim v)) i)
  | CtxNone => i
  end.

(** A line of level 1 while a family is open. *)
Definition famLevel1 (rest : jsstring) (f : Fam) : Fam :=
  whenMatch (reRef "CHIL") rest
    (fun v f => {| gedcomFamId := gedcomFamId f; husbandId := husbandId f;
                   wifeId := wifeId f; childIds := childIds f ++ [v] |})
    (whenMatch (reRef "WIFE") rest
       (fun v f => {| gedcomFamId := gedcomFamId f; husbandId := husbandId f;
                      wifeId := Some v; childIds := childIds f |})
       (whenMatch (reRef "HUSB") rest
          (fun v f => {| gedcomFamId := gedcomFamId f; husbandId := Some v;
                         wifeId := wifeId f; childIds := childIds f |})
          f)).

(** The body of the loop over the lines. *)
Definition step `{UnicodeCase} (st : ParserState) (line : jsstring) : ParserState :=
  match search reLine line with
  | None => st
  | Some m =>
      let level := parseInt (group 1 m) in
      let rest := group 2 m in
      if (level =? 0)%N then startRecord rest st
      else
        let '(indi', ctx') :=
          match currentIndi st with
          | Some i =>
              if (level =? 1)%N then
                let '(i', c) := indiLevel1 rest i in (Some i', c)
              else if (level =? 2)%N then
                (Some (indiLevel2 (currentEvent st) rest i), currentEvent st)
              else (Some i, currentEvent st)
          | None => (None, currentEvent st)
          end in
        let fam' :=
          match currentFam st with
          | Some f => if (level =? 1)%N then Some (famLevel1 rest f) else Some f
          | None => None
          end in
        {| individuals := individuals st; famRecords := famRecords st;
           currentIndi := indi'; currentFam := fam'; currentEvent := ctx' |}
  end.

(** The records after the last line. *)
Definition parseRecords `{UnicodeCase} (content : jsstring) : list Indi * list Fam :=
  let st := fold_left step (split reNewline content) initialState in
  (pushOpt (individuals st) (currentIndi st),
   pushOpt (famRecords st) (currentFam st)).

(** ** Events *)

Record DerivedEvent := {
  ev_name : jsstring;
  ev_type : EventKind;
  ev_title : jsstring;
  ev_description : jsstring;
  ev_date : jsstring;
  ev_rawDate : option jsstring;
  ev_place : jsstring;
  ev_category : jsstring
}.

(** [[indi.givn, indi.surn].filter(Boolean).join(' ').trim()] *)
Definition nameOf (i : Indi) : jsstring :=
  trim (join (js " ") (List.filter truthy [givn i; surn i])).

(** [w.charAt(0).toUpperCase() + w.slice(1)] *)
Definition capitalize `{UnicodeCase} (w : jsstring) : jsstring :=
  match w with
  | [] => []
  | x :: w' => toUpperCase1 x ++ w'
  end.

(** [name.split(' ').map(w => ...).join(' ')] *)
Definition displayNameOf `{UnicodeCase} (name : jsstring) : jsstring :=
  join (js " ") (map capitalize (splitOn 32 name)).

(** [a || b] on nullable strings. *)
Definition orElse (a b : option jsstring) : option jsstring :=
  if truthyOpt a then a else b.

(** [place && place !== '?'] *)
Definition usablePlace (place : option jsstring) : bool :=
  match place with
  | Some p => truthy p && negb (eqStr p (js "?"))
  | None => false
  end.

(** The text of a nullable string in a template literal. *)
Definition interpolate (o : option jsstring) : jsstring :=
  match o with Some s => s | None => js "null" end.

Definition kindLabel (k : EventKind) : jsstring :=
  match k with birth => js "Birth" | death => js "Death" | burial => js "Burial" end.

(** The events one individual adds to [events]: one iteration of the
    loop over [individuals]. *)
Definition eventsOfIndi `{UnicodeCase} (i : Indi) : list DerivedEvent :=
  let name := nameOf i in
  if negb (truthy name) then []
  else
    let displayName := displayNameOf name in
    let birthDate := parseDate (birth_date i) in
    let deathDate := parseDate (death_date i) in
    (match birthDate, birth_place i with
     | Some d, Some p =>
         if truthy d && usablePlace (Some p) then
           [ {| ev_name := displayName; ev_type := birth;
                ev_title := displayName ++ js " - Birth";
                ev_description := js "Born: " ++ interpolate (birth_date i);
                ev_date := d; ev_rawDate := birth_date i;
                ev_place := p; ev_category := js "birth" |} ]
         else []
     | _, _ => []
     end)
    ++
    (match deathDate, death_place i with
     | Some d, Some p =>
         if truthy d && usablePlace (Some p) then
           [ {| ev_name := displayName; ev_type := death;
                ev_title := displayName ++ js " - Death";
                ev_description := js "Died: " ++ interpolate (death_date i);
                ev_date := d; ev_rawDate := death_date i;
                ev_place := p; ev_category := js "death" |} ]
         else []
     | _, _ => []
     end)
    ++
    (match burial_place i with
     | Some p =>
         if usablePlace (Some p) then
           match orElse deathDate birthDate with
           | Some d =>
               if truthy d then
                 [ {| ev_name := displayName; ev_type := burial;
                      ev_title := displayName ++ js " - Burial";
                      ev_description :=
                        js "Burial place" ++
                        (if truthyOpt (death_date i)
                         then js " (died: " ++ interpolate (death_date i) ++ js ")"
                         else []);
                      ev_date := d;
                      ev_rawDate := orElse (death_date i) (birth_date i);
                      ev_place := p; ev_category := js "death" |} ]
               else []
           | None => []
           end
         else []
     | None => []
     end).

(** ** People *)

Record Person := {
  p_gedcomId : jsstring;
  p_name : jsstring;
  p_sex : option jsstring;
  p_birthDate : option jsstring;
  p_birthPlace : option jsstring;
  p_deathDate : option jsstring;
  p_deathPlace : option jsstring
}.

(** [x || null] on a nullable string. *)
Definition orNull (o : option jsstring) : option jsstring :=
  if truthyOpt o then o else None.

Definition personOfIndi `{UnicodeCase} (i : Indi) : Person :=
  {| p_gedcomId := gedcomId i;
     p_name := displayNameOf (nameOf i);
     p_sex := sex i;
     p_birthDate := parseDate (birth_date i);
     p_birthPlace := orNull (birth_place i);
     p_deathDate := parseDate (death_date i);
     p_deathPlace := orNull (death_place i) |}.

Record Parsed := {
  events : list DerivedEvent;
  people : list Person;
  families : list Fam
}.

(** The part of [parseGedcomFull] after the line loop. *)
Definition buildResult `{UnicodeCase} (indis : list Indi) (fams : list Fam) : Parsed :=
  {| events := flat_map eventsOfIndi indis;
     people := map personOfIndi (List.filter (fun i => truthy (nameOf i)) indis);
     families := fams |}.

Definition parseGedcomFull `{UnicodeCase} (content : jsstring) : Parsed :=
  let '(indis, fams) := parseRecords content in buildResult indis fams.


(** ** parseGedcom, the parser without identifiers and families *)

(** [/^@\w+@\s+INDI$/] *)
Definition reLegacyIndi : regex :=
  cats [Bol; lit 64; plus isWord; lit 64; plus isSpace; str "INDI"; Eol].

(** The state of the loop.  An individual of this parser has no
    identifier and no sex: the two fields stay as [newIndi []] has
    them, and nothing reads them.  The variable [currentLevel] is never
    read and is left out. *)
Record LegacyState := {
  lg_individuals : list Indi;
  lg_currentIndi : option Indi;
  lg_currentEvent : Subcontext
}.

Definition legacyInitial : LegacyState :=
  {| lg_individuals := []; lg_currentIndi := None; lg_currentEvent := CtxNone |}.

(** A line of level 1 while an individual is open. *)
Definition legacyLevel1 (rest : jsstring) : Subcontext :=
  if eqStr rest (js "BIRT") then CtxEvent birth
  else if eqStr rest (js "DEAT") then CtxEvent death
  else if eqStr rest (js "BURI") then CtxEvent burial
  else if test reName rest then CtxName else CtxNone.

(** The body of the loop over the lines. *)
Definition legacyStep (st : LegacyState) (line : jsstring) : LegacyState :=
  match search reLine line with
  | None => st
  | Some m =>
      let level := parseInt (group 1 m) in
      let rest := group 2 m in
      if (level =? 0)%N then
        {| lg_individuals := pushOpt (lg_individuals st) (lg_currentIndi st);
           lg_currentIndi := if test reLegacyIndi rest then Some (newIndi []) else None;
           lg_currentEvent := CtxNone |}
      else
        match lg_currentIndi st with
        | None => st
        | Some i =>
            if (level =? 1)%N then
              {| lg_individuals := lg_individuals st; lg_currentIndi := Some i;
                 lg_currentEvent := legacyLevel1 rest |}
            else if (level =? 2)%N then
              {| lg_individuals := lg_individuals st;
                 lg_currentIndi := Some (indiLevel2 (lg_currentEvent st) rest i);
                 lg_currentEvent := lg_currentEvent st |}
            else st
        end
  end.

(** [parseGedcom(content)]: the events, built as [parseGedcomFull]
    builds them. *)
Definition parseGedcom `{UnicodeCase} (content : jsstring) : list DerivedEvent :=
  let st := fold_left legacyStep (split reNewline content) legacyInitial in
  flat_map eventsOfIndi (pushOpt (lg_individuals st) (lg_currentIndi st)).

End Gedcom.
Export Gedcom.

(* ===================================================================== *)
(** * geocoder.js                                                         *)
(* ===================================================================== *)

Module Geocoder.

(** ** cleanPlaceName *)

(** [/\s*-\s*Burial.*$/i] *)
Definition reBurialSuffix : regex :=
  cats [Star isSpace; lit 45; Star isSpace; stri "Burial"; Star isDot; Eol].

(** [/\bCeylon\b/gi], [/\bEngnd\b/gi], [/\bBelgique\b/gi] *)
Definition reWord (w : string) : regex := cats [WordB; stri w; WordB].

(** [/,\s*,/g] *)
Definition reDoubleComma : regex := cats [lit 44; Star isSpace; lit 44].

(** [/,\s*$/g] *)
Definition reTrailingComma : regex := cats [lit 44; Star isSpace; Eol].

(** [/^\s*,/g] *)
Definition reLeadingComma : regex := cats [Bol; Star isSpace; lit 44].

(** [/\s+/g] *)
Definition reSpaces : regex := plus isSpace.

(** [/^Brugge$/i], [/^Kolberg$/i] *)
Definition reOnly (w : string) : regex := cats [Bol; stri w; Eol].

(** ['Kołobrzeg, Poland'] *)
Definition kolobrzeg : jsstring := js "Ko" ++ [322%N] ++ js "obrzeg, Poland".

Definition cleanPlaceName (place : option jsstring) : option jsstring :=
  match place with
  | None => None
  | Some p =>
      if negb (truthy p) || eqStr p (js "?") then None
      else
        let c := replaceFirst reBurialSuffix [] p in
        let c := replaceAll (reWord "Ceylon") (js "Sri Lanka") c in
        let c := replaceAll (stri "(Sri Lanka)") [] c in
        let c := replaceAll (stri "(Ceylon)") [] c in
        let c := replaceAll (stri "Western Prov.") (js "Western Province") c in
        let c := replaceAll (reWord "Engnd") (js "England") c in
        let c := replaceAll (reWord "Belgique") (js "Belgium") c in
        let c := replaceAll reDoubleComma (js ",") c in
        let c := replaceAll reTrailingComma [] c in
        let c := replaceAll reLeadingComma [] c in
        let c := replaceAll reSpaces (js " ") c in
        let c := trim c in
        let c := if test (reOnly "Brugge") c then js "Brugge, Belgium" else c in
        let c := if test (reOnly "Kolberg") c then kolobrzeg else c in
        if truthy c then Some c else None
  end.

(** ** geocode *)

(** A resolved place.  The two fields stand for [parseFloat] of the first
    candidate's [lat] and [lon]; they are kept as the candidate's decimal
    texts. *)
Record Coord := { lat : jsstring; lon : jsstring }.

(** What [await fetchJson(url)] and the reading of its answer do: an
    exception (network error, timeout, unreadable body, an answer whose
    first candidate cannot be read), an answer without a first candidate,
    or one with a first candidate. *)
Inductive Response :=
  | Throws
  | NoCandidate
  | Candidate (c : Coord).

(** The external service: the answer to the [n]-th outbound lookup of the
    process (counted from 0), by the query text put in the URL. *)
Definition Service := nat -> jsstring -> Response.

(** The state of the module: [cache], and the queries of the outbound
    lookups issued so far, oldest first.  [lastRequestTime] and the waits
    before a lookup delay it and change no value; they are left out, and a
    call is taken to run alone. *)
Record GeoState := {
  cache : gmap jsstring (option Coord);
  sent : list jsstring
}.

Definition emptyGeo : GeoState := {| cache := ∅; sent := [] |}.

Definition cacheSet (k : jsstring) (v : option Coord) (st : GeoState) : GeoState :=
  {| cache := <[k := v]> (cache st); sent := sent st |}.

(** One outbound lookup. *)
Definition fetch (service : Service) (query : jsstring) (st : GeoState)
    : Response * GeoState :=
  (service (length (sent st)) query,
   {| cache := cache st; sent := sent st ++ [query] |}).

Definition isHighSurrogate (x : char) : bool := between 55296 56319 x.
Definition isLowSurrogate (x : char) : bool := between 56320 57343 x.

(** [encodeURIComponent] throws a [URIError] on a lone surrogate. *)
Fixpoint encodable (s : jsstring) : bool :=
  match s with
  | [] => true
  | x :: s' =>
      if isHighSurrogate x then
        match s' with
        | y :: s'' => isLowSurrogate y && encodable s''
        | [] => false
        end
      else negb (isLowSurrogate x) && encodable s'
  end.

(** [parts.slice(-2)] *)
Definition lastTwo {X : Type} (l : list X) : list X := drop (length l - 2) l.

(** [cleaned.split(',').map(p => p.trim())] *)
Definition partsOf (cleaned : jsstring) : list jsstring :=
  map trim (splitOn 44 cleaned).

(** The body of [try] in [geocode]; [None] is an exception, caught by
    [catch]. *)
Definition lookup (service : Service) (cleaned : jsstring) (st : GeoState)
    : option (option Coord) * GeoState :=
  if negb (encodable cleaned) then (None, st)
  else
    match fetch service cleaned st with
    | (Throws, st1) => (None, st1)
    | (Candidate c, st1) => (Some (Some c), cacheSet cleaned (Some c) st1)
    | (NoCandidate, st1) =>
        let parts := partsOf cleaned in
        if (2 <? length parts)%nat then
          let simplified := join (js ", ") (lastTwo parts) in
          if negb (encodable simplified) then (None, st1)
          else
            match fetch service simplified st1 with
            | (Throws, st2) => (None, st2)
            | (Candidate c, st2) => (Some (Some c), cacheSet cleaned (Some c) st2)
            | (NoCandidate, st2) => (Some None, cacheSet cleaned None st2)
            end
        else (Some None, cacheSet cleaned None st1)
    end.

Definition geocode (service : Service) (place : option jsstring) (st : GeoState)
    : option Coord * GeoState :=
  match cleanPlaceName place with
  | None => (None, st)
  | Some cleaned =>
      match cache st !! cleaned with
      | Some v => (v, st)
      | None =>
          match lookup service cleaned st with
          | (Some r, st') => (r, st')
          | (None, st') => (None, cacheSet cleaned None st')
          end
      end
  end.

(** ** geocodeAll *)

(** [[...new Set(l)]]: the first occurrence of each string, in order. *)
Fixpoint dedupe (l : list jsstring) : list jsstring :=
  match l with
  | [] => []
  | x :: l' => x :: List.filter (fun y => negb (eqStr y x)) (dedupe l')
  end.

(** [places.filter(p => p && p !== '?')] *)
Definition lookable (places : list (option jsstring)) : list jsstring :=
  omap (fun p => if usablePlace p then p else None) places.

(** The [Map] that [geocodeAll] returns, in insertion order, and the
    calls of [onProgress]. *)
Record Geocoded := {
  results : list (jsstring * Coord);
  progress : list (nat * nat)
}.

(** [geocoded.get(place)] *)
Fixpoint getCoord (place : jsstring) (m : list (jsstring * Coord)) : option Coord :=
  match m with
  | [] => None
  | (k, v) :: m' => if eqStr place k then Some v else getCoord place m'
  end.

(** The loop over [unique]. *)
Fixpoint geocodeEach (service : Service) (total : nat) (unique : list jsstring)
    (completed : nat) (acc : Geocoded) (st : GeoState) : Geocoded * GeoState :=
  match unique with
  | [] => (acc, st)
  | place :: rest =>
      let '(coords, st') := geocode service (Some place) st in
      let res :=
        match coords with
        | Some c => results acc ++ [(place, c)]
        | None => results acc
        end in
      geocodeEach service total rest (S completed)
        {| results := res; progress := progress acc ++ [(S completed, total)] |} st'
  end.

Definition geocodeAll (service : Service) (places : list (option jsstring))
    (st : GeoState) : Geocoded * GeoState :=
  let unique := dedupe (lookable places) in
  geocodeEach service (length unique) unique 0 {| results := []; progress := [] |} st.

End Geocoder.
Export Geocoder.

(* ===================================================================== *)
(** * routes/events.js: POST /import-gedcom                              *)
(* ===================================================================== *)

Module Importer.

(** A row that [eventQueries.createWithSource] inserts. *)
Record EventRow := {
  row_user : N;
  row_title : jsstring;
  row_description : option jsstring;
  row_date : jsstring;
  row_endDate : option jsstring;
  row_latitude : jsstring;
  row_longitude : jsstring;
  row_category : jsstring;
  row_source : jsstring
}.

(** The tables the route writes: [gedcom_people], [gedcom_families] with
    the children of each family, and [events]; each row with its owner. *)
Record Db := {
  db_people : list (N * Person);
  db_families : list (N * Fam);
  db_events : list EventRow
}.

(** The body of a successful answer, [res.json({...})]. *)
Record ImportResult := {
  imported : nat;
  skipped : nat;
  res_people : list jsstring;
  peopleCount : nat;
  familiesCount : nat;
  message : jsstring
}.

(** A number in a template literal. *)
Definition showNat (n : nat) : jsstring :=
  js (DecimalString.NilZero.string_of_uint (Nat.to_uint n)).

(** [Array.prototype.sort] without a comparator, on strings. *)
Fixpoint insertSorted (x : jsstring) (l : list jsstring) : list jsstring :=
  match l with
  | [] => [x]
  | y :: l' => if ltStr x y then x :: l else y :: insertSorted x l'
  end.

Definition sortStrings (l : list jsstring) : list jsstring :=
  fold_right insertSorted [] l.

Definition notOwner {X : Type} (user : N) (row : N * X) : bool :=
  negb (fst row =? user)%N.

(** [deleteByUserId] on both tables, then one [create] per person and per
    family. *)
Definition storeRecords (user : N) (p : Parsed) (db : Db) : Db :=
  {| db_people :=
       List.filter (notOwner user) (db_people db) ++ map (pair user) (people p);
     db_families :=
       List.filter (notOwner user) (db_families db) ++ map (pair user) (families p);
     db_events := db_events db |}.

(** [s || d] for a string [s]. *)
Definition orDefault (s d : jsstring) : jsstring := if truthy s then s else d.

Definition rowOf (user : N) (evt : DerivedEvent) (coords : Coord) : EventRow :=
  {| row_user := user;
     row_title := ev_title evt;
     row_description := orNull (Some (ev_description evt));
     row_date := ev_date evt;
     row_endDate := None;
     row_latitude := lat coords;
     row_longitude := lon coords;
     row_category := orDefault (ev_category evt) (js "other");
     row_source := js "gedcom" |}.

(** The state of the loop over [parsedEvents]: the counters, [peopleSet]
    in insertion order, and the rows created. *)
Record Tally := {
  t_imported : nat;
  t_skipped : nat;
  t_peopleSet : list jsstring;
  t_rows : list EventRow
}.

(** [peopleSet.add(name)] *)
Definition setAdd (x : jsstring) (s : list jsstring) : list jsstring :=
  if existsb (eqStr x) s then s else s ++ [x].

Definition tallyEvent (user : N) (geocoded : list (jsstring * Coord))
    (t : Tally) (evt : DerivedEvent) : Tally :=
  match getCoord (ev_place evt) geocoded with
  | None =>
      {| t_imported := t_imported t; t_skipped := S (t_skipped t);
         t_peopleSet := t_peopleSet t; t_rows := t_rows t |}
  | Some coords =>
      {| t_imported := S (t_imported t); t_skipped := t_skipped t;
         t_peopleSet := setAdd (ev_name evt) (t_peopleSet t);
         t_rows := t_rows t ++ [rowOf user evt coords] |}
  end.

Definition tally (user : N) (geocoded : list (jsstring * Coord))
    (evts : list DerivedEvent) : Tally :=
  fold_left (tallyEvent user geocoded) evts
    {| t_imported := 0; t_skipped := 0; t_peopleSet := []; t_rows := [] |}.

Definition storedText (p : Parsed) : jsstring :=
  js "Stored " ++ showNat (length (people p)) ++ js " people and "
  ++ showNat (length (families p)) ++ js " family links.".

(** The route from the parsed file on. *)
Definition importParsed (service : Service) (user : N) (p : Parsed)
    (db : Db) (geo : GeoState) : ImportResult * Db * GeoState :=
  let db1 := storeRecords user p db in
  match events p with
  | [] =>
      ( {| imported := 0; skipped := 0;
           res_people := sortStrings (map p_name (people p));
           peopleCount := length (people p);
           familiesCount := length (families p);
           message := js "No geocodable events found. " ++ storedText p |},
        db1, geo )
  | _ :: _ =>
      let places := map (fun e => Some (ev_place e)) (events p) in
      let '(geocoded, geo') := geocodeAll service places geo in
      let t := tally user (results geocoded) (events p) in
      ( {| imported := t_imported t; skipped := t_skipped t;
           res_people := sortStrings (t_peopleSet t);
           peopleCount := length (people p);
           familiesCount := length (families p);
           message :=
             js "Successfully imported " ++ showNat (t_imported t)
             ++ js " events for " ++ showNat (length (t_peopleSet t))
             ++ js " people. " ++ storedText p |},
        {| db_people := db_people db1; db_families := db_families db1;
           db_events := db_events db1 ++ t_rows t |},
        geo' )
  end.

(** The handler once a file has been uploaded: [content] is the text of
    the file. *)
Definition importGedcom `{UnicodeCase} (service : Service) (user : N)
    (content : jsstring) (db : Db) (geo : GeoState)
    : ImportResult * Db * GeoState :=
  importParsed service user (parseGedcomFull content) db geo.

End Importer.
Export Importer.

(* ===================================================================== *)
(** * geocoder.js: the waits between lookups                              *)
(* ===================================================================== *)

Module Throttle.

(** Time is read in milliseconds, as [Date.now()] gives it.  How long a
    wait lasts is outside the program: [delays n] is what the [n]-th wait
    of the process lasts beyond what was asked of it, the time an answer
    takes for [await fetchJson(url)] and the lateness of the timer for
    [await sleep(ms)].  A timer is taken not to fire early, and the code
    between two waits to take no time. *)
Definition Delays := nat -> N.

(** The module with its clock: the state of the geocoder, the time,
    [lastRequestTime], the number of waits so far, and for each outbound
    lookup the time at which it was sent. *)
Record Timed := {
  geo : GeoState;
  clock : Z;
  lastRequestTime : Z;
  waits : nat;
  stamps : list Z
}.

(** A wait of [ms] milliseconds or more. *)
Definition wait (delays : Delays) (ms : Z) (t : Timed) : Timed :=
  {| geo := geo t;
     clock := (clock t + ms + Z.of_N (delays (waits t)))%Z;
     lastRequestTime := lastRequestTime t;
     waits := S (waits t);
     stamps := stamps t |}.

(** [lastRequestTime = Date.now()] *)
Definition stamp (t : Timed) : Timed :=
  {| geo := geo t; clock := clock t; lastRequestTime := clock t;
     waits := waits t; stamps := stamps t |}.

Definition withGeo (g : GeoState) (t : Timed) : Timed :=
  {| geo := g; clock := clock t; lastRequestTime := lastRequestTime t;
     waits := waits t; stamps := stamps t |}.

(** [await fetchJson(url)]: the lookup is sent now, and its answer is
    waited for. *)
Definition fetchT (delays : Delays) (service : Service) (query : jsstring)
    (t : Timed) : Response * Timed :=
  let '(r, g) := fetch service query (geo t) in
  (r, wait delays 0%Z
        {| geo := g; clock := clock t; lastRequestTime := lastRequestTime t;
           waits := waits t; stamps := stamps t ++ [clock t] |}).

(** The body of [try] in [geocode], with the wait before the second
    lookup. *)
Definition lookupT (delays : Delays) (service : Service) (cleaned : jsstring)
    (t : Timed) : option (option Coord) * Timed :=
  if negb (encodable cleaned) then (None, t)
  else
    match fetchT delays service cleaned t with
    | (Throws, t1) => (None, t1)
    | (Candidate c, t1) =>
        (Some (Some c), withGeo (cacheSet cleaned (Some c) (geo t1)) t1)
    | (NoCandidate, t1) =>
        let parts := partsOf cleaned in
        if (2 <? length parts)%nat then
          let simplified := join (js ", ") (lastTwo parts) in
          let t1' := stamp (wait delays 1100%Z t1) in
          if negb (encodable simplified) then (None, t1')
          else
            match fetchT delays service simplified t1' with
            | (Throws, t2) => (None, t2)
            | (Candidate c, t2) =>
                (Some (Some c), withGeo (cacheSet cleaned (Some c) (geo t2)) t2)
            | (NoCandidate, t2) =>
                (Some None, withGeo (cacheSet cleaned None (geo t2)) t2)
            end
        else (Some None, withGeo (cacheSet cleaned None (geo t1)) t1)
    end.

(** [geocode(place)] with its clock. *)
Definition geocodeT (delays : Delays) (service : Service)
    (place : option jsstring) (t : Timed) : option Coord * Timed :=
  match cleanPlaceName place with
  | None => (None, t)
  | Some cleaned =>
      match cache (geo t) !! cleaned with
      | Some v => (v, t)
      | None =>
          let elapsed := (clock t - lastRequestTime t)%Z in
          let t0 :=
            if (elapsed <? 1100)%Z then wait delays (1100 - elapsed)%Z t else t in
          match lookupT delays service cleaned (stamp t0) with
          | (Some r, t') => (r, t')
          | (None, t') => (None, withGeo (cacheSet cleaned None (geo t')) t')
          end
      end
  end.

(** The loop of [geocodeAll] over [unique], with the clock. *)
Fixpoint geocodeEachT (delays : Delays) (service : Service) (total : nat)
    (unique : list jsstring) (completed : nat) (acc : Geocoded) (t : Timed)
    : Geocoded * Timed :=
  match unique with
  | [] => (acc, t)
  | place :: rest =>
      let '(coords, t') := geocodeT delays service (Some place) t in
      let res :=
        match coords with
        | Some c => results acc ++ [(place, c)]
        | None => results acc
        end in
      geocodeEachT delays service total rest (S completed)
        {| results := res; progress := progress acc ++ [(S completed, total)] |} t'
  end.

Definition geocodeAllT (delays : Delays) (service : Service)
    (places : list (option jsstring)) (t : Timed) : Geocoded * Timed :=
  let unique := dedupe (lookable places) in
  geocodeEachT delays service (length unique) unique 0
    {| results := []; progress := [] |} t.

End Throttle.
Export Throttle.

(* ===================================================================== *)
(** * routes/events.js: DELETE /gedcom                                    *)
(* ===================================================================== *)

Module Clearing.

(** [WHERE user_id = ? AND source = ?] with the source ['gedcom']. *)
Definition isGedcomEventOf (user : N) (r : EventRow) : bool :=
  (row_user r =? user)%N && eqStr (row_source r) (js "gedcom").

(** The handler: the family links and the people of the user are deleted,
    then the user's events of source gedcom; the answer tells how many
    events the last statement deleted. *)
Definition clearGedcom (user : N) (db : Db) : jsstring * Db :=
  let changes := length (List.filter (isGedcomEventOf user) (db_events db)) in
  ( js "Deleted " ++ showNat changes ++ js " GEDCOM events and all tree data",
    {| db_people := List.filter (notOwner user) (db_people db);
       db_families := List.filter (notOwner user) (db_families db);
       db_events :=
         List.filter (fun r => negb (isGedcomEventOf user r)) (db_events db) |} ).

End Clearing.
Export Clearing.

(* ===================================================================== *)
(** * Profile.jsx: buildGedcomTree and buildFamilyTree                    *)
(* ===================================================================== *)

Module TreeBuilder.

(** ** Objects used as maps *)

(** An object whose properties are set one key at a time ([peopleMap],
    [memberMap]): its own properties in creation order.  A node object is
    held by the map under one key only, so a reference to a node is its
    key, and a change of a node is a change of the map's entry.  The keys
    are taken not to be names of properties of [Object.prototype] (no
    identifier of the parser, which begins with [@], and no number is). *)
Section JsObject.
Context {K V : Type} `{EqDecision K}.
(** The array index a key is, when it is one: such keys come first in
    [Object.values], in ascending order. *)
Variable indexOf : K -> option N.

Definition obj := list (K * V).

(** [o[k]] *)
Fixpoint get (k : K) (o : obj) : option V :=
  match o with
  | [] => None
  | (k', v) :: o' => if bool_decide (k = k') then Some v else get k o'
  end.

(** [o[k] = v] *)
Fixpoint set (k : K) (v : V) (o : obj) : obj :=
  match o with
  | [] => [(k, v)]
  | (k', v') :: o' =>
      if bool_decide (k = k') then (k, v) :: o' else (k', v') :: set k v o'
  end.

(** A change of the object that [o[k]] refers to. *)
Fixpoint update (k : K) (f : V -> V) (o : obj) : obj :=
  match o with
  | [] => []
  | (k', v) :: o' =>
      if bool_decide (k = k') then (k', f v) :: o' else (k', v) :: update k f o'
  end.

Definition keysOf (o : obj) : list K := map fst o.

Fixpoint insertIndexed (e : N * K) (l : list (N * K)) : list (N * K) :=
  match l with
  | [] => [e]
  | e' :: l' => if (fst e <? fst e')%N then e :: l else e' :: insertIndexed e l'
  end.

(** The keys that are array indices, each with its index. *)
Definition indexKeys (ks : list K) : list (N * K) :=
  omap (fun k => (fun n => (n, k)) <$> indexOf k) ks.

(** The other keys. *)
Definition nameKeys (ks : list K) : list K :=
  List.filter (fun k => match indexOf k with Some _ => false | None => true end) ks.

(** The own property keys in the order of the language: array indices
    ascending, then the other keys in creation order. *)
Definition orderKeys (ks : list K) : list K :=
  map snd (fold_right insertIndexed [] (indexKeys ks)) ++ nameKeys ks.

Definition ownKeys (o : obj) : list K := orderKeys (keysOf o).

(** [Object.values(o)]: the value of each own key, in that order. *)
Definition values (o : obj) : list V := omap (fun k => get k o) (ownKeys o).
End JsObject.

(** The array index that a property name is: the decimal text, without
    leading zeros, of an integer below 2^32 - 1. *)
Definition arrayIndex (s : jsstring) : option N :=
  match s with
  | [] => None
  | x :: s' =>
      if forallb isDigit s && (negb (eqChar x 48) || negb (truthy s'))
         && (length s <=? 10)%nat && (parseInt s <? 4294967295)%N
      then Some (parseInt s)
      else None
  end.


(** ** Nodes and trees *)

Inductive AttrValue := VStr (s : jsstring) | VNum (n : N).

(** [attributes]: property names and values, in creation order. *)
Definition Attrs := list (string * AttrValue).

Definition attrGet (name : string) (a : Attrs) : option AttrValue :=
  @get string AttrValue _ name a.

Definition attrSet (name : string) (v : AttrValue) (a : Attrs) : Attrs :=
  @set string AttrValue _ name v a.

(** The text of a property, [''] for one that is missing or no string. *)
Definition attrText (name : string) (a : Attrs) : jsstring :=
  match attrGet name a with
  | Some (VStr s) => s
  | _ => []
  end.

(** A node while the tree is built.  [children] holds references to
    nodes of the same map.  The property [gedcomId], which is only ever
    deleted, is not kept. *)
Record Node {K : Type} := {
  n_name : jsstring;
  n_attributes : Attrs;
  n_children : list K;
  n_hasParent : bool
}.
Arguments Node : clear implicits.

(** What the caller gets: the node with everything below it. *)
#[warnings="-register-all"]
Inductive Tree :=
  | TNode (name : jsstring) (attributes : Attrs) (children : list Tree).

Definition t_name (t : Tree) : jsstring := let 'TNode n _ _ := t in n.
Definition t_attributes (t : Tree) : Attrs := let 'TNode _ a _ := t in a.
Definition t_children (t : Tree) : list Tree := let 'TNode _ _ c := t in c.

Section Build.
Context {K : Type} `{EqDecision K}.
Variable indexOf : K -> option N.

Definition addChild (c : K) (n : Node K) : Node K :=
  {| n_name := n_name n; n_attributes := n_attributes n;
     n_children := n_children n ++ [c]; n_hasParent := n_hasParent n |}.

Definition markHasParent (n : Node K) : Node K :=
  {| n_name := n_name n; n_attributes := n_attributes n;
     n_children := n_children n; n_hasParent := true |}.

Definition setAttribute (name : string) (v : AttrValue) (n : Node K) : Node K :=
  {| n_name := n_name n; n_attributes := attrSet name v (n_attributes n);
     n_children := n_children n; n_hasParent := n_hasParent n |}.

(** [if (map[c]) { parent.children.push(map[c]); map[c]._hasParent = true }] *)
Definition attach (parent : K) (o : obj (K:=K) (V:=Node K)) (c : K) : obj :=
  match get c o with
  | Some _ => update c markHasParent (update parent (addChild c) o)
  | None => o
  end.

(** [cleanNode(node)]: the node and all below it, as the recursion walks
    them.  [fuel] bounds the depth of the recursion; [None] is a
    recursion that did not end within it. *)
Fixpoint cleanNode (fuel : nat) (o : obj (K:=K) (V:=Node K)) (k : K)
    : option Tree :=
  match fuel with
  | O => None
  | S fuel' =>
      match get k o with
      | None => None
      | Some n =>
          match mapM (cleanNode fuel' o) (n_children n) with
          | Some ts => Some (TNode (n_name n) (n_attributes n) ts)
          | None => None
          end
      end
  end.

(** [!p._hasParent] for the node that a key refers to. *)
Definition isRoot (o : obj (K:=K) (V:=Node K)) (k : K) : bool :=
  match get k o with
  | Some n => negb (n_hasParent n)
  | None => false
  end.

(** [Object.values(map).filter(p => !p._hasParent)], as references. *)
Definition rootsOf (o : obj (K:=K) (V:=Node K)) : list K :=
  List.filter (isRoot o) (ownKeys indexOf o).

(** The end of both builders: no root, one root, or several under a
    virtual root.  The outer [None] is a recursion of [cleanNode] that did
    not end; the inner one is [null]. *)
Definition finish (label : jsstring) (fuel : nat) (o : obj (K:=K) (V:=Node K))
    : option (option Tree) :=
  match rootsOf o with
  | [] => Some None
  | [r] =>
      match cleanNode fuel o r with
      | Some t => Some (Some t)
      | None => None
      end
  | roots =>
      match mapM (cleanNode fuel o) roots with
      | Some ts => Some (Some (TNode label [] ts))
      | None => None
      end
  end.
End Build.

(** ** buildGedcomTree *)

(** A row of [gedcom_people]. *)
Record PersonRow := {
  r_gedcom_id : jsstring;
  r_name : jsstring;
  r_birth_date : option jsstring;
  r_death_date : option jsstring;
  r_sex : option jsstring;
  r_birth_place : option jsstring;
  r_death_place : option jsstring
}.

(** [x || ''] *)
Definition orEmpty (o : option jsstring) : jsstring :=
  match o with Some s => s | None => [] end.

(** [x ? x.substring(0, 4) : ''] *)
Definition yearOf (o : option jsstring) : jsstring := take 4 (orEmpty o).

Definition personNode (p : PersonRow) : Node jsstring :=
  {| n_name := r_name p;
     n_attributes :=
       [ ("born", VStr (yearOf (r_birth_date p)));
         ("died", VStr (yearOf (r_death_date p)));
         ("sex", VStr (orEmpty (r_sex p)));
         ("birthPlace", VStr (orEmpty (r_birth_place p)));
         ("deathPlace", VStr (orEmpty (r_death_place p)));
         ("birthDate", VStr (orEmpty (r_birth_date p)));
         ("deathDate", VStr (orEmpty (r_death_date p))) ]%string;
     n_children := [];
     n_hasParent := false |}.

Definition PeopleMap := list (jsstring * Node jsstring).

(** [peopleMap[p.gedcom_id] = {...}] *)
Definition addPerson (o : PeopleMap) (p : PersonRow) : PeopleMap :=
  set (r_gedcom_id p) (personNode p) o.

(** [peopleMap[id]] for a nullable [id] that is truthy. *)
Definition resolve (id : option jsstring) (o : PeopleMap) : option (jsstring * Node jsstring) :=
  match id with
  | Some k => if truthy k then option_map (pair k) (get k o) else None
  | None => None
  end.

(** [fam.husbandId || fam.wifeId], looked up. *)
Definition primaryParent (fam : Fam) (o : PeopleMap) : option jsstring :=
  option_map fst (resolve (orElse (husbandId fam) (wifeId fam)) o).

(** The wife's name and years, put on the husband's node. *)
Definition mergeSpouse (fam : Fam) (o : PeopleMap) : PeopleMap :=
  match resolve (husbandId fam) o, resolve (wifeId fam) o with
  | Some (h, _), Some (_, wifeNode) =>
      let o1 := update h (setAttribute "spouse" (VStr (n_name wifeNode))) o in
      let wifeBorn := attrText "born" (n_attributes wifeNode) in
      let wifeDied := attrText "died" (n_attributes wifeNode) in
      if truthy wifeBorn || truthy wifeDied then
        update h
          (setAttribute "spouseYears"
             (VStr (orDefault wifeBorn (js "?") ++ js " - "
                    ++ orDefault wifeDied (js "?")))) o1
      else o1
  | _, _ => o
  end.

(** The body of the loop over [families]. *)
Definition linkFamily (o : PeopleMap) (fam : Fam) : PeopleMap :=
  let parent := primaryParent fam o in
  let o1 := mergeSpouse fam o in
  match parent with
  | Some k => fold_left (attach k) (childIds fam) o1
  | None => o1
  end.

Definition gedcomMap (people : list PersonRow) (fams : list Fam) : PeopleMap :=
  fold_left linkFamily fams (fold_left addPerson people []).

Definition buildGedcomTree (fuel : nat) (people : list PersonRow)
    (fams : list Fam) : option (option Tree) :=
  match people with
  | [] => Some None
  | _ :: _ => finish arrayIndex (js "Ancestors") fuel (gedcomMap people fams)
  end.

(** ** buildFamilyTree *)

(** A row of [users], as the tree route sends it. *)
Record Member := { m_id : N; m_name : jsstring }.

(** A row of [family_relationships]. *)
Record Relationship := {
  rel_user_id : N;
  rel_related_user_id : N;
  rel_relationship : jsstring
}.

Definition MemberMap := list (N * Node N).

Definition memberNode (m : Member) : Node N :=
  {| n_name := m_name m;
     n_attributes := [("memberId"%string, VNum (m_id m))];
     n_children := [];
     n_hasParent := false |}.

Definition addMember (o : MemberMap) (m : Member) : MemberMap :=
  set (m_id m) (memberNode m) o.

(** [memberMap[rel.user_id] && memberMap[rel.related_user_id]] *)
Definition bothKnown (rel : Relationship) (o : MemberMap) : bool :=
  match get (rel_user_id rel) o, get (rel_related_user_id rel) o with
  | Some _, Some _ => true
  | _, _ => false
  end.

(** The body of the loop over [relationships]. *)
Definition linkRelationship (o : MemberMap) (rel : Relationship) : MemberMap :=
  let o1 :=
    if eqStr (rel_relationship rel) (js "parent") && bothKnown rel o
    then attach (rel_user_id rel) o (rel_related_user_id rel)
    else o in
  if eqStr (rel_relationship rel) (js "spouse") && bothKnown rel o1 then
    match get (rel_user_id rel) o1, get (rel_related_user_id rel) o1 with
    | Some u, Some r =>
        if truthy (attrText "spouse" (n_attributes u)) then o1
        else update (rel_user_id rel) (setAttribute "spouse" (VStr (n_name r))) o1
    | _, _ => o1
    end
  else o1.

Definition familyMap (members : list Member) (rels : list Relationship) : MemberMap :=
  fold_left linkRelationship rels (fold_left addMember members []).


End TreeBuilder.
Export TreeBuilder.

(* ===================================================================== *)
(** * The properties of the specification, as definitions                 *)
(* ===================================================================== *)

Module Spec.

(** [YYYY-MM-DD], each part of digits and of full width. *)
Definition isIsoDate (d : jsstring) : bool :=
  match d with
  | [y1; y2; y3; y4; d1; m1; m2; d2; a1; a2] =>
      forallb isDigit [y1; y2; y3; y4; m1; m2; a1; a2]
      && eqChar d1 45 && eqChar d2 45
  | _ => false
  end.

(** A run of exactly [n] decimal digits. *)
Definition digitsOf (n : nat) (w : jsstring) : bool :=
  (length w =? n)%nat && forallb isDigit w.

(** One or two decimal digits: what [\d{1,2}] takes. *)
Definition dayDigits (w : jsstring) : bool :=
  ((length w =? 1)%nat || (length w =? 2)%nat) && forallb isDigit w.

(** What [MONTHS] gives for the two lower-case words that it inherits. *)
Definition inheritedMonths : list jsstring :=
  [js "function Object() { [native code] }"; js "[object Object]"].

(** A result whose month is an inherited text between a year and a day. *)
Definition hasInheritedMonth (d : jsstring) : Prop :=
  exists y m a,
    d = y ++ js "-" ++ m ++ js "-" ++ a
    /\ digitsOf 4 y = true /\ In m inheritedMonths /\ digitsOf 2 a = true.

(** A non-empty run of characters of a class. *)
Definition runOf (p : char -> bool) (w : jsstring) : bool :=
  truthy w && forallb p w.

(** The input stops a run of a class: it is at its end or goes on with a
    character outside the class. *)
Definition stops (p : char -> bool) (s : jsstring) : bool :=
  match s with
  | [] => true
  | x :: _ => negb (p x)
  end.

Definition isLetter (x : char) : bool := isUpper x || isLower x.

(** The month that a word names in the table of [MONTHS], whatever the
    case of its letters. *)
Definition ownMonth (m : jsstring) : option jsstring :=
  assocStr (toLowerCaseAscii m) MONTHS.

(** The first three letters, in lower case, of the words that the pattern
    of the qualifiers begins with. *)
Definition qualifierStarts : list jsstring :=
  Eval vm_compute in map js ["abt"; "abo"; "cir"; "bef"; "aft"; "est"; "cal"]%string.

(** What holds of every key and value of [MONTHS]: the key is of three
    or more lower-case letters and begins like no qualifier, the value is
    of two digits. *)
Definition monthEntryOk (kv : string * string) : bool :=
  forallb isLower (js (fst kv)) && (3 <=? length (js (fst kv)))%nat
  && digitsOf 2 (js (snd kv))
  && negb (existsb (eqStr (take 3 (js (fst kv)))) qualifierStarts).

(** A word that is the one letter [a], or that begins with the letters
    [a] and [b]. *)
Definition beginsLike (a b : char) (key : jsstring) : bool :=
  match key with
  | [x] => eqChar x a
  | x :: y :: _ => eqChar x a && eqChar y b
  | [] => false
  end.

(** No month of the table, and none of the two inherited words, begins
    like what is left of the words before and after. *)
Definition noMonthBegins (a b : char) : bool :=
  forallb (fun kv => negb (beginsLike a b (js (fst kv)))) MONTHS
  && negb (beginsLike a b (js "constructor"))
  && negb (beginsLike a b (js "__proto__")).

(** Every white-space character is a space that stands alone before
    another character or at the end. *)
Fixpoint singleSpaced (s : jsstring) : bool :=
  match s with
  | [] => true
  | x :: s' =>
      (if isSpace x then eqChar x 32 && stops isSpace s' else true)
      && singleSpaced s'
  end.

(** A text that is not empty, has no white space at either end, and has
    single spaces only. *)
Definition tidy (s : jsstring) : bool :=
  truthy s && stops isSpace s && stops isSpace (rev s) && singleSpaced s.

(** Each time of a list is 1100 ms or more after the one before it. *)
Fixpoint spaced (l : list Z) : Prop :=
  match l with
  | a :: ((b :: _) as l') => (a + 1100 <= b)%Z /\ spaced l'
  | _ => True
  end.

(** The clock is not behind the time of the last lookup, every lookup
    sent was sent at or before that time, and the lookups sent are
    spaced. *)
Definition paced (t : Timed) : Prop :=
  (lastRequestTime t <= clock t)%Z
  /\ spaced (stamps t)
  /\ (forall s, In s (stamps t) -> (s <= lastRequestTime t)%Z).

(** The state just before a lookup is sent: the last lookup time has
    just been set, and every lookup sent is 1100 ms old or more. *)
Definition ready (t : Timed) : Prop :=
  lastRequestTime t = clock t
  /\ spaced (stamps t)
  /\ (forall s, In s (stamps t) -> (s + 1100 <= clock t)%Z).

(** Each lookup sent has its time: the two lists grow together. *)
Definition inStep (t t' : Timed) : Prop :=
  (length (stamps t') + length (sent (geo t)))%nat
  = (length (stamps t) + length (sent (geo t')))%nat.

(** The module when the process starts, at a time [now]. *)
Definition startedAt (now : Z) : Timed :=
  {| geo := emptyGeo; clock := now; lastRequestTime := 0; waits := 0; stamps := [] |}.

(** The batches of a process run one after the other: each call of
    [geocodeAll] begins when the one before it has returned, and nothing
    else calls [geocode] in between. *)
Definition runBatches (delays : Delays) (service : Service)
    (batches : list (list (option jsstring))) (t : Timed) : Timed :=
  fold_left (fun t places => snd (geocodeAllT delays service places t)) batches t.

(** ** Records written out *)

(** A value that a line can carry and that is read back as it is: not
    empty, without a line terminator, without white space at either
    end. *)
Definition isValue (v : jsstring) : bool :=
  truthy v && forallb isDot v && stops isSpace v && stops isSpace (rev v).

(** An identifier between two [@], without white space. *)
Definition isRef (id : jsstring) : bool :=
  match id with
  | x :: rest =>
      eqChar x 64 && forallb isNonSpace id
      && match rev rest with
         | y :: (_ :: _) => eqChar y 64
         | _ => false
         end
  | [] => false
  end.

Definition isParen (x : char) : bool := eqChar x 40 || eqChar x 41.

(** A line of a level, a tag and a value. *)
Definition lineOf (level tag : string) (v : jsstring) : jsstring :=
  js level ++ js " " ++ js tag ++ js " " ++ v.

(** The line of a field that may be absent. *)
Definition optLine (level tag : string) (o : option jsstring) : list jsstring :=
  match o with Some v => [lineOf level tag v] | None => [] end.

Definition nameLine (level tag : string) (v : jsstring) : list jsstring :=
  if truthy v then [lineOf level tag v] else [].

(** The lines of an event with a date and a place. *)
Definition eventLines (tag : string) (date place : option jsstring) : list jsstring :=
  match date, place with
  | None, None => []
  | _, _ => (js "1 " ++ js tag) :: optLine "2" "DATE" date ++ optLine "2" "PLAC" place
  end.

(** An individual, written as the lines of its record. *)
Definition linesOfIndi (i : Indi) : list jsstring :=
  (js "0 " ++ gedcomId i ++ js " INDI")
  :: (if truthy (givn i) || truthy (surn i)
      then lineOf "1" "NAME" (givn i ++ js " /" ++ surn i ++ js "/")
           :: nameLine "2" "GIVN" (givn i) ++ nameLine "2" "SURN" (surn i)
      else [])
  ++ optLine "1" "SEX" (sex i)
  ++ eventLines "BIRT" (birth_date i) (birth_place i)
  ++ eventLines "DEAT" (death_date i) (death_place i)
  ++ eventLines "BURI" None (burial_place i).

(** A family, written as the lines of its record. *)
Definition linesOfFam (f : Fam) : list jsstring :=
  (js "0 " ++ gedcomFamId f ++ js " FAM")
  :: optLine "1" "HUSB" (husbandId f)
  ++ optLine "1" "WIFE" (wifeId f)
  ++ map (lineOf "1" "CHIL") (childIds f).

Definition linesOfRecord (r : Indi + Fam) : list jsstring :=
  match r with inl i => linesOfIndi i | inr f => linesOfFam f end.

(** The text of a file: every line with a line feed after it. *)
Definition fileOf (lines : list jsstring) : jsstring :=
  flat_map (fun l => l ++ [10%N]) lines.

Definition optValue (o : option jsstring) : bool :=
  match o with Some v => isValue v | None => true end.

Definition nameValue (v : jsstring) : bool := negb (truthy v) || isValue v.

Section Written.
Context `{UnicodeCase}.

(** An individual that its lines give back: an identifier between two
    [@], values that a line can carry, no bracket in the surname, and a
    sex of one character that is its own upper case. *)
Definition writable (i : Indi) : bool :=
  isRef (gedcomId i)
  && nameValue (givn i) && nameValue (surn i)
  && forallb (fun x => negb (isParen x)) (surn i)
  && match sex i with
     | Some [x] => isNonSpace x && eqStr (toUpperCase1 x) [x]
     | Some _ => false
     | None => true
     end
  && optValue (birth_date i) && optValue (birth_place i)
  && optValue (death_date i) && optValue (death_place i)
  && optValue (burial_place i).
End Written.

Definition optRef (o : option jsstring) : bool :=
  match o with Some v => isRef v | None => true end.

Definition writableFam (f : Fam) : bool :=
  isRef (gedcomFamId f) && optRef (husbandId f) && optRef (wifeId f)
  && forallb isRef (childIds f).

Definition writableRecord `{UnicodeCase} (r : Indi + Fam) : bool :=
  match r with inl i => writable i | inr f => writableFam f end.

Definition indisOf (rs : list (Indi + Fam)) : list Indi :=
  omap (fun r => match r with inl i => Some i | inr _ => None end) rs.

Definition famsOf (rs : list (Indi + Fam)) : list Fam :=
  omap (fun r => match r with inl _ => None | inr f => Some f end) rs.

(** The state of the line loop while a record of an individual, or of
    a family, is open. *)
Definition openIndi (done : list Indi) (fams : list Fam) (i : Indi)
    (ctx : Subcontext) : ParserState :=
  {| individuals := done; famRecords := fams; currentIndi := Some i;
     currentFam := None; currentEvent := ctx |}.

Definition openFam (done : list Indi) (fams : list Fam) (f : Fam)
    (ctx : Subcontext) : ParserState :=
  {| individuals := done; famRecords := fams; currentIndi := None;
     currentFam := Some f; currentEvent := ctx |}.

(** The records of a state, the open one closed. *)
Definition closed (st : ParserState) : list Indi * list Fam :=
  (pushOpt (individuals st) (currentIndi st),
   pushOpt (famRecords st) (currentFam st)).

(** An optional comma. *)
Definition commaIf (b : bool) : jsstring := if b then [44%N] else [].

(** The leading tokens that [parseDate] strips, in lower case. *)
Definition qualifierTokens : list jsstring :=
  Eval vm_compute in
  map js [ "abt"; "abt."; "about"; "circa"; "bef"; "bef."; "aft"; "aft.";
           "est"; "est."; "cal"; "cal." ]%string.

(** A qualifier token in any letter case. *)
Definition isQualifier (q : jsstring) : Prop :=
  In (toLowerCaseAscii q) qualifierTokens.

(** A non-empty run of white space. *)
Definition isBlank (w : jsstring) : Prop :=
  w <> [] /\ forallb isSpace w = true.

(** The date an event of a kind carries: the normalized date of the
    event itself, and for a burial the normalized death date when there is
    one, else the normalized birth date. *)
Definition eventDate (k : EventKind) (i : Indi) : option jsstring :=
  match k with
  | birth => parseDate (birth_date i)
  | death => parseDate (death_date i)
  | burial =>
      match parseDate (death_date i) with
      | Some d => Some d
      | None => parseDate (birth_date i)
      end
  end.

Definition eventPlace (k : EventKind) (i : Indi) : option jsstring :=
  match k with
  | birth => birth_place i
  | death => death_place i
  | burial => burial_place i
  end.

(** A place that is there, is not empty and is not the placeholder. *)
Definition placeGiven (place : option jsstring) : Prop :=
  exists p, place = Some p /\ p <> [] /\ p <> js "?".

(** The individual has at least one name part. *)
Definition named (i : Indi) : Prop := truthy (nameOf i) = true.

Section EventParts.
Context `{UnicodeCase}.

(** The three parts of one iteration of the event loop. *)
Definition birthPart (i : Indi) : list DerivedEvent :=
  match eventDate birth i, birth_place i with
  | Some d, Some p =>
      if usablePlace (Some p) then
        [ {| ev_name := displayNameOf (nameOf i); ev_type := birth;
             ev_title := displayNameOf (nameOf i) ++ js " - Birth";
             ev_description := js "Born: " ++ interpolate (birth_date i);
             ev_date := d; ev_rawDate := birth_date i;
             ev_place := p; ev_category := js "birth" |} ]
      else []
  | _, _ => []
  end.

Definition deathPart (i : Indi) : list DerivedEvent :=
  match eventDate death i, death_place i with
  | Some d, Some p =>
      if usablePlace (Some p) then
        [ {| ev_name := displayNameOf (nameOf i); ev_type := death;
             ev_title := displayNameOf (nameOf i) ++ js " - Death";
             ev_description := js "Died: " ++ interpolate (death_date i);
             ev_date := d; ev_rawDate := death_date i;
             ev_place := p; ev_category := js "death" |} ]
      else []
  | _, _ => []
  end.

Definition burialPart (i : Indi) : list DerivedEvent :=
  match eventDate burial i, burial_place i with
  | Some d, Some p =>
      if usablePlace (Some p) then
        [ {| ev_name := displayNameOf (nameOf i); ev_type := burial;
             ev_title := displayNameOf (nameOf i) ++ js " - Burial";
             ev_description :=
               js "Burial place" ++
               (if truthyOpt (death_date i)
                then js " (died: " ++ interpolate (death_date i) ++ js ")"
                else []);
             ev_date := d;
             ev_rawDate := orElse (death_date i) (birth_date i);
             ev_place := p; ev_category := js "death" |} ]
      else []
  | _, _ => []
  end.

Definition partOf (k : EventKind) : Indi -> list DerivedEvent :=
  match k with birth => birthPart | death => deathPart | burial => burialPart end.

End EventParts.

(** A text with the first character of each word in upper case, a word
    being what stands between two spaces; [start] says whether a word
    begins here. *)
Fixpoint capitalizeFrom `{UnicodeCase} (start : bool) (s : jsstring) : jsstring :=
  match s with
  | [] => []
  | x :: s' =>
      if eqChar x 32 then x :: capitalizeFrom true s'
      else (if start then toUpperCase1 x else [x]) ++ capitalizeFrom false s'
  end.

Definition capitalizeWords `{UnicodeCase} (s : jsstring) : jsstring :=
  capitalizeFrom true s.

(** What a cache holds for a place: the coordinates cached against its
    normalized text, if any. *)
Definition cachedCoord (m : gmap jsstring (option Coord)) (place : jsstring)
    : option Coord :=
  match cleanPlaceName (Some place) with
  | Some cleaned =>
      match m !! cleaned with
      | Some v => v
      | None => None
      end
  | None => None
  end.

(** The calls of [onProgress] for [n] places after [completed] ones. *)
Fixpoint progressFrom (completed total n : nat) : list (nat * nat) :=
  match n with
  | O => []
  | S n' => (S completed, total) :: progressFrom (S completed) total n'
  end.

(** The level and the rest of a line that the line loop reads; [None]
    for a line it passes over. *)
Definition levelAndRest (line : jsstring) : option (N * jsstring) :=
  match search reLine line with
  | Some m => Some (parseInt (group 1 m), group 2 m)
  | None => None
  end.

(** The identifier of the record that a line opens, for a line of level 0
    whose rest is an identifier and the tag. *)
Definition headerOf (tag : string) (line : jsstring) : option jsstring :=
  match levelAndRest line with
  | Some (level, rest) =>
      if (level =? 0)%N then match1 (reRecord tag) rest else None
  | None => None
  end.

(** The identifiers of the records read so far, the open one last. *)
Definition indiIds (st : ParserState) : list jsstring :=
  map gedcomId (pushOpt (individuals st) (currentIndi st)).

Definition famIds (st : ParserState) : list jsstring :=
  map gedcomFamId (pushOpt (famRecords st) (currentFam st)).

(** The rows that the import of a parsed file adds, by the coordinates
    that a cache holds. *)
Definition rowsFor (user : N) (m : gmap jsstring (option Coord))
    (evts : list DerivedEvent) : list EventRow :=
  omap (fun e => rowOf user e <$> cachedCoord m (ev_place e)) evts.

(** The event's place is among those that the batch resolved. *)
Definition resolvedIn (geocoded : list (jsstring * Coord)) (e : DerivedEvent) : bool :=
  match getCoord (ev_place e) geocoded with Some _ => true | None => false end.

Definition unresolvedIn (geocoded : list (jsstring * Coord)) (e : DerivedEvent) : bool :=
  negb (resolvedIn geocoded e).

(** The rows of the events that resolved, in the order of the events. *)
Definition persistedOf (user : N) (geocoded : list (jsstring * Coord))
    (evts : list DerivedEvent) : list EventRow :=
  omap (fun e => rowOf user e <$> getCoord (ev_place e) geocoded) evts.

(** [a] is not after [b] in the order of [sort]. *)
Definition notAfter (a b : jsstring) : Prop := ltStr b a = false.

(** What [geocodeAll] returns for the places of the events of a file. *)
Definition geocodedFor (service : Service) (evts : list DerivedEvent)
    (geo : GeoState) : list (jsstring * Coord) :=
  results (fst (geocodeAll service (map (fun e => Some (ev_place e)) evts) geo)).

Definition emptyDb : Db := {| db_people := []; db_families := []; db_events := [] |}.

(** A service that finds nothing. *)
Definition noService : Service := fun _ _ => NoCandidate.

(** ** Trees *)

Section TreeSpec.
Context {K : Type} `{EqDecision K}.

(** The keys of a list in the order in which each is first met. *)
Definition seen (acc : list K) (k : K) : list K :=
  if bool_decide (k ∈ acc) then acc else acc ++ [k].

Definition firstSeen (l : list K) : list K := fold_left seen l [].

(** A parent with the children listed under it by one family link or one
    relationship, for parents that are known. *)
Definition Link : Type := K * list K.

(** The children attached under [k]: for each link of parent [k], in
    order, the listed children that are known, each as often as listed. *)
Definition attachedUnder (known : list K) (links : list Link) (k : K) : list K :=
  flat_map (fun l => if bool_decide (fst l = k)
                     then List.filter (fun c => bool_decide (c ∈ known)) (snd l)
                     else []) links.

(** [k] is listed as a child by some link. *)
Definition isAttached (links : list Link) (k : K) : bool :=
  existsb (fun l => bool_decide (k ∈ snd l)) links.

(** The links go down along [rank]: no chain of them comes back. *)
Definition descending (rank : K -> nat) (known : list K) (links : list Link) : Prop :=
  forall l c, In l links -> In c (snd l) -> c ∈ known -> (rank c < rank (fst l))%nat.



(** The keys that no link lists as a child, in the order of the own keys
    of the map. *)
Definition rootKeys (indexOf : K -> option N) (known : list K)
    (links : list Link) : list K :=
  List.filter (fun k => negb (isAttached links k)) (orderKeys indexOf known).

(** A node with more children and perhaps the mark of a parent. *)
Definition grow (extra : list K) (marked : bool) (n : Node K) : Node K :=
  {| n_name := n_name n; n_attributes := n_attributes n;
     n_children := n_children n ++ extra;
     n_hasParent := n_hasParent n || marked |}.

(** A map whose keys are [known] and whose nodes have the children and
    the marks that [links] give. *)
Definition linkedBy (known : list K) (links : list Link)
    (o : obj (K:=K) (V:=Node K)) : Prop :=
  keysOf o = known
  /\ forall k n, get k o = Some n ->
       n_children n = attachedUnder known links k
       /\ n_hasParent n = isAttached links k.


End TreeSpec.

(** The primary parent of a family link: the husband if given, else the
    wife, when that person is known. *)
Definition primaryOf (known : list jsstring) (fam : Fam) : option jsstring :=
  match orElse (husbandId fam) (wifeId fam) with
  | Some pid => if truthy pid && bool_decide (pid ∈ known) then Some pid else None
  | None => None
  end.

Definition gedcomLinks (known : list jsstring) (fams : list Fam) : list Link :=
  omap (fun fam => (fun pid => (pid, childIds fam)) <$> primaryOf known fam) fams.

Definition gedcomIds (people : list PersonRow) : list jsstring :=
  firstSeen (map r_gedcom_id people).

(** A relationship that attaches a child: of type parent, between two
    known members. *)
Definition parentLink (known : list N) (rel : Relationship) : option Link :=
  if eqStr (rel_relationship rel) (js "parent")
     && bool_decide (rel_user_id rel ∈ known)
     && bool_decide (rel_related_user_id rel ∈ known)
  then Some (rel_user_id rel, [rel_related_user_id rel])
  else None.

Definition familyLinks (known : list N) (rels : list Relationship) : list Link :=
  omap (parentLink known) rels.

Definition memberIds (members : list Member) : list N :=
  firstSeen (map m_id members).

(** ** The legacy parser *)

(** What the legacy parser keeps of an individual. *)
Definition withoutId (i : Indi) : Indi :=
  {| gedcomId := []; givn := givn i; surn := surn i; sex := None;
     birth_date := birth_date i; birth_place := birth_place i;
     death_date := death_date i; death_place := death_place i;
     burial_place := burial_place i |}.

(** An identifier of word characters between two [@]. *)
Definition isWordRef (id : jsstring) : bool :=
  match id with
  | x :: rest =>
      eqChar x 64
      && match rev rest with
         | y :: mid => eqChar y 64 && runOf isWord mid
         | [] => false
         end
  | [] => false
  end.

(** Every line that opens an individual has such an identifier. *)
Definition wordIds (lines : list jsstring) : bool :=
  forallb (fun line => match headerOf "INDI" line with
                       | Some id => isWordRef id
                       | None => true
                       end) lines.

(** ** What the nodes carry *)

(** The row that the map keeps for an identifier: the last one. *)
Definition lastPerson (people : list PersonRow) (k : jsstring) : option PersonRow :=
  last (List.filter (fun p => bool_decide (k = r_gedcom_id p)) people).

(** The wife that a family gives to the node of [k]: [k] is its husband,
    and husband and wife are both known. *)
Definition wifeFor (known : list jsstring) (k : jsstring) (fam : Fam) : option jsstring :=
  match husbandId fam, wifeId fam with
  | Some h, Some w =>
      if truthy h && truthy w && bool_decide (k = h)
         && bool_decide (h ∈ known) && bool_decide (w ∈ known)
      then Some w else None
  | _, _ => None
  end.

Definition wivesOf (known : list jsstring) (fams : list Fam) (k : jsstring)
    : list jsstring :=
  omap (wifeFor known k) fams.

(** The years of a person as the husband's node shows them, when there
    is a year of birth or of death. *)
Definition yearsOf (p : PersonRow) : option jsstring :=
  let born := yearOf (r_birth_date p) in
  let died := yearOf (r_death_date p) in
  if truthy born || truthy died
  then Some (orDefault born (js "?") ++ js " - " ++ orDefault died (js "?"))
  else None.

(** The row that the map keeps for a member id: the last one. *)
Definition lastMember (members : list Member) (k : N) : option Member :=
  last (List.filter (fun m => bool_decide (k = m_id m)) members).

(** The member that a relationship names as the spouse of [k]: it is of
    type spouse, from [k], and both members are known. *)
Definition spouseFor (known : list N) (k : N) (rel : Relationship) : option N :=
  if eqStr (rel_relationship rel) (js "spouse")
     && bool_decide (k = rel_user_id rel)
     && bool_decide (rel_user_id rel ∈ known)
     && bool_decide (rel_related_user_id rel ∈ known)
  then Some (rel_related_user_id rel) else None.

(** The names of the spouses of [k], in the order of the relationships. *)
Definition spouseNames (members : list Member) (known : list N)
    (rels : list Relationship) (k : N) : list jsstring :=
  omap (fun w => m_name <$> lastMember members w) (omap (spouseFor known k) rels).



(** What a builder returns for the trees of its roots. *)
Definition wrapRoots (label : jsstring) (ts : list Tree) : option Tree :=
  match ts with
  | [] => None
  | [t] => Some t
  | _ => Some (TNode label [] ts)
  end.

(** The number of nodes of a tree. *)
Fixpoint treeSize (t : Tree) : nat :=
  match t with
  | TNode _ _ cs => S (list_sum (map treeSize cs))
  end.

(** Sample rows. *)
Definition personRow (id name : string) : PersonRow :=
  {| r_gedcom_id := js id; r_name := js name; r_birth_date := None;
     r_death_date := None; r_sex := None; r_birth_place := None;
     r_death_place := None |}.

Definition familyOf (husband : string) (children : list string) : Fam :=
  {| gedcomFamId := js "@F@"; husbandId := Some (js husband); wifeId := None;
     childIds := map js children |}.

Definition member (id : N) (name : string) : Member :=
  {| m_id := id; m_name := js name |}.


(** Three people; C is a child in the family of A and in that of B. *)
Definition threePeople : list PersonRow :=
  [personRow "@A@" "A"; personRow "@B@" "B"; personRow "@C@" "C"].

Definition twoFamilies : list Fam :=
  [familyOf "@A@" ["@C@"]; familyOf "@B@" ["@C@"]]%string.

(** One family: A with the children B and C, and an unknown one. *)
Definition oneFamily : list Fam := [familyOf "@A@" ["@B@"; "@X@"; "@C@"]]%string.

Definition rankOfA (k : jsstring) : nat := if eqStr k (js "@A@") then 1 else 0.



(** Two members, the one with the larger id first. *)
Definition twoMembers : list Member := [member 2 "B"; member 1 "A"].



(** The names of the children of the root. *)
Definition childNames (t : Tree) : list jsstring := map t_name (t_children t).

(** A service that knows Sydney. *)
Definition sydney : Coord := {| lat := js "-33.8"; lon := js "151.2" |}.

Definition sydneyService : Service :=
  fun _ query =>
    if eqStr query (js "Sydney, Australia") then Candidate sydney else NoCandidate.

(** A line feed, and a text of lines. *)
Definition lf : jsstring := [10%N].

Definition textOf (lines : list string) : jsstring :=
  flat_map (fun l => js l ++ lf) lines.

(** A file with one individual, John Smith, born on 12 OCT 1982 in
    Sydney, and the same without the name parts. *)
Definition johnSmithFile : jsstring :=
  textOf [ "0 @I1@ INDI"; "1 NAME John /Smith/"; "2 GIVN John"; "2 SURN Smith";
           "1 BIRT"; "2 DATE 12 OCT 1982"; "2 PLAC Sydney, Australia" ]%string.

Definition johnSmith : Indi :=
  {| gedcomId := js "@I1@"; givn := js "John"; surn := js "Smith"; sex := None;
     birth_date := Some (js "12 OCT 1982");
     birth_place := Some (js "Sydney, Australia");
     death_date := None; death_place := None; burial_place := None |}.





Definition ann : Indi :=
  {| gedcomId := js "@I1@"; givn := js "Ann"; surn := []; sex := None;
     birth_date := None; birth_place := None;
     death_date := Some (js "1900"); death_place := None;
     burial_place := Some (js "Rookwood") |}.

Definition johnSMITH : Indi :=
  {| gedcomId := js "@I1@"; givn := js "john"; surn := js "SMITH"; sex := None;
     birth_date := None; birth_place := None;
     death_date := None; death_place := None; burial_place := None |}.

(** John Smith, whose birth place is the placeholder. *)
Definition placeholderFile : jsstring :=
  textOf [ "0 @I1@ INDI"; "1 NAME John /Smith/"; "2 GIVN John"; "2 SURN Smith";
           "1 BIRT"; "2 DATE 12 OCT 1982"; "2 PLAC ?" ]%string.

Definition johnSmithNowhere : Indi :=
  {| gedcomId := js "@I1@"; givn := js "John"; surn := js "Smith"; sex := None;
     birth_date := Some (js "12 OCT 1982");
     birth_place := Some (js "?");
     death_date := None; death_place := None; burial_place := None |}.

(** John Smith, of whom only the name is known. *)
Definition nameOnlyFile : jsstring :=
  textOf [ "0 @I1@ INDI"; "1 NAME John /Smith/"; "2 GIVN John"; "2 SURN Smith" ]%string.

(** The case mapping that leaves every character outside ASCII as it
    is: enough for texts in ASCII. *)
Definition asciiCase : UnicodeCase := fun x => [x].

End Spec.
Export Spec.

(* ===================================================================== *)
(** * Facts about strings and the matcher                                 *)
(* ===================================================================== *)

Module RegexFacts.

Lemma truthy_app_r (a b : jsstring) : truthy b = true -> truthy (a ++ b) = true.
Proof. destruct a, b; simpl; congruence. Qed.

Lemma truthy_app_l (a b : jsstring) : truthy a = true -> truthy (a ++ b) = true.
Proof. destruct a; simpl; congruence. Qed.

Lemma eqStr_spec (a b : jsstring) : eqStr a b = true <-> a = b.
Proof.
  revert b. induction a as [|x a IH]; intros [|y b]; simpl; try (split; congruence).
  unfold eqChar. rewrite andb_true_iff, N.eqb_eq, IH. split.
  - intros [-> ->]. reflexivity.
  - intros [= -> ->]. split; reflexivity.
Qed.

Lemma eqStr_refl (a : jsstring) : eqStr a a = true.
Proof. apply eqStr_spec. reflexivity. Qed.

Lemma trimStart_blank (w s : jsstring) :
  forallb isSpace w = true -> trimStart (w ++ s) = trimStart s.
Proof.
  induction w as [|x w IH]; simpl; [done|].
  intros [Hx Hw]%andb_true_iff. rewrite Hx. apply IH, Hw.
Qed.

Lemma trimStart_idem (s : jsstring) : trimStart (trimStart s) = trimStart s.
Proof.
  induction s as [|x s IH]; simpl; [done|].
  destruct (isSpace x) eqn:Hx; [exact IH|]. simpl. rewrite Hx. reflexivity.
Qed.

Lemma trim_trimStart (s : jsstring) : trim (trimStart s) = trim s.
Proof. unfold trim. rewrite trimStart_idem. reflexivity. Qed.

(** The continuation of a match may be replaced by an equal one. *)
Lemma star_ext {A : Type} (p : char -> bool)
    (k k' : option char -> jsstring -> option A) (prev : option char) (s : jsstring) :
  (forall a b, k a b = k' a b) -> star p k prev s = star p k' prev s.
Proof.
  intros Hk. revert prev.
  induction s as [|x s IH]; intros prev; simpl; [apply Hk|].
  destruct (p x); [|apply Hk].
  rewrite IH. destruct (star p k' (Some x) s); [done|apply Hk].
Qed.

Lemma exec_ext {A : Type} (r : regex) :
  forall prev s c (k k' : option char -> jsstring -> captures -> option A),
    (forall a b d, k a b d = k' a b d) -> exec r prev s c k = exec r prev s c k'.
Proof.
  induction r as [|p|r1 IH1 r2 IH2|r1 IH1 r2 IH2|r IH|p|i r IH| | |];
    intros prev s c k k' Hk; simpl; try done.
  - destruct s as [|x s]; [done|]. destruct (p x); [apply Hk|done].
  - apply IH1. intros. apply IH2. done.
  - rewrite (IH1 _ _ _ k k' Hk), (IH2 _ _ _ k k' Hk). done.
  - rewrite (IH _ _ _ k k' Hk), Hk. done.
  - apply star_ext. intros; apply Hk.
  - apply IH. intros; apply Hk.
  - destruct prev; [done|apply Hk].
  - destruct s; [apply Hk|done].
  - destruct (xorb _ _); [apply Hk|done].
Qed.

(** A greedy run of white space followed by nothing that can fail takes
    all the white space there is. *)
Lemma star_space_total {A : Type} (f : jsstring -> A) (prev : option char) (s : jsstring) :
  star isSpace (fun _ s' => Some (f s')) prev s = Some (f (trimStart s)).
Proof.
  revert prev. induction s as [|x s IH]; intros prev; simpl; [done|].
  destruct (isSpace x); [|done]. rewrite IH. reflexivity.
Qed.

(** A pattern that begins with [^] matches at the start of the text or
    nowhere. *)
Lemma searchFrom_bol (r : regex) (x : char) (pre s : jsstring) :
  searchFrom (Cat Bol r) (x :: pre) s = None.
Proof.
  revert x pre. induction s as [|y s IH]; intros x pre; simpl; [done|].
  apply IH.
Qed.

Lemma search_bol (r : regex) (s : jsstring) :
  search (Cat Bol r) s =
  match exec r None s [] (fun _ s' c => Some (s', c)) with
  | Some (s', c) => Some (Found [] (take (length s - length s') s) s' c)
  | None => None
  end.
Proof.
  unfold search. destruct s as [|x s]; simpl.
  - unfold matchHere. simpl. destruct (exec r None [] [] _) as [[s' c]|]; done.
  - unfold matchHere. simpl.
    destruct (exec r None (x :: s) [] _) as [[s' c]|]; [done|].
    apply searchFrom_bol.
Qed.

(** ** The matcher finds only what the pattern matches *)

Lemma take_consumed (w s : jsstring) : take (length (w ++ s) - length s) (w ++ s) = w.
Proof.
  rewrite length_app. replace (length w + length s - length s)%nat with (length w) by lia.
  apply take_app_length.
Qed.

(** What a match leaves is an end of what it was given. *)
Lemma Matches_consumes (r : regex) (a b : position) :
  Matches r a b -> exists w, snd (fst a) = w ++ snd (fst b).
Proof.
  induction 1 as [a|p prev x s c Hp|r1 r2 a b d _ [w1 H1] _ [w2 H2]
                  |r1 r2 a b _ IH|r1 r2 a b _ IH|r a b _ IH|r a
                  |p prev w s c Hw|i r prev w s c prev' c' _ _
                  |s c|prev c|prev s c Hx]; cbn [fst snd] in *.
  - exists []. reflexivity.
  - exists [x]. reflexivity.
  - exists (w1 ++ w2). rewrite H1, H2, app_assoc. reflexivity.
  - exact IH.
  - exact IH.
  - exact IH.
  - exists []. reflexivity.
  - exists w. reflexivity.
  - exists w. reflexivity.
  - exists []. reflexivity.
  - exists []. reflexivity.
  - exists []. reflexivity.
Qed.

Lemma star_sound {A : Type} (p : char -> bool)
    (k : option char -> jsstring -> option A) (s : jsstring) :
  forall prev a, star p k prev s = Some a ->
    exists w s', s = w ++ s' /\ forallb p w = true /\ k (lastOr prev w) s' = Some a.
Proof.
  induction s as [|x s IH]; intros prev a; cbn [star].
  - intros Hk. exists [], []. auto.
  - destruct (p x) eqn:Hp.
    + destruct (star p k (Some x) s) as [a'|] eqn:Hs.
      * intros [= <-]. destruct (IH _ _ Hs) as (w & s' & -> & Hw & Hk).
        exists (x :: w), s'. split; [reflexivity|]. split.
        { cbn [forallb]. rewrite Hp. exact Hw. }
        replace (lastOr prev (x :: w)) with (lastOr (Some x) w); [exact Hk|].
        unfold lastOr. destruct w as [|y w]; [reflexivity|].
        change (last (x :: y :: w)) with (last (y :: w)).
        destruct (last (y :: w)) eqn:Hl; [reflexivity|].
        apply last_None in Hl. discriminate.
      * intros Hk. exists [], (x :: s). auto.
    + intros Hk. exists [], (x :: s). auto.
Qed.

(** Soundness of the matcher: a success is a match of the pattern
    followed by a success of the continuation. *)
Lemma exec_sound {A : Type} (r : regex) :
  forall prev s c (k : option char -> jsstring -> captures -> option A) a,
    exec r prev s c k = Some a ->
    exists prev' s' c', Matches r (prev, s, c) (prev', s', c') /\ k prev' s' c' = Some a.
Proof.
  induction r as [|p|r1 IH1 r2 IH2|r1 IH1 r2 IH2|r IH|p|i r IH| | |];
    intros prev s c k a; cbn [exec].
  - intros Hk. exists prev, s, c. split; [constructor|exact Hk].
  - destruct s as [|x s]; [discriminate|]. destruct (p x) eqn:Hp; [|discriminate].
    intros Hk. exists (Some x), s, c. split; [constructor; exact Hp|exact Hk].
  - intros H. apply IH1 in H as (p1 & s1 & c1 & M1 & H).
    apply IH2 in H as (p2 & s2 & c2 & M2 & H). eauto 8 using Matches.
  - destruct (exec r1 prev s c k) as [a'|] eqn:E1.
    + intros [= <-]. apply IH1 in E1 as (p1 & s1 & c1 & M1 & H). eauto 8 using Matches.
    + intros H. apply IH2 in H as (p2 & s2 & c2 & M2 & H). eauto 8 using Matches.
  - destruct (exec r prev s c k) as [a'|] eqn:E1.
    + intros [= <-]. apply IH in E1 as (p1 & s1 & c1 & M1 & H). eauto 8 using Matches.
    + intros Hk. eauto 8 using Matches.
  - intros H. apply star_sound in H as (w & s' & -> & Hw & Hk). eauto 8 using Matches.
  - intros H. apply IH in H as (p1 & s1 & c1 & M1 & H).
    destruct (Matches_consumes _ _ _ M1) as [w Hw]. cbn [fst snd] in Hw. subst s.
    rewrite take_consumed in H. eauto 8 using Matches.
  - destruct prev; [discriminate|]. intros Hk. eauto 8 using Matches.
  - destruct s; [|discriminate]. intros Hk. eauto 8 using Matches.
  - destruct (xorb _ _) eqn:Hx; [|discriminate]. intros Hk. eauto 8 using Matches.
Qed.

(** The match that [search] finds for a pattern that begins with [^]. *)
Lemma search_bol_sound (r : regex) (s : jsstring) (f : found) :
  search (Cat Bol r) s = Some f ->
  exists prev', Matches r (None, s, []) (prev', f_after f, f_caps f).
Proof.
  rewrite search_bol.
  destruct (exec r None s [] _) as [[s' c]|] eqn:E; [|discriminate].
  intros [= <-]. cbn [f_after f_caps].
  apply exec_sound in E as (p1 & s1 & c1 & M1 & [= <- <-]). eauto.
Qed.

(** The two letters that a letter of a pattern under the [i] flag
    matches. *)
Lemma lowerAscii_inv (y c : char) :
  lowerAscii y = c ->
  (y = c /\ isUpper y = false) \/ (isUpper y = true /\ c = (y + 32)%N).
Proof.
  unfold lowerAscii. destruct (isUpper y); intros <-; [right|left]; done.
Qed.

End RegexFacts.
Export RegexFacts.

(* ===================================================================== *)
(** * Date normalization                                                  *)
(* ===================================================================== *)

Module DateProofs.

Lemma firstOf_first (ps : list (jsstring -> option jsstring)) (c d : jsstring) :
  firstOf ps c = Some d ->
  exists i p, nth_error ps i = Some p /\ p c = Some d /\
    forall j q, (j < i)%nat -> nth_error ps j = Some q -> q c = None.
Proof.
  induction ps as [|p ps IH]; simpl; [discriminate|].
  destruct (p c) as [d'|] eqn:Hp.
  - intros [= <-]. exists 0%nat, p. repeat split; [done|]. intros j q Hj. lia.
  - intros H. destruct (IH H) as (i & p' & Hi & Hd & Hlt).
    exists (S i), p'. repeat split; try done.
    intros [|j] q Hj; simpl.
    + intros [= <-]. exact Hp.
    + apply Hlt. lia.
Qed.

(** The example table: the eight dates normalize as the table says, the
    six results are zero-padded ISO dates, and a result always comes from
    the first of the five patterns, tried in the order year, DD-Mon-YYYY,
    DD Month YYYY, Month DD YYYY, Month YYYY, that gives one. *)
Lemma parseDate_example_table :
  ( parseDateS "12 Oct 1982" = Some (js "1982-10-12")
    /\ parseDateS "01-Feb-1837" = Some (js "1837-02-01")
    /\ parseDateS "May 12, 1805" = Some (js "1805-05-12")
    /\ parseDateS "Jan 1900" = Some (js "1900-01-01")
    /\ parseDateS "1567" = Some (js "1567-01-01")
    /\ parseDateS "Abt. 1756" = Some (js "1756-01-01")
    /\ parseDateS "Unknown" = None
    /\ parseDateS "BET 1700 AND 1710" = None )
  /\ Forall (fun s => option_map isIsoDate (parseDateS s) = Some true)
       [ "12 Oct 1982"; "01-Feb-1837"; "May 12, 1805"; "Jan 1900"; "1567";
         "Abt. 1756" ]%string
  /\ datePatterns = [byYear; byDash; byDmy; byMdy; byMy]
  /\ forall s d, parseDate (Some s) = Some d ->
       exists i p, nth_error datePatterns i = Some p
         /\ p (cleanDate s) = Some d
         /\ forall j q, (j < i)%nat -> nth_error datePatterns j = Some q ->
              q (cleanDate s) = None.
Proof.
  split; [|split; [|split]].
  - repeat split; vm_compute; reflexivity.
  - repeat constructor; vm_compute; reflexivity.
  - reflexivity.
  - intros s d. unfold parseDate, parseCleaned.
    destruct (truthy s); [|discriminate].
    destruct (negb (truthy (cleanDate s)) || test reUnknown (cleanDate s));
      [discriminate|].
    apply firstOf_first.
Qed.

(** C5: the code breaks the claim where the month word names a property
    that [MONTHS] inherits.  [MONTHS] is an object literal, so the words
    constructor and __proto__ are found on [Object.prototype]; both values
    are truthy, and the result carries their text where the number of the
    month should be.  These results are not zero-padded dates, though
    [parseDate] is documented to give ISO format. *)
Theorem parseDate_inherited_month_text :
  parseDateS "constructor 1900"
  = Some (js "1900-function Object() { [native code] }-01")
  /\ parseDateS "12 __proto__ 1900" = Some (js "1900-[object Object]-12")
  /\ isIsoDate (js "1900-function Object() { [native code] }-01") = false
  /\ isIsoDate (js "1900-[object Object]-12") = false.
Proof. repeat split; vm_compute; reflexivity. Qed.

(** ** Qualifiers *)

Ltac literal_chars x :=
  repeat match goal with
  | |- context [eqChar ?a ?b] =>
      lazymatch a with context [x] => fail | _ => idtac end;
      lazymatch b with context [x] => fail | _ => idtac end;
      let v := eval vm_compute in (eqChar a b) in
      change (eqChar a b) with v
  end.

Ltac letter_case H :=
  apply lowerAscii_inv in H;
  destruct H as [[-> _]|[H ?]];
  [| match goal with
     | E : ?c = (?y + 32)%N |- _ =>
         let v := eval vm_compute in (c - 32)%N in
         assert (y = v) by lia; subst y; clear E;
         try (vm_compute in H; discriminate H); clear H
     end ].

(** One of the twelve tokens, whatever the case of its letters, followed
    by a white-space character: the first alternative that fits takes
    exactly the token. *)
Lemma qualifier_prefix {A : Type} (g : jsstring -> captures -> A)
    (q : jsstring) (x : char) (rest : jsstring) :
  isQualifier q -> isSpace x = true ->
  exec qualifierWords None (q ++ x :: rest) []
    (fun _ s' c' => Some (g s' c')) = Some (g (x :: rest) []).
Proof.
  intros Hq Hx.
  assert (Hd : eqChar 46 x = false).
  { unfold eqChar. destruct (N.eqb_spec 46 x) as [<-|]; [discriminate Hx|done]. }
  unfold isQualifier, qualifierTokens, toLowerCaseAscii in Hq. simpl In in Hq.
  destruct Hq as [H|[H|[H|[H|[H|[H|[H|[H|[H|[H|[H|[H|[]]]]]]]]]]]]];
    repeat (destruct q as [|? q]; try discriminate H);
    cbn [map] in H; symmetry in H; simplify_list_eq;
    repeat match goal with
           | Hc : lowerAscii _ = _ |- _ => letter_case Hc
           end;
    cbv [qualifierWords ors cats str stri lit liti map js exec app];
    literal_chars x; cbv iota; rewrite ?Hd; reflexivity.
Qed.

Lemma cleanDate_qualifier (q w s : jsstring) :
  isQualifier q -> isBlank w -> cleanDate (q ++ w ++ s) = trim s.
Proof.
  intros Hq [Hne Hw]. destruct w as [|x w]; [done|].
  simpl in Hw. apply andb_true_iff in Hw as [Hx Hw].
  unfold cleanDate, replaceFirst.
  change reQualifier with (Cat Bol (Cat (Group 1 qualifierWords) (Star isSpace))).
  rewrite search_bol. cbn [exec].
  erewrite exec_ext; last first.
  { intros a b d. apply (star_space_total (fun s' => (s', _))). }
  cbn beta.
  change ((x :: w) ++ s) with (x :: w ++ s).
  rewrite (qualifier_prefix _ q x (w ++ s) Hq Hx).
  cbn [f_before f_after app].
  change (x :: w ++ s) with ((x :: w) ++ s).
  rewrite trimStart_blank by (simpl; rewrite Hx; exact Hw).
  apply trim_trimStart.
Qed.

Lemma isQualifier_truthy (q s : jsstring) : isQualifier q -> truthy (q ++ s) = true.
Proof.
  intros Hq. destruct q; [|done].
  unfold isQualifier, qualifierTokens in Hq. simpl in Hq.
  repeat (destruct Hq as [Hq|Hq]; [discriminate Hq|]). destruct Hq.
Qed.

(** C9, as amended: a leading token among abt, abt., about, circa, bef,
    bef., aft, aft., est, est., cal, cal. in any letter case, followed by
    white space, is stripped with the white space: the date normalizes as
    the trimmed remainder does by the patterns, which is how the remainder
    alone normalizes when it does not itself begin with a token.  The words
    estimated and calculated are not tokens: the dates estimated 1900 and
    calculated 1900 have no normal form. *)
Theorem qualifier_stripped (q w s : jsstring) :
  isQualifier q -> isBlank w ->
  parseDate (Some (q ++ w ++ s)) = parseCleaned (trim s)
  /\ (replaceFirst reQualifier [] s = s ->
      parseDate (Some (q ++ w ++ s)) = parseDate (Some s))
  /\ parseDateS "estimated 1900" = None
  /\ parseDateS "calculated 1900" = None.
Proof.
  intros Hq Hw.
  assert (H1 : parseDate (Some (q ++ w ++ s)) = parseCleaned (trim s)).
  { unfold parseDate. rewrite isQualifier_truthy by exact Hq.
    rewrite cleanDate_qualifier by assumption. reflexivity. }
  split; [exact H1|]. split; [|split; vm_compute; reflexivity].
  intros Hs. rewrite H1. unfold parseDate, cleanDate. rewrite Hs.
  destruct s; reflexivity.
Qed.

(** The witness of C9: Abt. 1756. *)
Lemma qualifier_stripped_witness :
  parseDate (Some (js "Abt." ++ js " " ++ js "1756")) = parseCleaned (trim (js "1756"))
  /\ parseDate (Some (js "Abt." ++ js " " ++ js "1756")) = parseDate (Some (js "1756")).
Proof.
  assert (Hq : isQualifier (js "Abt.")) by (vm_compute; tauto).
  assert (Hw : isBlank (js " ")) by (split; [discriminate|reflexivity]).
  destruct (qualifier_stripped (js "Abt.") (js " ") (js "1756") Hq Hw)
    as (H1 & H2 & _).
  split; [exact H1|]. apply H2. vm_compute. reflexivity.
Defined.

(** C9 as stated fails: estimated and calculated are not stripped, so a
    date does not normalize as it does without them. *)
Lemma qualifier_words_not_stripped :
  parseDateS "estimated 1900" = None
  /\ parseDateS "calculated 1900" = None
  /\ parseDateS "1900" = Some (js "1900-01-01").
Proof. repeat split; vm_compute; reflexivity. Qed.

End DateProofs.

(* ===================================================================== *)
(** * Events and names                                                    *)
(* ===================================================================== *)

Module EventProofs.

Lemma datePattern_truthy r gm build cleaned d :
  (forall f month, truthy (build f month) = true) ->
  datePattern r gm build cleaned = Some d -> truthy d = true.
Proof.
  intros Hb. unfold datePattern.
  destruct (search r cleaned) as [f|]; [|discriminate].
  destruct (monthOf _) as [month|]; [|discriminate].
  destruct (truthy month); [|discriminate].
  intros [= <-]. apply Hb.
Qed.

(** A normalized date is never the empty text, so it is truthy exactly
    when it is not [null]. *)
Lemma parseDate_truthy (o : option jsstring) (d : jsstring) :
  parseDate o = Some d -> truthy d = true.
Proof.
  unfold parseDate, parseCleaned. destruct o as [s|]; [|discriminate].
  destruct (truthy s); [|discriminate].
  destruct (_ || _); [discriminate|].
  unfold datePatterns, firstOf.
  destruct (byYear _) as [y|] eqn:Hy.
  { intros [= <-]. unfold byYear in Hy. destruct (test _ _); [|discriminate].
    injection Hy as <-. apply truthy_app_r. reflexivity. }
  destruct (byDash _) eqn:H1.
  { intros [= <-]. eapply datePattern_truthy; [|exact H1].
    intros. do 1 apply truthy_app_r. reflexivity. }
  destruct (byDmy _) eqn:H2.
  { intros [= <-]. eapply datePattern_truthy; [|exact H2].
    intros. apply truthy_app_r. reflexivity. }
  destruct (byMdy _) eqn:H3.
  { intros [= <-]. eapply datePattern_truthy; [|exact H3].
    intros. apply truthy_app_r. reflexivity. }
  destruct (byMy _) eqn:H4; [|discriminate].
  intros [= <-]. eapply datePattern_truthy; [|exact H4].
  intros. apply truthy_app_r. reflexivity.
Qed.

Lemma usablePlace_given (place : option jsstring) :
  usablePlace place = true <-> placeGiven place.
Proof.
  unfold usablePlace, placeGiven. destruct place as [p|].
  - rewrite andb_true_iff, negb_true_iff. split.
    + intros [Hp Hq]. exists p. repeat split.
      * intros ->. discriminate Hp.
      * intros ->. rewrite eqStr_refl in Hq. discriminate Hq.
    + intros (p' & [= <-] & Hne & Hq). split.
      * destruct p; [done|reflexivity].
      * destruct (eqStr p (js "?")) eqn:E; [|done].
        apply eqStr_spec in E. contradiction.
  - split; [discriminate|]. intros (p & Hp & _). discriminate Hp.
Qed.

Section Events.
Context `{UnicodeCase}.

Lemma orElse_dates (a b : option jsstring) :
  (forall d, a = Some d -> truthy d = true) ->
  orElse a b = match a with Some d => Some d | None => b end.
Proof.
  intros Ha. unfold orElse, truthyOpt. destruct a as [d|]; [|done].
  rewrite (Ha d eq_refl). reflexivity.
Qed.

(** The loop body, part by part. *)
Lemma eventsOfIndi_parts (i : Indi) :
  named i -> eventsOfIndi i = birthPart i ++ deathPart i ++ burialPart i.
Proof.
  unfold named, eventsOfIndi. intros ->. cbn [negb].
  unfold birthPart, deathPart, burialPart, eventDate.
  rewrite (orElse_dates (parseDate (death_date i)) (parseDate (birth_date i)))
    by apply parseDate_truthy.
  f_equal; [|f_equal].
  - destruct (parseDate (birth_date i)) as [d|] eqn:Hd; [|done].
    rewrite (parseDate_truthy _ _ Hd). reflexivity.
  - destruct (parseDate (death_date i)) as [d|] eqn:Hd; [|done].
    rewrite (parseDate_truthy _ _ Hd). reflexivity.
  - destruct (burial_place i) as [p|].
    + destruct (usablePlace (Some p)).
      * destruct (parseDate (death_date i)) as [d|] eqn:Hd.
        { rewrite (parseDate_truthy _ _ Hd). reflexivity. }
        destruct (parseDate (birth_date i)) as [d|] eqn:Hb; [|done].
        rewrite (parseDate_truthy _ _ Hb). reflexivity.
      * destruct (parseDate (death_date i)); [done|].
        destruct (parseDate (birth_date i)); done.
    + destruct (parseDate (death_date i)); [done|].
      destruct (parseDate (birth_date i)); done.
Qed.

Lemma partOf_type (k : EventKind) (i : Indi) (e : DerivedEvent) :
  In e (partOf k i) ->
  ev_type e = k /\ Some (ev_date e) = eventDate k i
  /\ Some (ev_place e) = eventPlace k i
  /\ ev_category e = (match k with birth => js "birth" | _ => js "death" end).
Proof.
  destruct k; cbn [partOf eventPlace]; unfold birthPart, deathPart, burialPart;
    destruct (eventDate _ i) as [d|]; try done;
    (destruct (_ i) as [p|]; [|done]);
    (destruct (usablePlace (Some p)); [|done]);
    intros [<-|[]]; done.
Qed.

Lemma part_nonempty (d : option jsstring) (place : option jsstring)
    (mk : jsstring -> jsstring -> DerivedEvent) :
  (exists e, In e match d, place with
                  | Some d', Some p =>
                      if usablePlace (Some p) then [mk d' p] else []
                  | _, _ => []
                  end)
  <-> d <> None /\ usablePlace place = true.
Proof.
  destruct d as [d'|]; [destruct place as [p|]|].
  - destruct (usablePlace (Some p)); split.
    + intros _. done.
    + intros _. eexists. left. reflexivity.
    + intros [e []].
    + intros [_ [=]].
  - split; [intros [e []]|intros [_ [=]]].
  - split; [|intros [[] _]; reflexivity].
    destruct place; intros [e []].
Qed.

Lemma partOf_nonempty (k : EventKind) (i : Indi) :
  (exists e, In e (partOf k i)) <-> eventDate k i <> None /\ placeGiven (eventPlace k i).
Proof.
  rewrite <- usablePlace_given.
  destruct k; cbn [partOf eventPlace]; apply part_nonempty.
Qed.

Lemma eventsOfIndi_kind (i : Indi) (k : EventKind) (e : DerivedEvent) :
  named i -> (In e (eventsOfIndi i) /\ ev_type e = k <-> In e (partOf k i)).
Proof.
  intros Hn. rewrite (eventsOfIndi_parts i Hn). rewrite !in_app_iff.
  split.
  - intros [[Hb|[Hd|Hu]] Hk].
    + destruct (partOf_type birth i e Hb) as [Ht _]. rewrite Ht in Hk. subst k. exact Hb.
    + destruct (partOf_type death i e Hd) as [Ht _]. rewrite Ht in Hk. subst k. exact Hd.
    + destruct (partOf_type burial i e Hu) as [Ht _]. rewrite Ht in Hk. subst k. exact Hu.
  - intros Hp. split; [|apply (partOf_type k i e Hp)].
    destruct k; simpl in Hp; auto.
Qed.

End Events.

Lemma events_of_parsed `{UnicodeCase} (content : jsstring) :
  events (parseGedcomFull content) =
  flat_map eventsOfIndi (fst (parseRecords content)).
Proof. unfold parseGedcomFull. destruct (parseRecords content). reflexivity. Qed.







(** ** Display names *)

Lemma join_app_head (sep a f : jsstring) (l : list jsstring) :
  join sep ((a ++ f) :: l) = a ++ join sep (f :: l).
Proof. destruct l; cbn [join]; [done|]. rewrite <- app_assoc. reflexivity. Qed.

Lemma splitOn_nonempty (sep : char) (s : jsstring) : splitOn sep s <> [].
Proof.
  destruct s as [|x s]; simpl; [done|].
  destruct (eqChar x sep); [done|]. destruct (splitOn sep s); done.
Qed.

Lemma join_words `{UnicodeCase} (s : jsstring) (start : bool) :
  match splitOn 32 s with
  | f :: fs =>
      join (js " ") ((if start then capitalize f else f) :: map capitalize fs)
  | [] => []
  end = capitalizeFrom start s.
Proof.
  revert start. induction s as [|x s IH]; intros start.
  - simpl. destruct start; reflexivity.
  - cbn [splitOn capitalizeFrom]. destruct (eqChar x 32) eqn:Hx.
    + apply N.eqb_eq in Hx. subst x.
      specialize (IH true).
      destruct (splitOn 32 s) as [|f fs] eqn:Hs; [destruct (splitOn_nonempty _ _ Hs)|].
      cbn [map]. rewrite <- IH.
      destruct start; reflexivity.
    + specialize (IH false).
      destruct (splitOn 32 s) as [|f fs] eqn:Hs; [destruct (splitOn_nonempty _ _ Hs)|].
      rewrite <- IH. destruct start.
      * cbn [capitalize]. apply join_app_head.
      * apply (join_app_head _ [x]).
Qed.

(** [split], [map] and [join] upper-case the first character of each word
    and leave every other character as it is. *)
Lemma displayNameOf_capitalizeWords `{UnicodeCase} (s : jsstring) :
  displayNameOf s = capitalizeWords s.
Proof.
  unfold displayNameOf, capitalizeWords. rewrite <- join_words.
  destruct (splitOn 32 s); reflexivity.
Qed.

Lemma eventsOfIndi_name `{UnicodeCase} (i : Indi) (e : DerivedEvent) :
  In e (eventsOfIndi i) -> ev_name e = displayNameOf (nameOf i).
Proof.
  unfold eventsOfIndi. destruct (negb (truthy (nameOf i))); [intros []|].
  rewrite !in_app_iff. intros [He|[He|He]].
  - destruct (parseDate (birth_date i)); [|destruct He].
    destruct (birth_place i); [|destruct He].
    destruct (_ && _); [|destruct He]. destruct He as [<-|[]]. reflexivity.
  - destruct (parseDate (death_date i)); [|destruct He].
    destruct (death_place i); [|destruct He].
    destruct (_ && _); [|destruct He]. destruct He as [<-|[]]. reflexivity.
  - destruct (burial_place i); [|destruct He].
    destruct (usablePlace _); [|destruct He].
    destruct (orElse _ _); [|destruct He].
    destruct (truthy _); [|destruct He]. destruct He as [<-|[]]. reflexivity.
Qed.

(** C8, as amended: for every parsed person with a name part, the display
    name, of the person and of each of its events, is the given name and
    the surname joined by a space with the first character of each word in
    upper case and every other character as it was; john and SMITH give
    John SMITH. *)
Theorem display_name_capitalized `{UnicodeCase} (i : Indi) :
  named i ->
  nameOf i = trim (join (js " ") (List.filter truthy [givn i; surn i]))
  /\ p_name (personOfIndi i) = capitalizeWords (nameOf i)
  /\ (forall e, In e (eventsOfIndi i) -> ev_name e = capitalizeWords (nameOf i))
  /\ (givn i = js "john" -> surn i = js "SMITH" ->
      p_name (personOfIndi i) = js "John SMITH").
Proof.
  intros _. repeat split.
  - apply displayNameOf_capitalizeWords.
  - intros e He. rewrite (eventsOfIndi_name i e He).
    apply displayNameOf_capitalizeWords.
  - intros Hg Hs. cbn [personOfIndi p_name]. unfold nameOf. rewrite Hg, Hs.
    vm_compute. reflexivity.
Qed.

(** The witness of C8: john SMITH. *)
Lemma display_name_capitalized_witness :
  p_name (personOfIndi (H:=asciiCase) johnSMITH) = js "John SMITH".
Proof.
  assert (Hn : named johnSMITH) by (vm_compute; reflexivity).
  destruct (display_name_capitalized (H:=asciiCase) johnSMITH Hn) as (_ & _ & _ & Hj).
  apply Hj; reflexivity.
Defined.

(** C8 as stated fails: the surname SMITH stays in upper case. *)
Lemma john_SMITH_not_John_Smith :
  p_name (personOfIndi (H:=asciiCase) johnSMITH) <> js "John Smith".
Proof. vm_compute. discriminate. Qed.

End EventProofs.

(* ===================================================================== *)
(** * Geocoding                                                           *)
(* ===================================================================== *)

Module GeocoderProofs.

Lemma geocode_null (service : Service) (place : option jsstring) (st : GeoState) :
  cleanPlaceName place = None -> geocode service place st = (None, st).
Proof. unfold geocode. intros ->. reflexivity. Qed.

Lemma geocode_cached (service : Service) (place : option jsstring)
    (c : jsstring) (v : option Coord) (st : GeoState) :
  cleanPlaceName place = Some c -> cache st !! c = Some v ->
  geocode service place st = (v, st).
Proof. unfold geocode. intros -> ->. reflexivity. Qed.

(** A place that is not cached is cached after the call, with what the
    call returns; no other entry changes, and lookups are only added. *)
Lemma geocode_fresh (service : Service) (place : option jsstring)
    (c : jsstring) (st : GeoState) :
  cleanPlaceName place = Some c -> cache st !! c = None ->
  cache (snd (geocode service place st))
    = <[c := fst (geocode service place st)]> (cache st)
  /\ exists more, sent (snd (geocode service place st)) = sent st ++ more.
Proof.
  unfold geocode. intros -> ->. unfold lookup, fetch.
  destruct (encodable c); cbn [negb];
    [|split; [reflexivity|exists []; symmetry; apply app_nil_r]].
  destruct (service (length (sent st)) c); cbn [fst snd cacheSet cache sent].
  - split; [reflexivity|eexists; reflexivity].
  - destruct (2 <? length (partsOf c))%nat; cbn [fst snd cacheSet cache sent];
      [|split; [reflexivity|eexists; reflexivity]].
    destruct (encodable _); cbn [negb fst snd cacheSet cache sent];
      [|split; [reflexivity|eexists; reflexivity]].
    destruct (service _ _); cbn [fst snd cacheSet cache sent];
      (split; [reflexivity|rewrite <- app_assoc; eexists; reflexivity]).
  - split; [reflexivity|eexists; reflexivity].
Qed.

(** After a call, the cache extends the one before, and what the call
    returned is what the cache now holds for the place. *)
Lemma geocode_spec (service : Service) (p : jsstring) (st : GeoState) :
  cache st ⊆ cache (snd (geocode service (Some p) st))
  /\ fst (geocode service (Some p) st)
       = cachedCoord (cache (snd (geocode service (Some p) st))) p
  /\ (forall c, cleanPlaceName (Some p) = Some c ->
        is_Some (cache (snd (geocode service (Some p) st)) !! c)).
Proof.
  unfold cachedCoord.
  destruct (cleanPlaceName (Some p)) as [c|] eqn:Hc.
  - destruct (cache st !! c) as [v|] eqn:Hv.
    + rewrite (geocode_cached service _ c v st Hc Hv). cbn [fst snd].
      rewrite Hv. repeat split; [done|]. intros c' [= <-]. rewrite Hv. eauto.
    + destruct (geocode_fresh service _ c st Hc Hv) as [-> _].
      rewrite lookup_insert_eq. repeat split.
      * apply insert_subseteq. exact Hv.
      * intros c' [= <-]. rewrite lookup_insert_eq. eauto.
  - rewrite (geocode_null service _ st Hc). cbn [fst snd].
    repeat split; [done|]. intros c' [=].
Qed.

(** The places of a batch are all cached afterwards, and the batch returns
    for each what the cache then holds. *)
Lemma geocodeEach_spec (service : Service) (total : nat) (unique : list jsstring) :
  forall completed acc st,
    let r := geocodeEach service total unique completed acc st in
    cache st ⊆ cache (snd r)
    /\ results (fst r)
         = results acc
           ++ omap (fun p => pair p <$> cachedCoord (cache (snd r)) p) unique
    /\ progress (fst r)
         = progress acc ++ progressFrom completed total (length unique)
    /\ (forall p c, In p unique -> cleanPlaceName (Some p) = Some c ->
          is_Some (cache (snd r) !! c)).
Proof.
  induction unique as [|p unique IH]; intros completed acc st; cbn zeta.
  - cbn [geocodeEach fst snd omap list_omap length progressFrom].
    rewrite !app_nil_r. repeat split; [done|]. intros p c [].
  - cbn [geocodeEach].
    destruct (geocode_spec service p st) as (Hsub & Hres & Hin).
    destruct (geocode service (Some p) st) as [coords st1]. cbn [fst snd] in *.
    match goal with
    | |- context [geocodeEach service total unique (S completed) ?a st1] =>
        specialize (IH (S completed) a st1); set (acc1 := a) in *
    end.
    cbn zeta in IH. destruct IH as (Hsub' & Hres' & Hprog' & Hin').
    set (r := geocodeEach service total unique (S completed) acc1 st1) in *.
    assert (Hp : cachedCoord (cache (snd r)) p = coords).
    { rewrite Hres. unfold cachedCoord.
      destruct (cleanPlaceName (Some p)) as [c|] eqn:Hc; [|done].
      destruct (Hin c eq_refl) as [v Hv]. rewrite Hv.
      rewrite (lookup_weaken _ _ _ _ Hv Hsub'). reflexivity. }
    repeat split.
    + etrans; eassumption.
    + rewrite Hres'. cbn [omap list_omap]. rewrite Hp. subst acc1. cbn [results].
      destruct coords; cbn [fmap option_fmap option_map];
        [rewrite <- app_assoc|]; reflexivity.
    + rewrite Hprog'. subst acc1. cbn [progress length progressFrom].
      rewrite <- app_assoc. reflexivity.
    + intros q c [<-|Hq] Hc.
      * destruct (Hin c Hc) as [v Hv]. exists v.
        apply (lookup_weaken _ _ _ _ Hv Hsub').
      * apply (Hin' q c Hq Hc).
Qed.

(** A batch whose places are all cached already issues no lookup,
    whatever the service, and returns what the cache holds. *)
Lemma geocodeEach_cached (service : Service) (total : nat) (unique : list jsstring) :
  forall completed acc st,
    (forall p c, In p unique -> cleanPlaceName (Some p) = Some c ->
       is_Some (cache st !! c)) ->
    geocodeEach service total unique completed acc st
    = ( {| results :=
             results acc ++ omap (fun p => pair p <$> cachedCoord (cache st) p) unique;
           progress :=
             progress acc ++ progressFrom completed total (length unique) |},
        st ).
Proof.
  induction unique as [|p unique IH]; intros completed acc st Hall.
  - cbn [geocodeEach omap list_omap length progressFrom]. rewrite !app_nil_r.
    destruct acc; reflexivity.
  - cbn [geocodeEach].
    assert (Hg : geocode service (Some p) st = (cachedCoord (cache st) p, st)).
    { unfold cachedCoord. destruct (cleanPlaceName (Some p)) as [c|] eqn:Hc.
      - destruct (Hall p c (or_introl eq_refl) Hc) as [v Hv]. rewrite Hv.
        apply (geocode_cached service _ c v st Hc Hv).
      - apply geocode_null. exact Hc. }
    rewrite Hg. rewrite IH by (intros q c Hq; apply Hall; right; exact Hq).
    cbn [results progress omap list_omap length progressFrom].
    destruct (cachedCoord (cache st) p); cbn [fmap option_fmap option_map];
      rewrite <- ?app_assoc; reflexivity.
Qed.

Lemma getCoord_omap_some (h : jsstring -> option Coord) (l : list jsstring)
    (p : jsstring) (v : Coord) :
  getCoord p (omap (fun q => pair q <$> h q) l) = Some v ->
  In p l /\ h p = Some v.
Proof.
  induction l as [|q l IH]; cbn [omap list_omap getCoord]; [discriminate|].
  destruct (h q) as [y|] eqn:Hq; cbn [fmap option_fmap option_map getCoord].
  - destruct (eqStr p q) eqn:E.
    + apply eqStr_spec in E. subst q. intros [= <-]. split; [left; reflexivity|exact Hq].
    + intros Hg. destruct (IH Hg). split; [right|]; assumption.
  - intros Hg. destruct (IH Hg). split; [right|]; assumption.
Qed.

Lemma getCoord_omap (h : jsstring -> option Coord) (l : list jsstring) (p : jsstring) :
  In p l -> getCoord p (omap (fun q => pair q <$> h q) l) = h p.
Proof.
  induction l as [|q l IH]; [intros []|]. intros Hin.
  cbn [omap list_omap].
  destruct (h q) as [y|] eqn:Hq; cbn [fmap option_fmap option_map getCoord].
  - destruct (eqStr p q) eqn:E.
    + apply eqStr_spec in E. subst q. symmetry. exact Hq.
    + apply IH. destruct Hin as [->|Hin]; [|exact Hin].
      rewrite eqStr_refl in E. discriminate E.
  - destruct Hin as [->|Hin]; [|apply IH, Hin].
    destruct (getCoord p _) as [v|] eqn:Hg; [|symmetry; exact Hq].
    apply getCoord_omap_some in Hg as [_ Hg]. congruence.
Qed.

Lemma In_dedupe (l : list jsstring) (p : jsstring) : In p (dedupe l) <-> In p l.
Proof.
  induction l as [|x l IH]; cbn [dedupe]; [done|].
  cbn [In]. rewrite filter_In, IH, negb_true_iff. split.
  - intros [->|[Hin _]]; auto.
  - intros [->|Hin]; [left; reflexivity|].
    destruct (eqStr p x) eqn:E; [|right; auto].
    apply eqStr_spec in E. left. symmetry. exact E.
Qed.

Lemma geocodeAll_spec (service : Service) (places : list (option jsstring))
    (st : GeoState) :
  let r := geocodeAll service places st in
  let unique := dedupe (lookable places) in
  cache st ⊆ cache (snd r)
  /\ fst r = {| results := omap (fun p => pair p <$> cachedCoord (cache (snd r)) p) unique;
                progress := progressFrom 0 (length unique) (length unique) |}
  /\ (forall p c, In p unique -> cleanPlaceName (Some p) = Some c ->
        is_Some (cache (snd r) !! c)).
Proof.
  cbn zeta. unfold geocodeAll.
  destruct (geocodeEach_spec service (length (dedupe (lookable places)))
              (dedupe (lookable places)) 0 {| results := []; progress := [] |} st)
    as (Hsub & Hres & Hprog & Hin).
  cbn [results progress app] in Hres, Hprog.
  repeat split; [exact Hsub| |exact Hin].
  destruct (fst (geocodeEach _ _ _ _ _ _)) as [res prog].
  cbn [results progress] in Hres, Hprog. congruence.
Qed.

(** C6: a second call of resolveAll with the same places, after the first
    one and with any service, issues no outbound lookup, leaves the cache
    as it is and returns the same results and progress reports; after the
    first call every place of the list that normalizes is cached against
    its normalized text with the outcome returned for it, success or
    failure; a place cached as failed resolves to null without a lookup;
    and no call changes an entry of the cache. *)
Theorem geocodeAll_idempotent (service service' : Service)
    (places : list (option jsstring)) (st : GeoState) :
  let r1 := geocodeAll service places st in
  let r2 := geocodeAll service' places (snd r1) in
  sent (snd r2) = sent (snd r1)
  /\ cache (snd r2) = cache (snd r1)
  /\ fst r2 = fst r1
  /\ (forall p c, In p (lookable places) -> cleanPlaceName (Some p) = Some c ->
        cache (snd r1) !! c = Some (getCoord p (results (fst r1))))
  /\ (forall place c st0, cleanPlaceName place = Some c ->
        cache st0 !! c = Some None ->
        geocode service' place st0 = (None, st0))
  /\ (forall c v, cache st !! c = Some v -> cache (snd r1) !! c = Some v).
Proof.
  cbn zeta.
  destruct (geocodeAll_spec service places st) as (Hsub & Hfst & Hin).
  cbn zeta in *. set (r1 := geocodeAll service places st) in *.
  assert (H2 : geocodeAll service' places (snd r1) = (fst r1, snd r1)).
  { unfold geocodeAll at 1. rewrite geocodeEach_cached by exact Hin.
    rewrite Hfst. reflexivity. }
  rewrite H2. cbn [fst snd]. repeat split.
  - intros p c Hp Hc. apply In_dedupe in Hp.
    rewrite Hfst. cbn [results]. rewrite getCoord_omap by exact Hp.
    unfold cachedCoord. rewrite Hc.
    destruct (Hin p c Hp Hc) as [v ->]. reflexivity.
  - intros place c st0 Hc Hn. apply (geocode_cached service' place c None st0 Hc Hn).
  - intros c v Hv. apply (lookup_weaken _ _ _ _ Hv Hsub).
Qed.

End GeocoderProofs.

(* ===================================================================== *)
(** * The import                                                          *)
(* ===================================================================== *)

Module ImportProofs.
Import EventProofs GeocoderProofs.

Lemma existsb_eqStr (x : jsstring) (l : list jsstring) :
  existsb (eqStr x) l = true <-> In x l.
Proof.
  rewrite existsb_exists. split.
  - intros (y & Hy & E). apply eqStr_spec in E. subst y. exact Hy.
  - intros Hx. exists x. split; [exact Hx|apply eqStr_refl].
Qed.

Lemma In_setAdd (x n : jsstring) (l : list jsstring) :
  In n (setAdd x l) <-> In n l \/ n = x.
Proof.
  unfold setAdd. destruct (existsb (eqStr x) l) eqn:E.
  - apply existsb_eqStr in E. split; [auto|]. intros [Hn| ->]; assumption.
  - rewrite in_app_iff. cbn [In]. intuition congruence.
Qed.

Lemma NoDup_setAdd (x : jsstring) (l : list jsstring) :
  NoDup l -> NoDup (setAdd x l).
Proof.
  intros Hl. unfold setAdd. destruct (existsb (eqStr x) l) eqn:E; [exact Hl|].
  apply NoDup_app. repeat split; [exact Hl| |apply NoDup_singleton].
  intros y Hy Hyx. apply list_elem_of_In in Hy, Hyx. destruct Hyx as [<-|[]].
  apply existsb_eqStr in Hy. congruence.
Qed.

Lemma insertSorted_perm (x : jsstring) (l : list jsstring) :
  Permutation (insertSorted x l) (x :: l).
Proof.
  induction l as [|y l IH]; cbn [insertSorted]; [done|].
  destruct (ltStr x y); [done|]. rewrite IH. apply perm_swap.
Qed.

Lemma sortStrings_perm (l : list jsstring) : Permutation (sortStrings l) l.
Proof.
  induction l as [|x l IH]; cbn [sortStrings fold_right]; [done|].
  rewrite insertSorted_perm. constructor. exact IH.
Qed.

Lemma ltStr_asym (a b : jsstring) : ltStr a b = true -> ltStr b a = false.
Proof.
  revert b. induction a as [|x a IH]; intros [|y b]; cbn [ltStr]; try done.
  intros [Hlt|[Heq Hab]%andb_true_iff]%orb_true_iff.
  - apply N.ltb_lt in Hlt. apply orb_false_iff. split.
    + apply N.ltb_ge. lia.
    + apply andb_false_iff. left. apply N.eqb_neq. lia.
  - apply N.eqb_eq in Heq. subst y. apply orb_false_iff. split.
    + apply N.ltb_irrefl.
    + rewrite N.eqb_refl. cbn [andb]. apply IH, Hab.
Qed.

Lemma insertSorted_sorted (x : jsstring) (l : list jsstring) :
  Sorted notAfter l -> Sorted notAfter (insertSorted x l).
Proof.
  induction l as [|y l IH]; cbn [insertSorted]; intros Hs.
  - repeat constructor.
  - destruct (ltStr x y) eqn:E.
    + constructor; [exact Hs|]. constructor. apply ltStr_asym, E.
    + apply Sorted_inv in Hs as [Hs Hhd]. constructor; [apply IH, Hs|].
      destruct l as [|z l]; cbn [insertSorted].
      * constructor. exact E.
      * destruct (ltStr x z); constructor; [exact E|].
        apply HdRel_inv in Hhd. exact Hhd.
Qed.

Lemma sortStrings_sorted (l : list jsstring) : Sorted notAfter (sortStrings l).
Proof.
  induction l as [|x l IH]; cbn [sortStrings fold_right]; [constructor|].
  apply insertSorted_sorted, IH.
Qed.

(** One iteration of the loop over the events. *)
Lemma tallyEvent_step (user : N) (g : list (jsstring * Coord)) (t : Tally)
    (e : DerivedEvent) :
  let t' := tallyEvent user g t e in
  t_imported t' = (t_imported t + length (List.filter (resolvedIn g) [e]))%nat
  /\ t_skipped t' = (t_skipped t + length (List.filter (unresolvedIn g) [e]))%nat
  /\ t_rows t' = t_rows t ++ persistedOf user g [e]
  /\ t_peopleSet t'
     = if resolvedIn g e then setAdd (ev_name e) (t_peopleSet t) else t_peopleSet t.
Proof.
  cbn zeta. unfold tallyEvent, persistedOf, unresolvedIn, resolvedIn.
  cbn [List.filter omap list_omap].
  destruct (getCoord (ev_place e) g) as [c|];
    cbn [t_imported t_skipped t_rows t_peopleSet negb length
         fmap option_fmap option_map];
    rewrite ?app_nil_r; repeat split; lia.
Qed.

(** The loop over the events, from any start. *)
Lemma tally_fold (user : N) (g : list (jsstring * Coord)) (evts : list DerivedEvent) :
  forall t0,
    let t := fold_left (tallyEvent user g) evts t0 in
    t_imported t = (t_imported t0 + length (List.filter (resolvedIn g) evts))%nat
    /\ t_skipped t = (t_skipped t0 + length (List.filter (unresolvedIn g) evts))%nat
    /\ t_rows t = t_rows t0 ++ persistedOf user g evts
    /\ (forall n, In n (t_peopleSet t) <->
          In n (t_peopleSet t0)
          \/ exists e, In e evts /\ resolvedIn g e = true /\ ev_name e = n)
    /\ (NoDup (t_peopleSet t0) -> NoDup (t_peopleSet t)).
Proof.
  induction evts as [|e evts IH]; intros t0; cbn zeta.
  - cbn [fold_left List.filter length persistedOf omap list_omap].
    rewrite !Nat.add_0_r, app_nil_r.
    split; [reflexivity|]. split; [reflexivity|]. split; [reflexivity|].
    split; [|auto]. intros n. split; [auto|].
    intros [Hn|(e & [] & _)]. exact Hn.
  - cbn [fold_left]. specialize (IH (tallyEvent user g t0 e)). cbn zeta in IH.
    destruct IH as (Hi & Hs & Hr & Hp & Hd).
    destruct (tallyEvent_step user g t0 e) as (Hi1 & Hs1 & Hr1 & Hp1).
    rewrite Hi, Hs, Hr, Hi1, Hs1, Hr1.
    change (e :: evts) with ([e] ++ evts).
    unfold persistedOf. rewrite !List.filter_app, !length_app, omap_app.
    split; [lia|]. split; [lia|]. split; [rewrite app_assoc; reflexivity|].
    split.
    + intros n. rewrite Hp, Hp1. split.
      * intros [Hn|(e' & He' & Hr' & Hn)].
        -- destruct (resolvedIn g e) eqn:He; [|left; exact Hn].
           apply In_setAdd in Hn as [Hn| ->]; [left; exact Hn|].
           right. exists e. cbn [app In]. auto.
        -- right. exists e'. cbn [app In]. auto.
      * intros [Hn|(e' & [<-|He'] & Hr' & Hn)].
        -- left. destruct (resolvedIn g e); [apply In_setAdd; left|]; exact Hn.
        -- left. rewrite Hr'. apply In_setAdd. right. symmetry. exact Hn.
        -- right. exists e'. auto.
    + intros Hnd. apply Hd. rewrite Hp1.
      destruct (resolvedIn g e); [apply NoDup_setAdd|]; exact Hnd.
Qed.

Lemma filter_split_length {X : Type} (f : X -> bool) (l : list X) :
  (length (List.filter f l) + length (List.filter (fun x => negb (f x)) l))%nat
  = length l.
Proof.
  induction l as [|x l IH]; cbn [List.filter length]; [done|].
  destruct (f x); cbn [negb length]; lia.
Qed.

Lemma eventsOfIndi_usable `{UnicodeCase} (i : Indi) (e : DerivedEvent) :
  In e (eventsOfIndi i) -> usablePlace (Some (ev_place e)) = true.
Proof.
  unfold eventsOfIndi. destruct (negb (truthy (nameOf i))); [intros []|].
  rewrite !in_app_iff. intros [He|[He|He]].
  - destruct (parseDate (birth_date i)); [|destruct He].
    destruct (birth_place i); [|destruct He].
    destruct (_ && _) eqn:E; [|destruct He]. destruct He as [<-|[]].
    apply andb_true_iff in E as [_ E]. exact E.
  - destruct (parseDate (death_date i)); [|destruct He].
    destruct (death_place i); [|destruct He].
    destruct (_ && _) eqn:E; [|destruct He]. destruct He as [<-|[]].
    apply andb_true_iff in E as [_ E]. exact E.
  - destruct (burial_place i); [|destruct He].
    destruct (usablePlace _) eqn:E; [|destruct He].
    destruct (orElse _ _); [|destruct He].
    destruct (truthy _); [|destruct He]. destruct He as [<-|[]]. exact E.
Qed.

(** Every event of a parsed file has a place that is not empty and not
    the placeholder. *)
Lemma events_usable `{UnicodeCase} (content : jsstring) (e : DerivedEvent) :
  In e (events (parseGedcomFull content)) -> usablePlace (Some (ev_place e)) = true.
Proof.
  rewrite events_of_parsed. intros (i & _ & He)%in_flat_map.
  apply (eventsOfIndi_usable i e He).
Qed.

Lemma lookable_In (evts : list DerivedEvent) (e : DerivedEvent) :
  In e evts -> usablePlace (Some (ev_place e)) = true ->
  In (ev_place e) (lookable (map (fun e => Some (ev_place e)) evts)).
Proof.
  intros He Hu. unfold lookable.
  induction evts as [|e' evts IH]; [destruct He|].
  cbn [map omap list_omap]. destruct He as [->|He].
  - rewrite Hu. left. reflexivity.
  - destruct (usablePlace (Some (ev_place e'))); [right|]; apply IH, He.
Qed.

(** The two counters of the answer add up to the number of events. *)
Lemma import_counts_total (service : Service) (user : N) (p : Parsed)
    (db : Db) (geo : GeoState) :
  (imported (fst (fst (importParsed service user p db geo)))
   + skipped (fst (fst (importParsed service user p db geo))))%nat
  = length (events p).
Proof.
  unfold importParsed. destruct (events p) as [|e0 evts] eqn:Hev; [reflexivity|].
  rewrite <- Hev. clear e0 evts Hev.
  destruct (geocodeAll service _ geo) as [geocoded geo'].
  cbn [fst snd imported skipped].
  destruct (tally_fold user (results geocoded) (events p)
              {| t_imported := 0; t_skipped := 0; t_peopleSet := []; t_rows := [] |})
    as (Hi & Hs & _).
  cbn zeta in Hi, Hs. fold (tally user (results geocoded) (events p)) in Hi, Hs.
  rewrite Hi, Hs. cbn [t_imported t_skipped Nat.add].
  apply filter_split_length.
Qed.

(** C4, as amended: each event derived from the file is persisted if and
    only if the batch resolved its place, that is, if the cache then holds
    coordinates for it; imported counts the persisted events and skipped
    the others, and they add up to the number of events.  When there is an
    event, the names returned are exactly the distinct display names of
    the people with a persisted event, in sorted order.  When there is
    none, imported and skipped are 0, the geocoder is left as it was, the
    message is another one, and the names returned are those of all the
    people stored. *)
Theorem import_tally `{UnicodeCase} (service : Service) (user : N)
    (content : jsstring) (db : Db) (geo : GeoState) :
  let p := parseGedcomFull content in
  let r := importGedcom service user content db geo in
  let res := fst (fst r) in
  let g := geocodedFor service (events p) geo in
  imported res = length (List.filter (resolvedIn g) (events p))
  /\ skipped res = length (List.filter (unresolvedIn g) (events p))
  /\ (imported res + skipped res)%nat = length (events p)
  /\ db_events (snd (fst r)) = db_events db ++ persistedOf user g (events p)
  /\ (forall e, In e (events p) ->
        getCoord (ev_place e) g = cachedCoord (cache (snd r)) (ev_place e))
  /\ (events p <> [] ->
        (forall n, In n (res_people res) <->
           exists e, In e (events p) /\ resolvedIn g e = true /\ ev_name e = n)
        /\ NoDup (res_people res)
        /\ Sorted notAfter (res_people res)
        /\ message res
           = js "Successfully imported " ++ showNat (imported res)
             ++ js " events for " ++ showNat (length (res_people res))
             ++ js " people. " ++ storedText p)
  /\ (events p = [] ->
        imported res = 0%nat /\ skipped res = 0%nat /\ snd r = geo
        /\ res_people res = sortStrings (map p_name (people p))
        /\ message res = js "No geocodable events found. " ++ storedText p).
Proof.
  cbn zeta. unfold importGedcom, importParsed, geocodedFor.
  pose proof (events_usable content) as Husable.
  set (p := parseGedcomFull content) in *.
  destruct (events p) as [|e0 evts] eqn:Hev.
  - cbn [fst snd imported skipped res_people message db_events storeRecords
         List.filter length persistedOf omap list_omap].
    rewrite app_nil_r.
    repeat split; try reflexivity; done.
  - assert (Hne : events p <> []) by (rewrite Hev; discriminate).
    rewrite <- Hev in *. clear e0 evts Hev.
    set (places := map (fun e => Some (ev_place e)) (events p)).
    destruct (geocodeAll_spec service places geo) as (_ & Hfst & _).
    cbn zeta in Hfst.
    destruct (geocodeAll service places geo) as [geocoded geo'] eqn:Hg.
    cbn [fst snd] in *.
    destruct (tally_fold user (results geocoded) (events p)
                {| t_imported := 0; t_skipped := 0; t_peopleSet := [];
                   t_rows := [] |})
      as (Hi & Hs & Hr & Hp & Hd).
    cbn zeta in *. fold (tally user (results geocoded) (events p)) in *.
    cbn [t_imported t_skipped t_rows t_peopleSet Nat.add app] in *.
    cbn [imported skipped res_people message db_events storeRecords].
    assert (Hperm := sortStrings_perm (t_peopleSet (tally user (results geocoded) (events p)))).
    split; [exact Hi|]. split; [exact Hs|]. split.
    { rewrite Hi, Hs. apply filter_split_length. }
    split; [rewrite Hr; reflexivity|]. split.
    { intros e He. rewrite Hfst. cbn [results].
      apply getCoord_omap, In_dedupe, lookable_In; [exact He|].
      apply Husable, He. }
    split.
    + intros _. split; [|split; [|split]].
      * intros n. split; intros Hn.
        -- apply (Permutation_in n Hperm), Hp in Hn as [[]|Hn]. exact Hn.
        -- apply (Permutation_in n (Permutation_sym Hperm)), Hp. right. exact Hn.
      * rewrite Hperm. apply Hd. constructor.
      * apply sortStrings_sorted.
      * rewrite (Permutation_length Hperm). reflexivity.
    + intros Hnil. contradiction.
Qed.

(** The witness of C4's condition on the names: John Smith, born in
    Sydney, where the service finds nothing. *)
Lemma import_tally_witness :
  let p := parseGedcomFull (H:=asciiCase) johnSmithFile in
  let r := importGedcom (H:=asciiCase) noService 1%N johnSmithFile emptyDb emptyGeo in
  (forall n, In n (res_people (fst (fst r))) <->
     exists e, In e (events p)
       /\ resolvedIn (geocodedFor noService (events p) emptyGeo) e = true
       /\ ev_name e = n)
  /\ (imported (fst (fst r)) + skipped (fst (fst r)))%nat = 1%nat.
Proof.
  cbn zeta.
  destruct (import_tally (H:=asciiCase) noService 1%N johnSmithFile emptyDb emptyGeo)
    as (_ & _ & Hsum & _ & _ & Hsome & _).
  cbn zeta in *. split.
  - apply Hsome. vm_compute. discriminate.
  - rewrite Hsum. vm_compute. reflexivity.
Defined.

(** C4 as stated fails: a file whose one person has no event returns the
    person's name although nothing is persisted. *)
Lemma names_returned_without_events :
  let r := importGedcom (H:=asciiCase) noService 1%N nameOnlyFile emptyDb emptyGeo in
  res_people (fst (fst r)) = [js "John Smith"]
  /\ imported (fst (fst r)) = 0%nat
  /\ db_events (snd (fst r)) = [].
Proof. cbn zeta. repeat split; vm_compute; reflexivity. Qed.

(** C7, as amended: a person record whose birth place is the placeholder
    gives no birth event, so it is counted neither as imported nor as
    skipped (the two counters add up to the number of events, none of which
    has the placeholder as its place), and resolving the placeholder issues
    no lookup; more generally a place that the normalizer maps to null
    resolves to null at once, with the geocoder left as it was. *)
Theorem placeholder_birth_not_derived `{UnicodeCase} (service : Service)
    (user : N) (content : jsstring) (db : Db) (geo : GeoState) (i : Indi) :
  In i (fst (parseRecords content)) -> birth_place i = Some (js "?") ->
  (forall e, In e (eventsOfIndi i) -> ev_type e <> birth)
  /\ (forall e, In e (events (parseGedcomFull content)) -> ev_place e <> js "?")
  /\ (imported (fst (fst (importGedcom service user content db geo)))
      + skipped (fst (fst (importGedcom service user content db geo))))%nat
     = length (events (parseGedcomFull content))
  /\ geocode service (Some (js "?")) geo = (None, geo)
  /\ (forall place st, cleanPlaceName place = None ->
        geocode service place st = (None, st)).
Proof.
  intros Hi Hq. split; [|split; [|split; [|split]]].
  - intros e He Hk.
    destruct (truthy (nameOf i)) eqn:Hn.
    + assert (Hp : In e (partOf birth i)) by (apply eventsOfIndi_kind; auto).
      assert (Hex : exists e', In e' (partOf birth i)) by eauto.
      apply partOf_nonempty in Hex as [_ (p & Hp' & _ & Hne)].
      cbn [eventPlace] in Hp'. congruence.
    + unfold eventsOfIndi in He. rewrite Hn in He. destruct He.
  - intros e He Hp. apply events_usable in He. rewrite Hp in He.
    vm_compute in He. discriminate He.
  - apply import_counts_total.
  - apply geocode_null. reflexivity.
  - intros place st. apply geocode_null.
Qed.

(** The witness of C7: John Smith, born at the placeholder. *)
Lemma placeholder_birth_not_derived_witness :
  (forall e, In e (eventsOfIndi (H:=asciiCase) johnSmithNowhere) -> ev_type e <> birth)
  /\ geocode noService (Some (js "?")) emptyGeo = (None, emptyGeo).
Proof.
  destruct (placeholder_birth_not_derived (H:=asciiCase) noService 1%N
              placeholderFile emptyDb emptyGeo johnSmithNowhere)
    as (Hb & _ & _ & Hg & _).
  - vm_compute. left. reflexivity.
  - reflexivity.
  - split; assumption.
Defined.

(** C7 as stated fails: the import of a file whose only birth place is
    the placeholder counts nothing as skipped. *)
Lemma placeholder_birth_not_skipped :
  let r := importGedcom (H:=asciiCase) noService 1%N placeholderFile emptyDb emptyGeo in
  skipped (fst (fst r)) = 0%nat
  /\ imported (fst (fst r)) = 0%nat
  /\ sent (snd r) = [].
Proof. cbn zeta. repeat split; vm_compute; reflexivity. Qed.

End ImportProofs.

(* ===================================================================== *)
(** * Objects used as maps                                                *)
(* ===================================================================== *)

Module ObjectFacts.

Section Objects.
Context {K V : Type} `{EqDecision K}.
Implicit Types (o : obj (K:=K) (V:=V)) (k : K).

Lemma get_update k k' (f : V -> V) o :
  get k (update k' f o) = if bool_decide (k = k') then f <$> get k o else get k o.
Proof.
  induction o as [|[k0 v0] o IH]; cbn [update get].
  - destruct (bool_decide (k = k')); reflexivity.
  - destruct (bool_decide (k' = k0)) eqn:E'; cbn [get].
    + apply bool_decide_eq_true in E'. subst k0.
      destruct (bool_decide (k = k')); reflexivity.
    + apply bool_decide_eq_false in E'.
      destruct (bool_decide (k = k0)) eqn:E0.
      * apply bool_decide_eq_true in E0. subst k0.
        rewrite bool_decide_eq_false_2 by congruence. reflexivity.
      * exact IH.
Qed.

Lemma keysOf_update k (f : V -> V) o : keysOf (update k f o) = keysOf o.
Proof.
  unfold keysOf. induction o as [|[k0 v0] o IH]; cbn [update map]; [done|].
  destruct (bool_decide (k = k0)); cbn [map fst]; [done|]. rewrite IH. done.
Qed.

Lemma get_set k k' (v : V) o :
  get k (set k' v o) = if bool_decide (k = k') then Some v else get k o.
Proof.
  induction o as [|[k0 v0] o IH]; cbn [set get]; [done|].
  destruct (bool_decide (k' = k0)) eqn:E'; cbn [get].
  - apply bool_decide_eq_true in E'. subst k0.
    destruct (bool_decide (k = k')); reflexivity.
  - apply bool_decide_eq_false in E'.
    destruct (bool_decide (k = k0)) eqn:E0; [|exact IH].
    apply bool_decide_eq_true in E0. subst k0.
    rewrite bool_decide_eq_false_2 by congruence. reflexivity.
Qed.

Lemma keysOf_set k (v : V) o : keysOf (set k v o) = seen (keysOf o) k.
Proof.
  unfold keysOf, seen. induction o as [|[k0 v0] o IH]; cbn [set map fst].
  - rewrite bool_decide_eq_false_2 by (apply not_elem_of_nil). reflexivity.
  - destruct (bool_decide (k = k0)) eqn:E; cbn [map fst].
    + apply bool_decide_eq_true in E. subst k0.
      rewrite bool_decide_eq_true_2 by (apply list_elem_of_here). reflexivity.
    + apply bool_decide_eq_false in E. rewrite IH.
      destruct (bool_decide (k ∈ map fst o)) eqn:Ein.
      * apply bool_decide_eq_true in Ein.
        rewrite bool_decide_eq_true_2 by (apply list_elem_of_further, Ein). reflexivity.
      * apply bool_decide_eq_false in Ein.
        rewrite bool_decide_eq_false_2; [reflexivity|].
        intros [?|?]%elem_of_cons; contradiction.
Qed.

Lemma get_is_Some k o : is_Some (get k o) <-> k ∈ keysOf o.
Proof.
  unfold keysOf. induction o as [|[k0 v0] o IH]; cbn [get map fst].
  - split; [intros [? [=]]|intros []%not_elem_of_nil].
  - rewrite elem_of_cons. destruct (bool_decide (k = k0)) eqn:E.
    + apply bool_decide_eq_true in E. split; [auto|eauto].
    + apply bool_decide_eq_false in E. rewrite IH. intuition.
Qed.

Lemma get_None k o : get k o = None <-> k ∉ keysOf o.
Proof.
  rewrite <- get_is_Some. destruct (get k o) as [v|].
  - split; [discriminate|]. intros Hn. destruct Hn. eauto.
  - split; [|reflexivity]. intros _ [? [=]].
Qed.

End Objects.

Section Order.
Context {K : Type} `{EqDecision K}.
Variable indexOf : K -> option N.

Lemma In_insertIndexed (e x : N * K) (l : list (N * K)) :
  In x (insertIndexed e l) <-> x = e \/ In x l.
Proof.
  induction l as [|e' l IH]; cbn [insertIndexed In]; [intuition|].
  destruct (fst e <? fst e')%N; cbn [In]; [intuition|].
  rewrite IH. intuition.
Qed.

Lemma In_sorted (x : N * K) (l : list (N * K)) :
  In x (fold_right insertIndexed [] l) <-> In x l.
Proof.
  induction l as [|e l IH]; cbn [fold_right In]; [done|].
  rewrite In_insertIndexed, IH. intuition.
Qed.

(** The ordered keys are the keys. *)
Lemma In_orderKeys (k : K) (ks : list K) : In k (orderKeys indexOf ks) <-> In k ks.
Proof.
  unfold orderKeys, indexKeys, nameKeys.
  rewrite in_app_iff, in_map_iff, filter_In. split.
  - intros [([n k'] & <- & Hin)|[Hin _]]; [|exact Hin].
    apply In_sorted, list_elem_of_In, list_elem_of_omap in Hin
      as (k'' & Hk & Hopt).
    destruct (indexOf k''); [|discriminate Hopt]. injection Hopt as _ <-.
    apply list_elem_of_In, Hk.
  - intros Hin. destruct (indexOf k) as [n|] eqn:Hn; [left|right; auto].
    exists (n, k). split; [reflexivity|].
    apply In_sorted, list_elem_of_In, list_elem_of_omap.
    exists k. split; [apply list_elem_of_In, Hin|]. rewrite Hn. reflexivity.
Qed.


End Order.

End ObjectFacts.

(* ===================================================================== *)
(** * The tree builders                                                   *)
(* ===================================================================== *)

Module TreeProofs.
Import ObjectFacts.

Section Linking.
Context {K : Type} `{EqDecision K}.
Implicit Types (o : obj (K:=K) (V:=Node K)) (k c : K) (n : Node K).

Lemma grow_nil n : grow [] false n = n.
Proof.
  destruct n. unfold grow. cbn. rewrite app_nil_r, orb_false_r. reflexivity.
Qed.

Lemma grow_grow e1 e2 m1 m2 n :
  grow e2 m2 (grow e1 m1 n) = grow (e1 ++ e2) (m1 || m2) n.
Proof. unfold grow. cbn. rewrite app_assoc, orb_assoc. reflexivity. Qed.

Lemma keysOf_attach parent o c : keysOf (attach parent o c) = keysOf o.
Proof.
  unfold attach. destruct (get c o); [|reflexivity].
  rewrite !keysOf_update. reflexivity.
Qed.

(** One attachment, seen from any key. *)
Lemma get_attach parent o c k :
  get k (attach parent o c)
  = grow (if bool_decide (k = parent) && bool_decide (c ∈ keysOf o) then [c] else [])
         (bool_decide (k = c)) <$> get k o.
Proof.
  unfold attach. destruct (get c o) as [nc|] eqn:Hc.
  - assert (Hin : c ∈ keysOf o) by (apply get_is_Some; eauto).
    rewrite (bool_decide_eq_true_2 _ Hin), andb_true_r.
    rewrite !get_update.
    destruct (get k o) as [n|]; cbn [fmap option_fmap option_map];
      destruct (bool_decide (k = c)), (bool_decide (k = parent));
      cbn [fmap option_fmap option_map]; try reflexivity; f_equal;
      destruct n; unfold grow, markHasParent, addChild; cbn;
      rewrite ?app_nil_r, ?orb_true_r, ?orb_false_r; reflexivity.
  - apply get_None in Hc.
    rewrite (bool_decide_eq_false_2 _ Hc), andb_false_r.
    destruct (get k o) as [n|] eqn:Hk; [|reflexivity].
    assert (k <> c).
    { intros ->. apply Hc, get_is_Some. eauto. }
    rewrite bool_decide_eq_false_2 by assumption.
    cbn [fmap option_fmap option_map]. rewrite grow_nil. reflexivity.
Qed.

(** The loop over the children of one link. *)
Lemma get_attach_fold parent (cs : list K) :
  forall o k,
    keysOf (fold_left (attach parent) cs o) = keysOf o
    /\ get k (fold_left (attach parent) cs o)
       = grow (if bool_decide (k = parent)
               then List.filter (fun c => bool_decide (c ∈ keysOf o)) cs else [])
              (bool_decide (k ∈ cs)) <$> get k o.
Proof.
  induction cs as [|c cs IH]; intros o k; cbn [fold_left List.filter].
  - split; [reflexivity|].
    rewrite (bool_decide_eq_false_2 (k ∈ [])) by apply not_elem_of_nil.
    destruct (bool_decide (k = parent)); destruct (get k o);
      cbn [fmap option_fmap option_map]; rewrite ?grow_nil; reflexivity.
  - destruct (IH (attach parent o c) k) as [Hk Hg].
    rewrite Hk, Hg, keysOf_attach, get_attach. split; [reflexivity|].
    destruct (get k o) as [n|]; cbn [fmap option_fmap option_map]; [|reflexivity].
    rewrite grow_grow. f_equal. f_equal.
    + destruct (bool_decide (k = parent)); cbn [andb]; [|reflexivity].
      destruct (bool_decide (c ∈ keysOf o)); reflexivity.
    + destruct (decide (k = c)) as [->|Hne].
      * rewrite (bool_decide_eq_true_2 (c = c)) by reflexivity. cbn [orb].
        symmetry. apply bool_decide_eq_true_2, list_elem_of_here.
      * rewrite (bool_decide_eq_false_2 _ Hne). cbn [orb].
        apply bool_decide_ext. rewrite elem_of_cons. intuition.
Qed.

Lemma attachedUnder_app known (l1 l2 : list (Link (K:=K))) k :
  attachedUnder known (l1 ++ l2) k = attachedUnder known l1 k ++ attachedUnder known l2 k.
Proof. unfold attachedUnder. apply flat_map_app. Qed.

Lemma isAttached_app (l1 l2 : list (Link (K:=K))) k :
  isAttached (l1 ++ l2) k = isAttached l1 k || isAttached l2 k.
Proof. unfold isAttached. apply existsb_app. Qed.

(** A change of attributes, or of nothing, keeps a map linked. *)
Lemma linkedBy_update known links o k (f : Node K -> Node K) :
  (forall n, n_children (f n) = n_children n /\ n_hasParent (f n) = n_hasParent n) ->
  linkedBy known links o -> linkedBy known links (update k f o).
Proof.
  intros Hf [Hk Hn]. split; [rewrite keysOf_update; exact Hk|].
  intros k' n'. rewrite get_update.
  destruct (bool_decide (k' = k)); [|apply Hn].
  destruct (get k' o) as [n|] eqn:Hg; [|discriminate].
  cbn [fmap option_fmap option_map]. intros [= <-].
  destruct (Hf n) as [-> ->]. apply Hn, Hg.
Qed.

(** The link of a known parent, attached child by child. *)
Lemma linkedBy_attach known links o parent (cs : list K) :
  linkedBy known links o ->
  linkedBy known (links ++ [(parent, cs)]) (fold_left (attach parent) cs o).
Proof.
  intros [Hk Hn]. split.
  - rewrite (proj1 (get_attach_fold parent cs o parent)). exact Hk.
  - intros k n'. rewrite (proj2 (get_attach_fold parent cs o k)).
    destruct (get k o) as [n|] eqn:Hg; [|discriminate].
    cbn [fmap option_fmap option_map]. intros [= <-].
    destruct (Hn k n Hg) as [Hc Hp]. unfold grow. cbn [n_children n_hasParent].
    rewrite Hc, Hp, attachedUnder_app, isAttached_app, Hk.
    unfold attachedUnder, isAttached. cbn [flat_map existsb fst snd].
    rewrite app_nil_r, orb_false_r. split; [|reflexivity]. f_equal.
    destruct (decide (k = parent)) as [->|Hne].
    + rewrite !bool_decide_eq_true_2 by reflexivity. reflexivity.
    + rewrite !bool_decide_eq_false_2 by congruence. reflexivity.
Qed.

(** The roots of a linked map are the keys that no link lists. *)
Lemma rootsOf_linked (indexOf : K -> option N) known links o :
  linkedBy known links o -> rootsOf indexOf o = rootKeys indexOf known links.
Proof.
  intros [Hk Hn]. unfold rootsOf, rootKeys, ownKeys. rewrite Hk.
  apply filter_ext_in_iff. intros k Hin. apply In_orderKeys in Hin.
  unfold isRoot. rewrite <- Hk in Hin.
  apply list_elem_of_In, get_is_Some in Hin as [n Hg].
  rewrite Hg. destruct (Hn k n Hg) as [_ ->]. reflexivity.
Qed.

(** ** The walk over the tree *)

Lemma cleanNode_mono o :
  forall fuel k t, cleanNode fuel o k = Some t ->
    forall fuel', (fuel <= fuel')%nat -> cleanNode fuel' o k = Some t.
Proof.
  induction fuel as [|fuel IH]; intros k t; cbn [cleanNode]; [discriminate|].
  destruct (get k o) as [n|] eqn:Hg; [|discriminate].
  destruct (mapM (cleanNode fuel o) (n_children n)) as [ts|] eqn:Hm; [|discriminate].
  intros [= <-] [|fuel'] Hle; [lia|]. cbn [cleanNode]. rewrite Hg.
  assert (Hm' : mapM (cleanNode fuel' o) (n_children n) = Some ts).
  { apply mapM_Some. apply mapM_Some in Hm.
    eapply Forall2_impl; [exact Hm|]. intros c t' Hc. apply (IH c t' Hc). lia. }
  rewrite Hm'. reflexivity.
Qed.

(** When the links go down along a rank, the walk from a known key ends
    within the rank of the key. *)
Lemma cleanNode_total (rank : K -> nat) known links o :
  linkedBy known links o -> descending rank known links ->
  forall fuel k, k ∈ known -> (rank k < fuel)%nat -> is_Some (cleanNode fuel o k).
Proof.
  intros [Hk Hn] Hdesc. induction fuel as [|fuel IH]; intros k Hin Hr; [lia|].
  cbn [cleanNode]. rewrite <- Hk in Hin.
  destruct (proj2 (get_is_Some k o) Hin) as [n Hg]. rewrite Hg.
  assert (Hall : is_Some (mapM (cleanNode fuel o) (n_children n))).
  { apply mapM_is_Some, Forall_forall. intros c Hc.
    destruct (Hn k n Hg) as [Hch _]. rewrite Hch in Hc.
    apply list_elem_of_In, in_flat_map in Hc as (l & Hl & Hc).
    destruct (bool_decide (fst l = k)) eqn:E; [|destruct Hc].
    apply bool_decide_eq_true in E. subst k.
    apply filter_In in Hc as [Hc Hkn]. apply bool_decide_eq_true in Hkn.
    apply IH; [exact Hkn|]. specialize (Hdesc l c Hl Hc Hkn). lia. }
  destruct Hall as [ts ->]. eauto.
Qed.

(** The end of a builder on a linked map whose links go down. *)
Lemma finish_linked (indexOf : K -> option N) (label : jsstring) (rank : K -> nat)
    (bound : nat) known links o :
  linkedBy known links o -> descending rank known links ->
  (forall k, (rank k < bound)%nat) ->
  exists ts,
    Forall2 (fun r t => forall fuel, (bound <= fuel)%nat -> cleanNode fuel o r = Some t)
      (rootKeys indexOf known links) ts
    /\ forall fuel, (bound <= fuel)%nat ->
         finish indexOf label fuel o = Some (wrapRoots label ts).
Proof.
  intros Hl Hd Hb.
  assert (Hm : is_Some (mapM (cleanNode bound o) (rootKeys indexOf known links))).
  { apply mapM_is_Some, Forall_forall. intros k Hk.
    apply (cleanNode_total rank known links o Hl Hd); [|apply Hb].
    apply list_elem_of_In, filter_In in Hk as [Hk _].
    apply In_orderKeys, list_elem_of_In in Hk. exact Hk. }
  destruct Hm as [ts Hts]. exists ts.
  assert (Hall : Forall2 (fun r t => forall fuel, (bound <= fuel)%nat ->
                            cleanNode fuel o r = Some t)
                   (rootKeys indexOf known links) ts).
  { apply mapM_Some in Hts. eapply Forall2_impl; [exact Hts|].
    intros r t Hr fuel Hle. apply (cleanNode_mono o bound r t Hr fuel Hle). }
  split; [exact Hall|]. intros fuel Hle.
  unfold finish. rewrite (rootsOf_linked indexOf known links o Hl).
  destruct Hall as [|r t rs ts' Hr Hrs]; [reflexivity|].
  destruct Hrs as [|r2 t2 rs ts'' Hr2 Hrs].
  - rewrite (Hr fuel Hle). reflexivity.
  - assert (Hmm : mapM (cleanNode fuel o) (r :: r2 :: rs) = Some (t :: t2 :: ts'')).
    { apply mapM_Some. constructor; [apply Hr, Hle|].
      constructor; [apply Hr2, Hle|].
      eapply Forall2_impl; [exact Hrs|]. intros ? ? Hx. apply Hx, Hle. }
    rewrite Hmm. reflexivity.
Qed.




End Linking.

(** ** The map of buildGedcomTree *)

Lemma setAttribute_shape {K : Type} (name : string) (v : AttrValue) (n : Node K) :
  n_children (setAttribute name v n) = n_children n
  /\ n_hasParent (setAttribute name v n) = n_hasParent n.
Proof. split; reflexivity. Qed.

Lemma primaryParent_known (known : list jsstring) (fam : Fam) (o : PeopleMap) :
  keysOf o = known -> primaryParent fam o = primaryOf known fam.
Proof.
  intros <-. unfold primaryParent, primaryOf, resolve.
  destruct (orElse (husbandId fam) (wifeId fam)) as [pid|]; [|reflexivity].
  destruct (truthy pid); [|reflexivity]. cbn [andb].
  destruct (get pid o) as [n|] eqn:Hg.
  - rewrite bool_decide_eq_true_2 by (apply get_is_Some; eauto). reflexivity.
  - rewrite bool_decide_eq_false_2 by (apply get_None, Hg). reflexivity.
Qed.

Lemma mergeSpouse_linked known links (fam : Fam) (o : PeopleMap) :
  linkedBy known links o -> linkedBy known links (mergeSpouse fam o).
Proof.
  intros Hl. unfold mergeSpouse.
  destruct (resolve (husbandId fam) o) as [[h hn]|]; [|exact Hl].
  destruct (resolve (wifeId fam) o) as [[w wn]|]; [|exact Hl].
  destruct (_ || _); repeat apply linkedBy_update;
    try exact Hl; intros n; apply setAttribute_shape.
Qed.

Lemma linkFamily_linked known links (fam : Fam) (o : PeopleMap) :
  linkedBy known links o ->
  linkedBy known (links ++ gedcomLinks known [fam]) (linkFamily o fam).
Proof.
  intros Hl. unfold linkFamily, gedcomLinks. cbn [omap list_omap].
  rewrite (primaryParent_known known fam o (proj1 Hl)).
  destruct (primaryOf known fam) as [pid|]; cbn [fmap option_fmap option_map].
  - apply linkedBy_attach, mergeSpouse_linked, Hl.
  - rewrite app_nil_r. apply mergeSpouse_linked, Hl.
Qed.

Lemma linkFamilies_linked known (fams : list Fam) :
  forall links (o : PeopleMap),
    linkedBy known links o ->
    linkedBy known (links ++ gedcomLinks known fams) (fold_left linkFamily fams o).
Proof.
  induction fams as [|fam fams IH]; intros links o Hl; cbn [fold_left].
  - unfold gedcomLinks. cbn [omap list_omap]. rewrite app_nil_r. exact Hl.
  - change (fam :: fams) with ([fam] ++ fams).
    unfold gedcomLinks. rewrite omap_app, app_assoc.
    apply IH, linkFamily_linked, Hl.
Qed.

Section Fresh.
Context {K X : Type} `{EqDecision K}.
Variables (key : X -> K) (node : X -> Node K).
Hypothesis node_fresh : forall x, n_children (node x) = [] /\ n_hasParent (node x) = false.

(** The map before the links: one node for each key, without children
    and without a mark, in the order in which the keys are first met. *)
Lemma fresh_map (xs : list X) :
  forall o : obj (K:=K) (V:=Node K),
    (forall k n, get k o = Some n -> n_children n = [] /\ n_hasParent n = false) ->
    keysOf (fold_left (fun o x => set (key x) (node x) o) xs o)
      = fold_left seen (map key xs) (keysOf o)
    /\ (forall k n, get k (fold_left (fun o x => set (key x) (node x) o) xs o) = Some n ->
          n_children n = [] /\ n_hasParent n = false).
Proof.
  induction xs as [|x xs IH]; intros o Ho; cbn [fold_left map]; [auto|].
  rewrite <- keysOf_set with (v := node x). apply IH.
  intros k n. rewrite get_set. destruct (bool_decide (k = key x)); [|apply Ho].
  intros [= <-]. apply node_fresh.
Qed.

Lemma fresh_linked (xs : list X) :
  linkedBy (firstSeen (map key xs)) []
    (fold_left (fun o x => set (key x) (node x) o) xs []).
Proof.
  destruct (fresh_map xs []) as [Hk Hn]; [intros k n [=]|].
  split; [exact Hk|]. intros k n Hg. apply (Hn k n Hg).
Qed.

End Fresh.

Lemma gedcomMap_linked (people : list PersonRow) (fams : list Fam) :
  linkedBy (gedcomIds people) (gedcomLinks (gedcomIds people) fams)
    (gedcomMap people fams).
Proof.
  unfold gedcomMap.
  apply (linkFamilies_linked (gedcomIds people) fams []).
  apply (fresh_linked r_gedcom_id personNode). intros x. split; reflexivity.
Qed.




(** ** The map of buildFamilyTree *)

Lemma bothKnown_known (known : list N) (rel : Relationship) (o : MemberMap) :
  keysOf o = known ->
  bothKnown rel o
  = bool_decide (rel_user_id rel ∈ known) && bool_decide (rel_related_user_id rel ∈ known).
Proof.
  intros <-. unfold bothKnown.
  destruct (get (rel_user_id rel) o) eqn:Hu.
  - rewrite (bool_decide_eq_true_2 (rel_user_id rel ∈ keysOf o))
      by (apply get_is_Some; eauto).
    destruct (get (rel_related_user_id rel) o) eqn:Hr.
    + rewrite bool_decide_eq_true_2 by (apply get_is_Some; eauto). reflexivity.
    + rewrite bool_decide_eq_false_2 by (apply get_None, Hr). reflexivity.
  - rewrite (bool_decide_eq_false_2 (rel_user_id rel ∈ keysOf o))
      by (apply get_None, Hu). reflexivity.
Qed.

Lemma linkRelationship_linked known links (rel : Relationship) (o : MemberMap) :
  linkedBy known links o ->
  linkedBy known (links ++ familyLinks known [rel]) (linkRelationship o rel).
Proof.
  intros Hl. unfold linkRelationship, familyLinks, parentLink.
  cbn [omap list_omap].
  rewrite (bothKnown_known known rel o (proj1 Hl)), andb_assoc.
  match goal with
  | |- linkedBy _ (_ ++ match (if ?b then _ else _) with _ => _ end) _ =>
      destruct b; cbn [fmap option_fmap option_map]
  end.
  - pose proof (linkedBy_attach known links o (rel_user_id rel)
                  [rel_related_user_id rel] Hl) as Hl1.
    cbn [fold_left] in Hl1.
    destruct (_ && bothKnown rel _); [|exact Hl1].
    destruct (get (rel_user_id rel) _) as [u|]; [|exact Hl1].
    destruct (get (rel_related_user_id rel) _) as [r|]; [|exact Hl1].
    destruct (truthy _); [exact Hl1|].
    apply linkedBy_update; [|exact Hl1]. intros n. apply setAttribute_shape.
  - rewrite app_nil_r.
    destruct (_ && bothKnown rel _); [|exact Hl].
    destruct (get (rel_user_id rel) _) as [u|]; [|exact Hl].
    destruct (get (rel_related_user_id rel) _) as [r|]; [|exact Hl].
    destruct (truthy _); [exact Hl|].
    apply linkedBy_update; [|exact Hl]. intros n. apply setAttribute_shape.
Qed.

Lemma linkRelationships_linked known (rels : list Relationship) :
  forall links (o : MemberMap),
    linkedBy known links o ->
    linkedBy known (links ++ familyLinks known rels) (fold_left linkRelationship rels o).
Proof.
  induction rels as [|rel rels IH]; intros links o Hl; cbn [fold_left].
  - unfold familyLinks. cbn [omap list_omap]. rewrite app_nil_r. exact Hl.
  - change (rel :: rels) with ([rel] ++ rels).
    unfold familyLinks. rewrite omap_app, app_assoc.
    apply IH, linkRelationship_linked, Hl.
Qed.

Lemma familyMap_linked (members : list Member) (rels : list Relationship) :
  linkedBy (memberIds members) (familyLinks (memberIds members) rels)
    (familyMap members rels).
Proof.
  unfold familyMap.
  apply (linkRelationships_linked (memberIds members) rels []).
  apply (fresh_linked m_id memberNode). intros x. split; reflexivity.
Qed.

(** ** The claims on the builders *)

(** What the walk returns for a key: the node of the key, with the walks
    of its children below it. *)
Lemma cleanNode_node {K : Type} `{EqDecision K} (o : obj (K:=K) (V:=Node K))
    (fuel : nat) (k : K) (t : Tree) :
  cleanNode (S fuel) o k = Some t ->
  exists n, get k o = Some n /\ t_name t = n_name n
    /\ t_attributes t = n_attributes n
    /\ Forall2 (fun c t' => cleanNode fuel o c = Some t') (n_children n) (t_children t).
Proof.
  cbn [cleanNode]. destruct (get k o) as [n|]; [|discriminate].
  destruct (mapM _ _) as [ts|] eqn:Hm; [|discriminate]. intros [= <-].
  exists n. repeat split. apply mapM_Some, Hm.
Qed.

(** C2, as amended: every distinct person id has one node in the map;
    every family link whose primary parent (the husband, else the wife) is
    a known person attaches each of its known children under that parent,
    once for each time it is listed, and marks it: the children of a node
    are, link after link, the known child ids of the links that have the
    node as primary parent, and a node is marked when a link with a known
    primary parent lists it.  A child of several links is attached once for
    each; a child id that is not known is left out. *)
Theorem children_attached_per_link (people : list PersonRow) (fams : list Fam)
    (k : jsstring) (n : Node jsstring) :
  get k (gedcomMap people fams) = Some n ->
  keysOf (gedcomMap people fams) = gedcomIds people
  /\ n_children n
     = attachedUnder (gedcomIds people) (gedcomLinks (gedcomIds people) fams) k
  /\ n_hasParent n = isAttached (gedcomLinks (gedcomIds people) fams) k
  /\ (forall fuel t, cleanNode (S fuel) (gedcomMap people fams) k = Some t ->
        Forall2 (fun c t' => cleanNode fuel (gedcomMap people fams) c = Some t')
          (n_children n) (t_children t)).
Proof.
  intros Hg. destruct (gedcomMap_linked people fams) as [Hk Hn].
  destruct (Hn k n Hg) as [Hc Hp]. repeat split; try assumption.
  intros fuel t Ht. apply cleanNode_node in Ht as (n' & Hg' & _ & _ & Hall).
  congruence.
Qed.

(** The witness of C2: A, whose family lists C. *)
Lemma children_attached_per_link_witness :
  exists n, get (js "@A@") (gedcomMap threePeople twoFamilies) = Some n
    /\ n_children n = [js "@C@"] /\ n_hasParent n = false.
Proof.
  destruct (get (js "@A@") (gedcomMap threePeople twoFamilies)) as [n|] eqn:Hg;
    [|vm_compute in Hg; discriminate Hg].
  exists n. split; [reflexivity|].
  destruct (children_attached_per_link threePeople twoFamilies (js "@A@") n Hg)
    as (_ & -> & -> & _).
  split; vm_compute; reflexivity.
Defined.

(** C2 as stated fails: C, a child in two families, is attached under
    both parents, and the tree of three people has four person nodes under
    the virtual root. *)
Lemma child_of_two_families_attached_twice :
  option_map (option_map (fun t => map (fun c => (t_name c, childNames c)) (t_children t)))
    (buildGedcomTree 5 threePeople twoFamilies)
  = Some (Some [(js "A", [js "C"]); (js "B", [js "C"])])
  /\ option_map (option_map treeSize) (buildGedcomTree 5 threePeople twoFamilies)
     = Some (Some 5%nat)
  /\ length threePeople = 3%nat.
Proof. repeat split; vm_compute; reflexivity. Qed.





End TreeProofs.

(* ===================================================================== *)
(** * Further properties                                                  *)
(* ===================================================================== *)

Module DateShape.

Ltac invert H := inversion H; subst; clear H.

(** A pattern without groups leaves the captures as they are. *)
Lemma Matches_groupFree (r : regex) (a b : position) :
  Matches r a b -> groupFree r = true -> snd b = snd a.
Proof.
  induction 1; cbn [groupFree snd]; intros Hg; try reflexivity;
    try (apply andb_prop in Hg as [Hg1 Hg2]); try discriminate; auto.
  rewrite IHMatches2, IHMatches1; auto.
Qed.

Lemma Matches_cat (r1 r2 : regex) (a d : position) :
  Matches (Cat r1 r2) a d ->
  exists p s c, Matches r1 a (p, s, c) /\ Matches r2 (p, s, c) d.
Proof. intros M. invert M. destruct b as [[p s] c]. eauto. Qed.

Lemma Matches_digit (a b : position) :
  Matches digit a b ->
  snd b = snd a /\ exists x, snd (fst a) = x :: snd (fst b) /\ isDigit x = true.
Proof. intros M. invert M. cbn. eauto. Qed.

Lemma Matches_digits12 (a b : position) :
  Matches digits12 a b ->
  snd b = snd a /\ exists w, snd (fst a) = w ++ snd (fst b) /\ dayDigits w = true.
Proof.
  intros M. apply Matches_cat in M as (p & s & c & M1 & M2).
  apply Matches_digit in M1 as [Hc1 (x & Hx & Dx)]. cbn [fst snd] in *.
  invert M2.
  - match goal with M : Matches digit _ _ |- _ =>
      apply Matches_digit in M as [Hc2 (y & Hy & Dy)] end.
    cbn [fst snd] in *. split; [congruence|].
    exists [x; y]. rewrite Hx, Hy. split; [reflexivity|].
    unfold dayDigits. cbn. rewrite Dx, Dy. reflexivity.
  - cbn [fst snd]. split; [congruence|].
    exists [x]. rewrite Hx. split; [reflexivity|].
    unfold dayDigits. cbn. rewrite Dx. reflexivity.
Qed.

Lemma Matches_digits4 (a b : position) :
  Matches digits4 a b ->
  snd b = snd a /\ exists w, snd (fst a) = w ++ snd (fst b) /\ digitsOf 4 w = true.
Proof.
  intros M. cbn [digits4 cats] in M.
  apply Matches_cat in M as (p1 & s1 & c1 & M1 & M).
  apply Matches_cat in M as (p2 & s2 & c2 & M2 & M).
  apply Matches_cat in M as (p3 & s3 & c3 & M3 & M4).
  apply Matches_digit in M1 as [C1 (x1 & H1 & D1)].
  apply Matches_digit in M2 as [C2 (x2 & H2 & D2)].
  apply Matches_digit in M3 as [C3 (x3 & H3 & D3)].
  apply Matches_digit in M4 as [C4 (x4 & H4 & D4)].
  cbn [fst snd] in *. split; [congruence|].
  exists [x1; x2; x3; x4]. rewrite H1, H2, H3, H4. split; [reflexivity|].
  unfold digitsOf. cbn. rewrite D1, D2, D3, D4. reflexivity.
Qed.

(** A group records what its pattern took. *)
Lemma Matches_group (i : nat) (r : regex) (a b : position) :
  Matches (Group i r) a b ->
  exists w c, snd (fst a) = w ++ snd (fst b) /\ snd b = (i, w) :: c
              /\ Matches r a (fst b, c).
Proof. intros M. invert M. cbn [fst snd]. eauto. Qed.

Lemma Matches_group_free (i : nat) (r : regex) (a b : position) :
  groupFree r = true -> Matches (Group i r) a b ->
  exists w, snd b = (i, w) :: snd a.
Proof.
  intros Hg M. apply Matches_group in M as (w & c & _ & Hc & M).
  apply Matches_groupFree in M; [|exact Hg]. cbn [snd] in M. subst c. eauto.
Qed.

Lemma Matches_group_digits12 (i : nat) (a b : position) :
  Matches (Group i digits12) a b ->
  exists w, snd b = (i, w) :: snd a /\ dayDigits w = true.
Proof.
  intros M. apply Matches_group in M as (w & c & Hw & Hc & M).
  apply Matches_digits12 in M as [Hc' (w' & Hw' & D)]. cbn [fst snd] in *.
  rewrite Hw in Hw'. apply app_inv_tail in Hw'. subst. eauto.
Qed.

Lemma Matches_group_digits4 (i : nat) (a b : position) :
  Matches (Group i digits4) a b ->
  exists w, snd b = (i, w) :: snd a /\ digitsOf 4 w = true.
Proof.
  intros M. apply Matches_group in M as (w & c & Hw & Hc & M).
  apply Matches_digits4 in M as [Hc' (w' & Hw' & D)]. cbn [fst snd] in *.
  rewrite Hw in Hw'. apply app_inv_tail in Hw'. subst. eauto.
Qed.

(** Splitting a sequence, and the steps that record nothing. *)
Ltac cat M :=
  let p := fresh "p" in let s := fresh "s" in let c := fresh "c" in
  let M1 := fresh "M" in
  apply Matches_cat in M as (p & s & c & M1 & M).

Ltac free M :=
  apply Matches_groupFree in M; [cbn [snd] in M|reflexivity].

(** The captures of [^(\d{1,2})sep(\w+)sep(\d{4})$], for the separators
    of the second and the third pattern. *)
Lemma day_month_year_captures (sep1 sep2 : regex) (s : jsstring) (f : found) :
  groupFree sep1 = true -> groupFree sep2 = true ->
  search (cats [ Bol; Group 1 digits12; sep1; Group 2 (plus isWord); sep2;
                 Group 3 digits4; Eol ]) s = Some f ->
  exists w1 w2 w3,
    f_caps f = [(3, w3); (2, w2); (1, w1)]%nat
    /\ dayDigits w1 = true /\ digitsOf 4 w3 = true.
Proof.
  intros G1 G2 Hs. cbn [cats] in Hs. apply search_bol_sound in Hs as [q M].
  cat M. cat M. cat M. cat M. cat M.
  apply Matches_group_digits12 in M0 as (w1 & C1 & D1).
  apply Matches_groupFree in M1; [|exact G1].
  apply Matches_group_free in M2 as (w2 & C2); [|reflexivity].
  apply Matches_groupFree in M3; [|exact G2].
  apply Matches_group_digits4 in M4 as (w3 & C3 & D3).
  free M. cbn [snd] in *. exists w1, w2, w3. split; [congruence|]. auto.
Qed.

(** The captures of [^(\w+)\s+(\d{1,2}),?\s+(\d{4})$]. *)
Lemma month_day_year_captures (s : jsstring) (f : found) :
  search reMdy s = Some f ->
  exists w1 w2 w3,
    f_caps f = [(3, w3); (2, w2); (1, w1)]%nat
    /\ dayDigits w2 = true /\ digitsOf 4 w3 = true.
Proof.
  intros Hs. unfold reMdy in Hs. cbn [cats] in Hs.
  apply search_bol_sound in Hs as [q M].
  cat M. cat M. cat M. cat M. cat M. cat M.
  apply Matches_group_free in M0 as (w1 & C1); [|reflexivity].
  free M1.
  apply Matches_group_digits12 in M2 as (w2 & C2 & D2).
  free M3. free M4.
  apply Matches_group_digits4 in M5 as (w3 & C3 & D3).
  free M. cbn [snd] in *. exists w1, w2, w3. split; [congruence|]. auto.
Qed.

(** The captures of [^(\w+)\s+(\d{4})$]. *)
Lemma month_year_captures (s : jsstring) (f : found) :
  search reMy s = Some f ->
  exists w1 w2, f_caps f = [(2, w2); (1, w1)]%nat /\ digitsOf 4 w2 = true.
Proof.
  intros Hs. unfold reMy in Hs. cbn [cats] in Hs.
  apply search_bol_sound in Hs as [q M].
  cat M. cat M. cat M.
  apply Matches_group_free in M0 as (w1 & C1); [|reflexivity].
  free M1.
  apply Matches_group_digits4 in M2 as (w2 & C2 & D2).
  free M. cbn [snd] in *. exists w1, w2. split; [congruence|]. auto.
Qed.

(** What [^\d{4}$] accepts is four digits. *)
Lemma year_only (s : jsstring) : test reYear s = true -> digitsOf 4 s = true.
Proof.
  unfold test. destruct (search reYear s) as [f|] eqn:Hs; [intros _|discriminate].
  unfold reYear in Hs. cbn [cats] in Hs. apply search_bol_sound in Hs as [q M].
  cat M. apply Matches_digits4 in M0 as [_ (w & Hw & D)]. cbn [fst snd] in Hw.
  invert M. rewrite app_nil_r. exact D.
Qed.

(** A month of the table is two digits; the other two values are the
    inherited ones. *)
Lemma assocStr_In (key m : jsstring) (l : list (string * string)) :
  assocStr key l = Some m -> In m (map (fun kv => js (snd kv)) l).
Proof.
  induction l as [|[k v] l IH]; cbn [assocStr map snd]; [discriminate|].
  destruct (eqStr key (js k)).
  - intros [= <-]. left. reflexivity.
  - intros Hm. right. auto.
Qed.

Lemma monthOf_shape (key m : jsstring) :
  monthOf key = Some m -> digitsOf 2 m = true \/ In m inheritedMonths.
Proof.
  unfold monthOf. destruct (assocStr key MONTHS) as [m'|] eqn:Ha.
  - intros [= <-]. left. apply assocStr_In in Ha.
    assert (Hall : forallb (digitsOf 2) (map (fun kv => js (snd kv)) MONTHS) = true)
      by (vm_compute; reflexivity).
    rewrite forallb_forall in Hall. apply Hall. exact Ha.
  - destruct (eqStr key (js "constructor")).
    + intros [= <-]. right. left. reflexivity.
    + destruct (eqStr key (js "__proto__")); [|discriminate].
      intros [= <-]. right. right. left. reflexivity.
Qed.

Lemma padStart2_day (w : jsstring) : dayDigits w = true -> digitsOf 2 (padStart2 w) = true.
Proof.
  unfold dayDigits, digitsOf. destruct w as [|x [|y [|z w]]]; cbn; try discriminate.
  - rewrite andb_true_r. intros ->. reflexivity.
  - auto.
Qed.

Lemma year_month_day (y m a : jsstring) :
  digitsOf 4 y = true -> digitsOf 2 m = true \/ In m inheritedMonths ->
  digitsOf 2 a = true ->
  let d := y ++ js "-" ++ m ++ js "-" ++ a in
  isIsoDate d = true \/ hasInheritedMonth d.
Proof.
  intros Hy [Hm|Hm] Ha d.
  - left. subst d. unfold digitsOf in *.
    destruct y as [|y1 [|y2 [|y3 [|y4 [|]]]]]; try discriminate.
    destruct m as [|m1 [|m2 [|]]]; try discriminate.
    destruct a as [|a1 [|a2 [|]]]; try discriminate.
    cbn in Hy, Hm, Ha.
    repeat match goal with H : _ && _ = true |- _ => apply andb_prop in H as [? H] end.
    change (js "-") with [45%N]. cbn [app isIsoDate forallb].
    repeat match goal with H : isDigit _ = true |- _ => rewrite H; clear H end.
    reflexivity.
  - right. exists y, m, a. auto.
Qed.

Lemma datePattern_built (r : regex) (gm : nat) (build : found -> jsstring -> jsstring)
    (cleaned d : jsstring) :
  datePattern r gm build cleaned = Some d ->
  exists f month,
    search r cleaned = Some f
    /\ monthOf (toLowerCaseAscii (group gm f)) = Some month
    /\ d = build f month.
Proof.
  unfold datePattern. destruct (search r cleaned) as [f|]; [|discriminate].
  destruct (monthOf _) as [month|] eqn:Hm; [|discriminate].
  destruct (truthy month); [|discriminate]. intros [= <-]. eauto.
Qed.

Lemma parseCleaned_shape (cleaned d : jsstring) :
  firstOf datePatterns cleaned = Some d ->
  isIsoDate d = true \/ hasInheritedMonth d.
Proof.
  unfold datePatterns. cbn [firstOf].
  destruct (byYear cleaned) as [d0|] eqn:E0.
  { intros [= <-]. unfold byYear in E0.
    destruct (test reYear cleaned) eqn:Ht; [|discriminate].
    injection E0 as <-. apply year_only in Ht.
    apply (year_month_day cleaned (js "01") (js "01")); auto. }
  destruct (byDash cleaned) as [d1|] eqn:E1.
  { intros [= <-]. apply datePattern_built in E1 as (f & month & Hs & Hm & ->).
    apply day_month_year_captures in Hs as (w1 & w2 & w3 & Hc & D1 & D3);
      [|reflexivity|reflexivity].
    unfold group. rewrite Hc. cbn [capture Nat.eqb].
    apply year_month_day; eauto using monthOf_shape, padStart2_day. }
  destruct (byDmy cleaned) as [d2|] eqn:E2.
  { intros [= <-]. apply datePattern_built in E2 as (f & month & Hs & Hm & ->).
    apply day_month_year_captures in Hs as (w1 & w2 & w3 & Hc & D1 & D3);
      [|reflexivity|reflexivity].
    unfold group. rewrite Hc. cbn [capture Nat.eqb].
    apply year_month_day; eauto using monthOf_shape, padStart2_day. }
  destruct (byMdy cleaned) as [d3|] eqn:E3.
  { intros [= <-]. apply datePattern_built in E3 as (f & month & Hs & Hm & ->).
    apply month_day_year_captures in Hs as (w1 & w2 & w3 & Hc & D2 & D3).
    unfold group. rewrite Hc. cbn [capture Nat.eqb].
    apply year_month_day; eauto using monthOf_shape, padStart2_day. }
  destruct (byMy cleaned) as [d4|] eqn:E4; [|discriminate].
  intros [= <-]. apply datePattern_built in E4 as (f & month & Hs & Hm & ->).
  apply month_year_captures in Hs as (w1 & w2 & Hc & D2).
  unfold group. rewrite Hc. cbn [capture Nat.eqb].
  apply (year_month_day w2 month (js "01")); eauto using monthOf_shape.
Qed.

(** X1: every date that [parseDate] returns is a year of four digits, a month
    and a day of two digits, joined by [-]: a zero-padded ISO date, unless
    the month word is one of the two lower-case words that [MONTHS]
    inherits, whose text then stands in the place of the month. *)
Theorem parseDate_shape (dateStr : option jsstring) (d : jsstring) :
  parseDate dateStr = Some d -> isIsoDate d = true \/ hasInheritedMonth d.
Proof.
  destruct dateStr as [s|]; [|discriminate]. cbn [parseDate].
  destruct (truthy s); [|discriminate]. unfold parseCleaned.
  destruct (negb _ || _); [discriminate|]. apply parseCleaned_shape.
Qed.

Lemma parseDate_shape_witness :
  parseDate (Some (js "12 Oct 1982")) = Some (js "1982-10-12")
  /\ (isIsoDate (js "1982-10-12") = true \/ hasInheritedMonth (js "1982-10-12")).
Proof.
  split; [vm_compute; reflexivity|].
  apply (parseDate_shape (Some (js "12 Oct 1982"))). vm_compute. reflexivity.
Defined.


End DateShape.

Module Further.

(** The end-to-end example of the specification: the file of John Smith,
    with the name parts GIVN and SURN, imported with a service that
    resolves Sydney, gives one imported event, none skipped, the one name,
    one row, and one lookup. *)
Example import_john_smith :
  let r := importGedcom (H:=asciiCase) sydneyService 1%N johnSmithFile emptyDb emptyGeo in
  imported (fst (fst r)) = 1%nat
  /\ skipped (fst (fst r)) = 0%nat
  /\ res_people (fst (fst r)) = [js "John Smith"]
  /\ db_events (snd (fst r))
     = [ {| row_user := 1%N; row_title := js "John Smith - Birth";
            row_description := Some (js "Born: 12 OCT 1982");
            row_date := js "1982-10-12"; row_endDate := None;
            row_latitude := js "-33.8"; row_longitude := js "151.2";
            row_category := js "birth"; row_source := js "gedcom" |} ]
  /\ sent (snd r) = [js "Sydney, Australia"].
Proof. cbn zeta. repeat split; vm_compute; reflexivity. Qed.

(** X10: a line that does not begin with a digit changes nothing: it is
    skipped. *)
Lemma malformed_line_skipped `{UnicodeCase} (st : ParserState) (line : jsstring) :
  match line with
  | x :: _ => isDigit x = false
  | [] => True
  end ->
  step st line = st.
Proof.
  intros Hline. unfold step.
  change reLine with
    (Cat Bol (cats [Group 1 (plus isDigit); plus isSpace; Group 2 (plus isDot); Eol])).
  rewrite search_bol. destruct line as [|x line]; [reflexivity|].
  cbn [cats exec plus]. rewrite Hline. reflexivity.
Qed.

Lemma malformed_line_skipped_witness :
  step (H:=asciiCase) initialState (js "INDI without a level") = initialState.
Proof.
  apply (malformed_line_skipped (H:=asciiCase) initialState (js "INDI without a level")).
  vm_compute. reflexivity.
Defined.

(** The words before and after are never taken by the pattern of the
    qualifiers: the alternatives bef and aft come first, and what is left
    of the word matches no pattern. *)
Example before_after_not_stripped :
  parseDateS "before 1900" = None
  /\ parseDateS "after 1698" = None
  /\ parseDateS "bef 1900" = Some (js "1900-01-01")
  /\ parseDateS "aft. 1698" = Some (js "1698-01-01")
  /\ cleanDate (js "after 1698") = js "er 1698".
Proof. repeat split; vm_compute; reflexivity. Qed.

(** A month token that names a property inherited by the table of
    months gives a text that is no date. *)
Example inherited_month_key :
  parseDateS "constructor 1900"
  = Some (js "1900-function Object() { [native code] }-01").
Proof. vm_compute. reflexivity. Qed.

(** The place normalizer on the cases its table is written for. *)
Example cleanPlaceName_table :
  cleanPlaceName (Some (js "Colombo, Western Prov., Ceylon. (Sri Lanka)"))
    = Some (js "Colombo, Western Province, Sri Lanka.")
  /\ cleanPlaceName (Some (js "Galle, Ceylon - Burial ground")) = Some (js "Galle, Sri Lanka")
  /\ cleanPlaceName (Some (js "London, Engnd")) = Some (js "London, England")
  /\ cleanPlaceName (Some (js "brugge")) = Some (js "Brugge, Belgium")
  /\ cleanPlaceName (Some (js "Kolberg")) = Some kolobrzeg
  /\ cleanPlaceName (Some (js "?")) = None
  /\ cleanPlaceName (Some []) = None
  /\ cleanPlaceName None = None.
Proof. repeat split; vm_compute; reflexivity. Qed.

End Further.

(* ===================================================================== *)
(** * geocoder.js: what a batch sends                                     *)
(* ===================================================================== *)

Module GeocoderBounds.

(** One call of [geocode] sends nothing for a place that does not
    normalize or that is cached; otherwise it sends the normalized text
    and, at most, the text of its last two parts after it. *)
Lemma geocode_sends (service : Service) (place : option jsstring) (st : GeoState) :
  exists more,
    sent (snd (geocode service place st)) = sent st ++ more
    /\ (length more <= 2)%nat
    /\ (more <> [] ->
        exists c, cleanPlaceName place = Some c /\ cache st !! c = None
                  /\ (more = [c] \/ more = [c; join (js ", ") (lastTwo (partsOf c))])).
Proof.
  unfold geocode. destruct (cleanPlaceName place) as [c|];
    [|exists []; rewrite app_nil_r; cbn; split; [reflexivity|split; [lia|done]]].
  destruct (cache st !! c) as [v|] eqn:Hv;
    [exists []; rewrite app_nil_r; cbn; split; [reflexivity|split; [lia|done]]|].
  unfold lookup, fetch.
  destruct (encodable c); cbn [negb];
    [|exists []; rewrite app_nil_r; cbn; split; [reflexivity|split; [lia|done]]].
  destruct (service (length (sent st)) c); cbn [fst snd cacheSet sent].
  - exists [c]. cbn. split; [reflexivity|]. split; [lia|]. intros _. eauto.
  - destruct (2 <? length (partsOf c))%nat; cbn [fst snd cacheSet sent].
    + destruct (encodable (join (js ", ") (lastTwo (partsOf c)))); cbn [negb fst snd cacheSet sent].
      * destruct (service _ (join (js ", ") (lastTwo (partsOf c))));
          cbn [fst snd cacheSet sent]; rewrite <- app_assoc;
          (eexists; split; [reflexivity|]; cbn; split; [lia|]; intros _; eauto).
      * exists [c]. cbn. split; [reflexivity|]. split; [lia|]. intros _. eauto.
    + exists [c]. cbn. split; [reflexivity|]. split; [lia|]. intros _. eauto.
  - exists [c]. cbn. split; [reflexivity|]. split; [lia|]. intros _. eauto.
Qed.

Lemma geocodeEach_sends (service : Service) (total : nat) (unique : list jsstring) :
  forall completed acc st,
    exists more,
      sent (snd (geocodeEach service total unique completed acc st)) = sent st ++ more
      /\ (length more <= 2 * length unique)%nat.
Proof.
  induction unique as [|p unique IH]; intros completed acc st; cbn [geocodeEach].
  - exists []. rewrite app_nil_r. cbn. split; [reflexivity|lia].
  - destruct (geocode_sends service (Some p) st) as (m1 & H1 & L1 & _).
    destruct (geocode service (Some p) st) as [coords st'] eqn:Hg. cbn [snd] in H1.
    match goal with |- context [geocodeEach _ _ _ ?c ?a ?s] =>
      destruct (IH c a s) as (m2 & H2 & L2) end.
    exists (m1 ++ m2). rewrite H2, H1, <- app_assoc. split; [reflexivity|].
    rewrite length_app. cbn [length]. lia.
Qed.

(** X17: a batch only adds to the lookups sent, and adds at most two for
    each distinct place of the list that is neither null, empty nor the
    placeholder. *)
Theorem geocodeAll_sends_at_most_two_each (service : Service)
    (places : list (option jsstring)) (st : GeoState) :
  exists more,
    sent (snd (geocodeAll service places st)) = sent st ++ more
    /\ (length more <= 2 * length (dedupe (lookable places)))%nat.
Proof. unfold geocodeAll. apply geocodeEach_sends. Qed.

End GeocoderBounds.

(* ===================================================================== *)
(** * The import and the tables                                           *)
(* ===================================================================== *)

Module StoreProofs.
Import GeocoderProofs.

Lemma filter_notOwner_pair {X : Type} (user : N) (l : list X) :
  List.filter (notOwner user) (map (pair user) l) = [].
Proof.
  induction l as [|x l IH]; [reflexivity|].
  cbn [map List.filter]. unfold notOwner at 1. cbn [fst].
  rewrite N.eqb_refl. exact IH.
Qed.

Lemma filter_owner_pair {X : Type} (user : N) (l : list X) :
  List.filter (fun r => negb (notOwner user r)) (map (pair user) l) = map (pair user) l.
Proof.
  induction l as [|x l IH]; [reflexivity|].
  cbn [map List.filter]. unfold notOwner at 1. cbn [fst negb].
  rewrite N.eqb_refl. cbn [negb]. rewrite IH. reflexivity.
Qed.

Lemma filter_filter_same {X : Type} (f : X -> bool) (l : list X) :
  List.filter f (List.filter f l) = List.filter f l.
Proof.
  induction l as [|x l IH]; [reflexivity|]. cbn [List.filter].
  destruct (f x) eqn:E; [cbn [List.filter]; rewrite E, IH|]; auto.
Qed.

Lemma filter_owner_notOwner {X : Type} (user : N) (l : list (N * X)) :
  List.filter (fun r => negb (notOwner user r)) (List.filter (notOwner user) l) = [].
Proof.
  induction l as [|x l IH]; [reflexivity|]. cbn [List.filter].
  destruct (notOwner user x) eqn:E; [cbn [List.filter]; rewrite E|]; auto.
Qed.

Lemma filter_other_notOwner {X : Type} (user other : N) (l : list (N * X)) :
  other <> user ->
  List.filter (fun r => (fst r =? other)%N) (List.filter (notOwner user) l)
  = List.filter (fun r => (fst r =? other)%N) l.
Proof.
  intros Hne. induction l as [|x l IH]; [reflexivity|]. cbn [List.filter].
  unfold notOwner at 1. destruct (fst x =? user)%N eqn:E; cbn [negb List.filter].
  - apply N.eqb_eq in E. destruct (fst x =? other)%N eqn:E'; [|exact IH].
    apply N.eqb_eq in E'. congruence.
  - rewrite IH. reflexivity.
Qed.

(** The rows that an import adds to [events]. *)
Lemma tally_rows (user : N) (geocoded : list (jsstring * Coord))
    (evts : list DerivedEvent) :
  forall t,
    t_rows (fold_left (tallyEvent user geocoded) evts t)
    = t_rows t
      ++ omap (fun e => rowOf user e <$> getCoord (ev_place e) geocoded) evts.
Proof.
  induction evts as [|e evts IH]; intros t; cbn [fold_left omap list_omap].
  - symmetry. apply app_nil_r.
  - rewrite IH. unfold tallyEvent.
    destruct (getCoord (ev_place e) geocoded) as [c|];
      cbn [t_rows fmap option_fmap option_map].
    + rewrite <- app_assoc. reflexivity.
    + reflexivity.
Qed.

Lemma lookable_events (evts : list DerivedEvent) (e : DerivedEvent) :
  In e evts -> usablePlace (Some (ev_place e)) = true ->
  In (ev_place e) (dedupe (lookable (map (fun e => Some (ev_place e)) evts))).
Proof.
  intros Hin Hu. apply In_dedupe. unfold lookable.
  apply list_elem_of_In, list_elem_of_omap. exists (Some (ev_place e)). split.
  - apply list_elem_of_In, in_map_iff. eauto.
  - rewrite Hu. reflexivity.
Qed.

Lemma omap_ext_in {X Y : Type} (f g : X -> option Y) (l : list X) :
  (forall x, In x l -> f x = g x) -> omap f l = omap g l.
Proof.
  induction l as [|x l IH]; intros Hfg; [reflexivity|].
  cbn [omap list_omap]. rewrite (Hfg x) by (left; reflexivity).
  rewrite IH by (intros y Hy; apply Hfg; right; exact Hy). reflexivity.
Qed.

Lemma unusable_uncached (m : gmap jsstring (option Coord)) (p : jsstring) :
  usablePlace (Some p) = false -> cachedCoord m p = None.
Proof.
  unfold usablePlace, cachedCoord, cleanPlaceName. intros Hu.
  destruct (truthy p); cbn [negb orb andb] in *; [|reflexivity].
  destruct (eqStr p (js "?")); [reflexivity|discriminate].
Qed.

Lemma lookable_usable (places : list (option jsstring)) (p : jsstring) :
  In p (lookable places) -> usablePlace (Some p) = true.
Proof.
  unfold lookable. intros Hin. apply list_elem_of_In, list_elem_of_omap in Hin.
  destruct Hin as (q & _ & Hq). destruct (usablePlace q) eqn:E; [|discriminate].
  subst q. exact E.
Qed.

(** What a batch returns for the place of an event is what the cache
    holds for it afterwards. *)
Lemma getCoord_batch (service : Service) (evts : list DerivedEvent)
    (geo : GeoState) (e : DerivedEvent) :
  In e evts ->
  let r := geocodeAll service (map (fun e => Some (ev_place e)) evts) geo in
  getCoord (ev_place e) (results (fst r)) = cachedCoord (cache (snd r)) (ev_place e).
Proof.
  intros He. cbn zeta.
  destruct (geocodeAll_spec service (map (fun e => Some (ev_place e)) evts) geo)
    as (_ & Hfst & _). cbn zeta in Hfst. rewrite Hfst. cbn [results].
  destruct (usablePlace (Some (ev_place e))) eqn:Hu.
  - apply getCoord_omap, lookable_events; assumption.
  - rewrite (unusable_uncached _ _ Hu).
    destruct (getCoord _ _) as [v|] eqn:Hg; [|reflexivity].
    apply getCoord_omap_some in Hg as [Hin _].
    apply In_dedupe, lookable_usable in Hin. congruence.
Qed.

(** The tables after the import of a parsed file. *)
Lemma importParsed_tables (service : Service) (user : N) (p : Parsed)
    (db : Db) (geo : GeoState) :
  let r := importParsed service user p db geo in
  snd (fst r)
  = {| db_people :=
         List.filter (notOwner user) (db_people db) ++ map (pair user) (people p);
       db_families :=
         List.filter (notOwner user) (db_families db) ++ map (pair user) (families p);
       db_events := db_events db ++ rowsFor user (cache (snd r)) (events p) |}.
Proof.
  cbn zeta. unfold importParsed.
  destruct (events p) as [|e0 evts] eqn:Hev.
  - cbn [fst snd storeRecords rowsFor omap list_omap]. rewrite app_nil_r. reflexivity.
  - rewrite <- Hev. clear e0 evts Hev.
    pose proof (fun e He => getCoord_batch service (events p) geo e He) as Hget.
    cbn zeta in Hget.
    destruct (geocodeAll service _ geo) as [geocoded geo'].
    cbn [fst snd storeRecords db_people db_families db_events] in *.
    unfold tally. rewrite tally_rows. cbn [t_rows app]. unfold rowsFor.
    f_equal. f_equal. apply omap_ext_in. intros e He. rewrite (Hget e He). reflexivity.
Qed.

(** X20: an import replaces the people and the family links that the
    user had stored and leaves those of every other user as they were; it
    deletes no event: the rows of the events whose place resolved are
    added after the rows present, each for the importing user, of source
    gedcom and without an end date. *)
Theorem import_replaces_tree_data_and_adds_events (service : Service) (user : N)
    (p : Parsed) (db : Db) (geo : GeoState) :
  let r := importParsed service user p db geo in
  let db' := snd (fst r) in
  let added := rowsFor user (cache (snd r)) (events p) in
  List.filter (fun row => negb (notOwner user row)) (db_people db')
    = map (pair user) (people p)
  /\ List.filter (fun row => negb (notOwner user row)) (db_families db')
    = map (pair user) (families p)
  /\ List.filter (notOwner user) (db_people db')
    = List.filter (notOwner user) (db_people db)
  /\ List.filter (notOwner user) (db_families db')
    = List.filter (notOwner user) (db_families db)
  /\ db_events db' = db_events db ++ added
  /\ (forall row, In row added ->
        row_user row = user /\ row_source row = js "gedcom" /\ row_endDate row = None).
Proof.
  cbn zeta. rewrite importParsed_tables. cbn [db_people db_families db_events].
  rewrite !List.filter_app, !filter_owner_notOwner, !filter_owner_pair,
    !filter_filter_same, !filter_notOwner_pair, !app_nil_r. cbn [app].
  repeat split; try reflexivity;
    apply list_elem_of_In, list_elem_of_omap in H as (e & _ & He);
    destruct (cachedCoord _ _); [|discriminate| |discriminate| |discriminate];
    injection He as <-; reflexivity.
Qed.

(** X21: the import of the same parsed file a second time, with any
    service, sends no lookup and gives the same answer; the people and the
    family links are stored once, and the event rows a second time: the
    events of the first import are not replaced. *)
Theorem second_import_duplicates_events (service service' : Service) (user : N)
    (p : Parsed) (db : Db) (geo : GeoState) :
  let r1 := importParsed service user p db geo in
  let r2 := importParsed service' user p (snd (fst r1)) (snd r1) in
  let rows := rowsFor user (cache (snd r1)) (events p) in
  fst (fst r2) = fst (fst r1)
  /\ snd r2 = snd r1
  /\ db_people (snd (fst r2)) = db_people (snd (fst r1))
  /\ db_families (snd (fst r2)) = db_families (snd (fst r1))
  /\ db_events (snd (fst r2)) = db_events db ++ rows ++ rows.
Proof.
  cbn zeta.
  assert (Hagain : snd (importParsed service' user p
                          (snd (fst (importParsed service user p db geo)))
                          (snd (importParsed service user p db geo)))
                   = snd (importParsed service user p db geo)
                   /\ fst (fst (importParsed service' user p
                          (snd (fst (importParsed service user p db geo)))
                          (snd (importParsed service user p db geo))))
                      = fst (fst (importParsed service user p db geo))).
  { unfold importParsed. destruct (events p) as [|e0 evts] eqn:Hev; [split; reflexivity|].
    rewrite <- Hev. clear e0 evts Hev.
    destruct (geocodeAll_spec service (map (fun e => Some (ev_place e)) (events p)) geo)
      as (_ & Hfst & Hin). cbn zeta in Hfst, Hin.
    destruct (geocodeAll service _ geo) as [geocoded geo'] eqn:Hg. cbn [fst snd] in *.
    assert (H2 : geocodeAll service' (map (fun e => Some (ev_place e)) (events p)) geo'
                 = (geocoded, geo')).
    { unfold geocodeAll. rewrite geocodeEach_cached by exact Hin.
      rewrite Hfst. reflexivity. }
    rewrite H2. cbn [fst snd]. split; reflexivity. }
  destruct Hagain as [Hgeo Hres].
  split; [exact Hres|]. split; [exact Hgeo|].
  rewrite (importParsed_tables service' user p). cbn zeta. rewrite Hgeo.
  rewrite (importParsed_tables service user p). cbn [db_people db_families db_events].
  rewrite !List.filter_app, !filter_filter_same, !filter_notOwner_pair, !app_nil_r.
  rewrite <- app_assoc. repeat split; reflexivity.
Qed.

Lemma filter_gedcom_rows (user : N) (m : gmap jsstring (option Coord))
    (evts : list DerivedEvent) :
  List.filter (isGedcomEventOf user) (rowsFor user m evts) = rowsFor user m evts
  /\ List.filter (fun r => negb (isGedcomEventOf user r)) (rowsFor user m evts) = [].
Proof.
  unfold rowsFor. induction evts as [|e evts [IH1 IH2]]; [split; reflexivity|].
  cbn [omap list_omap]. destruct (cachedCoord m (ev_place e)) as [c|];
    cbn [fmap option_fmap option_map]; [|split; assumption].
  assert (Hrow : isGedcomEventOf user (rowOf user e c) = true).
  { unfold isGedcomEventOf. cbn [rowOf row_user row_source].
    rewrite N.eqb_refl, eqStr_refl. reflexivity. }
  cbn [List.filter]. rewrite Hrow. cbn [negb]. rewrite IH1, IH2. split; reflexivity.
Qed.

(** X22: clearing after an import leaves the tables as clearing before
    it would have: every row the import stored for the user is deleted
    again, and the answer counts the event rows the import had added with
    those that were there. *)
Theorem clear_undoes_import (service : Service) (user : N)
    (p : Parsed) (db : Db) (geo : GeoState) :
  let r := importParsed service user p db geo in
  let added := rowsFor user (cache (snd r)) (events p) in
  snd (clearGedcom user (snd (fst r))) = snd (clearGedcom user db)
  /\ fst (clearGedcom user (snd (fst r)))
     = js "Deleted "
       ++ showNat (length (List.filter (isGedcomEventOf user) (db_events db))
                   + length added)
       ++ js " GEDCOM events and all tree data".
Proof.
  cbn zeta. rewrite importParsed_tables. unfold clearGedcom.
  cbn [fst snd db_people db_families db_events].
  destruct (filter_gedcom_rows user (cache (snd (importParsed service user p db geo)))
              (events p)) as [H1 H2].
  rewrite !List.filter_app, !filter_filter_same, !filter_notOwner_pair, H1, H2,
    !app_nil_r, length_app.
  split; reflexivity.
Qed.

End StoreProofs.

(* ===================================================================== *)
(** * gedcomParser.js: the line loop                                      *)
(* ===================================================================== *)

Module ParserProofs.

Lemma pushOpt_map {X Y : Type} (f : X -> Y) (l : list X) (o : option X) :
  map f (pushOpt l o) = pushOpt (map f l) (option_map f o).
Proof. destruct o; cbn [pushOpt option_map]; [apply map_app|reflexivity]. Qed.

Lemma whenMatch_keeps {X Y : Type} (g : X -> Y) (r : regex) (s : jsstring)
    (f : jsstring -> X -> X) (x : X) :
  (forall v y, g (f v y) = g y) -> g (whenMatch r s f x) = g x.
Proof. intros Hf. unfold whenMatch. destruct (match1 r s); auto. Qed.

Lemma indiLevel1_id `{UnicodeCase} (rest : jsstring) (i : Indi) :
  gedcomId (fst (indiLevel1 rest i)) = gedcomId i.
Proof.
  unfold indiLevel1. repeat (destruct (eqStr rest _); [reflexivity|]).
  cbn [fst]. apply whenMatch_keeps. reflexivity.
Qed.

Lemma indiLevel2_id (ctx : Subcontext) (rest : jsstring) (i : Indi) :
  gedcomId (indiLevel2 ctx rest i) = gedcomId i.
Proof.
  unfold indiLevel2. destruct ctx as [| |[]]; try reflexivity;
    repeat (rewrite whenMatch_keeps by reflexivity); reflexivity.
Qed.

Lemma famLevel1_id (rest : jsstring) (f : Fam) :
  gedcomFamId (famLevel1 rest f) = gedcomFamId f.
Proof.
  unfold famLevel1. repeat (rewrite whenMatch_keeps by reflexivity). reflexivity.
Qed.

Lemma pushOpt_ids_app {X : Type} (l : list X) (o o' : option X) :
  pushOpt (pushOpt l o) o' = pushOpt l o ++ option_list o'.
Proof. destruct o'; cbn [pushOpt option_list]; [reflexivity|symmetry; apply app_nil_r]. Qed.

(** One line adds the identifier of the record it opens, if it opens
    one, and changes no identifier read before. *)
Lemma step_ids `{UnicodeCase} (st : ParserState) (line : jsstring) :
  indiIds (step st line) = indiIds st ++ option_list (headerOf "INDI" line)
  /\ famIds (step st line) = famIds st ++ option_list (headerOf "FAM" line).
Proof.
  unfold indiIds, famIds, headerOf, levelAndRest, step.
  destruct (search reLine line) as [m|];
    [|cbn [option_list]; rewrite !app_nil_r; split; reflexivity].
  destruct (parseInt (group 1 m) =? 0)%N.
  - unfold startRecord. cbn [individuals famRecords currentIndi currentFam].
    rewrite !pushOpt_ids_app, !map_app.
    destruct (match1 (reRecord "INDI") (group 2 m));
      destruct (match1 (reRecord "FAM") (group 2 m)); split; reflexivity.
  - cbn [option_list]. rewrite !app_nil_r.
    destruct (currentIndi st) as [i|]; destruct (currentFam st) as [f|];
      repeat match goal with
      | |- context [(?a =? ?b)%N] => destruct (a =? b)%N
      | |- context [indiLevel1 ?r ?i] =>
          pose proof (indiLevel1_id r i); destruct (indiLevel1 r i)
      end;
      cbn [individuals famRecords currentIndi currentFam pushOpt fst] in *;
      rewrite ?map_app; cbn [map];
      rewrite ?indiLevel2_id, ?famLevel1_id; split; congruence.
Qed.

Lemma fold_step_ids `{UnicodeCase} (lines : list jsstring) :
  forall st,
    indiIds (fold_left step lines st) = indiIds st ++ omap (headerOf "INDI") lines
    /\ famIds (fold_left step lines st) = famIds st ++ omap (headerOf "FAM") lines.
Proof.
  induction lines as [|line lines IH]; intros st; cbn [fold_left omap list_omap].
  - rewrite !app_nil_r. split; reflexivity.
  - destruct (IH (step st line)) as [-> ->]. destruct (step_ids st line) as [-> ->].
    rewrite <- !app_assoc.
    destruct (headerOf "INDI" line); destruct (headerOf "FAM" line); split; reflexivity.
Qed.

(** X12: the individuals and the families that the parser reads are, in
    the order of the file, those of the lines of level 0 whose rest is an
    identifier between two [@] and the tag INDI or FAM, each with the
    identifier of its line: no other line opens, drops or renames a
    record, and an identifier that occurs twice gives two records. *)
Theorem records_follow_header_lines `{UnicodeCase} (content : jsstring) :
  let lines := split reNewline content in
  map gedcomId (fst (parseRecords content)) = omap (headerOf "INDI") lines
  /\ map gedcomFamId (snd (parseRecords content)) = omap (headerOf "FAM") lines
  /\ map gedcomFamId (families (parseGedcomFull content)) = omap (headerOf "FAM") lines.
Proof.
  cbn zeta. unfold parseGedcomFull, parseRecords. cbn [fst snd buildResult families].
  destruct (fold_step_ids (split reNewline content) initialState) as [Hi Hf].
  unfold indiIds, famIds in Hi, Hf. cbn [initialState individuals famRecords
    currentIndi currentFam pushOpt map app] in Hi, Hf.
  repeat split; assumption.
Qed.

(** X11: a line that the pattern of the loop does not match, and a line
    of a level other than 0, 1 and 2, change nothing. *)
Theorem other_lines_ignored `{UnicodeCase} (st : ParserState) (line : jsstring) :
  match levelAndRest line with
  | None => True
  | Some (level, _) => (2 < level)%N
  end ->
  step st line = st.
Proof.
  unfold levelAndRest, step. destruct (search reLine line) as [m|]; [|reflexivity].
  intros Hl.
  destruct (parseInt (group 1 m) =? 0)%N eqn:E0; [apply N.eqb_eq in E0; lia|].
  destruct (parseInt (group 1 m) =? 1)%N eqn:E1; [apply N.eqb_eq in E1; lia|].
  destruct (parseInt (group 1 m) =? 2)%N eqn:E2; [apply N.eqb_eq in E2; lia|].
  destruct st as [inds fams [i|] [f|] ctx]; reflexivity.
Qed.

Lemma other_lines_ignored_witness :
  step (H:=asciiCase) initialState (js "3 CONT more") = initialState.
Proof.
  apply (other_lines_ignored (H:=asciiCase) initialState (js "3 CONT more")).
  vm_compute. reflexivity.
Defined.

End ParserProofs.

(* ===================================================================== *)
(** * The matcher finds every match                                       *)
(* ===================================================================== *)

Module MatchFacts.
Import RegexFacts DateShape.

Lemma lastOr_cons (prev : option char) (x : char) (w : jsstring) :
  lastOr prev (x :: w) = lastOr (Some x) w.
Proof.
  unfold lastOr. destruct w as [|y w]; [reflexivity|].
  change (last (x :: y :: w)) with (last (y :: w)).
  destruct (last (y :: w)) eqn:Hl; [reflexivity|].
  apply last_None in Hl. discriminate.
Qed.

Lemma star_complete {A : Type} (p : char -> bool)
    (k : option char -> jsstring -> option A) :
  forall s prev, star p k prev s = None ->
    forall w s', s = w ++ s' -> forallb p w = true -> k (lastOr prev w) s' = None.
Proof.
  induction s as [|x s IH]; intros prev Hs w s' Hw Hp; cbn [star] in Hs.
  - symmetry in Hw. apply app_eq_nil in Hw as [-> ->]. exact Hs.
  - destruct w as [|y w]; cbn [app] in Hw.
    + subst s'. destruct (p x); [|exact Hs].
      destruct (star p k (Some x) s); [discriminate|exact Hs].
    + injection Hw as <- ->. cbn [forallb] in Hp. apply andb_prop in Hp as [Hx Hp].
      rewrite Hx in Hs. rewrite lastOr_cons.
      destruct (star p k (Some x) (w ++ s')) eqn:E; [discriminate|].
      apply (IH _ E w s'); auto.
Qed.

(** Completeness of the matcher: when it fails, the continuation fails
    after every match of the pattern. *)
Lemma exec_complete {A : Type} (r : regex) (a b : position) :
  Matches r a b ->
  forall k : option char -> jsstring -> captures -> option A,
    exec r (fst (fst a)) (snd (fst a)) (snd a) k = None ->
    k (fst (fst b)) (snd (fst b)) (snd b) = None.
Proof.
  induction 1 as [a|p prev x s c Hp|r1 r2 a b d _ IH1 _ IH2
                  |r1 r2 a b _ IH|r1 r2 a b _ IH|r a b _ IH|r a
                  |p prev w s c Hw|i r prev w s c prev' c' _ IH
                  |s c|prev c|prev s c Hx]; intros k; cbn [exec fst snd] in *.
  - auto.
  - rewrite Hp. auto.
  - intros E. apply IH2. apply (IH1 _ E).
  - destruct (exec r1 _ _ _ k) eqn:E; [discriminate|]. intros _. apply (IH _ E).
  - destruct (exec r1 _ _ _ k) eqn:E; [discriminate|]. intros E2. apply (IH _ E2).
  - destruct (exec r _ _ _ k) eqn:E; [discriminate|]. intros _. apply (IH _ E).
  - destruct (exec r _ _ _ k) eqn:E; [discriminate|]. auto.
  - intros E. apply (star_complete p _ _ _ E w s); auto.
  - intros E. apply IH in E. cbn beta in E. rewrite take_consumed in E. exact E.
  - auto.
  - auto.
  - rewrite Hx. auto.
Qed.

(** A pattern that begins with [^] and that matches the input from its
    start in one way only: [search] finds that match. *)
Lemma search_bol_unique (r : regex) (s : jsstring) (b : position) :
  Matches r (None, s, []) b ->
  (forall b', Matches r (None, s, []) b' ->
     snd (fst b') = snd (fst b) /\ snd b' = snd b) ->
  search (Cat Bol r) s
  = Some (Found [] (take (length s - length (snd (fst b))) s) (snd (fst b)) (snd b)).
Proof.
  intros M Huniq. rewrite search_bol.
  destruct (exec r None s [] (fun _ s' c => Some (s', c))) as [[s' c]|] eqn:E.
  - apply exec_sound in E as (p1 & s1 & c1 & M1 & [= <- <-]).
    destruct (Huniq _ M1) as [H1 H2]. cbn [fst snd] in H1, H2. subst. reflexivity.
  - apply (exec_complete r _ _ M) in E. discriminate.
Qed.

(** A pattern that begins with [^] and matches the input from its start
    in no way: [search] finds nothing. *)
Lemma search_bol_none (r : regex) (s : jsstring) :
  (forall b, ~ Matches r (None, s, []) b) -> search (Cat Bol r) s = None.
Proof.
  intros Hno. rewrite search_bol.
  destruct (exec r None s [] (fun _ s' c => Some (s', c))) as [[s' c]|] eqn:E;
    [|reflexivity].
  apply exec_sound in E as (p1 & s1 & c1 & M1 & _). destruct (Hno _ M1).
Qed.

End MatchFacts.

(* ===================================================================== *)
(** * parseDate: the formats it reads                                     *)
(* ===================================================================== *)

Module Tokens.
Import RegexFacts DateShape MatchFacts.

Ltac to_props :=
  unfold isLetter, isWord, isSpace, isDigit, isUpper, isLower, isNonSpace, isDot,
    isLineTerminator, between, eqChar in *;
  rewrite ?negb_true_iff, ?negb_false_iff in *;
  rewrite ?orb_true_iff, ?orb_false_iff, ?andb_true_iff, ?andb_false_iff,
    ?N.leb_le, ?N.leb_gt, ?N.eqb_eq, ?N.eqb_neq in *.

Lemma digit_word (x : char) : isDigit x = true -> isWord x = true.
Proof. intros H. to_props. lia. Qed.

Lemma letter_word (x : char) : isLetter x = true -> isWord x = true.
Proof. intros H. to_props. lia. Qed.

Lemma letter_not_digit (x : char) : isLetter x = true -> isDigit x = false.
Proof. intros H. to_props. lia. Qed.

Lemma word_not_space (x : char) : isWord x = true -> isSpace x = false.
Proof. intros H. to_props. lia. Qed.

Lemma space_not_word (x : char) : isSpace x = true -> isWord x = false.
Proof.
  intros H. destruct (isWord x) eqn:E; [|reflexivity].
  apply word_not_space in E. congruence.
Qed.

Lemma space_not_digit (x : char) : isSpace x = true -> isDigit x = false.
Proof.
  intros H. destruct (isDigit x) eqn:E; [|reflexivity].
  apply digit_word, word_not_space in E. congruence.
Qed.

Lemma digit_not_space (x : char) : isDigit x = true -> isSpace x = false.
Proof. intros H. apply word_not_space, digit_word, H. Qed.

(** ** Runs *)

Lemma runOf_cons (p : char -> bool) (w : jsstring) :
  runOf p w = true -> exists x w', w = x :: w' /\ p x = true /\ forallb p w' = true.
Proof.
  unfold runOf. destruct w as [|x w]; [discriminate|]. cbn [truthy forallb andb].
  intros [Hx Hw]%andb_prop. eauto.
Qed.

Lemma runOf_all (p : char -> bool) (w : jsstring) :
  runOf p w = true -> forallb p w = true.
Proof. unfold runOf. intros [_ H]%andb_prop. exact H. Qed.

Lemma runOf_weaken (p q : char -> bool) (w : jsstring) :
  (forall x, p x = true -> q x = true) -> runOf p w = true -> runOf q w = true.
Proof.
  unfold runOf. intros Hpq [Ht Hw]%andb_prop. rewrite Ht. cbn [andb].
  rewrite forallb_forall in *. auto.
Qed.

Lemma stops_run (p q : char -> bool) (w s : jsstring) :
  (forall x, q x = true -> p x = false) -> runOf q w = true -> stops p (w ++ s) = true.
Proof.
  intros Hqp (x & w' & -> & Hx & _)%runOf_cons. cbn [app stops].
  rewrite (Hqp x Hx). reflexivity.
Qed.

Lemma stops_char (p : char -> bool) (x : char) (s : jsstring) :
  p x = false -> stops p (x :: s) = true.
Proof. cbn [stops]. intros ->. reflexivity. Qed.

(** Two runs of one class that stop where the input goes on are the
    same run. *)
Lemma span_unique (p : char -> bool) (w1 w2 r1 r2 : jsstring) :
  w1 ++ r1 = w2 ++ r2 ->
  forallb p w1 = true -> forallb p w2 = true ->
  stops p r1 = true -> stops p r2 = true ->
  w1 = w2 /\ r1 = r2.
Proof.
  revert w2. induction w1 as [|x w1 IH]; intros [|y w2]; cbn [app forallb stops];
    intros E H1 H2 S1 S2.
  - auto.
  - subst r1. cbn [stops] in S1. apply andb_prop in H2 as [Hy _].
    rewrite Hy in S1. discriminate.
  - subst r2. cbn [stops] in S2. apply andb_prop in H1 as [Hx _].
    rewrite Hx in S2. discriminate.
  - injection E as <- E. apply andb_prop in H1 as [_ H1]. apply andb_prop in H2 as [_ H2].
    destruct (IH w2 E H1 H2 S1 S2) as [-> ->]. auto.
Qed.

(** ** What the pieces of the patterns match *)

Lemma Matches_plus (p : char -> bool) (a b : position) :
  Matches (plus p) a b ->
  snd b = snd a /\ exists w, snd (fst a) = w ++ snd (fst b) /\ runOf p w = true.
Proof.
  intros M. apply Matches_cat in M as (q & s & c & M1 & M2).
  invert M1. invert M2. cbn [fst snd]. split; [reflexivity|].
  exists (x :: w). split; [reflexivity|].
  unfold runOf. cbn [truthy forallb andb].
  repeat match goal with H : _ = true |- _ => rewrite H; clear H end. reflexivity.
Qed.

Lemma Matches_lit (x : char) (a b : position) :
  Matches (lit x) a b -> snd b = snd a /\ snd (fst a) = x :: snd (fst b).
Proof.
  intros M. invert M. cbn [fst snd]. split; [reflexivity|].
  match goal with H : eqChar _ _ = true |- _ => apply N.eqb_eq in H; subst end.
  reflexivity.
Qed.

Lemma Matches_opt_comma (a b : position) :
  Matches (Opt (lit 44)) a b ->
  snd b = snd a /\ exists t, snd (fst a) = commaIf t ++ snd (fst b).
Proof.
  intros M. invert M.
  - match goal with M : Matches (lit _) _ _ |- _ =>
      apply Matches_lit in M as [Hc Hs] end.
    split; [exact Hc|]. exists true. exact Hs.
  - split; [reflexivity|]. exists false. reflexivity.
Qed.

Lemma Matches_eol (a b : position) :
  Matches Eol a b -> snd (fst b) = [] /\ snd b = snd a /\ snd (fst a) = [].
Proof. intros M. invert M. auto. Qed.

(** ** Matches of the pieces *)

Lemma plus_matches (p : char -> bool) (prev : option char) (w s : jsstring)
    (c : captures) :
  runOf p w = true -> exists q, Matches (plus p) (prev, w ++ s, c) (q, s, c).
Proof.
  intros (x & w' & -> & Hx & Hw)%runOf_cons. eexists. unfold plus.
  eapply M_Cat; [apply (M_Class p prev x (w' ++ s) c Hx)|].
  apply (M_Star p (Some x) w' s c Hw).
Qed.

Lemma lit_matches (x : char) (prev : option char) (s : jsstring) (c : captures) :
  Matches (lit x) (prev, x :: s, c) (Some x, s, c).
Proof. apply M_Class. unfold eqChar. apply N.eqb_refl. Qed.

Lemma digit_matches (x : char) (prev : option char) (s : jsstring) (c : captures) :
  isDigit x = true -> Matches digit (prev, x :: s, c) (Some x, s, c).
Proof. apply M_Class. Qed.

Lemma digits12_matches (prev : option char) (w s : jsstring) (c : captures) :
  dayDigits w = true -> exists q, Matches digits12 (prev, w ++ s, c) (q, s, c).
Proof.
  unfold dayDigits. destruct w as [|x [|y [|z w]]]; cbn; try discriminate.
  - rewrite andb_true_r. intros Hx. eexists.
    eapply M_Cat; [apply digit_matches, Hx|apply M_OptNone].
  - rewrite andb_true_r. intros [Hx Hy]%andb_prop. eexists.
    eapply M_Cat; [apply digit_matches, Hx|apply M_OptSome, digit_matches, Hy].
Qed.

Lemma digits4_matches (prev : option char) (w s : jsstring) (c : captures) :
  digitsOf 4 w = true -> exists q, Matches digits4 (prev, w ++ s, c) (q, s, c).
Proof.
  unfold digitsOf. destruct w as [|x1 [|x2 [|x3 [|x4 [|]]]]]; cbn; try discriminate.
  rewrite andb_true_r. intros [H1 [H2 [H3 H4]%andb_prop]%andb_prop]%andb_prop.
  eexists. cbn [digits4 cats].
  eapply M_Cat; [apply digit_matches, H1|].
  eapply M_Cat; [apply digit_matches, H2|].
  eapply M_Cat; [apply digit_matches, H3|apply digit_matches, H4].
Qed.

Lemma group_matches (i : nat) (r : regex) (prev q : option char) (w s : jsstring)
    (c c' : captures) :
  Matches r (prev, w ++ s, c) (q, s, c') ->
  Matches (Group i r) (prev, w ++ s, c) (q, s, (i, w) :: c').
Proof. apply M_Group. Qed.

Lemma dayDigits_all (w : jsstring) : dayDigits w = true -> runOf isDigit w = true.
Proof.
  unfold dayDigits, runOf. destruct w as [|x w]; [discriminate|].
  intros [_ H]%andb_prop. exact H.
Qed.

Lemma digitsOf_all (n : nat) (w : jsstring) :
  digitsOf (S n) w = true -> runOf isDigit w = true.
Proof.
  unfold digitsOf, runOf. destruct w as [|x w]; [discriminate|].
  intros [_ H]%andb_prop. exact H.
Qed.

Lemma digitsOf_length (n : nat) (w : jsstring) : digitsOf n w = true -> length w = n.
Proof. unfold digitsOf. intros [H _]%andb_prop. apply Nat.eqb_eq, H. Qed.

Lemma dayDigits_length (w : jsstring) : dayDigits w = true -> (length w <= 2)%nat.
Proof.
  unfold dayDigits. intros [H _]%andb_prop.
  apply orb_prop in H as [H|H]; apply Nat.eqb_eq in H; lia.
Qed.

(** ** Groups over the pieces *)

Lemma Matches_group_plus (i : nat) (p : char -> bool) (a b : position) :
  Matches (Group i (plus p)) a b ->
  exists w, snd (fst a) = w ++ snd (fst b) /\ snd b = (i, w) :: snd a
            /\ runOf p w = true.
Proof.
  intros M. apply Matches_group in M as (w & c & Hw & Hc & M).
  apply Matches_plus in M as [Hc' (w' & Hw' & D)]. cbn [fst snd] in *.
  rewrite Hw in Hw'. apply app_inv_tail in Hw'. subst. eauto.
Qed.

Lemma Matches_group_day (i : nat) (a b : position) :
  Matches (Group i digits12) a b ->
  exists w, snd (fst a) = w ++ snd (fst b) /\ snd b = (i, w) :: snd a
            /\ dayDigits w = true.
Proof.
  intros M. apply Matches_group in M as (w & c & Hw & Hc & M).
  apply Matches_digits12 in M as [Hc' (w' & Hw' & D)]. cbn [fst snd] in *.
  rewrite Hw in Hw'. apply app_inv_tail in Hw'. subst. eauto.
Qed.

Lemma Matches_group_year (i : nat) (a b : position) :
  Matches (Group i digits4) a b ->
  exists w, snd (fst a) = w ++ snd (fst b) /\ snd b = (i, w) :: snd a
            /\ digitsOf 4 w = true.
Proof.
  intros M. apply Matches_group in M as (w & c & Hw & Hc & M).
  apply Matches_digits4 in M as [Hc' (w' & Hw' & D)]. cbn [fst snd] in *.
  rewrite Hw in Hw'. apply app_inv_tail in Hw'. subst. eauto.
Qed.

(** ** The five patterns, as what they take apart *)

(** The pieces of a match are read off one after the other. *)
Ltac pieces :=
  repeat match goal with
  | M : Matches (Cat _ _) _ _ |- _ =>
      let p := fresh "p" in let s := fresh "s" in let c := fresh "c" in
      let M1 := fresh "M" in
      apply Matches_cat in M as (p & s & c & M1 & M)
  end;
  repeat match goal with
  | M : Matches (Group _ digits12) _ _ |- _ =>
      let w := fresh "w" in let D := fresh "D" in
      apply Matches_group_day in M as (w & ? & ? & D)
  | M : Matches (Group _ digits4) _ _ |- _ =>
      let w := fresh "w" in let D := fresh "D" in
      apply Matches_group_year in M as (w & ? & ? & D)
  | M : Matches (Group _ (plus _)) _ _ |- _ =>
      let w := fresh "w" in let D := fresh "D" in
      apply Matches_group_plus in M as (w & ? & ? & D)
  | M : Matches (plus _) _ _ |- _ =>
      let w := fresh "w" in let D := fresh "D" in
      apply Matches_plus in M as (? & w & ? & D)
  | M : Matches (lit _) _ _ |- _ => apply Matches_lit in M as (? & ?)
  | M : Matches (Opt (lit 44)) _ _ |- _ =>
      let t := fresh "t" in apply Matches_opt_comma in M as (? & t & ?)
  | M : Matches digits4 _ _ |- _ =>
      let w := fresh "w" in let D := fresh "D" in
      apply Matches_digits4 in M as (? & w & ? & D)
  | M : Matches Eol _ _ |- _ => apply Matches_eol in M as (? & ? & ?)
  end;
  cbn [fst snd] in *; subst.

Lemma year_inv (s : jsstring) (b : position) :
  Matches (cats [digits4; Eol]) (None, s, []) b -> digitsOf 4 s = true.
Proof.
  cbn [cats]. intros M. destruct b as [[q t] c].
  pieces. rewrite app_nil_r. assumption.
Qed.

Lemma dash_inv (s : jsstring) (b : position) :
  Matches (cats [Group 1 digits12; lit 45; Group 2 (plus isWord); lit 45;
                 Group 3 digits4; Eol]) (None, s, []) b ->
  exists w1 w2 w3,
    s = w1 ++ 45%N :: w2 ++ 45%N :: w3
    /\ dayDigits w1 = true /\ runOf isWord w2 = true /\ digitsOf 4 w3 = true
    /\ snd (fst b) = [] /\ snd b = [(3, w3); (2, w2); (1, w1)]%nat.
Proof.
  cbn [cats]. intros M. destruct b as [[q t] c].
  pieces. rewrite app_nil_r.
  repeat eexists; first [eassumption|rewrite <- ?app_assoc; reflexivity].
Qed.

Lemma dmy_inv (s : jsstring) (b : position) :
  Matches (cats [Group 1 digits12; plus isSpace; Group 2 (plus isWord);
                 plus isSpace; Group 3 digits4; Eol]) (None, s, []) b ->
  exists w1 s1 w2 s2 w3,
    s = w1 ++ s1 ++ w2 ++ s2 ++ w3
    /\ dayDigits w1 = true /\ runOf isSpace s1 = true /\ runOf isWord w2 = true
    /\ runOf isSpace s2 = true /\ digitsOf 4 w3 = true
    /\ snd (fst b) = [] /\ snd b = [(3, w3); (2, w2); (1, w1)]%nat.
Proof.
  cbn [cats]. intros M. destruct b as [[q t] c].
  pieces. rewrite app_nil_r.
  repeat eexists; first [eassumption|rewrite <- ?app_assoc; reflexivity].
Qed.

Lemma mdy_inv (s : jsstring) (b : position) :
  Matches (cats [Group 1 (plus isWord); plus isSpace; Group 2 digits12;
                 Opt (lit 44); plus isSpace; Group 3 digits4; Eol]) (None, s, []) b ->
  exists w1 s1 w2 t s2 w3,
    s = w1 ++ s1 ++ w2 ++ commaIf t ++ s2 ++ w3
    /\ runOf isWord w1 = true /\ runOf isSpace s1 = true /\ dayDigits w2 = true
    /\ runOf isSpace s2 = true /\ digitsOf 4 w3 = true
    /\ snd (fst b) = [] /\ snd b = [(3, w3); (2, w2); (1, w1)]%nat.
Proof.
  cbn [cats]. intros M. destruct b as [[q u] c].
  pieces. rewrite app_nil_r.
  repeat eexists; first [eassumption|rewrite <- ?app_assoc; reflexivity].
Qed.

Lemma my_inv (s : jsstring) (b : position) :
  Matches (cats [Group 1 (plus isWord); plus isSpace; Group 2 digits4; Eol])
    (None, s, []) b ->
  exists w1 s1 w2,
    s = w1 ++ s1 ++ w2
    /\ runOf isWord w1 = true /\ runOf isSpace s1 = true /\ digitsOf 4 w2 = true
    /\ snd (fst b) = [] /\ snd b = [(2, w2); (1, w1)]%nat.
Proof.
  cbn [cats]. intros M. destruct b as [[q u] c].
  pieces. rewrite app_nil_r.
  repeat eexists; first [eassumption|rewrite <- ?app_assoc; reflexivity].
Qed.

End Tokens.

Module DateFormats.
Import RegexFacts DateShape MatchFacts Tokens.

(** ** Stops *)

Lemma stops_run_end (p q : char -> bool) (w : jsstring) :
  (forall x, q x = true -> p x = false) -> runOf q w = true -> stops p w = true.
Proof. intros Hqp Hw. rewrite <- (app_nil_r w). apply (stops_run p q); assumption. Qed.

Lemma day_run (w : jsstring) : dayDigits w = true -> forallb isDigit w = true.
Proof. intros H. apply runOf_all, dayDigits_all, H. Qed.

Lemma year_run (w : jsstring) : digitsOf 4 w = true -> forallb isDigit w = true.
Proof. intros H. apply runOf_all, (digitsOf_all 3), H. Qed.

Lemma letters_words (w : jsstring) : runOf isLetter w = true -> runOf isWord w = true.
Proof. apply runOf_weaken, letter_word. Qed.

Lemma digits_words (w : jsstring) : runOf isDigit w = true -> runOf isWord w = true.
Proof. apply runOf_weaken, digit_word. Qed.

Lemma year_digits (w : jsstring) : digitsOf 4 w = true -> runOf isDigit w = true.
Proof. apply (digitsOf_all 3). Qed.

Create HintDb tok discriminated.
#[local] Hint Resolve runOf_all day_run year_run dayDigits_all letters_words
  digits_words year_digits : tok.
#[local] Hint Extern 1 (stops isDigit (_ ++ _) = true) =>
  first [ apply (stops_run isDigit isSpace); [exact space_not_digit|]
        | apply (stops_run isDigit isLetter); [exact letter_not_digit|] ] : tok.
#[local] Hint Extern 1 (stops isSpace (_ ++ _) = true) =>
  first [ apply (stops_run isSpace isWord); [exact word_not_space|]
        | apply (stops_run isSpace isDigit); [exact digit_not_space|] ] : tok.
#[local] Hint Extern 1 (stops isWord (_ ++ _) = true) =>
  apply (stops_run isWord isSpace); [exact space_not_word|] : tok.
#[local] Hint Extern 2 (stops isSpace _ = true) =>
  first [ apply (stops_run_end isSpace isDigit); [exact digit_not_space|]
        | apply (stops_run_end isSpace isWord); [exact word_not_space|] ] : tok.
#[local] Hint Extern 1 (stops _ (_ :: _) = true) => reflexivity : tok.
#[local] Hint Extern 1 (stops _ [] = true) => reflexivity : tok.

(** Two ways to take a run of the class [p] off the same input give the
    same run. *)
Ltac span p E :=
  apply (span_unique p) in E as [? E]; [subst| | | |]; auto with tok.

(** ** Months of the table *)

Lemma assocStr_pair (key v : jsstring) (l : list (string * string)) :
  assocStr key l = Some v -> exists kv, In kv l /\ key = js (fst kv) /\ v = js (snd kv).
Proof.
  induction l as [|[k v'] l IH]; cbn [assocStr]; [discriminate|].
  destruct (eqStr key (js k)) eqn:E.
  - intros [= <-]. apply eqStr_spec in E. exists (k, v'). cbn. auto.
  - intros Hm. destruct (IH Hm) as (kv & Hin & Hk & Hv). exists kv. cbn. auto.
Qed.

Lemma lower_letter (x : char) : isLower (lowerAscii x) = true -> isLetter x = true.
Proof.
  unfold lowerAscii, isLetter. destruct (isUpper x) eqn:E; [reflexivity|].
  intros ->. reflexivity.
Qed.

Lemma lower_letters (w : jsstring) :
  forallb isLower (toLowerCaseAscii w) = true -> forallb isLetter w = true.
Proof.
  induction w as [|x w IH]; cbn [toLowerCaseAscii map forallb]; [reflexivity|].
  intros [Hx Hw]%andb_prop. rewrite (lower_letter x Hx). apply IH, Hw.
Qed.

Lemma months_ok : forallb monthEntryOk MONTHS = true.
Proof. vm_compute. reflexivity. Qed.

Lemma ownMonth_facts (m mm : jsstring) :
  ownMonth m = Some mm ->
  runOf isLetter m = true /\ digitsOf 2 mm = true
  /\ monthOf (toLowerCaseAscii m) = Some mm
  /\ existsb (eqStr (toLowerCaseAscii (take 3 m))) qualifierStarts = false
  /\ (3 <= length m)%nat.
Proof.
  unfold ownMonth. intros Hm.
  destruct (assocStr_pair _ _ _ Hm) as (kv & Hin & Hk & ->).
  pose proof months_ok as Hall. rewrite forallb_forall in Hall.
  specialize (Hall kv Hin). unfold monthEntryOk in Hall.
  apply andb_prop in Hall as [[[Hlow Hlen]%andb_prop Hd]%andb_prop Hq].
  rewrite <- Hk in Hlow, Hlen, Hq. apply Nat.leb_le in Hlen.
  unfold toLowerCaseAscii in Hlen. rewrite length_map in Hlen.
  repeat split.
  - unfold runOf. rewrite (lower_letters m Hlow), andb_true_r.
    destruct m; [cbn in Hlen; lia|reflexivity].
  - exact Hd.
  - unfold monthOf. rewrite Hm. reflexivity.
  - unfold toLowerCaseAscii in *. rewrite <- firstn_map. apply negb_true_iff, Hq.
  - exact Hlen.
Qed.

(** ** Inputs without a qualifier *)

Lemma Matches_liti (x : char) (a b : position) :
  Matches (liti x) a b ->
  exists y, snd (fst a) = y :: snd (fst b) /\ lowerAscii y = lowerAscii x.
Proof.
  intros M. invert M. cbn [fst snd]. eexists. split; [reflexivity|].
  match goal with H : eqChar _ _ = true |- _ => apply N.eqb_eq in H; exact H end.
Qed.

Lemma Matches_or (r1 r2 : regex) (a b : position) :
  Matches (Or r1 r2) a b -> Matches r1 a b \/ Matches r2 a b.
Proof. intros M. invert M; auto. Qed.

(** A word of the pattern of the qualifiers begins with three letters
    that are, in lower case, those of one of seven beginnings. *)
Lemma qualifier_start (a b : position) :
  Matches qualifierWords a b ->
  exists x1 x2 x3 rest,
    snd (fst a) = x1 :: x2 :: x3 :: rest
    /\ In [lowerAscii x1; lowerAscii x2; lowerAscii x3] qualifierStarts.
Proof.
  intros M. cbv [qualifierWords ors cats stri map js] in M.
  repeat match goal with
  | M : Matches (Or _ _) _ _ |- _ => apply Matches_or in M as [M|M]
  end;
  repeat match goal with
  | M : Matches (Cat _ _) _ _ |- _ =>
      let p := fresh "p" in let s := fresh "s" in let c := fresh "c" in
      let M1 := fresh "M" in
      apply Matches_cat in M as (p & s & c & M1 & M)
  end;
  repeat match goal with
  | M : Matches (liti _) _ _ |- _ =>
      let y := fresh "y" in let E := fresh "E" in let L := fresh "L" in
      apply Matches_liti in M as (y & E & L);
      match type of L with
      | _ = ?rhs => let v := eval vm_compute in rhs in change rhs with v in L
      end
  end;
  cbn [fst snd] in *; subst;
  repeat match goal with E : snd (fst a) = _ |- _ => rewrite E; clear E end;
  do 4 eexists; (split; [reflexivity|]);
  repeat match goal with L : lowerAscii _ = _ |- _ => rewrite L; clear L end;
  unfold qualifierStarts; cbn [In]; auto 10.
Qed.

Lemma cleanDate_unqualified (s : jsstring) :
  (forall b, ~ Matches qualifierWords (None, s, []) b) -> cleanDate s = trim s.
Proof.
  intros Hno. unfold cleanDate, replaceFirst.
  change reQualifier with (Cat Bol (Cat (Group 1 qualifierWords) (Star isSpace))).
  rewrite search_bol_none; [reflexivity|].
  intros b M. apply Matches_cat in M as (p & t & c & M & _).
  apply Matches_group in M as (w & c' & _ & _ & M). apply (Hno _ M).
Qed.

Lemma trimStart_id (s : jsstring) : stops isSpace s = true -> trimStart s = s.
Proof.
  destruct s as [|x s]; [reflexivity|]. cbn [stops trimStart].
  intros ->%negb_true_iff. reflexivity.
Qed.

Lemma trim_id (s : jsstring) :
  stops isSpace s = true -> stops isSpace (rev s) = true -> trim s = s.
Proof.
  intros H1 H2. unfold trim, trimEnd. rewrite (trimStart_id s H1), (trimStart_id _ H2).
  apply rev_involutive.
Qed.

Lemma runOf_rev (p : char -> bool) (w : jsstring) :
  runOf p w = true -> runOf p (rev w) = true.
Proof.
  unfold runOf. intros [Ht Hw]%andb_prop. apply andb_true_intro. split.
  - destruct w as [|x w]; [discriminate|]. cbn [rev].
    destruct (rev w); reflexivity.
  - rewrite forallb_forall in *. intros x Hx. apply Hw, in_rev, Hx.
Qed.

Lemma stops_rev_end (p q : char -> bool) (s w : jsstring) :
  (forall x, q x = true -> p x = false) -> runOf q w = true ->
  stops p (rev (s ++ w)) = true.
Proof.
  intros Hqp Hw. rewrite rev_app_distr. apply (stops_run p q); [exact Hqp|].
  apply runOf_rev, Hw.
Qed.

Lemma not_all_app (p q : char -> bool) (s w : jsstring) :
  (forall x, q x = true -> p x = false) -> runOf q w = true ->
  forallb p (s ++ w) = false.
Proof.
  intros Hqp (x & w' & -> & Hx & _)%runOf_cons.
  rewrite forallb_app. cbn [forallb]. rewrite (Hqp x Hx). cbn [andb].
  apply andb_false_r.
Qed.

Lemma digit_not_letter (x : char) : isDigit x = true -> isLetter x = false.
Proof.
  intros H. destruct (isLetter x) eqn:E; [|reflexivity].
  apply letter_not_digit in E. congruence.
Qed.

(** The word unknown, in any case, is the only input that the pattern
    of the unknown date accepts. *)
Lemma unknown_letters (s : jsstring) (b : position) :
  Matches (Cat (stri "unknown") Eol) (None, s, []) b -> forallb isLetter s = true.
Proof.
  intros M. cbv [stri cats map js] in M.
  repeat match goal with
  | M : Matches (Cat _ _) _ _ |- _ =>
      let p := fresh "p" in let s := fresh "s" in let c := fresh "c" in
      let M1 := fresh "M" in
      apply Matches_cat in M as (p & s & c & M1 & M)
  end.
  apply Matches_eol in M as (_ & _ & M).
  repeat match goal with
  | M : Matches (liti _) _ _ |- _ =>
      let y := fresh "y" in let E := fresh "E" in let L := fresh "L" in
      apply Matches_liti in M as (y & E & L);
      match type of L with
      | _ = ?rhs => let v := eval vm_compute in rhs in change rhs with v in L
      end;
      assert (isLetter y = true)
        by (apply lower_letter; rewrite L; vm_compute; reflexivity);
      clear L
  end.
  cbn [fst snd] in *. subst. cbn [forallb].
  repeat match goal with H : isLetter _ = true |- _ => rewrite H; clear H end.
  reflexivity.
Qed.

(** An input that ends with a year, begins with no white space and
    with no qualifier goes to the patterns as it is. *)
Lemma parseDate_plain (front y : jsstring) :
  digitsOf 4 y = true ->
  stops isSpace (front ++ y) = true ->
  (forall b, ~ Matches qualifierWords (None, front ++ y, []) b) ->
  parseDate (Some (front ++ y)) = firstOf datePatterns (front ++ y).
Proof.
  intros Hy Hstart Hq. cbn [parseDate].
  assert (Ht : truthy (front ++ y) = true).
  { destruct front; [|reflexivity]. destruct y; [discriminate|reflexivity]. }
  rewrite Ht. rewrite (cleanDate_unqualified _ Hq), trim_id;
    [|exact Hstart|apply (stops_rev_end isSpace isDigit); auto using digit_not_space with tok].
  unfold parseCleaned. rewrite Ht. cbn [negb orb].
  unfold test. change reUnknown with (Cat Bol (Cat (stri "unknown") Eol)).
  rewrite search_bol_none; [reflexivity|].
  intros b M. apply unknown_letters in M.
  rewrite (not_all_app isLetter isDigit) in M;
    [discriminate|exact digit_not_letter|auto with tok].
Qed.

Lemma no_qualifier_digit (x : char) (s : jsstring) :
  isDigit x = true -> forall b, ~ Matches qualifierWords (None, x :: s, []) b.
Proof.
  intros Hx b M. apply qualifier_start in M as (x1 & x2 & x3 & rest & E & Hin).
  cbn [fst snd] in E. injection E as <- _.
  assert (Hl : lowerAscii x = x).
  { unfold lowerAscii. destruct (isUpper x) eqn:E; [|reflexivity].
    revert Hx E. to_props. lia. }
  rewrite Hl in Hin. unfold qualifierStarts in Hin. cbn [In] in Hin.
  repeat destruct Hin as [Hin|Hin]; try contradiction;
    injection Hin as <- _ _; vm_compute in Hx; discriminate.
Qed.

Lemma no_qualifier_month (m mm rest : jsstring) :
  ownMonth m = Some mm -> forall b, ~ Matches qualifierWords (None, m ++ rest, []) b.
Proof.
  intros Hm b M. apply ownMonth_facts in Hm as (_ & _ & _ & Hno & Hlen).
  apply qualifier_start in M as (x1 & x2 & x3 & rest' & E & Hin).
  cbn [fst snd] in E.
  destruct m as [|y1 [|y2 [|y3 m]]]; cbn [length] in Hlen; try lia.
  cbn [app] in E. injection E as <- <- <- _.
  change (existsb (eqStr [lowerAscii y1; lowerAscii y2; lowerAscii y3])
            qualifierStarts = false) in Hno.
  assert (Hyes : existsb (eqStr [lowerAscii y1; lowerAscii y2; lowerAscii y3])
                   qualifierStarts = true).
  { apply existsb_exists. eexists. split; [exact Hin|]. apply eqStr_refl. }
  congruence.
Qed.

(** ** One pattern: found in one way, or not found *)

Lemma test_bol (r : regex) (s : jsstring) (b : position) :
  Matches r (None, s, []) b -> test (Cat Bol r) s = true.
Proof.
  intros M. unfold test. rewrite search_bol.
  destruct (exec r None s [] (fun _ s' c => Some (s', c))) as [[s' c]|] eqn:E;
    [reflexivity|].
  apply (exec_complete r _ _ M) in E. discriminate.
Qed.

Lemma datePattern_unique (r : regex) (gm : nat)
    (build : found -> jsstring -> jsstring) (s : jsstring) (q : option char)
    (caps : captures) (mm : jsstring) :
  Matches r (None, s, []) (q, [], caps) ->
  (forall b', Matches r (None, s, []) b' -> snd (fst b') = [] /\ snd b' = caps) ->
  monthOf (toLowerCaseAscii
             (match capture gm caps with Some x => x | None => [] end)) = Some mm ->
  truthy mm = true ->
  datePattern (Cat Bol r) gm build s
  = Some (build (Found [] (take (length s - 0) s) [] caps) mm).
Proof.
  intros M Hu Hm Ht. unfold datePattern.
  rewrite (search_bol_unique r s (q, [], caps) M Hu). cbn [fst snd].
  unfold group. cbn [f_caps]. rewrite Hm, Ht. reflexivity.
Qed.

Lemma datePattern_none (r : regex) (gm : nat)
    (build : found -> jsstring -> jsstring) (s : jsstring) :
  (forall b, ~ Matches r (None, s, []) b) -> datePattern (Cat Bol r) gm build s = None.
Proof. intros Hno. unfold datePattern. rewrite (search_bol_none r s Hno). reflexivity. Qed.

Lemma byYear_none (s : jsstring) : length s <> 4%nat -> byYear s = None.
Proof.
  intros Hl. unfold byYear, test. change reYear with (Cat Bol (cats [digits4; Eol])).
  rewrite search_bol_none; [reflexivity|].
  intros b M. apply year_inv, digitsOf_length in M. contradiction.
Qed.

Lemma truthy_month (mm : jsstring) : digitsOf 2 mm = true -> truthy mm = true.
Proof. destruct mm; [discriminate|reflexivity]. Qed.

(** ** Matches of the five patterns *)

Lemma dash_matches (d m y : jsstring) :
  dayDigits d = true -> runOf isWord m = true -> digitsOf 4 y = true ->
  exists q,
    Matches (cats [Group 1 digits12; lit 45; Group 2 (plus isWord); lit 45;
                   Group 3 digits4; Eol])
      (None, d ++ 45%N :: m ++ 45%N :: y, []) (q, [], [(3, y); (2, m); (1, d)]%nat).
Proof.
  intros Hd Hm Hy.
  destruct (digits12_matches None d (45%N :: m ++ 45%N :: y ++ []) [] Hd) as [q1 M1].
  destruct (plus_matches isWord (Some 45%N) m (45%N :: y ++ []) [(1, d)]%nat Hm) as [q2 M2].
  destruct (digits4_matches (Some 45%N) y [] [(2, m); (1, d)]%nat Hy) as [q3 M3].
  exists q3. rewrite <- (app_nil_r y) at 1. cbn [cats].
  eapply M_Cat; [apply group_matches, M1|].
  eapply M_Cat; [apply lit_matches|].
  eapply M_Cat; [apply group_matches, M2|].
  eapply M_Cat; [apply lit_matches|].
  eapply M_Cat; [apply group_matches, M3|apply M_Eol].
Qed.

Lemma dmy_matches (d s1 m s2 y : jsstring) :
  dayDigits d = true -> runOf isSpace s1 = true -> runOf isWord m = true ->
  runOf isSpace s2 = true -> digitsOf 4 y = true ->
  exists q,
    Matches (cats [Group 1 digits12; plus isSpace; Group 2 (plus isWord);
                   plus isSpace; Group 3 digits4; Eol])
      (None, d ++ s1 ++ m ++ s2 ++ y, []) (q, [], [(3, y); (2, m); (1, d)]%nat).
Proof.
  intros Hd H1 Hm H2 Hy.
  destruct (digits12_matches None d (s1 ++ m ++ s2 ++ y ++ []) [] Hd) as [q1 M1].
  destruct (plus_matches isSpace q1 s1 (m ++ s2 ++ y ++ []) [(1, d)]%nat H1) as [q2 M2].
  destruct (plus_matches isWord q2 m (s2 ++ y ++ []) [(1, d)]%nat Hm) as [q3 M3].
  destruct (plus_matches isSpace q3 s2 (y ++ []) [(2, m); (1, d)]%nat H2) as [q4 M4].
  destruct (digits4_matches q4 y [] [(2, m); (1, d)]%nat Hy) as [q5 M5].
  exists q5. rewrite <- (app_nil_r y) at 1. cbn [cats].
  eapply M_Cat; [apply group_matches, M1|].
  eapply M_Cat; [apply M2|].
  eapply M_Cat; [apply group_matches, M3|].
  eapply M_Cat; [apply M4|].
  eapply M_Cat; [apply group_matches, M5|apply M_Eol].
Qed.

Lemma comma_matches (t : bool) (prev : option char) (s : jsstring) (c : captures) :
  exists q, Matches (Opt (lit 44)) (prev, commaIf t ++ s, c) (q, s, c).
Proof.
  destruct t; cbn [commaIf app]; eexists;
    [apply M_OptSome, lit_matches|apply M_OptNone].
Qed.

Lemma mdy_matches (m s1 d : jsstring) (t : bool) (s2 y : jsstring) :
  runOf isWord m = true -> runOf isSpace s1 = true -> dayDigits d = true ->
  runOf isSpace s2 = true -> digitsOf 4 y = true ->
  exists q,
    Matches (cats [Group 1 (plus isWord); plus isSpace; Group 2 digits12;
                   Opt (lit 44); plus isSpace; Group 3 digits4; Eol])
      (None, m ++ s1 ++ d ++ commaIf t ++ s2 ++ y, [])
      (q, [], [(3, y); (2, d); (1, m)]%nat).
Proof.
  intros Hm H1 Hd H2 Hy.
  destruct (plus_matches isWord None m (s1 ++ d ++ commaIf t ++ s2 ++ y ++ []) [] Hm)
    as [q1 M1].
  destruct (plus_matches isSpace q1 s1 (d ++ commaIf t ++ s2 ++ y ++ []) [(1, m)]%nat H1)
    as [q2 M2].
  destruct (digits12_matches q2 d (commaIf t ++ s2 ++ y ++ []) [(1, m)]%nat Hd)
    as [q3 M3].
  destruct (comma_matches t q3 (s2 ++ y ++ []) [(2, d); (1, m)]%nat) as [q4 M4].
  destruct (plus_matches isSpace q4 s2 (y ++ []) [(2, d); (1, m)]%nat H2) as [q5 M5].
  destruct (digits4_matches q5 y [] [(2, d); (1, m)]%nat Hy) as [q6 M6].
  exists q6. rewrite <- (app_nil_r y) at 1. cbn [cats].
  eapply M_Cat; [apply group_matches, M1|].
  eapply M_Cat; [apply M2|].
  eapply M_Cat; [apply group_matches, M3|].
  eapply M_Cat; [apply M4|].
  eapply M_Cat; [apply M5|].
  eapply M_Cat; [apply group_matches, M6|apply M_Eol].
Qed.

Lemma my_matches (m s1 y : jsstring) :
  runOf isWord m = true -> runOf isSpace s1 = true -> digitsOf 4 y = true ->
  exists q,
    Matches (cats [Group 1 (plus isWord); plus isSpace; Group 2 digits4; Eol])
      (None, m ++ s1 ++ y, []) (q, [], [(2, y); (1, m)]%nat).
Proof.
  intros Hm H1 Hy.
  destruct (plus_matches isWord None m (s1 ++ y ++ []) [] Hm) as [q1 M1].
  destruct (plus_matches isSpace q1 s1 (y ++ []) [(1, m)]%nat H1) as [q2 M2].
  destruct (digits4_matches q2 y [] [(1, m)]%nat Hy) as [q3 M3].
  exists q3. rewrite <- (app_nil_r y) at 1. cbn [cats].
  eapply M_Cat; [apply group_matches, M1|].
  eapply M_Cat; [apply M2|].
  eapply M_Cat; [apply group_matches, M3|apply M_Eol].
Qed.

(** ** The formats *)

Lemma length_ne4 (a b : jsstring) :
  (2 <= length a)%nat -> (3 <= length b)%nat -> length (a ++ b) <> 4%nat.
Proof. rewrite length_app. lia. Qed.

Lemma stops_space_digits (d rest : jsstring) :
  dayDigits d = true -> stops isSpace (d ++ rest) = true.
Proof.
  intros Hd. apply (stops_run isSpace isDigit); [exact digit_not_space|].
  apply dayDigits_all, Hd.
Qed.

Lemma stops_space_month (m mm rest : jsstring) :
  ownMonth m = Some mm -> stops isSpace (m ++ rest) = true.
Proof.
  intros (Hm & _)%ownMonth_facts.
  apply (stops_run isSpace isWord); [exact word_not_space|]. auto with tok.
Qed.

Lemma no_qualifier_day (d rest : jsstring) :
  dayDigits d = true -> forall b, ~ Matches qualifierWords (None, d ++ rest, []) b.
Proof.
  intros (x & d' & -> & Hx & _)%dayDigits_all%runOf_cons. cbn [app].
  apply no_qualifier_digit, Hx.
Qed.

(** X3: a year of four digits alone is the first of January of that
    year. *)
Theorem parseDate_year (y : jsstring) :
  digitsOf 4 y = true -> parseDate (Some y) = Some (y ++ js "-01-01").
Proof.
  intros Hy.
  assert (Hrun := year_digits y Hy). apply runOf_cons in Hrun as (x & y' & E & Hx & _).
  change y with ([] ++ y) at 1.
  rewrite parseDate_plain; [|exact Hy| |].
  - cbn [app datePatterns firstOf]. unfold byYear.
    change reYear with (Cat Bol (cats [digits4; Eol])).
    destruct (digits4_matches None y [] [] Hy) as [q M].
    rewrite app_nil_r in M.
    rewrite (test_bol _ y (q, [], [])); [reflexivity|].
    cbn [cats]. eapply M_Cat; [exact M|apply M_Eol].
  - cbn [app]. subst y. cbn [stops]. rewrite (digit_not_space x Hx). reflexivity.
  - cbn [app]. subst y. apply no_qualifier_digit, Hx.
Qed.

Lemma parseDate_year_witness :
  parseDate (Some (js "1567")) = Some (js "1567" ++ js "-01-01").
Proof. apply (parseDate_year (js "1567")). vm_compute. reflexivity. Defined.

Lemma parseDate_ends_with_year (s front y : jsstring) :
  s = front ++ y ->
  digitsOf 4 y = true ->
  stops isSpace s = true ->
  (forall b, ~ Matches qualifierWords (None, s, []) b) ->
  parseDate (Some s) = firstOf datePatterns s.
Proof. intros ->. apply parseDate_plain. Qed.

Lemma run_lengths (p : char -> bool) (w : jsstring) :
  runOf p w = true -> (1 <= length w)%nat.
Proof. intros (x & w' & -> & _)%runOf_cons. cbn. lia. Qed.

Lemma day_length (w : jsstring) : dayDigits w = true -> (1 <= length w)%nat.
Proof. intros H. apply (run_lengths isDigit), dayDigits_all, H. Qed.

(** X4: a day of one or two digits, a month of the table in any
    letter case and a year of four digits, joined by [-], give the year,
    the number of the month and the day on two digits. *)
Theorem parseDate_day_month_year_dashes (d m mm y : jsstring) :
  dayDigits d = true -> ownMonth m = Some mm -> digitsOf 4 y = true ->
  parseDate (Some (d ++ js "-" ++ m ++ js "-" ++ y))
  = Some (y ++ js "-" ++ mm ++ js "-" ++ padStart2 d).
Proof.
  intros Hd Hm Hy. change (js "-") with [45%N]. cbn [app].
  pose proof (ownMonth_facts m mm Hm) as (Hlet & Hmm & Hmonth & _ & Hlen).
  rewrite (parseDate_ends_with_year _ (d ++ 45%N :: m ++ [45%N]) y);
    [|rewrite <- !app_assoc; cbn [app]; rewrite <- !app_assoc; reflexivity|exact Hy
     |apply stops_space_digits, Hd|apply no_qualifier_day, Hd].
  cbn [datePatterns firstOf].
  rewrite byYear_none
    by (rewrite length_app; cbn [length]; rewrite length_app; cbn [length];
        pose proof (digitsOf_length _ _ Hy); lia).
  unfold byDash.
  change reDash with
    (Cat Bol (cats [Group 1 digits12; lit 45; Group 2 (plus isWord); lit 45;
                    Group 3 digits4; Eol])).
  destruct (dash_matches d m y Hd (letters_words m Hlet) Hy) as [q M].
  rewrite (datePattern_unique _ _ _ _ q [(3, y); (2, m); (1, d)]%nat mm M).
  - reflexivity.
  - intros b' M'. apply dash_inv in M' as (w1 & w2 & w3 & E & D1 & D2 & D3 & Hi & Hc).
    rewrite Hi, Hc. split; [reflexivity|].
    span isDigit E. injection E as E. span isWord E. injection E as E. subst.
    reflexivity.
  - exact Hmonth.
  - apply truthy_month, Hmm.
Qed.

Lemma parseDate_day_month_year_dashes_witness :
  parseDate (Some (js "01" ++ js "-" ++ js "Feb" ++ js "-" ++ js "1837"))
  = Some (js "1837" ++ js "-" ++ js "02" ++ js "-" ++ padStart2 (js "01")).
Proof.
  apply (parseDate_day_month_year_dashes (js "01") (js "Feb") (js "02") (js "1837"));
    vm_compute; reflexivity.
Defined.

(** X5: a day of one or two digits, a month of the table in any letter
    case and a year of four digits, with white space between them, give
    the year, the number of the month and the day on two digits. *)
Theorem parseDate_day_month_year (d s1 m mm s2 y : jsstring) :
  dayDigits d = true -> runOf isSpace s1 = true -> ownMonth m = Some mm ->
  runOf isSpace s2 = true -> digitsOf 4 y = true ->
  parseDate (Some (d ++ s1 ++ m ++ s2 ++ y))
  = Some (y ++ js "-" ++ mm ++ js "-" ++ padStart2 d).
Proof.
  intros Hd H1 Hm H2 Hy.
  pose proof (ownMonth_facts m mm Hm) as (Hlet & Hmm & Hmonth & _ & Hlen).
  rewrite (parseDate_ends_with_year _ (d ++ s1 ++ m ++ s2) y);
    [|rewrite <- !app_assoc; reflexivity|exact Hy
     |apply stops_space_digits, Hd|apply no_qualifier_day, Hd].
  cbn [datePatterns firstOf].
  rewrite byYear_none
    by (rewrite !length_app; pose proof (digitsOf_length _ _ Hy);
        pose proof (day_length _ Hd); lia).
  unfold byDash.
  change reDash with
    (Cat Bol (cats [Group 1 digits12; lit 45; Group 2 (plus isWord); lit 45;
                    Group 3 digits4; Eol])).
  rewrite datePattern_none.
  2:{ intros b' M'. apply dash_inv in M' as (w1 & w2 & w3 & E & D1 & D2 & D3 & _).
      span isDigit E. apply runOf_cons in H1 as (x & s1' & -> & Hx & _).
      injection E as -> _. vm_compute in Hx. discriminate. }
  unfold byDmy.
  change reDmy with
    (Cat Bol (cats [Group 1 digits12; plus isSpace; Group 2 (plus isWord);
                    plus isSpace; Group 3 digits4; Eol])).
  destruct (dmy_matches d s1 m s2 y Hd H1 (letters_words m Hlet) H2 Hy) as [q M].
  rewrite (datePattern_unique _ _ _ _ q [(3, y); (2, m); (1, d)]%nat mm M).
  - reflexivity.
  - intros b' M'.
    apply dmy_inv in M' as (w1 & t1 & w2 & t2 & w3 & E & D1 & T1 & D2 & T2 & D3 & Hi & Hc).
    rewrite Hi, Hc. split; [reflexivity|].
    span isDigit E. span isSpace E. span isWord E. span isSpace E.
  - exact Hmonth.
  - apply truthy_month, Hmm.
Qed.

Lemma parseDate_day_month_year_witness :
  parseDate (Some (js "12" ++ js " " ++ js "Oct" ++ js " " ++ js "1982"))
  = Some (js "1982" ++ js "-" ++ js "10" ++ js "-" ++ padStart2 (js "12")).
Proof.
  apply (parseDate_day_month_year (js "12") (js " ") (js "Oct") (js "10") (js " ")
           (js "1982")); vm_compute; reflexivity.
Defined.

(** An input that begins with a letter is not one of the patterns that
    begin with the day. *)
Lemma not_day_first (m rest w1 rest' : jsstring) :
  runOf isLetter m = true -> dayDigits w1 = true -> m ++ rest = w1 ++ rest' -> False.
Proof.
  intros (x & m' & -> & Hx & _)%runOf_cons (z & w' & -> & Hz & _)%dayDigits_all%runOf_cons.
  cbn [app]. intros [= -> _]. apply letter_not_digit in Hx. congruence.
Qed.

Lemma month_first_skips (m mm rest : jsstring) :
  ownMonth m = Some mm -> (5 <= length rest)%nat ->
  byYear (m ++ rest) = None /\ byDash (m ++ rest) = None /\ byDmy (m ++ rest) = None.
Proof.
  intros (Hlet & _ & _ & _ & Hlen)%ownMonth_facts Hrest.
  split; [apply byYear_none; rewrite length_app; lia|]. split.
  - unfold byDash.
    change reDash with
      (Cat Bol (cats [Group 1 digits12; lit 45; Group 2 (plus isWord); lit 45;
                      Group 3 digits4; Eol])).
    apply datePattern_none. intros b' M'.
    apply dash_inv in M' as (w1 & w2 & w3 & E & D1 & _).
    apply (not_day_first _ _ _ _ Hlet D1 E).
  - unfold byDmy.
    change reDmy with
      (Cat Bol (cats [Group 1 digits12; plus isSpace; Group 2 (plus isWord);
                      plus isSpace; Group 3 digits4; Eol])).
    apply datePattern_none. intros b' M'.
    apply dmy_inv in M' as (w1 & t1 & w2 & t2 & w3 & E & D1 & _).
    apply (not_day_first _ _ _ _ Hlet D1 E).
Qed.

Lemma stops_digit_comma (t : bool) (s2 rest : jsstring) :
  runOf isSpace s2 = true -> stops isDigit (commaIf t ++ s2 ++ rest) = true.
Proof. intros H2. destruct t; cbn [commaIf app]; [reflexivity|auto with tok]. Qed.

Lemma comma_unique (t t' : bool) (s2 s2' r r' : jsstring) :
  runOf isSpace s2 = true -> runOf isSpace s2' = true ->
  commaIf t ++ s2 ++ r = commaIf t' ++ s2' ++ r' -> s2 ++ r = s2' ++ r'.
Proof.
  intros (x & u & -> & Hx & _)%runOf_cons (x' & u' & -> & Hx' & _)%runOf_cons.
  destruct t, t'; cbn [commaIf app]; intros E; try congruence;
    injection E as E _; subst;
    first [vm_compute in Hx; discriminate|vm_compute in Hx'; discriminate].
Qed.

(** X6: a month of the table in any letter case, a day of one or two
    digits with or without a comma after it, and a year of four digits,
    with white space between them, give the year, the number of the month
    and the day on two digits. *)
Theorem parseDate_month_day_year (m mm s1 d : jsstring) (comma : bool)
    (s2 y : jsstring) :
  ownMonth m = Some mm -> runOf isSpace s1 = true -> dayDigits d = true ->
  runOf isSpace s2 = true -> digitsOf 4 y = true ->
  parseDate (Some (m ++ s1 ++ d ++ commaIf comma ++ s2 ++ y))
  = Some (y ++ js "-" ++ mm ++ js "-" ++ padStart2 d).
Proof.
  intros Hm H1 Hd H2 Hy.
  pose proof (ownMonth_facts m mm Hm) as (Hlet & Hmm & Hmonth & _ & Hlen).
  rewrite (parseDate_ends_with_year _ (m ++ s1 ++ d ++ commaIf comma ++ s2) y);
    [|rewrite <- !app_assoc; reflexivity|exact Hy
     |apply (stops_space_month m mm), Hm|apply (no_qualifier_month m mm), Hm].
  cbn [datePatterns firstOf].
  destruct (month_first_skips m mm (s1 ++ d ++ commaIf comma ++ s2 ++ y) Hm)
    as (-> & -> & ->).
  { rewrite !length_app. pose proof (digitsOf_length _ _ Hy).
    pose proof (run_lengths _ _ H1). lia. }
  unfold byMdy.
  change reMdy with
    (Cat Bol (cats [Group 1 (plus isWord); plus isSpace; Group 2 digits12;
                    Opt (lit 44); plus isSpace; Group 3 digits4; Eol])).
  destruct (mdy_matches m s1 d comma s2 y (letters_words m Hlet) H1 Hd H2 Hy) as [q M].
  rewrite (datePattern_unique _ _ _ _ q [(3, y); (2, d); (1, m)]%nat mm M).
  - reflexivity.
  - intros b' M'.
    apply mdy_inv in M'
      as (w1 & t1 & w2 & t & t2 & w3 & E & D1 & T1 & D2 & T2 & D3 & Hi & Hc).
    rewrite Hi, Hc. split; [reflexivity|].
    span isWord E. span isSpace E.
    apply (span_unique isDigit) in E as [? E];
      [subst|auto with tok|auto with tok|apply stops_digit_comma, H2
      |apply stops_digit_comma, T2].
    apply comma_unique in E; [|assumption|assumption].
    span isSpace E.
  - exact Hmonth.
  - apply truthy_month, Hmm.
Qed.

Lemma parseDate_month_day_year_witness :
  parseDate (Some (js "May" ++ js " " ++ js "12" ++ commaIf true ++ js " " ++ js "1805"))
  = Some (js "1805" ++ js "-" ++ js "05" ++ js "-" ++ padStart2 (js "12")).
Proof.
  apply (parseDate_month_day_year (js "May") (js "05") (js " ") (js "12") true
           (js " ") (js "1805")); vm_compute; reflexivity.
Defined.

(** X7: a month of the table in any letter case and a year of four
    digits, with white space between them, give the first day of that
    month. *)
Theorem parseDate_month_year (m mm s1 y : jsstring) :
  ownMonth m = Some mm -> runOf isSpace s1 = true -> digitsOf 4 y = true ->
  parseDate (Some (m ++ s1 ++ y)) = Some (y ++ js "-" ++ mm ++ js "-01").
Proof.
  intros Hm H1 Hy.
  pose proof (ownMonth_facts m mm Hm) as (Hlet & Hmm & Hmonth & _ & Hlen).
  rewrite (parseDate_ends_with_year _ (m ++ s1) y);
    [|rewrite <- !app_assoc; reflexivity|exact Hy
     |apply (stops_space_month m mm), Hm|apply (no_qualifier_month m mm), Hm].
  cbn [datePatterns firstOf].
  destruct (month_first_skips m mm (s1 ++ y) Hm) as (-> & -> & ->).
  { rewrite !length_app. pose proof (digitsOf_length _ _ Hy).
    pose proof (run_lengths _ _ H1). lia. }
  unfold byMdy.
  change reMdy with
    (Cat Bol (cats [Group 1 (plus isWord); plus isSpace; Group 2 digits12;
                    Opt (lit 44); plus isSpace; Group 3 digits4; Eol])).
  rewrite datePattern_none.
  2:{ intros b' M'.
      apply mdy_inv in M'
        as (w1 & t1 & w2 & t & t2 & w3 & E & D1 & T1 & D2 & T2 & D3 & _).
      span isWord E. span isSpace E.
      pose proof (digitsOf_length _ _ Hy) as L. rewrite !length_app in L.
      pose proof (digitsOf_length _ _ D3).
      pose proof (day_length _ D2). pose proof (run_lengths _ _ T2). lia. }
  unfold byMy.
  change reMy with
    (Cat Bol (cats [Group 1 (plus isWord); plus isSpace; Group 2 digits4; Eol])).
  destruct (my_matches m s1 y (letters_words m Hlet) H1 Hy) as [q M].
  rewrite (datePattern_unique _ _ _ _ q [(2, y); (1, m)]%nat mm M).
  - reflexivity.
  - intros b' M'. apply my_inv in M' as (w1 & t1 & w2 & E & D1 & T1 & D2 & Hi & Hc).
    rewrite Hi, Hc. split; [reflexivity|].
    span isWord E. span isSpace E.
  - exact Hmonth.
  - apply truthy_month, Hmm.
Qed.

Lemma parseDate_month_year_witness :
  parseDate (Some (js "Jan" ++ js " " ++ js "1900"))
  = Some (js "1900" ++ js "-" ++ js "01" ++ js "-01").
Proof.
  apply (parseDate_month_year (js "Jan") (js "01") (js " ") (js "1900"));
    vm_compute; reflexivity.
Defined.

(** ** What is not read *)

Lemma parseDate_none (s : jsstring) :
  firstOf datePatterns (cleanDate s) = None -> parseDate (Some s) = None.
Proof.
  intros Hno. cbn [parseDate]. destruct (truthy s); [|reflexivity].
  unfold parseCleaned.
  destruct (negb (truthy (cleanDate s)) || test reUnknown (cleanDate s));
    [reflexivity|exact Hno].
Qed.

Lemma day_at_most_two (w : jsstring) (x1 x2 x3 : char) (rest rest' : jsstring) :
  dayDigits w = true -> isDigit x1 = true -> isDigit x2 = true -> isDigit x3 = true ->
  x1 :: x2 :: x3 :: rest = w ++ rest' -> stops isDigit rest' = true -> False.
Proof.
  intros Hw H1 H2 H3 E Hs. pose proof (dayDigits_length w Hw) as Hl.
  destruct w as [|z1 [|z2 [|z3 w]]]; cbn [length] in Hl; try lia; cbn [app] in E.
  - discriminate Hw.
  - injection E as _ <-. cbn [stops] in Hs. rewrite H2 in Hs. discriminate.
  - injection E as _ _ <-. cbn [stops] in Hs. rewrite H3 in Hs. discriminate.
Qed.

(** X8: a date that is already in the form year-month-day is not
    read: the normalizer gives null for each of its own results. *)
Theorem iso_date_not_read (d : jsstring) :
  isIsoDate d = true -> parseDate (Some d) = None.
Proof.
  unfold isIsoDate.
  destruct d as [|y1 [|y2 [|y3 [|y4 [|d1 [|m1 [|m2 [|d2 [|a1 [|a2 [|]]]]]]]]]]];
    try discriminate.
  cbn [forallb]. intros H.
  repeat match goal with
  | H : _ && _ = true |- _ =>
      let H' := fresh "H" in apply andb_prop in H as [H H']
  end.
  repeat match goal with
  | H : eqChar _ _ = true |- _ => apply N.eqb_eq in H; subst
  end.
  set (s := [y1; y2; y3; y4; 45%N; m1; m2; 45%N; a1; a2]).
  assert (Hwords : forallb isWord [y1; y2; y3; y4] = true).
  { cbn [forallb]. rewrite !digit_word by assumption. reflexivity. }
  assert (Hdigits : forallb isDigit [y1; y2; y3; y4] = true).
  { cbn [forallb]. repeat match goal with H : isDigit _ = true |- _ => rewrite H end.
    reflexivity. }
  assert (Hno : firstOf datePatterns s = None).
  { cbn [datePatterns firstOf].
    rewrite byYear_none by (cbn; lia).
    unfold byDash.
    change reDash with
      (Cat Bol (cats [Group 1 digits12; lit 45; Group 2 (plus isWord); lit 45;
                      Group 3 digits4; Eol])).
    rewrite datePattern_none.
    2:{ intros b' M'. apply dash_inv in M' as (w1 & w2 & w3 & E & D1 & _).
        apply (day_at_most_two w1 y1 y2 y3 _ _ D1) in E; auto. }
    unfold byDmy.
    change reDmy with
      (Cat Bol (cats [Group 1 digits12; plus isSpace; Group 2 (plus isWord);
                      plus isSpace; Group 3 digits4; Eol])).
    rewrite datePattern_none.
    2:{ intros b' M'.
        apply dmy_inv in M' as (w1 & t1 & w2 & t2 & w3 & E & D1 & T1 & _).
        apply (day_at_most_two w1 y1 y2 y3 _ _ D1) in E; auto with tok. }
    unfold byMdy.
    change reMdy with
      (Cat Bol (cats [Group 1 (plus isWord); plus isSpace; Group 2 digits12;
                      Opt (lit 44); plus isSpace; Group 3 digits4; Eol])).
    rewrite datePattern_none.
    2:{ intros b' M'.
        apply mdy_inv in M' as (w1 & t1 & w2 & t & t2 & w3 & E & D1 & T1 & _).
        change s with ([y1; y2; y3; y4] ++ 45%N :: [m1; m2; 45%N; a1; a2]) in E.
        symmetry in E. span isWord E.
        apply runOf_cons in T1 as (x & t1' & -> & Hx & _). cbn [app] in E.
        injection E as E1 _. rewrite E1 in Hx. vm_compute in Hx. discriminate. }
    unfold byMy.
    change reMy with
      (Cat Bol (cats [Group 1 (plus isWord); plus isSpace; Group 2 digits4; Eol])).
    rewrite datePattern_none; [reflexivity|].
    intros b' M'. apply my_inv in M' as (w1 & t1 & w2 & E & D1 & T1 & _).
    change s with ([y1; y2; y3; y4] ++ 45%N :: [m1; m2; 45%N; a1; a2]) in E.
    symmetry in E. span isWord E.
    apply runOf_cons in T1 as (x & t1' & -> & Hx & _). cbn [app] in E.
    injection E as E1 _. rewrite E1 in Hx. vm_compute in Hx. discriminate. }
  apply parseDate_none.
  rewrite cleanDate_unqualified by (apply no_qualifier_digit; assumption).
  rewrite trim_id; [exact Hno| |].
  - cbn [stops]. rewrite digit_not_space by assumption. reflexivity.
  - cbn [rev app stops]. rewrite digit_not_space by assumption. reflexivity.
Qed.

Lemma iso_date_not_read_witness : parseDate (Some (js "1982-10-12")) = None.
Proof. apply (iso_date_not_read (js "1982-10-12")). vm_compute. reflexivity. Defined.

(** ** The words before and after *)

Import DateProofs.

(** The pattern of the qualifiers takes the first three letters of the
    words before and after: the alternatives bef and aft come first. *)
Lemma word_prefix_taken {A : Type} (g : jsstring -> captures -> A)
    (q rest : jsstring) :
  toLowerCaseAscii q = js "before" \/ toLowerCaseAscii q = js "after" ->
  exec qualifierWords None (q ++ rest) []
    (fun _ s' c' => Some (g s' c')) = Some (g (drop 3 q ++ rest) []).
Proof.
  unfold toLowerCaseAscii.
  intros [H|H];
    match type of H with
    | _ = ?w => let v := eval vm_compute in w in change w with v in H
    end;
    repeat (destruct q as [|? q]; try discriminate H);
    cbn [map] in H.
  - injection H as H1 H2 H3 H4 H5 H6.
    repeat match goal with
           | Hc : lowerAscii _ = _ |- _ => letter_case Hc
           end;
    cbv [qualifierWords ors cats str stri lit liti map js exec app drop];
    literal_chars rest; cbv iota; reflexivity.
  - injection H as H1 H2 H3 H4 H5.
    repeat match goal with
           | Hc : lowerAscii _ = _ |- _ => letter_case Hc
           end;
    cbv [qualifierWords ors cats str stri lit liti map js exec app drop];
    literal_chars rest; cbv iota; reflexivity.
Qed.

Lemma trimStart_last (l : jsstring) (x : char) :
  isSpace x = false -> trimStart (l ++ [x]) = trimStart l ++ [x].
Proof.
  intros Hx. induction l as [|y l IH]; cbn [app trimStart].
  - rewrite Hx. reflexivity.
  - destruct (isSpace y); [exact IH|reflexivity].
Qed.

Lemma trimEnd_cons (x : char) (s : jsstring) :
  isSpace x = false -> trimEnd (x :: s) = x :: trimEnd s.
Proof.
  intros Hx. unfold trimEnd. cbn [rev]. rewrite (trimStart_last _ x Hx).
  rewrite rev_app_distr. reflexivity.
Qed.

Lemma trim_keeps_two (x y : char) (s : jsstring) :
  isSpace x = false -> isSpace y = false ->
  trim (x :: y :: s) = x :: y :: trimEnd s.
Proof.
  intros Hx Hy. unfold trim. cbn [trimStart]. rewrite Hx.
  rewrite (trimEnd_cons x _ Hx), (trimEnd_cons y _ Hy). reflexivity.
Qed.

Lemma no_month_begins (a b : char) (key : jsstring) :
  noMonthBegins a b = true -> beginsLike a b key = true -> monthOf key = None.
Proof.
  unfold noMonthBegins. intros [[Hown Hc]%andb_prop Hp]%andb_prop Hkey.
  unfold monthOf. destruct (assocStr key MONTHS) as [v|] eqn:Ha.
  - apply assocStr_pair in Ha as (kv & Hin & -> & _).
    rewrite forallb_forall in Hown. specialize (Hown kv Hin).
    rewrite Hkey in Hown. discriminate.
  - destruct (eqStr key (js "constructor")) eqn:E1.
    { apply eqStr_spec in E1. subst key. rewrite Hkey in Hc. discriminate. }
    destruct (eqStr key (js "__proto__")) eqn:E2; [|reflexivity].
    apply eqStr_spec in E2. subst key. rewrite Hkey in Hp. discriminate.
Qed.

(** The word at the start of an input, when white space follows it, as
    the first two characters of the input tell. *)
Lemma first_word_begins (x y : char) (rest w t more : jsstring) :
  x :: y :: rest = w ++ t ++ more ->
  runOf isWord w = true -> runOf isSpace t = true -> isSpace y = false ->
  beginsLike (lowerAscii x) (lowerAscii y) (toLowerCaseAscii w) = true.
Proof.
  intros E (z & w' & -> & _ & _)%runOf_cons (u & t' & -> & Hu & _)%runOf_cons Hy.
  cbn [app] in E. injection E as <- E.
  destruct w' as [|z' w']; cbn [app] in E.
  - injection E as -> _. congruence.
  - injection E as <- _. cbn [toLowerCaseAscii map beginsLike].
    unfold eqChar. rewrite !N.eqb_refl. reflexivity.
Qed.

Lemma left_of_word_not_read (x y : char) (rest : jsstring) :
  isLetter x = true -> isSpace y = false ->
  noMonthBegins (lowerAscii x) (lowerAscii y) = true ->
  firstOf datePatterns (x :: y :: rest) = None.
Proof.
  intros Hx Hy Hno. cbn [datePatterns firstOf].
  assert (Hrun : runOf isLetter [x] = true)
    by (unfold runOf; cbn; rewrite Hx; reflexivity).
  assert (Hyear : byYear (x :: y :: rest) = None).
  { unfold byYear, test. change reYear with (Cat Bol (cats [digits4; Eol])).
    rewrite search_bol_none; [reflexivity|].
    intros b M. apply year_inv, year_run in M. cbn [forallb] in M.
    rewrite (letter_not_digit x Hx) in M. discriminate. }
  rewrite Hyear.
  assert (Hdash : byDash (x :: y :: rest) = None).
  { unfold byDash.
    change reDash with
      (Cat Bol (cats [Group 1 digits12; lit 45; Group 2 (plus isWord); lit 45;
                      Group 3 digits4; Eol])).
    apply datePattern_none. intros b' M'.
    apply dash_inv in M' as (w1 & w2 & w3 & E & D1 & _).
    apply (not_day_first [x] (y :: rest) _ _ Hrun D1 E). }
  rewrite Hdash.
  assert (Hdmy : byDmy (x :: y :: rest) = None).
  { unfold byDmy.
    change reDmy with
      (Cat Bol (cats [Group 1 digits12; plus isSpace; Group 2 (plus isWord);
                      plus isSpace; Group 3 digits4; Eol])).
    apply datePattern_none. intros b' M'.
    apply dmy_inv in M' as (w1 & t1 & w2 & t2 & w3 & E & D1 & _).
    apply (not_day_first [x] (y :: rest) _ _ Hrun D1 E). }
  rewrite Hdmy.
  assert (Hmdy : byMdy (x :: y :: rest) = None).
  { unfold byMdy, datePattern.
    change reMdy with
      (Cat Bol (cats [Group 1 (plus isWord); plus isSpace; Group 2 digits12;
                      Opt (lit 44); plus isSpace; Group 3 digits4; Eol])).
    destruct (search _ _) as [f|] eqn:Hs; [|reflexivity].
    apply search_bol_sound in Hs as [q M].
    apply mdy_inv in M as (w1 & t1 & w2 & t & t2 & w3 & E & D1 & T1 & _ & _ & _ & _ & Hc).
    cbn [snd] in Hc. unfold group. rewrite Hc. cbn [capture Nat.eqb].
    rewrite (no_month_begins _ _ _ Hno (first_word_begins _ _ _ _ _ _ E D1 T1 Hy)).
    reflexivity. }
  rewrite Hmdy.
  unfold byMy, datePattern.
  change reMy with
    (Cat Bol (cats [Group 1 (plus isWord); plus isSpace; Group 2 digits4; Eol])).
  destruct (search _ _) as [f|] eqn:Hs; [|reflexivity].
  apply search_bol_sound in Hs as [q M].
  apply my_inv in M as (w1 & t1 & w2 & E & D1 & T1 & _ & _ & Hc).
  cbn [snd] in Hc. unfold group. rewrite Hc. cbn [capture Nat.eqb].
  rewrite (no_month_begins _ _ _ Hno (first_word_begins _ _ _ _ _ _ E D1 T1 Hy)).
  reflexivity.
Qed.

(** X9: no text that begins with the word before or the word after,
    in any letter case, is read as a date, whatever follows the word: the
    pattern of the qualifiers takes the letters bef or aft only, and what
    is left of the word is no month. *)
Theorem before_and_after_never_read (q rest : jsstring) :
  toLowerCaseAscii q = js "before" \/ toLowerCaseAscii q = js "after" ->
  parseDate (Some (q ++ rest)) = None.
Proof.
  intros Hq. apply parseDate_none.
  assert (Hclean : cleanDate (q ++ rest) = trim (drop 3 q ++ rest)).
  { unfold cleanDate, replaceFirst.
    change reQualifier with (Cat Bol (Cat (Group 1 qualifierWords) (Star isSpace))).
    rewrite search_bol. cbn [exec].
    erewrite exec_ext; last first.
    { intros a b d. apply (star_space_total (fun s' => (s', _))). }
    cbn beta. rewrite (word_prefix_taken _ q rest Hq).
    cbn [f_before f_after app]. apply trim_trimStart. }
  rewrite Hclean. unfold toLowerCaseAscii in Hq.
  destruct Hq as [H|H];
    match type of H with
    | _ = ?w => let v := eval vm_compute in w in change w with v in H
    end;
    repeat (destruct q as [|? q]; try discriminate H);
    cbn [map] in H; injection H as H1 H2 H3 H4 H5; cbn [drop app].
  - rewrite trim_keeps_two.
    + apply left_of_word_not_read.
      * apply lower_letter. rewrite H4. reflexivity.
      * apply word_not_space, letter_word, lower_letter. rewrite H5. reflexivity.
      * rewrite H4, H5. vm_compute. reflexivity.
    + apply word_not_space, letter_word, lower_letter. rewrite H4. reflexivity.
    + apply word_not_space, letter_word, lower_letter. rewrite H5. reflexivity.
  - rewrite trim_keeps_two.
    + apply left_of_word_not_read.
      * apply lower_letter. rewrite H4. reflexivity.
      * apply word_not_space, letter_word, lower_letter. rewrite H5. reflexivity.
      * rewrite H4, H5. vm_compute. reflexivity.
    + apply word_not_space, letter_word, lower_letter. rewrite H4. reflexivity.
    + apply word_not_space, letter_word, lower_letter. rewrite H5. reflexivity.
Qed.

Lemma before_and_after_never_read_witness :
  parseDate (Some (js "after" ++ js " 1698")) = None.
Proof.
  apply (before_and_after_never_read (js "after") (js " 1698")).
  right. vm_compute. reflexivity.
Defined.

End DateFormats.

(* ===================================================================== *)
(** * geocoder.js: the shape of a normalized place                        *)
(* ===================================================================== *)

Module PlaceProofs.
Import RegexFacts.

Lemma trimStart_suffix (s : jsstring) :
  exists w, s = w ++ trimStart s /\ forallb isSpace w = true.
Proof.
  induction s as [|x s (w & IH & Hw)]; [exists []; auto|]. cbn [trimStart].
  destruct (isSpace x) eqn:Hx.
  - exists (x :: w). cbn [app forallb]. rewrite Hx, <- IH. auto.
  - exists []. auto.
Qed.

Lemma length_trimStart (s : jsstring) : (length (trimStart s) <= length s)%nat.
Proof.
  destruct (trimStart_suffix s) as (w & E & _). rewrite E at 2.
  rewrite length_app. lia.
Qed.

Lemma stops_trimStart (s : jsstring) : stops isSpace (trimStart s) = true.
Proof.
  induction s as [|x s IH]; [reflexivity|]. cbn [trimStart].
  destruct (isSpace x) eqn:Hx; [exact IH|]. cbn [stops]. rewrite Hx. reflexivity.
Qed.

(** [/\s+/] at a position: the run of white space there. *)
Lemma matchHere_spaces (prev : option char) (s : jsstring) :
  matchHere reSpaces prev s
  = match s with
    | x :: s' => if isSpace x then Some (trimStart s', []) else None
    | [] => None
    end.
Proof.
  unfold matchHere, reSpaces, plus. cbn [exec]. destruct s as [|x s]; [reflexivity|].
  destruct (isSpace x); [|reflexivity].
  apply (star_space_total (fun s' => (s', []))).
Qed.

Lemma singleSpaced_tail (x : char) (s : jsstring) :
  singleSpaced (x :: s) = true -> singleSpaced s = true.
Proof. cbn [singleSpaced]. intros [_ H]%andb_prop. exact H. Qed.

Lemma singleSpaced_suffix (w s : jsstring) :
  singleSpaced (w ++ s) = true -> singleSpaced s = true.
Proof.
  induction w as [|x w IH]; [auto|]. cbn [app]. intros H.
  apply IH, (singleSpaced_tail x), H.
Qed.

Lemma stops_prefix (p : char -> bool) (a b : jsstring) :
  stops p (a ++ b) = true -> a <> [] -> stops p a = true.
Proof. destruct a as [|x a]; [contradiction|]. cbn [app stops]. auto. Qed.

Lemma singleSpaced_prefix (a b : jsstring) :
  singleSpaced (a ++ b) = true -> singleSpaced a = true.
Proof.
  induction a as [|x a IH]; [reflexivity|]. cbn [app singleSpaced].
  intros [Hx Ha]%andb_prop. rewrite (IH Ha), andb_true_r.
  destruct (isSpace x); [|reflexivity].
  apply andb_prop in Hx as [-> Hs]. cbn [andb].
  destruct a as [|y a]; [reflexivity|]. exact Hs.
Qed.

(** After [replace(/\s+/g, ' ')] every run of white space is one
    space. *)
Lemma collapse_spaces (fuel : nat) :
  forall pre s, (length s < fuel)%nat ->
    singleSpaced (replaceAllFrom fuel reSpaces (js " ") pre s) = true
    /\ (stops isSpace s = true ->
        stops isSpace (replaceAllFrom fuel reSpaces (js " ") pre s) = true).
Proof.
  induction fuel as [|fuel IH]; intros pre s Hl; [lia|].
  cbn [replaceAllFrom]. rewrite matchHere_spaces.
  destruct s as [|x s]; [auto|]. cbn [length] in Hl.
  destruct (isSpace x) eqn:Hx.
  - assert (Hlt : (length (trimStart s) < fuel)%nat)
      by (pose proof (length_trimStart s); lia).
    assert (Hne : Nat.eqb (length (trimStart s)) (length (x :: s)) = false).
    { apply Nat.eqb_neq. cbn [length]. pose proof (length_trimStart s). lia. }
    rewrite Hne. change (js " ") with [32%N]. cbn [app].
    match goal with |- context [replaceAllFrom fuel _ _ ?p _] =>
      destruct (IH p (trimStart s) Hlt) as [H1 H2] end.
    split.
    + cbn [singleSpaced]. change (isSpace 32) with true. cbn iota.
      change (eqChar 32 32) with true. cbn [andb].
      change (js " ") with [32%N] in *.
      rewrite H1, (H2 (stops_trimStart s)). reflexivity.
    + cbn [stops]. rewrite Hx. discriminate.
  - assert (Hlt : (length s < fuel)%nat) by lia.
    destruct (IH (x :: pre) s Hlt) as [H1 _]. split.
    + cbn [singleSpaced]. rewrite Hx, H1. reflexivity.
    + intros _. cbn [stops]. rewrite Hx. reflexivity.
Qed.

Lemma trimEnd_prefix (s : jsstring) : exists t, s = trimEnd s ++ t.
Proof.
  unfold trimEnd. destruct (trimStart_suffix (rev s)) as (w & E & _).
  exists (rev w). rewrite <- rev_app_distr, <- E. symmetry. apply rev_involutive.
Qed.

Lemma trim_singleSpaced (s : jsstring) :
  singleSpaced s = true -> singleSpaced (trim s) = true.
Proof.
  intros Hs. unfold trim.
  destruct (trimStart_suffix s) as (w & E & _). rewrite E in Hs.
  apply singleSpaced_suffix in Hs.
  destruct (trimEnd_prefix (trimStart s)) as (t & Et). rewrite Et in Hs.
  apply (singleSpaced_prefix _ _ Hs).
Qed.

Lemma trim_ends (s : jsstring) :
  stops isSpace (trim s) = true /\ stops isSpace (rev (trim s)) = true.
Proof.
  unfold trim. split.
  - destruct (trimEnd_prefix (trimStart s)) as (t & Et).
    destruct (trimEnd (trimStart s)) as [|x u] eqn:Eu; [reflexivity|].
    apply (stops_prefix isSpace _ t); [|discriminate].
    rewrite <- Et. apply stops_trimStart.
  - unfold trimEnd. rewrite rev_involutive. apply stops_trimStart.
Qed.

Lemma collapse_all (s : jsstring) :
  singleSpaced (replaceAll reSpaces (js " ") s) = true.
Proof. unfold replaceAll. apply collapse_spaces. lia. Qed.

Lemma brugge_is_not_kolberg : test (reOnly "Kolberg") (js "Brugge, Belgium") = false.
Proof. vm_compute. reflexivity. Qed.

(** X16: a place that normalizes gives a text that is not empty, has
    no white space at either end, and in which every white space is one
    space between two other characters. *)
Theorem cleaned_place_is_tidy (place : option jsstring) (c : jsstring) :
  cleanPlaceName place = Some c -> tidy c = true.
Proof.
  unfold cleanPlaceName. destruct place as [p|]; [|discriminate].
  destruct (negb (truthy p) || eqStr p (js "?")); [discriminate|].
  cbv zeta.
  match goal with |- context [replaceAll reSpaces (js " ") ?x] =>
    generalize x; intros c0 end.
  pose proof (trim_singleSpaced _ (collapse_all c0)) as Ht.
  destruct (trim_ends (replaceAll reSpaces (js " ") c0)) as [He1 He2].
  revert Ht He1 He2. generalize (trim (replaceAll reSpaces (js " ") c0)).
  intros c1 Ht He1 He2.
  destruct (test (reOnly "Brugge") c1).
  { rewrite brugge_is_not_kolberg. intros [= <-]. vm_compute. reflexivity. }
  destruct (test (reOnly "Kolberg") c1).
  { intros [= <-]. vm_compute. reflexivity. }
  destruct (truthy c1) eqn:Hne; [|discriminate].
  intros [= <-]. unfold tidy. rewrite Hne, He1, He2, Ht. reflexivity.
Qed.

Lemma cleaned_place_is_tidy_witness :
  tidy (js "Colombo, Western Province, Sri Lanka.") = true.
Proof.
  apply (cleaned_place_is_tidy
           (Some (js "Colombo,  Western Prov., Ceylon. (Sri Lanka)"))).
  vm_compute. reflexivity.
Defined.

End PlaceProofs.

(* ===================================================================== *)
(** * geocoder.js: lookups are spaced                                     *)
(* ===================================================================== *)

Module ThrottleProofs.

(** ** The clock changes no value *)

Lemma fetchT_geo (delays : Delays) (service : Service) (query : jsstring) (t : Timed) :
  fst (fetchT delays service query t) = fst (fetch service query (geo t))
  /\ geo (snd (fetchT delays service query t)) = snd (fetch service query (geo t)).
Proof. unfold fetchT, fetch. cbn. auto. Qed.

Lemma lookupT_geo (delays : Delays) (service : Service) (cleaned : jsstring)
    (t : Timed) :
  fst (lookupT delays service cleaned t) = fst (lookup service cleaned (geo t))
  /\ geo (snd (lookupT delays service cleaned t)) = snd (lookup service cleaned (geo t)).
Proof.
  unfold lookupT, lookup, fetchT, fetch.
  destruct (encodable cleaned); cbn [negb]; [|auto].
  destruct (service (length (sent (geo t))) cleaned); cbn [fst snd geo wait withGeo];
    [auto| |auto].
  destruct (2 <? length (partsOf cleaned))%nat; cbn [fst snd geo wait withGeo stamp];
    [|auto].
  destruct (encodable (join (js ", ") (lastTwo (partsOf cleaned))));
    cbn [negb fst snd geo wait withGeo stamp sent]; [|auto].
  destruct (service _ (join (js ", ") (lastTwo (partsOf cleaned))));
    cbn [fst snd geo wait withGeo stamp]; auto.
Qed.

Lemma geocodeT_geo (delays : Delays) (service : Service) (place : option jsstring)
    (t : Timed) :
  fst (geocodeT delays service place t) = fst (geocode service place (geo t))
  /\ geo (snd (geocodeT delays service place t)) = snd (geocode service place (geo t)).
Proof.
  unfold geocodeT, geocode. destruct (cleanPlaceName place) as [c|]; [|auto].
  destruct (cache (geo t) !! c); [auto|]. cbv zeta.
  match goal with |- context [lookupT _ _ _ ?t0] =>
    destruct (lookupT_geo delays service c t0) as [H1 H2];
    replace (geo t0) with (geo t) in H1, H2
      by (destruct (_ <? _)%Z; reflexivity);
    destruct (lookupT delays service c t0) as [[r|] t']
  end; destruct (lookup service c (geo t)) as [[r'|] g'];
    cbn [fst snd] in *; try discriminate; subst; try injection H1 as ->; auto.
Qed.

Lemma geocodeEachT_geo (delays : Delays) (service : Service) (total : nat)
    (unique : list jsstring) :
  forall completed acc t,
    fst (geocodeEachT delays service total unique completed acc t)
      = fst (geocodeEach service total unique completed acc (geo t))
    /\ geo (snd (geocodeEachT delays service total unique completed acc t))
      = snd (geocodeEach service total unique completed acc (geo t)).
Proof.
  induction unique as [|p unique IH]; intros completed acc t;
    cbn [geocodeEachT geocodeEach]; [auto|].
  destruct (geocodeT_geo delays service (Some p) t) as [H1 H2].
  destruct (geocodeT delays service (Some p) t) as [coords t'].
  destruct (geocode service (Some p) (geo t)) as [coords' g'].
  cbn [fst snd] in H1, H2. subst. apply IH.
Qed.

(** X18: the waits change no value: with any delays, a batch with the
    clock returns what the batch without it returns, and leaves the cache
    and the lookups sent as that one does. *)
Theorem waits_change_no_value (delays : Delays) (service : Service)
    (places : list (option jsstring)) (t : Timed) :
  fst (geocodeAllT delays service places t) = fst (geocodeAll service places (geo t))
  /\ geo (snd (geocodeAllT delays service places t))
     = snd (geocodeAll service places (geo t)).
Proof. unfold geocodeAllT, geocodeAll. apply geocodeEachT_geo. Qed.

(** ** Spacing *)

Lemma spaced_snoc (l : list Z) (c : Z) :
  spaced l -> (forall s, In s l -> (s + 1100 <= c)%Z) -> spaced (l ++ [c]).
Proof.
  induction l as [|a [|b l] IH]; cbn [app spaced]; intros Hs Hall.
  - exact I.
  - split; [apply Hall; left; reflexivity|exact I].
  - destruct Hs as [Hab Hs]. split; [exact Hab|].
    apply IH; [exact Hs|]. intros s Hin. apply Hall. right. exact Hin.
Qed.

Lemma fetchT_ready (delays : Delays) (service : Service) (query : jsstring)
    (t : Timed) :
  ready t ->
  paced (snd (fetchT delays service query t))
  /\ inStep t (snd (fetchT delays service query t)).
Proof.
  intros (Hl & Hs & Hall). unfold fetchT, fetch, paced, inStep, wait.
  cbn [fst snd geo clock lastRequestTime stamps sent]. repeat split.
  - lia.
  - apply spaced_snoc; assumption.
  - intros s [Hin|[<-|[]]]%in_app_or; [specialize (Hall s Hin)|]; lia.
  - rewrite !length_app. cbn [length]. lia.
Qed.

Lemma paced_withGeo (g : GeoState) (t : Timed) : paced t -> paced (withGeo g t).
Proof. intros H. exact H. Qed.

Lemma inStep_refl (t : Timed) : inStep t t.
Proof. unfold inStep. lia. Qed.

Lemma inStep_trans (a b c : Timed) : inStep a b -> inStep b c -> inStep a c.
Proof. unfold inStep. lia. Qed.

Lemma inStep_cache (k : jsstring) (v : option Coord) (t t' : Timed) :
  inStep t t' -> inStep t (withGeo (cacheSet k v (geo t')) t').
Proof. intros H. exact H. Qed.

Lemma ready_after_1100 (delays : Delays) (t : Timed) :
  paced t -> ready (stamp (wait delays 1100 t)) /\ inStep t (stamp (wait delays 1100 t)).
Proof.
  intros (Hl & Hs & Hall). unfold ready, inStep, stamp, wait.
  cbn [geo clock lastRequestTime stamps].
  repeat split; try exact Hs; try lia.
  intros s Hin. specialize (Hall s Hin). lia.
Qed.

Lemma ready_after_elapsed (delays : Delays) (t : Timed) :
  paced t ->
  let elapsed := (clock t - lastRequestTime t)%Z in
  let t0 := if (elapsed <? 1100)%Z then wait delays (1100 - elapsed)%Z t else t in
  ready (stamp t0) /\ inStep t (stamp t0).
Proof.
  intros (Hl & Hs & Hall). cbv zeta.
  destruct (Z.ltb_spec (clock t - lastRequestTime t) 1100);
    unfold ready, inStep, stamp, wait; cbn [geo clock lastRequestTime stamps];
    repeat split; try exact Hs; try lia;
    intros s Hin; specialize (Hall s Hin); lia.
Qed.

Lemma lookupT_ready (delays : Delays) (service : Service) (cleaned : jsstring)
    (t : Timed) :
  ready t ->
  paced (snd (lookupT delays service cleaned t))
  /\ inStep t (snd (lookupT delays service cleaned t)).
Proof.
  intros Hr. unfold lookupT.
  assert (Hp : paced t).
  { destruct Hr as (Hl & Hs & Hall). repeat split; [lia|exact Hs|].
    intros s Hin. specialize (Hall s Hin). lia. }
  destruct (encodable cleaned); cbn [negb]; [|split; [exact Hp|apply inStep_refl]].
  destruct (fetchT_ready delays service cleaned t Hr) as [Hp1 Hi1].
  destruct (fetchT delays service cleaned t) as [[| |c] t1]; cbn [fst snd] in *;
    [auto| |auto].
  destruct (2 <? length (partsOf cleaned))%nat; [|auto].
  destruct (ready_after_1100 delays t1 Hp1) as [Hr2 Hi2].
  assert (Hp2 : paced (stamp (wait delays 1100 t1))).
  { destruct Hr2 as (Hl & Hs & Hall). repeat split; [lia|exact Hs|].
    intros s Hin. specialize (Hall s Hin). lia. }
  destruct (encodable (join (js ", ") (lastTwo (partsOf cleaned)))); cbn [negb].
  - destruct (fetchT_ready delays service (join (js ", ") (lastTwo (partsOf cleaned)))
                _ Hr2) as [Hp3 Hi3].
    destruct (fetchT delays service _ (stamp (wait delays 1100 t1))) as [[| |c] t2];
      cbn [fst snd] in *;
      (split; [assumption|]);
      apply (inStep_trans t t1); [assumption| |assumption| |assumption|];
      apply (inStep_trans t1 (stamp (wait delays 1100 t1))); assumption.
  - cbn [snd]. split; [exact Hp2|]. apply (inStep_trans t t1); assumption.
Qed.

Lemma geocodeT_paced (delays : Delays) (service : Service)
    (place : option jsstring) (t : Timed) :
  paced t ->
  paced (snd (geocodeT delays service place t))
  /\ inStep t (snd (geocodeT delays service place t)).
Proof.
  intros Hp. unfold geocodeT.
  destruct (cleanPlaceName place) as [c|]; [|split; [exact Hp|apply inStep_refl]].
  destruct (cache (geo t) !! c); [split; [exact Hp|apply inStep_refl]|].
  destruct (ready_after_elapsed delays t Hp) as [Hr Hi]. cbv zeta in Hr, Hi |- *.
  match goal with |- context [lookupT _ _ _ ?t0] =>
    destruct (lookupT_ready delays service c t0 Hr) as [Hp1 Hi1];
    destruct (lookupT delays service c t0) as [[r|] t']
  end; cbn [fst snd] in *; (split; [assumption|]);
    eapply inStep_trans; eassumption.
Qed.

Lemma geocodeEachT_paced (delays : Delays) (service : Service) (total : nat)
    (unique : list jsstring) :
  forall completed acc t,
    paced t ->
    paced (snd (geocodeEachT delays service total unique completed acc t))
    /\ inStep t (snd (geocodeEachT delays service total unique completed acc t)).
Proof.
  induction unique as [|p unique IH]; intros completed acc t Hp;
    cbn [geocodeEachT]; [split; [exact Hp|apply inStep_refl]|].
  destruct (geocodeT_paced delays service (Some p) t Hp) as [Hp1 Hi1].
  destruct (geocodeT delays service (Some p) t) as [coords t']. cbn [snd] in *.
  match goal with |- context [geocodeEachT _ _ _ _ ?c ?a t'] =>
    destruct (IH c a t' Hp1) as [Hp2 Hi2] end.
  split; [exact Hp2|]. eapply inStep_trans; eassumption.
Qed.

(** One batch, run alone from a state in which the lookups sent are
    spaced, leaves them spaced, with one time for each lookup. *)
Lemma lookups_are_spaced (delays : Delays) (service : Service)
    (places : list (option jsstring)) (t : Timed) :
  paced t ->
  let t' := snd (geocodeAllT delays service places t) in
  paced t' /\ spaced (stamps t')
  /\ (length (stamps t') + length (sent (geo t)))%nat
     = (length (stamps t) + length (sent (geo t')))%nat.
Proof.
  intros Hp. cbv zeta. unfold geocodeAllT.
  match goal with |- context [geocodeEachT _ _ ?n ?u ?c ?a t] =>
    destruct (geocodeEachT_paced delays service n u c a t Hp) as [Hp' Hi] end.
  split; [exact Hp'|]. split; [apply Hp'|exact Hi].
Qed.

Lemma lookups_are_spaced_witness :
  let t' := snd (geocodeAllT (fun _ => 0%N) noService
                   [Some (js "Galle, Southern Province, Ceylon")]
                   (startedAt 1700000000000)) in
  paced t' /\ spaced (stamps t')
  /\ (length (stamps t') + 0)%nat = (0 + length (sent (geo t')))%nat.
Proof.
  apply (lookups_are_spaced (fun _ => 0%N) noService
           [Some (js "Galle, Southern Province, Ceylon")] (startedAt 1700000000000)).
  unfold paced, startedAt. cbn [lastRequestTime clock stamps spaced In].
  split; [lia|]. split; [exact I|]. intros s [].
Defined.

Lemma runBatches_paced (delays : Delays) (service : Service)
    (batches : list (list (option jsstring))) :
  forall t, paced t ->
    paced (runBatches delays service batches t)
    /\ inStep t (runBatches delays service batches t).
Proof.
  unfold runBatches.
  induction batches as [|places batches IH]; intros t Hp; cbn [fold_left].
  - split; [exact Hp|apply inStep_refl].
  - pose proof (lookups_are_spaced delays service places t Hp) as H1.
    cbv zeta in H1. destruct H1 as (Hp1 & _ & Hi1).
    destruct (IH _ Hp1) as [Hp2 Hi2].
    split; [exact Hp2|]. eapply inStep_trans; [exact Hi1|exact Hi2].
Qed.

(** X19: when the calls of [geocodeAll] of a process run one after the
    other, each beginning when the one before it has returned and nothing
    else calling [geocode], any two lookups that follow each other are sent
    1100 ms apart or more, and each lookup sent has its time of sending.
    The timers are taken not to fire early and the clock not to go back;
    how late a timer fires and how long an answer takes is free.  Calls
    that overlap are not covered: [geocode] reads [lastRequestTime] before
    its wait and writes it after, so two of them may send at once. *)
Theorem sequential_batches_are_spaced (delays : Delays) (service : Service)
    (batches : list (list (option jsstring))) (now : Z) :
  (0 <= now)%Z ->
  let t' := runBatches delays service batches (startedAt now) in
  spaced (stamps t') /\ length (stamps t') = length (sent (geo t')).
Proof.
  intros Hnow. cbv zeta.
  destruct (runBatches_paced delays service batches (startedAt now))
    as [(_ & Hs & _) Hi].
  - unfold paced, startedAt. cbn [lastRequestTime clock stamps spaced In].
    split; [exact Hnow|]. split; [exact I|]. intros s [].
  - split; [exact Hs|]. unfold inStep in Hi.
    cbn [startedAt stamps geo] in Hi.
    change (sent emptyGeo) with (@nil jsstring) in Hi.
    cbn [length] in Hi. lia.
Qed.

Lemma sequential_batches_are_spaced_witness :
  let t' := runBatches (fun _ => 0%N) noService
              [ [Some (js "Galle, Southern Province, Ceylon")];
                [Some (js "Kandy, Ceylon"); Some (js "Galle, Southern Province, Ceylon")] ]
              (startedAt 1700000000000) in
  spaced (stamps t') /\ length (stamps t') = length (sent (geo t')).
Proof.
  apply (sequential_batches_are_spaced (fun _ => 0%N) noService
           [ [Some (js "Galle, Southern Province, Ceylon")];
             [Some (js "Kandy, Ceylon"); Some (js "Galle, Southern Province, Ceylon")] ]
           1700000000000).
  lia.
Defined.

End ThrottleProofs.

(* ===================================================================== *)
(** * gedcomParser.js: records written out are read back                  *)
(* ===================================================================== *)

Module ReadProofs.
Import RegexFacts DateShape MatchFacts Tokens DateFormats.

(** The literals of the goal, as lists of code units. *)
Ltac lits :=
  repeat match goal with
  | |- context [js ?s] =>
      let v := eval vm_compute in (js s) in change (js s) with v
  end.

Ltac lits_in H :=
  repeat match type of H with
  | context [js ?s] =>
      let v := eval vm_compute in (js s) in change (js s) with v in H
  end.

(** The result of a search, put in the goal. *)
Ltac searched H :=
  match goal with
  | |- context [search ?r ?s] =>
      match type of H with
      | _ -> _ = ?rhs =>
          replace (search r s) with rhs; [|symmetry; apply H]
      | _ = ?rhs => replace (search r s) with rhs by (symmetry; exact H)
      end
  end.

(** ** Literal texts *)

Lemma Matches_lits (l : jsstring) (a b : position) :
  Matches (cats (map lit l)) a b ->
  snd b = snd a /\ snd (fst a) = l ++ snd (fst b).
Proof.
  revert a. induction l as [|x [|y l] IH]; intros a M.
  - invert M. auto.
  - cbn [map cats] in M. apply Matches_lit in M. exact M.
  - change (cats (map lit (x :: y :: l)))
      with (Cat (lit x) (cats (map lit (y :: l)))) in M.
    apply Matches_cat in M as (p & s & c & M1 & M2).
    apply Matches_lit in M1 as [C1 S1]. apply IH in M2 as [C2 S2].
    cbn [fst snd] in *. split; [congruence|]. rewrite S1, S2. reflexivity.
Qed.

Lemma lits_match (l : jsstring) (prev : option char) (s : jsstring) (c : captures) :
  exists q, Matches (cats (map lit l)) (prev, l ++ s, c) (q, s, c).
Proof.
  revert prev. induction l as [|x [|y l] IH]; intros prev.
  - exists prev. apply M_Eps.
  - exists (Some x). apply lit_matches.
  - destruct (IH (Some x)) as [q M]. exists q.
    change (cats (map lit (x :: y :: l)))
      with (Cat (lit x) (cats (map lit (y :: l)))).
    eapply M_Cat; [apply lit_matches|exact M].
Qed.

Lemma Matches_str (tag : string) (a b : position) :
  Matches (str tag) a b -> snd b = snd a /\ snd (fst a) = js tag ++ snd (fst b).
Proof. apply Matches_lits. Qed.

Lemma str_matches (tag : string) (prev : option char) (s : jsstring) (c : captures) :
  exists q, Matches (str tag) (prev, js tag ++ s, c) (q, s, c).
Proof. apply lits_match. Qed.

(** One space before a character that is none: the white space a
    pattern takes there is that space. *)
Lemma single_space (s1 w rest : jsstring) :
  runOf isSpace s1 = true -> s1 ++ w = 32%N :: rest -> stops isSpace rest = true ->
  s1 = [32%N] /\ w = rest.
Proof.
  intros (x & s1' & -> & Hx & Hs)%runOf_cons E Hr. cbn [app] in E.
  injection E as -> E. destruct s1' as [|y s1']; [auto|].
  cbn [app] in E. subst rest. cbn [forallb stops] in *.
  apply andb_prop in Hs as [Hy _]. rewrite Hy in Hr. discriminate.
Qed.

Lemma isValue_facts (v : jsstring) :
  isValue v = true ->
  runOf isDot v = true /\ stops isSpace v = true /\ stops isSpace (rev v) = true.
Proof.
  unfold isValue, runOf.
  intros [[[Ht Hd]%andb_prop Hs]%andb_prop Hr]%andb_prop. rewrite Ht, Hd. auto.
Qed.

(** ** The pattern of a line *)

Lemma line_inv (s : jsstring) (b : position) :
  Matches (cats [Group 1 (plus isDigit); plus isSpace; Group 2 (plus isDot); Eol])
    (None, s, []) b ->
  exists w1 s1 w2,
    s = w1 ++ s1 ++ w2
    /\ runOf isDigit w1 = true /\ runOf isSpace s1 = true /\ runOf isDot w2 = true
    /\ snd (fst b) = [] /\ snd b = [(2, w2); (1, w1)]%nat.
Proof.
  cbn [cats]. intros M. destruct b as [[q u] c].
  pieces. rewrite app_nil_r.
  repeat eexists; first [eassumption|rewrite <- ?app_assoc; reflexivity].
Qed.

Lemma line_matches (w1 s1 w2 : jsstring) :
  runOf isDigit w1 = true -> runOf isSpace s1 = true -> runOf isDot w2 = true ->
  exists q,
    Matches (cats [Group 1 (plus isDigit); plus isSpace; Group 2 (plus isDot); Eol])
      (None, w1 ++ s1 ++ w2, []) (q, [], [(2, w2); (1, w1)]%nat).
Proof.
  intros H1 Hs H2.
  destruct (plus_matches isDigit None w1 (s1 ++ w2 ++ []) [] H1) as [q1 M1].
  destruct (plus_matches isSpace q1 s1 (w2 ++ []) [(1, w1)]%nat Hs) as [q2 M2].
  destruct (plus_matches isDot q2 w2 [] [(1, w1)]%nat H2) as [q3 M3].
  exists q3. rewrite <- (app_nil_r w2) at 1. cbn [cats].
  eapply M_Cat; [apply group_matches, M1|].
  eapply M_Cat; [apply M2|].
  eapply M_Cat; [apply group_matches, M3|apply M_Eol].
Qed.

(** A line of a level of digits, one space and a rest that begins with
    no white space is read as that level and that rest. *)
Lemma read_line (lvl rest : jsstring) :
  runOf isDigit lvl = true -> runOf isDot rest = true -> stops isSpace rest = true ->
  search reLine (lvl ++ 32%N :: rest)
  = Some (Found [] (take (length (lvl ++ 32%N :: rest) - 0) (lvl ++ 32%N :: rest)) []
            [(2, rest); (1, lvl)]%nat).
Proof.
  intros Hl Hr Hs.
  change reLine with
    (Cat Bol (cats [Group 1 (plus isDigit); plus isSpace; Group 2 (plus isDot); Eol])).
  destruct (line_matches lvl [32%N] rest Hl eq_refl Hr) as [q M].
  cbn [app] in M.
  refine (eq_trans (search_bol_unique _ _ (q, [], [(2, rest); (1, lvl)]%nat) M _) _);
    [|reflexivity].
  intros b' M'. apply line_inv in M' as (w1 & s1 & w2 & E & D1 & S1 & D2 & Hi & Hc).
  cbn [fst snd]. rewrite Hi, Hc. split; [reflexivity|].
  apply (span_unique isDigit) in E as [<- E];
    [|apply runOf_all; assumption|apply runOf_all; assumption|reflexivity
     |apply (stops_run isDigit isSpace); [exact space_not_digit|exact S1]].
  symmetry in E. apply single_space in E as [_ ->]; auto.
Qed.

(** ** The patterns of the tags *)

(** A pattern that begins with a tag finds nothing in a text that begins
    with another character than the tag. *)
Lemma other_tag (tag : string) (r : regex) (x y : char) (s : jsstring) :
  head (js tag) = Some y -> y <> x ->
  search (Cat Bol (Cat (str tag) r)) (x :: s) = None.
Proof.
  intros Hy Hne. apply search_bol_none. intros b M.
  apply Matches_cat in M as (p & t & c & M & _).
  apply Matches_str in M as [_ E]. cbn [fst snd] in E.
  destruct (js tag) as [|z l]; [discriminate|]. cbn in Hy, E. congruence.
Qed.

Lemma value_inv (tag : string) (s : jsstring) (b : position) :
  Matches (cats [str tag; plus isSpace; Group 1 (plus isDot); Eol]) (None, s, []) b ->
  exists s1 w,
    s = js tag ++ s1 ++ w
    /\ runOf isSpace s1 = true /\ runOf isDot w = true
    /\ snd (fst b) = [] /\ snd b = [(1, w)]%nat.
Proof.
  cbn [cats]. intros M. destruct b as [[q u] c].
  apply Matches_cat in M as (p1 & t1 & c1 & M1 & M).
  apply Matches_str in M1 as [C1 E1]. cbn [fst snd] in *. subst.
  pieces. rewrite app_nil_r.
  repeat eexists; first [eassumption|reflexivity].
Qed.

Lemma value_matches (tag : string) (s1 w : jsstring) :
  runOf isSpace s1 = true -> runOf isDot w = true ->
  exists q,
    Matches (cats [str tag; plus isSpace; Group 1 (plus isDot); Eol])
      (None, js tag ++ s1 ++ w, []) (q, [], [(1, w)]%nat).
Proof.
  intros Hs Hw.
  destruct (str_matches tag None (s1 ++ w ++ []) []) as [q1 M1].
  destruct (plus_matches isSpace q1 s1 (w ++ []) [] Hs) as [q2 M2].
  destruct (plus_matches isDot q2 w [] [] Hw) as [q3 M3].
  exists q3. rewrite <- (app_nil_r w) at 1. cbn [cats].
  eapply M_Cat; [apply M1|].
  eapply M_Cat; [apply M2|].
  eapply M_Cat; [apply group_matches, M3|apply M_Eol].
Qed.

(** A tag, one space and a value: the value is read. *)
Lemma read_value (tag : string) (v : jsstring) :
  isValue v = true -> match1 (reValue tag) (js tag ++ 32%N :: v) = Some v.
Proof.
  intros (Hd & Hs & _)%isValue_facts. unfold match1.
  change (reValue tag) with
    (Cat Bol (cats [str tag; plus isSpace; Group 1 (plus isDot); Eol])).
  destruct (value_matches tag [32%N] v eq_refl Hd) as [q M]. cbn [app] in M.
  assert (Hf := search_bol_unique _ _ (q, [], [(1, v)]%nat) M).
  searched Hf; [reflexivity|].
  intros b' M'. apply value_inv in M' as (s1 & w & E & S1 & D & Hi & Hc).
  cbn [fst snd]. rewrite Hi, Hc. split; [reflexivity|].
  apply app_inv_head in E. symmetry in E.
  apply single_space in E as [_ ->]; auto.
Qed.

(** ** Identifiers *)

Lemma isRef_facts (id : jsstring) :
  isRef id = true ->
  exists mid, id = 64%N :: mid ++ [64%N] /\ runOf isNonSpace mid = true
              /\ forallb isNonSpace id = true.
Proof.
  unfold isRef. destruct id as [|x rest]; [discriminate|].
  intros [[Hx Hall]%andb_prop Hend]%andb_prop.
  apply N.eqb_eq in Hx. subst x.
  destruct (rev rest) as [|y [|z t]] eqn:Hr; try discriminate.
  apply N.eqb_eq in Hend. subst y.
  assert (E : rest = rev (z :: t) ++ [64%N]).
  { rewrite <- (rev_involutive rest), Hr. reflexivity. }
  exists (rev (z :: t)). split; [rewrite E; reflexivity|]. split; [|exact Hall].
  rewrite E in Hall. cbn [forallb] in Hall. apply andb_prop in Hall as [_ Hall].
  rewrite forallb_app in Hall. apply andb_prop in Hall as [Hmid _].
  unfold runOf. rewrite Hmid, andb_true_r. cbn [rev].
  destruct (rev t); reflexivity.
Qed.

Lemma xref_inv (i : nat) (a b : position) :
  Matches (Group i reXref) a b ->
  exists w, snd (fst a) = w ++ snd (fst b) /\ snd b = (i, w) :: snd a
            /\ runOf isNonSpace w = true.
Proof.
  intros M. apply Matches_group in M as (w & c & Hw & Hc & M).
  unfold reXref in M. cbn [cats] in M.
  apply Matches_cat in M as (p1 & s1 & c1 & M1 & M).
  apply Matches_cat in M as (p2 & s2 & c2 & M2 & M3).
  apply Matches_lit in M1 as [C1 E1]. apply Matches_plus in M2 as [C2 (m & E2 & Hm)].
  apply Matches_lit in M3 as [C3 E3]. cbn [fst snd] in *.
  exists w. split; [exact Hw|]. split; [congruence|].
  assert (E : w = 64%N :: m ++ [64%N]).
  { apply (app_inv_tail (snd (fst b))). rewrite <- Hw, E1, E2, E3.
    cbn [app]. rewrite <- app_assoc. reflexivity. }
  rewrite E. unfold runOf. cbn [truthy forallb andb].
  change (isNonSpace 64) with true. cbn [andb].
  rewrite forallb_app, (runOf_all _ _ Hm). reflexivity.
Qed.

Lemma xref_matches (i : nat) (id : jsstring) (prev : option char) (s : jsstring)
    (c : captures) :
  isRef id = true ->
  exists q, Matches (Group i reXref) (prev, id ++ s, c) (q, s, (i, id) :: c).
Proof.
  intros (mid & -> & Hm & _)%isRef_facts.
  destruct (plus_matches isNonSpace (Some 64%N) mid (64%N :: s) c Hm) as [q M].
  exists (Some 64%N). apply group_matches. unfold reXref. cbn [cats].
  cbn [app]. rewrite <- app_assoc. cbn [app].
  eapply M_Cat; [apply lit_matches|].
  eapply M_Cat; [exact M|apply lit_matches].
Qed.

Lemma space_not_nonspace (x : char) : isSpace x = true -> isNonSpace x = false.
Proof. unfold isNonSpace. intros ->. reflexivity. Qed.

Lemma isRef_stops (id rest : jsstring) :
  isRef id = true -> stops isSpace (id ++ rest) = true.
Proof. intros (mid & -> & _)%isRef_facts. reflexivity. Qed.

(** A tag, one space and an identifier: the identifier is read. *)
Lemma read_ref (tag : string) (id : jsstring) :
  isRef id = true -> match1 (reRef tag) (js tag ++ 32%N :: id) = Some id.
Proof.
  intros Hid. unfold match1.
  change (reRef tag) with
    (Cat Bol (cats [str tag; plus isSpace; Group 1 reXref; Eol])).
  assert (Hf : search (Cat Bol (cats [str tag; plus isSpace; Group 1 reXref; Eol]))
                 (js tag ++ 32%N :: id)
               = Some (Found [] (take (length (js tag ++ 32%N :: id) - 0)
                                   (js tag ++ 32%N :: id)) [] [(1, id)]%nat)).
  { destruct (str_matches tag None ([32%N] ++ id ++ []) []) as [q1 M1].
    destruct (plus_matches isSpace q1 [32%N] (id ++ []) [] eq_refl) as [q2 M2].
    destruct (xref_matches 1 id q2 [] [] Hid) as [q3 M3].
    assert (M : Matches (cats [str tag; plus isSpace; Group 1 reXref; Eol])
                  (None, js tag ++ 32%N :: id, []) (q3, [], [(1, id)]%nat)).
    { rewrite <- (app_nil_r id) at 1. cbn [cats].
      eapply M_Cat; [apply M1|]. eapply M_Cat; [apply M2|].
      eapply M_Cat; [apply M3|apply M_Eol]. }
    apply (search_bol_unique _ _ (q3, [], [(1, id)]%nat) M).
    intros b' M'. cbn [cats] in M'. destruct b' as [[q u] c].
    apply Matches_cat in M' as (p1 & t1 & c1 & M1' & M').
    apply Matches_cat in M' as (p2 & t2 & c2 & M2' & M').
    apply Matches_cat in M' as (p3 & t3 & c3 & M3' & M4').
    apply Matches_str in M1' as [C1 E1]. apply Matches_plus in M2' as [C2 (s1 & E2 & S1)].
    apply xref_inv in M3' as (w & E3 & C3 & W). apply Matches_eol in M4' as (E4 & C4 & E5).
    cbn [fst snd] in *. subst. rewrite app_nil_r in E1.
    apply app_inv_head in E1. symmetry in E1.
    apply single_space in E1 as [_ ->]; [auto|exact S1|].
    rewrite <- (app_nil_r id). apply isRef_stops, Hid. }
  searched Hf. reflexivity.
Qed.

(** An identifier, one space and the tag of a record: the identifier is
    read. *)
Lemma header_inv (tag : string) (s : jsstring) (b : position) :
  Matches (cats [Group 1 reXref; plus isSpace; str tag; Eol]) (None, s, []) b ->
  exists w s1,
    s = w ++ s1 ++ js tag /\ runOf isNonSpace w = true /\ runOf isSpace s1 = true
    /\ snd (fst b) = [] /\ snd b = [(1, w)]%nat.
Proof.
  cbn [cats]. intros M. destruct b as [[q u] c].
  apply Matches_cat in M as (p1 & t1 & c1 & M1 & M).
  apply Matches_cat in M as (p2 & t2 & c2 & M2 & M).
  apply Matches_cat in M as (p3 & t3 & c3 & M3 & M4).
  apply xref_inv in M1 as (w & E1 & C1 & W). apply Matches_plus in M2 as [C2 (s1 & E2 & S1)].
  apply Matches_str in M3 as [C3 E3]. apply Matches_eol in M4 as (E4 & C4 & E5).
  cbn [fst snd] in *. subst. rewrite app_nil_r.
  exists w, s1. auto.
Qed.

Lemma read_header (tag : string) (id : jsstring) :
  isRef id = true -> match1 (reRecord tag) (id ++ 32%N :: js tag) = Some id.
Proof.
  intros Hid. unfold match1.
  change (reRecord tag) with
    (Cat Bol (cats [Group 1 reXref; plus isSpace; str tag; Eol])).
  assert (Hf : search (Cat Bol (cats [Group 1 reXref; plus isSpace; str tag; Eol]))
                 (id ++ 32%N :: js tag)
               = Some (Found [] (take (length (id ++ 32%N :: js tag) - 0)
                                   (id ++ 32%N :: js tag)) [] [(1, id)]%nat)).
  { destruct (xref_matches 1 id None ([32%N] ++ js tag ++ []) [] Hid) as [q1 M1].
    destruct (plus_matches isSpace q1 [32%N] (js tag ++ []) [(1, id)]%nat eq_refl)
      as [q2 M2].
    destruct (str_matches tag q2 [] [(1, id)]%nat) as [q3 M3].
    assert (M : Matches (cats [Group 1 reXref; plus isSpace; str tag; Eol])
                  (None, id ++ 32%N :: js tag, []) (q3, [], [(1, id)]%nat)).
    { rewrite <- (app_nil_r (js tag)). cbn [cats].
      eapply M_Cat; [apply M1|]. eapply M_Cat; [apply M2|].
      eapply M_Cat; [apply M3|apply M_Eol]. }
    apply (search_bol_unique _ _ (q3, [], [(1, id)]%nat) M).
    intros b' M'. apply header_inv in M' as (w & s1 & E & W & S1 & Hi & Hc).
    cbn [fst snd]. rewrite Hi, Hc. split; [reflexivity|].
    destruct (isRef_facts id Hid) as (_ & _ & _ & Hall).
    apply (span_unique isNonSpace) in E as [<- _];
      [reflexivity|exact Hall|apply runOf_all, W|reflexivity|].
    apply (stops_run isNonSpace isSpace); [exact space_not_nonspace|exact S1]. }
  searched Hf. reflexivity.
Qed.

(** The header of a record of one kind is not one of the other kind. *)
Lemma other_header (tag tag' : string) (id : jsstring) :
  isRef id = true -> stops isSpace (js tag) = true -> js tag' <> js tag ->
  match1 (reRecord tag') (id ++ 32%N :: js tag) = None.
Proof.
  intros Hid Hstop Hne. unfold match1.
  change (reRecord tag') with
    (Cat Bol (cats [Group 1 reXref; plus isSpace; str tag'; Eol])).
  assert (Hf : search (Cat Bol (cats [Group 1 reXref; plus isSpace; str tag'; Eol]))
                 (id ++ 32%N :: js tag) = None).
  { apply search_bol_none. intros b' M'.
    apply header_inv in M' as (w & s1 & E & W & S1 & _).
    destruct (isRef_facts id Hid) as (_ & _ & _ & Hall).
    apply (span_unique isNonSpace) in E as [<- E];
      [|exact Hall|apply runOf_all, W|reflexivity
       |apply (stops_run isNonSpace isSpace); [exact space_not_nonspace|exact S1]].
    symmetry in E. apply single_space in E as [_ E]; auto. }
  searched Hf. reflexivity.
Qed.

(** ** The other patterns of an individual *)

Lemma read_sex (x : char) :
  isNonSpace x = true -> match1 reSex (js "SEX" ++ [32%N; x]) = Some [x].
Proof.
  intros Hx. unfold match1.
  change reSex with
    (Cat Bol (cats [str "SEX"; plus isSpace; Group 1 (Class isNonSpace); Eol])).
  assert (Hf : search (Cat Bol (cats [str "SEX"; plus isSpace;
                                      Group 1 (Class isNonSpace); Eol]))
                 (js "SEX" ++ [32%N; x])
               = Some (Found [] (take (length (js "SEX" ++ [32%N; x]) - 0)
                                   (js "SEX" ++ [32%N; x])) [] [(1, [x])]%nat)).
  { destruct (str_matches "SEX" None ([32%N] ++ [x] ++ []) []) as [q1 M1].
    destruct (plus_matches isSpace q1 [32%N] ([x] ++ []) [] eq_refl) as [q2 M2].
    assert (M : Matches (cats [str "SEX"; plus isSpace; Group 1 (Class isNonSpace); Eol])
                  (None, js "SEX" ++ [32%N; x], []) (Some x, [], [(1, [x])]%nat)).
    { cbn [cats]. eapply M_Cat; [apply M1|]. eapply M_Cat; [apply M2|].
      eapply M_Cat; [|apply M_Eol].
      apply (group_matches 1 (Class isNonSpace) q2 (Some x) [x] [] [] []).
      apply M_Class, Hx. }
    apply (search_bol_unique _ _ (Some x, [], [(1, [x])]%nat) M).
    intros b' M'. cbn [cats] in M'. destruct b' as [[q u] c].
    apply Matches_cat in M' as (p1 & t1 & c1 & M1' & M').
    apply Matches_cat in M' as (p2 & t2 & c2 & M2' & M').
    apply Matches_cat in M' as (p3 & t3 & c3 & M3' & M4').
    apply Matches_str in M1' as [C1 E1]. apply Matches_plus in M2' as [C2 (s1 & E2 & S1)].
    apply Matches_group in M3' as (w & c' & E3 & C3 & M3').
    invert M3'. apply Matches_eol in M4' as (E4 & C4 & E5).
    cbn [fst snd] in *. subst.
    apply app_inv_head in E1. symmetry in E1. cbn [app] in E1.
    rewrite app_nil_r in E3. subst w.
    apply single_space in E1 as [_ E1]; [|exact S1|cbn [stops]; exact Hx].
    rewrite E1. auto. }
  searched Hf. reflexivity.
Qed.

Lemma name_tested (v : jsstring) :
  forallb isDot v = true -> test reName (js "NAME" ++ 32%N :: v) = true.
Proof.
  intros Hv.
  change reName with
    (Cat Bol (cats [str "NAME"; plus isSpace; Group 1 (Star isDot); Eol])).
  destruct (str_matches "NAME" None ([32%N] ++ v ++ []) []) as [q1 M1].
  destruct (plus_matches isSpace q1 [32%N] (v ++ []) [] eq_refl) as [q2 M2].
  assert (M : Matches (cats [str "NAME"; plus isSpace; Group 1 (Star isDot); Eol])
                (None, js "NAME" ++ 32%N :: v, []) (lastOr q2 v, [], [(1, v)]%nat)).
  { rewrite <- (app_nil_r v) at 1. cbn [cats].
    eapply M_Cat; [apply M1|]. eapply M_Cat; [apply M2|].
    eapply M_Cat; [|apply M_Eol].
    apply group_matches. apply M_Star, Hv. }
  apply (test_bol _ _ _ M).
Qed.

(** ** One line *)

Lemma no_brackets_from (fuel : nat) (pre v : jsstring) :
  forallb (fun x => negb (isParen x)) v = true ->
  replaceAllFrom fuel reParen [] pre v = v.
Proof.
  revert v pre. induction fuel as [|fuel IH]; intros v pre Hv; [reflexivity|].
  cbn [replaceAllFrom]. destruct v as [|x v]; [reflexivity|].
  cbn [forallb] in Hv. apply andb_prop in Hv as [Hx Hv].
  unfold matchHere, reParen. cbn [exec]. fold (isParen x).
  apply negb_true_iff in Hx. rewrite Hx. rewrite (IH v _ Hv). reflexivity.
Qed.

Lemma no_brackets (v : jsstring) :
  forallb (fun x => negb (isParen x)) v = true -> replaceAll reParen [] v = v.
Proof. apply no_brackets_from. Qed.

Lemma value_trimmed (v : jsstring) : isValue v = true -> trim v = v.
Proof. intros (_ & H1 & H2)%isValue_facts. apply trim_id; assumption. Qed.

Lemma value_dots (v : jsstring) : isValue v = true -> forallb isDot v = true.
Proof. intros (H & _)%isValue_facts. apply runOf_all, H. Qed.

Section Lines.
Context `{UnicodeCase}.

Lemma step_level0 (st : ParserState) (rest : jsstring) :
  runOf isDot rest = true -> stops isSpace rest = true ->
  step st (js "0" ++ 32%N :: rest) = startRecord rest st.
Proof.
  intros Hr Hs. unfold step.
  assert (Hf := read_line (js "0") rest eq_refl Hr Hs). searched Hf.
  unfold group. cbn [f_caps capture Nat.eqb].
  change (parseInt (js "0")) with 0%N. reflexivity.
Qed.

Lemma step_level1_indi (done : list Indi) (fams : list Fam) (i : Indi)
    (ctx : Subcontext) (rest : jsstring) :
  runOf isDot rest = true -> stops isSpace rest = true ->
  step (openIndi done fams i ctx) (js "1" ++ 32%N :: rest)
  = openIndi done fams (fst (indiLevel1 rest i)) (snd (indiLevel1 rest i)).
Proof.
  intros Hr Hs. unfold step.
  assert (Hf := read_line (js "1") rest eq_refl Hr Hs). searched Hf.
  unfold group. cbn [f_caps capture Nat.eqb].
  change (parseInt (js "1")) with 1%N. cbn [N.eqb Pos.eqb openIndi currentIndi
    currentFam currentEvent individuals famRecords].
  destruct (indiLevel1 rest i). reflexivity.
Qed.

Lemma step_level2_indi (done : list Indi) (fams : list Fam) (i : Indi)
    (ctx : Subcontext) (rest : jsstring) :
  runOf isDot rest = true -> stops isSpace rest = true ->
  step (openIndi done fams i ctx) (js "2" ++ 32%N :: rest)
  = openIndi done fams (indiLevel2 ctx rest i) ctx.
Proof.
  intros Hr Hs. unfold step.
  assert (Hf := read_line (js "2") rest eq_refl Hr Hs). searched Hf.
  unfold group. cbn [f_caps capture Nat.eqb].
  change (parseInt (js "2")) with 2%N. reflexivity.
Qed.

Lemma step_level1_fam (done : list Indi) (fams : list Fam) (f : Fam)
    (ctx : Subcontext) (rest : jsstring) :
  runOf isDot rest = true -> stops isSpace rest = true ->
  step (openFam done fams f ctx) (js "1" ++ 32%N :: rest)
  = openFam done fams (famLevel1 rest f) ctx.
Proof.
  intros Hr Hs. unfold step.
  assert (Hf := read_line (js "1") rest eq_refl Hr Hs). searched Hf.
  unfold group. cbn [f_caps capture Nat.eqb].
  change (parseInt (js "1")) with 1%N. reflexivity.
Qed.

Lemma header_indi (st : ParserState) (id : jsstring) :
  isRef id = true ->
  startRecord (id ++ 32%N :: js "INDI") st
  = openIndi (pushOpt (individuals st) (currentIndi st))
      (pushOpt (famRecords st) (currentFam st)) (newIndi id) CtxNone.
Proof.
  intros Hid. unfold startRecord, openIndi.
  replace (match1 (reRecord "INDI") (id ++ 32%N :: js "INDI")) with (Some id)
    by (symmetry; apply read_header, Hid).
  replace (match1 (reRecord "FAM") (id ++ 32%N :: js "INDI")) with (@None jsstring)
    by (symmetry; apply other_header; [exact Hid|reflexivity|discriminate]).
  reflexivity.
Qed.

Lemma header_fam (st : ParserState) (id : jsstring) :
  isRef id = true ->
  startRecord (id ++ 32%N :: js "FAM") st
  = openFam (pushOpt (individuals st) (currentIndi st))
      (pushOpt (famRecords st) (currentFam st)) (newFam id) CtxNone.
Proof.
  intros Hid. unfold startRecord, openFam.
  replace (match1 (reRecord "FAM") (id ++ 32%N :: js "FAM")) with (Some id)
    by (symmetry; apply read_header, Hid).
  replace (match1 (reRecord "INDI") (id ++ 32%N :: js "FAM")) with (@None jsstring)
    by (symmetry; apply other_header; [exact Hid|reflexivity|discriminate]).
  reflexivity.
Qed.

Lemma match1_other (tag : string) (r : regex) (x y : char) (s : jsstring) :
  head (js tag) = Some y -> y <> x ->
  match1 (Cat Bol (Cat (str tag) r)) (x :: s) = None.
Proof.
  intros Hy Hne. unfold match1.
  replace (search (Cat Bol (Cat (str tag) r)) (x :: s)) with (@None found)
    by (symmetry; exact (other_tag tag r x y s Hy Hne)).
  reflexivity.
Qed.

Lemma name_line (i : Indi) (v : jsstring) :
  forallb isDot v = true -> indiLevel1 (js "NAME" ++ 32%N :: v) i = (i, CtxName).
Proof.
  intros Hv. unfold indiLevel1.
  replace (test reName (js "NAME" ++ 32%N :: v)) with true
    by (symmetry; apply name_tested, Hv).
  unfold whenMatch.
  replace (match1 reSex (js "NAME" ++ 32%N :: v)) with (@None jsstring)
    by (symmetry; exact (match1_other "SEX" _ 78%N 83%N _ eq_refl ltac:(discriminate))).
  reflexivity.
Qed.

Lemma sex_line (i : Indi) (x : char) :
  isNonSpace x = true ->
  indiLevel1 (js "SEX" ++ [32%N; x]) i = (set_sex (toUpperCase1 x ++ []) i, CtxNone).
Proof.
  intros Hx. unfold indiLevel1, whenMatch.
  replace (match1 reSex (js "SEX" ++ [32%N; x])) with (Some [x])
    by (symmetry; apply read_sex, Hx).
  unfold test.
  replace (search reName (js "SEX" ++ [32%N; x])) with (@None found)
    by (symmetry; exact (other_tag "NAME" _ 83%N 78%N _ eq_refl ltac:(discriminate))).
  reflexivity.
Qed.

Lemma givn_line (i : Indi) (v : jsstring) :
  isValue v = true -> indiLevel2 CtxName (js "GIVN" ++ 32%N :: v) i = set_givn v i.
Proof.
  intros Hv. unfold indiLevel2, whenMatch.
  replace (match1 (reValue "GIVN") (js "GIVN" ++ 32%N :: v)) with (Some v)
    by (symmetry; apply read_value, Hv).
  replace (match1 (reValue "SURN") (js "GIVN" ++ 32%N :: v)) with (@None jsstring)
    by (symmetry; exact (match1_other "SURN" _ 71%N 83%N _ eq_refl ltac:(discriminate))).
  rewrite (value_trimmed v Hv). reflexivity.
Qed.

Lemma surn_line (i : Indi) (v : jsstring) :
  isValue v = true -> forallb (fun x => negb (isParen x)) v = true ->
  indiLevel2 CtxName (js "SURN" ++ 32%N :: v) i = set_surn v i.
Proof.
  intros Hv Hp. unfold indiLevel2, whenMatch.
  replace (match1 (reValue "SURN") (js "SURN" ++ 32%N :: v)) with (Some v)
    by (symmetry; apply read_value, Hv).
  replace (match1 (reValue "GIVN") (js "SURN" ++ 32%N :: v)) with (@None jsstring)
    by (symmetry; exact (match1_other "GIVN" _ 83%N 71%N _ eq_refl ltac:(discriminate))).
  rewrite (no_brackets v Hp), (value_trimmed v Hv). reflexivity.
Qed.

Lemma date_line (k : EventKind) (i : Indi) (v : jsstring) :
  isValue v = true -> k <> burial ->
  indiLevel2 (CtxEvent k) (js "DATE" ++ 32%N :: v) i = set_date k v i.
Proof.
  intros Hv Hk. unfold indiLevel2, whenMatch.
  replace (match1 (reValue "DATE") (js "DATE" ++ 32%N :: v)) with (Some v)
    by (symmetry; apply read_value, Hv).
  replace (match1 (reValue "PLAC") (js "DATE" ++ 32%N :: v)) with (@None jsstring)
    by (symmetry; exact (match1_other "PLAC" _ 68%N 80%N _ eq_refl ltac:(discriminate))).
  rewrite (value_trimmed v Hv). destruct k; [reflexivity|reflexivity|congruence].
Qed.

Lemma plac_line (k : EventKind) (i : Indi) (v : jsstring) :
  isValue v = true ->
  indiLevel2 (CtxEvent k) (js "PLAC" ++ 32%N :: v) i = set_place k v i.
Proof.
  intros Hv. unfold indiLevel2, whenMatch.
  replace (match1 (reValue "PLAC") (js "PLAC" ++ 32%N :: v)) with (Some v)
    by (symmetry; apply read_value, Hv).
  replace (match1 (reValue "DATE") (js "PLAC" ++ 32%N :: v)) with (@None jsstring)
    by (symmetry; exact (match1_other "DATE" _ 80%N 68%N _ eq_refl ltac:(discriminate))).
  rewrite (value_trimmed v Hv). destruct k; reflexivity.
Qed.

Lemma husb_line (f : Fam) (v : jsstring) :
  isRef v = true ->
  famLevel1 (js "HUSB" ++ 32%N :: v) f
  = {| gedcomFamId := gedcomFamId f; husbandId := Some v;
       wifeId := wifeId f; childIds := childIds f |}.
Proof.
  intros Hv. unfold famLevel1, whenMatch.
  replace (match1 (reRef "HUSB") (js "HUSB" ++ 32%N :: v)) with (Some v)
    by (symmetry; apply read_ref, Hv).
  replace (match1 (reRef "WIFE") (js "HUSB" ++ 32%N :: v)) with (@None jsstring)
    by (symmetry; exact (match1_other "WIFE" _ 72%N 87%N _ eq_refl ltac:(discriminate))).
  replace (match1 (reRef "CHIL") (js "HUSB" ++ 32%N :: v)) with (@None jsstring)
    by (symmetry; exact (match1_other "CHIL" _ 72%N 67%N _ eq_refl ltac:(discriminate))).
  reflexivity.
Qed.

Lemma wife_line (f : Fam) (v : jsstring) :
  isRef v = true ->
  famLevel1 (js "WIFE" ++ 32%N :: v) f
  = {| gedcomFamId := gedcomFamId f; husbandId := husbandId f;
       wifeId := Some v; childIds := childIds f |}.
Proof.
  intros Hv. unfold famLevel1, whenMatch.
  replace (match1 (reRef "WIFE") (js "WIFE" ++ 32%N :: v)) with (Some v)
    by (symmetry; apply read_ref, Hv).
  replace (match1 (reRef "HUSB") (js "WIFE" ++ 32%N :: v)) with (@None jsstring)
    by (symmetry; exact (match1_other "HUSB" _ 87%N 72%N _ eq_refl ltac:(discriminate))).
  replace (match1 (reRef "CHIL") (js "WIFE" ++ 32%N :: v)) with (@None jsstring)
    by (symmetry; exact (match1_other "CHIL" _ 87%N 67%N _ eq_refl ltac:(discriminate))).
  reflexivity.
Qed.

Lemma chil_line (f : Fam) (v : jsstring) :
  isRef v = true ->
  famLevel1 (js "CHIL" ++ 32%N :: v) f
  = {| gedcomFamId := gedcomFamId f; husbandId := husbandId f;
       wifeId := wifeId f; childIds := childIds f ++ [v] |}.
Proof.
  intros Hv. unfold famLevel1, whenMatch.
  replace (match1 (reRef "CHIL") (js "CHIL" ++ 32%N :: v)) with (Some v)
    by (symmetry; apply read_ref, Hv).
  replace (match1 (reRef "HUSB") (js "CHIL" ++ 32%N :: v)) with (@None jsstring)
    by (symmetry; exact (match1_other "HUSB" _ 67%N 72%N _ eq_refl ltac:(discriminate))).
  replace (match1 (reRef "WIFE") (js "CHIL" ++ 32%N :: v)) with (@None jsstring)
    by (symmetry; exact (match1_other "WIFE" _ 67%N 87%N _ eq_refl ltac:(discriminate))).
  reflexivity.
Qed.

Lemma lineOf_eq (level tag : string) (v : jsstring) :
  lineOf level tag v = js level ++ 32%N :: (js tag ++ 32%N :: v).
Proof. reflexivity. Qed.

Lemma rest_dots (tag : string) (v : jsstring) :
  runOf isDot (js tag) = true -> forallb isDot v = true ->
  runOf isDot (js tag ++ 32%N :: v) = true.
Proof.
  unfold runOf. intros [Ht Hd]%andb_prop Hv.
  rewrite truthy_app_l by exact Ht. rewrite forallb_app, Hd. cbn [forallb].
  rewrite Hv. reflexivity.
Qed.

Lemma rest_stops (tag : string) (v : jsstring) :
  truthy (js tag) = true -> stops isSpace (js tag) = true ->
  stops isSpace (js tag ++ 32%N :: v) = true.
Proof. destruct (js tag); [discriminate|]. intros _ Hs. exact Hs. Qed.

Lemma ref_dots (id : jsstring) : isRef id = true -> forallb isDot id = true.
Proof.
  intros (mid & _ & _ & Hall)%isRef_facts. apply forallb_forall.
  intros x Hx. rewrite forallb_forall in Hall. specialize (Hall x Hx).
  unfold isNonSpace, isSpace, isDot, isLineTerminator, between in *.
  to_props. lia.
Qed.

(** The step of a line of level 1 or 2 with a tag and a value. *)
Ltac tagged L :=
  rewrite lineOf_eq;
  first [rewrite step_level1_indi | rewrite step_level2_indi | rewrite step_level1_fam];
  [ rewrite L by assumption; reflexivity
  | apply rest_dots; [reflexivity|auto using value_dots, ref_dots]
  | apply rest_stops; reflexivity ].

Lemma step_name (done : list Indi) (fams : list Fam) (i : Indi)
    (ctx : Subcontext) (v : jsstring) :
  forallb isDot v = true ->
  step (openIndi done fams i ctx) (lineOf "1" "NAME" v) = openIndi done fams i CtxName.
Proof. intros Hv. tagged name_line. Qed.

Lemma step_givn (done : list Indi) (fams : list Fam) (i : Indi) (v : jsstring) :
  isValue v = true ->
  step (openIndi done fams i CtxName) (lineOf "2" "GIVN" v)
  = openIndi done fams (set_givn v i) CtxName.
Proof. intros Hv. tagged givn_line. Qed.

Lemma step_surn (done : list Indi) (fams : list Fam) (i : Indi) (v : jsstring) :
  isValue v = true -> forallb (fun x => negb (isParen x)) v = true ->
  step (openIndi done fams i CtxName) (lineOf "2" "SURN" v)
  = openIndi done fams (set_surn v i) CtxName.
Proof. intros Hv Hp. tagged surn_line. Qed.

Lemma step_date (done : list Indi) (fams : list Fam) (i : Indi)
    (k : EventKind) (v : jsstring) :
  isValue v = true -> k <> burial ->
  step (openIndi done fams i (CtxEvent k)) (lineOf "2" "DATE" v)
  = openIndi done fams (set_date k v i) (CtxEvent k).
Proof. intros Hv Hk. tagged date_line. Qed.

Lemma step_plac (done : list Indi) (fams : list Fam) (i : Indi)
    (k : EventKind) (v : jsstring) :
  isValue v = true ->
  step (openIndi done fams i (CtxEvent k)) (lineOf "2" "PLAC" v)
  = openIndi done fams (set_place k v i) (CtxEvent k).
Proof. intros Hv. tagged plac_line. Qed.

Lemma step_sex (done : list Indi) (fams : list Fam) (i : Indi)
    (ctx : Subcontext) (x : char) :
  isNonSpace x = true -> toUpperCase1 x = [x] ->
  step (openIndi done fams i ctx) (lineOf "1" "SEX" [x])
  = openIndi done fams (set_sex [x] i) CtxNone.
Proof.
  intros Hx Hu. rewrite lineOf_eq, step_level1_indi.
  - rewrite sex_line by exact Hx. rewrite Hu. reflexivity.
  - apply rest_dots; [reflexivity|]. cbn [forallb]. rewrite andb_true_r.
    to_props. to_props. lia.
  - apply rest_stops; reflexivity.
Qed.

Lemma step_husb (done : list Indi) (fams : list Fam) (f : Fam)
    (ctx : Subcontext) (v : jsstring) :
  isRef v = true ->
  step (openFam done fams f ctx) (lineOf "1" "HUSB" v)
  = openFam done fams {| gedcomFamId := gedcomFamId f; husbandId := Some v;
                         wifeId := wifeId f; childIds := childIds f |} ctx.
Proof. intros Hv. tagged husb_line. Qed.

Lemma step_wife (done : list Indi) (fams : list Fam) (f : Fam)
    (ctx : Subcontext) (v : jsstring) :
  isRef v = true ->
  step (openFam done fams f ctx) (lineOf "1" "WIFE" v)
  = openFam done fams {| gedcomFamId := gedcomFamId f; husbandId := husbandId f;
                         wifeId := Some v; childIds := childIds f |} ctx.
Proof. intros Hv. tagged wife_line. Qed.

Lemma step_chil (done : list Indi) (fams : list Fam) (f : Fam)
    (ctx : Subcontext) (v : jsstring) :
  isRef v = true ->
  step (openFam done fams f ctx) (lineOf "1" "CHIL" v)
  = openFam done fams {| gedcomFamId := gedcomFamId f; husbandId := husbandId f;
                         wifeId := wifeId f; childIds := childIds f ++ [v] |} ctx.
Proof. intros Hv. tagged chil_line. Qed.

Lemma step_event (done : list Indi) (fams : list Fam) (i : Indi)
    (ctx : Subcontext) (tag : string) (k : EventKind) :
  In (tag, k) [("BIRT", birth); ("DEAT", death); ("BURI", burial)]%string ->
  step (openIndi done fams i ctx) (js "1 " ++ js tag) = openIndi done fams i (CtxEvent k).
Proof.
  intros Hin.
  change (js "1 " ++ js tag) with (js "1" ++ 32%N :: js tag).
  cbn [In] in Hin.
  destruct Hin as [E|[E|[E|[]]]]; injection E as <- <-;
    (rewrite step_level1_indi; reflexivity).
Qed.

(** ** One record *)

Lemma nameValue_dots (v : jsstring) : nameValue v = true -> forallb isDot v = true.
Proof.
  unfold nameValue. destruct v as [|x v]; [reflexivity|].
  cbn [truthy negb orb]. apply value_dots.
Qed.

Lemma nameValue_value (v : jsstring) :
  nameValue v = true -> truthy v = true -> isValue v = true.
Proof. unfold nameValue. intros Hv Ht. rewrite Ht in Hv. exact Hv. Qed.

Lemma step_header_indi (st : ParserState) (id : jsstring) :
  isRef id = true ->
  step st (js "0 " ++ id ++ js " INDI")
  = openIndi (pushOpt (individuals st) (currentIndi st))
      (pushOpt (famRecords st) (currentFam st)) (newIndi id) CtxNone.
Proof.
  intros Hid.
  change (js "0 " ++ id ++ js " INDI") with (js "0" ++ 32%N :: (id ++ 32%N :: js "INDI")).
  rewrite step_level0.
  - apply header_indi, Hid.
  - unfold runOf. rewrite forallb_app, (ref_dots id Hid).
    destruct id; [discriminate|reflexivity].
  - apply isRef_stops, Hid.
Qed.

Lemma step_header_fam (st : ParserState) (id : jsstring) :
  isRef id = true ->
  step st (js "0 " ++ id ++ js " FAM")
  = openFam (pushOpt (individuals st) (currentIndi st))
      (pushOpt (famRecords st) (currentFam st)) (newFam id) CtxNone.
Proof.
  intros Hid.
  change (js "0 " ++ id ++ js " FAM") with (js "0" ++ 32%N :: (id ++ 32%N :: js "FAM")).
  rewrite step_level0.
  - apply header_fam, Hid.
  - unfold runOf. rewrite forallb_app, (ref_dots id Hid).
    destruct id; [discriminate|reflexivity].
  - apply isRef_stops, Hid.
Qed.

Lemma name_lines (done : list Indi) (fams : list Fam) (j : Indi)
    (ctx : Subcontext) (g s : jsstring) :
  nameValue g = true -> nameValue s = true ->
  forallb (fun x => negb (isParen x)) s = true ->
  exists ctx',
    fold_left step
      (if truthy g || truthy s
       then lineOf "1" "NAME" (g ++ js " /" ++ s ++ js "/")
            :: nameLine "2" "GIVN" g ++ nameLine "2" "SURN" s
       else [])
      (openIndi done fams j ctx)
    = openIndi done fams
        ((if truthy s then set_surn s else fun x => x)
           ((if truthy g then set_givn g else fun x => x) j)) ctx'.
Proof.
  intros Hg Hs Hp.
  assert (Hd : forallb isDot (g ++ js " /" ++ s ++ js "/") = true).
  { rewrite !forallb_app, (nameValue_dots g Hg), (nameValue_dots s Hs). reflexivity. }
  unfold nameLine.
  destruct (truthy g) eqn:Tg, (truthy s) eqn:Ts; cbn [orb app fold_left].
  - eexists. rewrite step_name by exact Hd.
    rewrite step_givn by (apply nameValue_value; assumption).
    rewrite step_surn by (try apply nameValue_value; assumption). reflexivity.
  - eexists. rewrite step_name by exact Hd.
    rewrite step_givn by (apply nameValue_value; assumption). reflexivity.
  - eexists. rewrite step_name by exact Hd.
    rewrite step_surn by (try apply nameValue_value; assumption). reflexivity.
  - eexists. reflexivity.
Qed.

Lemma sex_lines (done : list Indi) (fams : list Fam) (j : Indi)
    (ctx : Subcontext) (o : option jsstring) :
  match o with
  | Some [x] => isNonSpace x && eqStr (toUpperCase1 x) [x]
  | Some _ => false
  | None => true
  end = true ->
  exists ctx',
    fold_left step (optLine "1" "SEX" o) (openIndi done fams j ctx)
    = openIndi done fams (match o with Some v => set_sex v j | None => j end) ctx'.
Proof.
  destruct o as [[|x [|y v]]|]; try discriminate; intros Ho.
  - apply andb_prop in Ho as [Hx Hu]. apply eqStr_spec in Hu.
    eexists. cbn [optLine fold_left]. rewrite step_sex by assumption. reflexivity.
  - eexists. reflexivity.
Qed.

Lemma event_lines (done : list Indi) (fams : list Fam) (j : Indi)
    (ctx : Subcontext) (tag : string) (k : EventKind) (d p : option jsstring) :
  In (tag, k) [("BIRT", birth); ("DEAT", death); ("BURI", burial)]%string ->
  (k = burial -> d = None) ->
  optValue d = true -> optValue p = true ->
  exists ctx',
    fold_left step (eventLines tag d p) (openIndi done fams j ctx)
    = openIndi done fams
        (match p with Some v => set_place k v | None => fun x => x end
           (match d with Some v => set_date k v | None => fun x => x end j)) ctx'.
Proof.
  intros Hin Hk Hd Hp. unfold eventLines, optLine.
  destruct d as [d|], p as [p|]; cbn [optValue] in Hd, Hp; cbn [app fold_left];
    eexists; rewrite ?(step_event _ _ _ _ tag k Hin).
  - rewrite step_date by (auto; intros ->; discriminate (Hk eq_refl)).
    rewrite step_plac by assumption. reflexivity.
  - rewrite step_date by (auto; intros ->; discriminate (Hk eq_refl)). reflexivity.
  - rewrite step_plac by assumption. reflexivity.
  - reflexivity.
Qed.

(** The lines of an individual give the individual back, whatever was
    open before. *)
Lemma indi_lines (st : ParserState) (i : Indi) :
  writable i = true ->
  exists ctx',
    fold_left step (linesOfIndi i) st
    = openIndi (pushOpt (individuals st) (currentIndi st))
        (pushOpt (famRecords st) (currentFam st)) i ctx'.
Proof.
  unfold writable.
  intros [[[[[[[[[Hid Hg]%andb_prop Hs]%andb_prop Hp]%andb_prop Hx]%andb_prop
    Hbd]%andb_prop Hbp]%andb_prop Hdd]%andb_prop Hdp]%andb_prop Hup]%andb_prop.
  unfold linesOfIndi. cbn [fold_left]. rewrite step_header_indi by exact Hid.
  rewrite !fold_left_app.
  destruct (name_lines (pushOpt (individuals st) (currentIndi st))
              (pushOpt (famRecords st) (currentFam st)) (newIndi (gedcomId i))
              CtxNone (givn i) (surn i) Hg Hs Hp) as [c1 ->].
  destruct (sex_lines (pushOpt (individuals st) (currentIndi st))
              (pushOpt (famRecords st) (currentFam st))
              ((if truthy (surn i) then set_surn (surn i) else fun x => x)
                 ((if truthy (givn i) then set_givn (givn i) else fun x => x)
                    (newIndi (gedcomId i)))) c1 (sex i) Hx) as [c2 ->].
  match goal with |- context [fold_left step (eventLines "BIRT" _ _) (openIndi ?a ?b ?j ?c)] =>
    destruct (event_lines a b j c "BIRT" birth (birth_date i) (birth_place i))
      as [c3 ->]; [cbn; auto|discriminate|assumption|assumption|]
  end.
  match goal with |- context [fold_left step (eventLines "DEAT" _ _) (openIndi ?a ?b ?j ?c)] =>
    destruct (event_lines a b j c "DEAT" death (death_date i) (death_place i))
      as [c4 ->]; [cbn; auto|discriminate|assumption|assumption|]
  end.
  match goal with |- context [fold_left step (eventLines "BURI" _ _) (openIndi ?a ?b ?j ?c)] =>
    destruct (event_lines a b j c "BURI" burial None (burial_place i))
      as [c5 ->]; [cbn; auto|reflexivity|reflexivity|assumption|]
  end.
  exists c5. f_equal.
  destruct i as [id g s x bd bp dd dp up].
  cbn [gedcomId givn surn sex birth_date birth_place death_date death_place
       burial_place] in *.
  destruct g, s, x, bd, bp, dd, dp, up; reflexivity.
Qed.

Lemma chil_lines (done : list Indi) (fams : list Fam) (ctx : Subcontext)
    (ids : list jsstring) (f : Fam) :
  forallb isRef ids = true ->
  fold_left step (map (lineOf "1" "CHIL") ids) (openFam done fams f ctx)
  = openFam done fams {| gedcomFamId := gedcomFamId f; husbandId := husbandId f;
                         wifeId := wifeId f; childIds := childIds f ++ ids |} ctx.
Proof.
  revert f. induction ids as [|id ids IH]; intros f Hids.
  - cbn [map fold_left]. rewrite app_nil_r. destruct f; reflexivity.
  - cbn [forallb] in Hids. apply andb_prop in Hids as [Hid Hids].
    cbn [map fold_left]. rewrite step_chil by exact Hid. rewrite IH by exact Hids.
    cbn [gedcomFamId husbandId wifeId childIds]. rewrite <- app_assoc. reflexivity.
Qed.

(** The lines of a family give the family back. *)
Lemma fam_lines (st : ParserState) (f : Fam) :
  writableFam f = true ->
  fold_left step (linesOfFam f) st
  = openFam (pushOpt (individuals st) (currentIndi st))
      (pushOpt (famRecords st) (currentFam st)) f CtxNone.
Proof.
  unfold writableFam.
  intros [[[Hid Hh]%andb_prop Hw]%andb_prop Hc]%andb_prop.
  unfold linesOfFam. cbn [fold_left]. rewrite step_header_fam by exact Hid.
  rewrite !fold_left_app.
  destruct f as [id h w cs].
  cbn [gedcomFamId husbandId wifeId childIds] in *.
  destruct h as [h|], w as [w|]; cbn [optRef] in Hh, Hw; cbn [optLine fold_left];
    rewrite ?step_husb, ?step_wife by assumption;
    rewrite chil_lines by exact Hc; reflexivity.
Qed.

End Lines.

(** ** The lines of a file *)

Lemma newline_not_here (prev : option char) (x : char) (s : jsstring) :
  isDot x = true -> matchHere reNewline prev (x :: s) = None.
Proof.
  intros Hx. unfold matchHere, reNewline, lit. cbn [exec].
  assert (E13 : eqChar 13 x = false) by (to_props; lia).
  assert (E10 : eqChar 10 x = false) by (to_props; lia).
  rewrite E13, E10. reflexivity.
Qed.

Lemma newline_here (prev : option char) (s : jsstring) :
  matchHere reNewline prev (10%N :: s) = Some (s, []).
Proof. reflexivity. Qed.

Lemma split_line (l : jsstring) :
  forall (fuel : nat) (pre field rest : jsstring),
    forallb isDot l = true -> length l < fuel ->
    exists pre',
      splitFrom fuel reNewline pre field (l ++ 10%N :: rest)
      = (rev field ++ l) :: splitFrom (fuel - S (length l)) reNewline pre' [] rest.
Proof.
  induction l as [|x l IH]; intros fuel pre field rest Hl Hf;
    (destruct fuel as [|fuel]; [cbn [length] in Hf; lia|]).
  - cbn [app splitFrom]. rewrite newline_here.
    match goal with |- context [Nat.eqb ?a ?b] =>
      destruct (Nat.eqb_spec a b) as [E|_];
        [exfalso; cbn [length] in E; exact (n_Sn _ E)|]
    end.
    eexists. rewrite app_nil_r. cbn [length]. rewrite Nat.sub_succ, Nat.sub_0_r.
    reflexivity.
  - cbn [forallb] in Hl. apply andb_prop in Hl as [Hx Hl].
    cbn [app splitFrom]. rewrite newline_not_here by exact Hx.
    cbn [length] in Hf.
    destruct (IH fuel (x :: pre) (x :: field) rest Hl ltac:(lia)) as [pre' ->].
    exists pre'. cbn [rev length]. rewrite <- app_assoc. reflexivity.
Qed.

Lemma split_lines (lines : list jsstring) :
  forall (fuel : nat) (pre : jsstring),
    forallb (forallb isDot) lines = true -> length (fileOf lines) < fuel ->
    splitFrom fuel reNewline pre [] (fileOf lines) = lines ++ [[]].
Proof.
  induction lines as [|l lines IH]; intros fuel pre Hl Hf;
    (destruct fuel as [|fuel]; [lia|]).
  - reflexivity.
  - cbn [forallb] in Hl. apply andb_prop in Hl as [Hd Hl].
    unfold fileOf in *. cbn [flat_map] in *. rewrite <- app_assoc in *.
    cbn [app] in *. rewrite length_app in Hf. cbn [length] in Hf.
    assert (Hlen : length l < S fuel) by (unfold jsstring, char in *; lia).
    destruct (split_line l (S fuel) pre [] (flat_map (fun l0 => l0 ++ [10%N]) lines)
                Hd Hlen) as [pre' E].
    refine (eq_trans E _). cbn [rev app]. f_equal. apply IH; [exact Hl|unfold jsstring, char in *; lia].
Qed.

(** A file of lines without a line terminator is split into these lines
    and an empty one. *)
Lemma split_file (lines : list jsstring) :
  forallb (forallb isDot) lines = true ->
  split reNewline (fileOf lines) = lines ++ [[]].
Proof. intros Hl. apply split_lines; [exact Hl|lia]. Qed.

Lemma value_line_dots (level tag : string) (v : jsstring) :
  forallb isDot (js level) = true -> forallb isDot (js tag) = true ->
  forallb isDot v = true -> forallb isDot (lineOf level tag v) = true.
Proof.
  intros Hl Ht Hv. unfold lineOf. rewrite !forallb_app, Hl, Ht, Hv. reflexivity.
Qed.

Lemma optLine_dots (level tag : string) (o : option jsstring) :
  forallb isDot (js level) = true -> forallb isDot (js tag) = true ->
  match o with Some v => forallb isDot v | None => true end = true ->
  forallb (forallb isDot) (optLine level tag o) = true.
Proof.
  intros Hl Ht Ho. destruct o as [v|]; [|reflexivity].
  cbn [optLine forallb]. rewrite value_line_dots by assumption. reflexivity.
Qed.

Lemma optValue_dots (o : option jsstring) :
  optValue o = true -> match o with Some v => forallb isDot v | None => true end = true.
Proof. destruct o; [apply value_dots|reflexivity]. Qed.

Lemma optRef_dots (o : option jsstring) :
  optRef o = true -> match o with Some v => forallb isDot v | None => true end = true.
Proof. destruct o; [apply ref_dots|reflexivity]. Qed.

Lemma nameLine_dots (level tag : string) (v : jsstring) :
  forallb isDot (js level) = true -> forallb isDot (js tag) = true ->
  forallb isDot v = true -> forallb (forallb isDot) (nameLine level tag v) = true.
Proof.
  intros Hl Ht Hv. unfold nameLine. destruct (truthy v); [|reflexivity].
  cbn [forallb]. rewrite value_line_dots by assumption. reflexivity.
Qed.

Lemma eventLines_dots (tag : string) (d p : option jsstring) :
  forallb isDot (js tag) = true -> optValue d = true -> optValue p = true ->
  forallb (forallb isDot) (eventLines tag d p) = true.
Proof.
  intros Ht Hd%optValue_dots Hp%optValue_dots. unfold eventLines.
  assert (forallb (forallb isDot)
            ((js "1 " ++ js tag) :: optLine "2" "DATE" d ++ optLine "2" "PLAC" p) = true).
  { cbn [forallb]. rewrite !forallb_app, Ht.
    rewrite !optLine_dots by (assumption || reflexivity). reflexivity. }
  destruct d, p; auto.
Qed.

Lemma all_cons {A : Type} (p : A -> bool) (x : A) (l : list A) :
  p x = true -> forallb p l = true -> forallb p (x :: l) = true.
Proof. intros Hx Hl. cbn [forallb]. rewrite Hx, Hl. reflexivity. Qed.

Section Files.
Context `{UnicodeCase}.

Lemma indi_dots (i : Indi) :
  writable i = true -> forallb (forallb isDot) (linesOfIndi i) = true.
Proof.
  unfold writable.
  intros [[[[[[[[[Hid Hg]%andb_prop Hs]%andb_prop Hp]%andb_prop Hx]%andb_prop
    Hbd]%andb_prop Hbp]%andb_prop Hdd]%andb_prop Hdp]%andb_prop Hup]%andb_prop.
  apply nameValue_dots in Hg, Hs.
  unfold linesOfIndi. cbn [forallb]. rewrite !forallb_app.
  repeat (apply andb_true_intro; split); try reflexivity.
  - apply ref_dots, Hid.
  - destruct (truthy (givn i) || truthy (surn i)); [|reflexivity].
    apply all_cons; [|rewrite forallb_app; apply andb_true_intro; split].
    + apply value_line_dots; [reflexivity|reflexivity|].
      rewrite !forallb_app, Hg, Hs. reflexivity.
    + apply nameLine_dots; [reflexivity|reflexivity|exact Hg].
    + apply nameLine_dots; [reflexivity|reflexivity|exact Hs].
  - apply optLine_dots; [reflexivity|reflexivity|].
    destruct (sex i) as [[|x [|y v]]|]; try discriminate; [|reflexivity].
    apply andb_prop in Hx as [Hx _]. cbn [forallb]. rewrite andb_true_r.
    to_props. to_props. lia.
  - apply eventLines_dots; [reflexivity|assumption|assumption].
  - apply eventLines_dots; [reflexivity|assumption|assumption].
  - apply eventLines_dots; [reflexivity|reflexivity|assumption].
Qed.

Lemma fam_dots (f : Fam) :
  writableFam f = true -> forallb (forallb isDot) (linesOfFam f) = true.
Proof.
  unfold writableFam.
  intros [[[Hid Hh%optRef_dots]%andb_prop Hw%optRef_dots]%andb_prop Hc]%andb_prop.
  unfold linesOfFam. cbn [forallb]. rewrite !forallb_app.
  repeat (apply andb_true_intro; split); try reflexivity.
  - apply ref_dots, Hid.
  - apply optLine_dots; [reflexivity|reflexivity|exact Hh].
  - apply optLine_dots; [reflexivity|reflexivity|exact Hw].
  - apply forallb_forall. intros l (v & <- & Hv)%in_map_iff.
    rewrite forallb_forall in Hc.
    apply value_line_dots; [reflexivity|reflexivity|apply ref_dots, Hc, Hv].
Qed.

Lemma records_dots (rs : list (Indi + Fam)) :
  forallb writableRecord rs = true ->
  forallb (forallb isDot) (flat_map linesOfRecord rs) = true.
Proof.
  induction rs as [|r rs IH]; [reflexivity|].
  cbn [forallb flat_map]. intros [Hr Hrs]%andb_prop.
  rewrite forallb_app. apply andb_true_intro. split; [|exact (IH Hrs)].
  destruct r; [apply indi_dots|apply fam_dots]; exact Hr.
Qed.

Lemma records_lines (rs : list (Indi + Fam)) :
  forall st : ParserState,
    forallb writableRecord rs = true ->
    closed (fold_left step (flat_map linesOfRecord rs) st)
    = (fst (closed st) ++ indisOf rs, snd (closed st) ++ famsOf rs).
Proof.
  induction rs as [|r rs IH]; intros st Hrs.
  - unfold indisOf, famsOf. cbn [flat_map fold_left omap].
    rewrite !app_nil_r. unfold closed. reflexivity.
  - cbn [forallb] in Hrs. apply andb_prop in Hrs as [Hr Hrs].
    cbn [flat_map]. rewrite fold_left_app.
    destruct r as [i|f]; cbn [linesOfRecord writableRecord] in *.
    + destruct (indi_lines st i Hr) as [ctx ->]. rewrite (IH _ Hrs).
      unfold closed, openIndi, indisOf, famsOf.
      cbn [individuals famRecords currentIndi currentFam pushOpt fst snd omap].
      rewrite <- app_assoc. reflexivity.
    + rewrite (fam_lines st f Hr). rewrite (IH _ Hrs).
      unfold closed, openFam, indisOf, famsOf.
      cbn [individuals famRecords currentIndi currentFam pushOpt fst snd omap].
      rewrite <- app_assoc. reflexivity.
Qed.

(** X13: the records written out as lines are the records that
    [parseGedcomFull] reads: the individuals and the families, each list
    in the order of the file, every field as it was written. *)
Theorem written_records_are_read_back (rs : list (Indi + Fam)) :
  forallb writableRecord rs = true ->
  parseRecords (fileOf (flat_map linesOfRecord rs)) = (indisOf rs, famsOf rs).
Proof.
  intros Hrs. unfold parseRecords.
  rewrite split_file by (apply records_dots, Hrs).
  rewrite fold_left_app. cbn [fold_left].
  change (step ?st []) with st.
  exact (records_lines rs initialState Hrs).
Qed.

End Files.

Lemma written_records_are_read_back_witness :
  forallb (@writableRecord asciiCase)
    [inl johnSmith; inl ann;
     inr {| gedcomFamId := js "@F1@"; husbandId := Some (js "@I1@");
            wifeId := None; childIds := [js "@I2@"; js "@I3@"] |}] = true
  /\ @parseRecords asciiCase
       (fileOf (flat_map linesOfRecord
          [inl johnSmith; inl ann;
           inr {| gedcomFamId := js "@F1@"; husbandId := Some (js "@I1@");
                  wifeId := None; childIds := [js "@I2@"; js "@I3@"] |}]))
     = ([johnSmith; ann],
        [{| gedcomFamId := js "@F1@"; husbandId := Some (js "@I1@");
            wifeId := None; childIds := [js "@I2@"; js "@I3@"] |}]).
Proof.
  split; [reflexivity|].
  apply (@written_records_are_read_back asciiCase
           [inl johnSmith; inl ann;
            inr {| gedcomFamId := js "@F1@"; husbandId := Some (js "@I1@");
                   wifeId := None; childIds := [js "@I2@"; js "@I3@"] |}]).
  reflexivity.
Defined.

End ReadProofs.

(* ===================================================================== *)
(** * Profile.jsx: what the nodes of the maps carry                       *)
(* ===================================================================== *)

Module TreeLabels.
Import ObjectFacts TreeProofs.

Lemma people_map (people : list PersonRow) (k : jsstring) :
  get k (fold_left addPerson people []) = personNode <$> lastPerson people k.
Proof.
  induction people as [|p people IH] using rev_ind; [reflexivity|].
  rewrite fold_left_app. cbn [fold_left]. unfold addPerson at 1.
  rewrite get_set. unfold lastPerson. rewrite List.filter_app. cbn [List.filter].
  destruct (bool_decide (k = r_gedcom_id p)).
  - rewrite last_snoc. reflexivity.
  - rewrite app_nil_r. exact IH.
Qed.

Lemma gedcomMap_snoc (people : list PersonRow) (fams : list Fam) (f : Fam) :
  gedcomMap people (fams ++ [f]) = linkFamily (gedcomMap people fams) f.
Proof. unfold gedcomMap. rewrite fold_left_app. reflexivity. Qed.

Lemma linkFamily_get (o : PeopleMap) (f : Fam) (k : jsstring) :
  exists e m, get k (linkFamily o f) = grow e m <$> get k (mergeSpouse f o).
Proof.
  unfold linkFamily. destruct (primaryParent f o) as [pid|].
  - destruct (get_attach_fold pid (childIds f) (mergeSpouse f o) k) as [_ ->].
    eauto.
  - exists [], false. destruct (get k _); cbn; [rewrite grow_nil|]; reflexivity.
Qed.

Lemma resolve_known (known : list jsstring) (o : PeopleMap) (id : option jsstring) :
  keysOf o = known ->
  resolve id o
  = match id with
    | Some h => if truthy h && bool_decide (h ∈ known)
                then pair h <$> get h o else None
    | None => None
    end.
Proof.
  intros <-. unfold resolve. destruct id as [h|]; [|reflexivity].
  destruct (truthy h); [|reflexivity]. cbn [andb].
  destruct (get h o) as [n|] eqn:Hg.
  - rewrite bool_decide_eq_true_2 by (apply get_is_Some; eauto). reflexivity.
  - rewrite bool_decide_eq_false_2 by (apply get_None, Hg). reflexivity.
Qed.

(** The node of [k] after the names of one family are merged. *)
Lemma mergeSpouse_get (known : list jsstring) (o : PeopleMap) (f : Fam) (k : jsstring) :
  keysOf o = known ->
  get k (mergeSpouse f o)
  = match wifeFor known k f ≫= (fun w => get w o) with
    | Some wn =>
        (fun n =>
           let n1 := setAttribute "spouse" (VStr (n_name wn)) n in
           if truthy (attrText "born" (n_attributes wn))
              || truthy (attrText "died" (n_attributes wn))
           then setAttribute "spouseYears"
                  (VStr (orDefault (attrText "born" (n_attributes wn)) (js "?")
                         ++ js " - "
                         ++ orDefault (attrText "died" (n_attributes wn)) (js "?"))) n1
           else n1) <$> get k o
    | None => get k o
    end.
Proof.
  intros Hk. unfold mergeSpouse, wifeFor.
  rewrite !(resolve_known known o _ Hk).
  destruct (husbandId f) as [h|]; [|reflexivity].
  destruct (truthy h); cbn [andb]; [|destruct (wifeId f); reflexivity].
  destruct (bool_decide (h ∈ known)) eqn:Hh; cycle 1.
  { destruct (wifeId f) as [w|]; [|reflexivity].
    destruct (truthy w), (bool_decide (k = h)), (bool_decide (w ∈ known)); reflexivity. }
  destruct (get h o) as [hn|] eqn:Hgh; cycle 1.
  { apply bool_decide_eq_true in Hh. subst known.
    apply get_is_Some in Hh as [? Hh]. congruence. }
  cbn [fmap option_fmap option_map].
  destruct (wifeId f) as [w|]; [|reflexivity].
  destruct (truthy w); cbn [andb]; [|reflexivity].
  destruct (bool_decide (w ∈ known)) eqn:Hw; cycle 1.
  { rewrite andb_false_r. reflexivity. }
  rewrite andb_true_r.
  destruct (get w o) as [wn|] eqn:Hgw; cycle 1.
  { destruct (bool_decide (k = h)); cbn [andb mbind option_bind option_fmap fmap option_map];
      rewrite ?Hgw; reflexivity. }
  cbn [fmap option_fmap option_map].
  destruct (bool_decide (k = h)) eqn:Ekh; cbn [andb mbind option_bind].
  - apply bool_decide_eq_true in Ekh. subst k. rewrite Hgw.
    destruct (truthy _ || truthy _).
    + rewrite !get_update, bool_decide_eq_true_2 by reflexivity.
      rewrite Hgh. reflexivity.
    + rewrite get_update, bool_decide_eq_true_2 by reflexivity.
      rewrite Hgh. reflexivity.
  - destruct (truthy _ || truthy _); rewrite ?get_update, Ekh; reflexivity.
Qed.

Lemma attrGet_set (a b : string) (v : AttrValue) (attrs : Attrs) :
  attrGet a (attrSet b v attrs) = if bool_decide (a = b) then Some v else attrGet a attrs.
Proof. apply get_set. Qed.

Lemma attrText_born (p : PersonRow) (attrs : Attrs) :
  attrGet "born" attrs = attrGet "born" (n_attributes (personNode p)) ->
  attrGet "died" attrs = attrGet "died" (n_attributes (personNode p)) ->
  attrText "born" attrs = yearOf (r_birth_date p)
  /\ attrText "died" attrs = yearOf (r_death_date p).
Proof. unfold attrText. intros -> ->. split; reflexivity. Qed.

(** X23: the node of a person in the map of [buildGedcomTree] has the
    name and the attributes of the last row with its identifier; the
    families add to it only the name of a wife, on the node of the
    husband, for a family whose husband and wife are both known: the last
    such family gives the name, and the last such family whose wife has a
    year of birth or of death gives the years. *)
Theorem node_of_person (people : list PersonRow) (fams : list Fam)
    (k : jsstring) (n : Node jsstring) :
  get k (gedcomMap people fams) = Some n ->
  exists p,
    lastPerson people k = Some p
    /\ n_name n = r_name p
    /\ (forall a : string, a <> "spouse"%string -> a <> "spouseYears"%string ->
          attrGet a (n_attributes n) = attrGet a (n_attributes (personNode p)))
    /\ attrGet "spouse" (n_attributes n)
       = (fun q => VStr (r_name q))
           <$> (last (wivesOf (gedcomIds people) fams k) ≫= lastPerson people)
    /\ attrGet "spouseYears" (n_attributes n)
       = VStr <$> last (omap (fun w => lastPerson people w ≫= yearsOf)
                          (wivesOf (gedcomIds people) fams k)).
Proof.
  revert k n. induction fams as [|f fams IH] using rev_ind; intros k n Hg.
  - unfold gedcomMap in Hg. cbn [fold_left] in Hg. rewrite people_map in Hg.
    destruct (lastPerson people k) as [p|]; [|discriminate].
    injection Hg as <-. exists p. repeat split; reflexivity.
  - rewrite gedcomMap_snoc in Hg.
    destruct (linkFamily_get (gedcomMap people fams) f k) as (e & m & Hl).
    rewrite Hl in Hg. clear Hl.
    rewrite (mergeSpouse_get (gedcomIds people) _ f k
               (proj1 (gedcomMap_linked people fams))) in Hg.
    unfold wivesOf. rewrite omap_app. cbn [omap list_omap].
    destruct (get k (gedcomMap people fams)) as [n0|] eqn:Hk0;
      [|destruct (_ ≫= _); discriminate].
    destruct (IH k n0 Hk0) as (p & Hp & Hname & Hattrs & Hsp & Hyr).
    exists p. split; [exact Hp|].
    destruct (wifeFor (gedcomIds people) k f) as [w|] eqn:Hw;
      cbn [mbind option_bind] in Hg.
    + destruct (get w (gedcomMap people fams)) as [wn|] eqn:Hgw.
      * destruct (IH w wn Hgw) as (q & Hq & Hqname & Hqattrs & _ & _).
        destruct (attrText_born q (n_attributes wn)) as [Hborn Hdied];
          [apply Hqattrs; discriminate|apply Hqattrs; discriminate|].
        rewrite Hborn, Hdied, Hqname in Hg.
        rewrite last_snoc. cbn [mbind option_bind]. rewrite Hq.
        cbn [fmap option_fmap option_map] in Hg |- *.
        rewrite omap_app. cbn [omap list_omap]. rewrite Hq.
        cbn [mbind option_bind]. unfold yearsOf. cbn zeta.
        destruct (truthy (yearOf (r_birth_date q)) || truthy (yearOf (r_death_date q)));
          injection Hg as <-; cbn [grow n_name n_attributes setAttribute];
          rewrite ?attrGet_set; cbn [bool_decide decide_rel];
          (split; [exact Hname|]); (split; [|split]).
        -- intros a Ha1 Ha2. rewrite !attrGet_set.
           rewrite !bool_decide_eq_false_2 by assumption. apply Hattrs; assumption.
        -- reflexivity.
        -- rewrite last_snoc. reflexivity.
        -- intros a Ha1 Ha2. rewrite !attrGet_set.
           rewrite !bool_decide_eq_false_2 by assumption. apply Hattrs; assumption.
        -- reflexivity.
        -- rewrite app_nil_r. exact Hyr.
      * injection Hg as <-. exfalso.
        unfold wifeFor in Hw.
        destruct (husbandId f) as [h|], (wifeId f) as [w'|]; try discriminate.
        destruct (truthy h && truthy w' && bool_decide (k = h)
                  && bool_decide (h ∈ gedcomIds people)) eqn:E1; [|discriminate].
        destruct (bool_decide (w' ∈ gedcomIds people)) eqn:E2; [|discriminate].
        injection Hw as ->. apply bool_decide_eq_true in E2.
        rewrite <- (proj1 (gedcomMap_linked people fams)) in E2.
        apply get_is_Some in E2 as [? E2]. congruence.
    + injection Hg as <-. cbn [grow n_name n_attributes]. rewrite !app_nil_r.
      repeat split; assumption.
Qed.

Lemma node_of_person_witness :
  exists n,
    get (js "@A@")
      (gedcomMap threePeople
         [{| gedcomFamId := js "@F@"; husbandId := Some (js "@A@");
             wifeId := Some (js "@B@"); childIds := [js "@C@"] |}]) = Some n
    /\ n_name n = js "A"
    /\ attrGet "spouse" (n_attributes n) = Some (VStr (js "B"))
    /\ attrGet "spouseYears" (n_attributes n) = None.
Proof.
  destruct (get (js "@A@")
              (gedcomMap threePeople
                 [{| gedcomFamId := js "@F@"; husbandId := Some (js "@A@");
                     wifeId := Some (js "@B@"); childIds := [js "@C@"] |}]))
    as [n|] eqn:Hg; [|vm_compute in Hg; discriminate Hg].
  exists n. split; [reflexivity|].
  destruct (node_of_person _ _ _ _ Hg) as (p & Hp & -> & _ & -> & ->).
  vm_compute in Hp. injection Hp as <-.
  repeat split; vm_compute; reflexivity.
Defined.

(** ** The map of buildFamilyTree *)

Lemma member_map (members : list Member) (k : N) :
  get k (fold_left addMember members []) = memberNode <$> lastMember members k.
Proof.
  induction members as [|m members IH] using rev_ind; [reflexivity|].
  rewrite fold_left_app. cbn [fold_left]. unfold addMember at 1.
  rewrite get_set. unfold lastMember. rewrite List.filter_app. cbn [List.filter].
  destruct (bool_decide (k = m_id m)).
  - rewrite last_snoc. reflexivity.
  - rewrite app_nil_r. exact IH.
Qed.

Lemma lastMember_id (members : list Member) (k : N) (m : Member) :
  lastMember members k = Some m -> m_id m = k.
Proof.
  unfold lastMember. intros [l Hl]%last_Some.
  assert (Hin : In m (List.filter (fun m => bool_decide (k = m_id m)) members)).
  { rewrite Hl. apply in_or_app. right. left. reflexivity. }
  apply filter_In in Hin as [_ Hin]. apply bool_decide_eq_true in Hin. congruence.
Qed.

Lemma familyMap_snoc (members : list Member) (rels : list Relationship)
    (r : Relationship) :
  familyMap members (rels ++ [r]) = linkRelationship (familyMap members rels) r.
Proof. unfold familyMap. rewrite fold_left_app. reflexivity. Qed.

Lemma first_truthy (l : list jsstring) (x : jsstring) :
  hd [] (List.filter truthy (l ++ [x]))
  = if truthy (hd [] (List.filter truthy l)) then hd [] (List.filter truthy l) else x.
Proof.
  rewrite List.filter_app. cbn [List.filter].
  destruct (List.filter truthy l) as [|y l'] eqn:Hf.
  - cbn [app hd truthy]. destruct x; reflexivity.
  - assert (Hin : In y (List.filter truthy l)) by (rewrite Hf; left; reflexivity).
    apply filter_In in Hin as [_ Hy]. cbn [app hd]. rewrite Hy. reflexivity.
Qed.

Lemma attrText_set (a : string) (x : jsstring) (attrs : Attrs) :
  attrText a (attrSet a (VStr x) attrs) = x.
Proof.
  unfold attrText. rewrite attrGet_set, bool_decide_eq_true_2 by reflexivity.
  reflexivity.
Qed.

(** The node of [k] after one relationship. *)
Lemma linkRelationship_get (known : list N) (o : MemberMap) (r : Relationship) (k : N) :
  keysOf o = known ->
  exists e m,
    get k (linkRelationship o r)
    = match spouseFor known k r ≫= (fun w => get w o) with
      | Some rn =>
          (fun n => if truthy (attrText "spouse" (n_attributes n)) then n
                    else setAttribute "spouse" (VStr (n_name rn)) n) <$> get k o
      | None => grow e m <$> get k o
      end.
Proof.
  intros Hk. unfold linkRelationship, spouseFor.
  destruct (eqStr (rel_relationship r) (js "parent")) eqn:Ep.
  - apply eqStr_spec in Ep.
    assert (Es : eqStr (rel_relationship r) (js "spouse") = false).
    { rewrite Ep. reflexivity. }
    rewrite Es. cbn [andb mbind option_bind].
    destruct (bothKnown r o).
    + do 2 eexists. apply get_attach.
    + exists [], false. destruct (get k o); cbn; [rewrite grow_nil|]; reflexivity.
  - cbn [andb]. rewrite (bothKnown_known known r o Hk).
    destruct (eqStr (rel_relationship r) (js "spouse")); cbn [andb]; cycle 1.
    { exists [], false. destruct (get k o); cbn; [rewrite grow_nil|]; reflexivity. }
    destruct (bool_decide (rel_user_id r ∈ known)) eqn:Hu; cbn [andb]; cycle 1.
    { exists [], false. rewrite andb_false_r. cbn [mbind option_bind].
      destruct (get k o); cbn; [rewrite grow_nil|]; reflexivity. }
    destruct (bool_decide (rel_related_user_id r ∈ known)) eqn:Hr; cycle 1.
    { exists [], false. rewrite andb_false_r. cbn [mbind option_bind].
      destruct (get k o); cbn; [rewrite grow_nil|]; reflexivity. }
    rewrite !andb_true_r.
    apply bool_decide_eq_true in Hu, Hr. subst known.
    apply get_is_Some in Hu as [un Hu]. apply get_is_Some in Hr as [rn Hr].
    rewrite Hu, Hr. exists [], false.
    destruct (bool_decide (k = rel_user_id r)) eqn:Ek; cbn [mbind option_bind].
    + apply bool_decide_eq_true in Ek. subst k. rewrite Hr, Hu.
      cbn [fmap option_fmap option_map].
      destruct (truthy (attrText "spouse" (n_attributes un))); [exact Hu|].
      rewrite get_update, bool_decide_eq_true_2, Hu by reflexivity. reflexivity.
    + destruct (truthy (attrText "spouse" (n_attributes un)));
        rewrite ?get_update, ?Ek; destruct (get k o); cbn;
        rewrite ?grow_nil; reflexivity.
Qed.

(** X24: the node of a member in the map of [buildFamilyTree] has the
    name of the last row with its id, and the id as attribute; the spouse
    it shows is the first one with a name that is not empty, among the
    members that the relationships of type spouse from this member name,
    both members being known. *)
Theorem node_of_member (members : list Member) (rels : list Relationship)
    (k : N) (n : Node N) :
  get k (familyMap members rels) = Some n ->
  exists m,
    lastMember members k = Some m
    /\ n_name n = m_name m
    /\ attrGet "memberId" (n_attributes n) = Some (VNum k)
    /\ attrText "spouse" (n_attributes n)
       = hd [] (List.filter truthy (spouseNames members (memberIds members) rels k)).
Proof.
  revert k n. induction rels as [|r rels IH] using rev_ind; intros k n Hg.
  - unfold familyMap in Hg. cbn [fold_left] in Hg. rewrite member_map in Hg.
    destruct (lastMember members k) as [m|] eqn:Hm; [|discriminate].
    injection Hg as <-. exists m. repeat split.
    cbn. rewrite (lastMember_id _ _ _ Hm). reflexivity.
  - rewrite familyMap_snoc in Hg.
    destruct (linkRelationship_get (memberIds members) (familyMap members rels) r k
                (proj1 (familyMap_linked members rels))) as (e & mk & Hl).
    rewrite Hl in Hg. clear Hl.
    unfold spouseNames. rewrite omap_app. cbn [omap list_omap].
    destruct (get k (familyMap members rels)) as [n0|] eqn:Hk0;
      [|destruct (_ ≫= _); discriminate].
    destruct (IH k n0 Hk0) as (m & Hm & Hname & Hid & Hsp).
    exists m. split; [exact Hm|].
    destruct (spouseFor (memberIds members) k r) as [w|] eqn:Hw;
      cbn [mbind option_bind] in Hg.
    + destruct (get w (familyMap members rels)) as [wn|] eqn:Hgw.
      * destruct (IH w wn Hgw) as (q & Hq & Hqname & _ & _).
        rewrite omap_app. cbn [omap list_omap]. rewrite Hq.
        cbn [fmap option_fmap option_map] in Hg |- *.
        rewrite first_truthy. fold (spouseNames members (memberIds members) rels k).
        rewrite <- Hsp.
        destruct (truthy (attrText "spouse" (n_attributes n0)));
          injection Hg as <-; cbn [n_name n_attributes setAttribute].
        -- repeat split; assumption.
        -- split; [exact Hname|]. split.
           ++ rewrite attrGet_set, bool_decide_eq_false_2 by discriminate. exact Hid.
           ++ rewrite attrText_set. exact Hqname.
      * cbn [fmap option_fmap option_map] in Hg. injection Hg as <-. exfalso.
        unfold spouseFor in Hw.
        destruct (eqStr _ _ && _ && _) eqn:E1; [|discriminate].
        destruct (bool_decide (rel_related_user_id r ∈ memberIds members)) eqn:E2;
          [|discriminate].
        injection Hw as <-. apply bool_decide_eq_true in E2.
        rewrite <- (proj1 (familyMap_linked members rels)) in E2.
        apply get_is_Some in E2 as [? E2]. congruence.
    + cbn [fmap option_fmap option_map] in Hg. injection Hg as <-.
      cbn [grow n_name n_attributes]. rewrite !app_nil_r.
      repeat split; assumption.
Qed.

Lemma node_of_member_witness :
  exists n,
    get 1%N
      (familyMap twoMembers
         [{| rel_user_id := 1; rel_related_user_id := 2;
             rel_relationship := js "spouse" |}]) = Some n
    /\ n_name n = js "A"
    /\ attrText "spouse" (n_attributes n) = js "B".
Proof.
  destruct (get 1%N
              (familyMap twoMembers
                 [{| rel_user_id := 1; rel_related_user_id := 2;
                     rel_relationship := js "spouse" |}]))
    as [n|] eqn:Hg; [|vm_compute in Hg; discriminate Hg].
  exists n. split; [reflexivity|].
  destruct (node_of_member _ _ _ _ Hg) as (m & Hm & -> & _ & ->).
  vm_compute in Hm. injection Hm as <-.
  split; vm_compute; reflexivity.
Defined.

End TreeLabels.

(* ===================================================================== *)
(** * gedcomParser.js: the legacy parser and the full one                 *)
(* ===================================================================== *)

Module LegacyProofs.
Import RegexFacts DateShape MatchFacts Tokens DateFormats ReadProofs.

Lemma all_rev {A : Type} (p : A -> bool) (l : list A) :
  forallb p l = true -> forallb p (rev l) = true.
Proof.
  rewrite !forallb_forall. intros Hl x Hx. apply Hl, in_rev, Hx.
Qed.

Lemma isWordRef_facts (id : jsstring) :
  isWordRef id = true -> exists mid, id = 64%N :: mid ++ [64%N] /\ runOf isWord mid = true.
Proof.
  unfold isWordRef. destruct id as [|x rest]; [discriminate|].
  intros [Hx Hr]%andb_prop. apply N.eqb_eq in Hx. subst x.
  destruct (rev rest) as [|y mid] eqn:Er; [discriminate|].
  apply andb_prop in Hr as [Hy Hm]. apply N.eqb_eq in Hy. subst y.
  exists (rev mid). split.
  - f_equal. rewrite <- (rev_involutive rest), Er. reflexivity.
  - unfold runOf in *. apply andb_prop in Hm as [Ht Hm].
    rewrite (all_rev _ _ Hm), andb_true_r. destruct mid; [discriminate|].
    cbn [rev]. destruct (rev mid); reflexivity.
Qed.

Lemma legacy_inv (s : jsstring) (b : position) :
  Matches (cats [lit 64; plus isWord; lit 64; plus isSpace; str "INDI"; Eol])
    (None, s, []) b ->
  exists mid s1,
    s = 64%N :: mid ++ 64%N :: s1 ++ js "INDI"
    /\ runOf isWord mid = true /\ runOf isSpace s1 = true.
Proof.
  cbn [cats]. intros M. destruct b as [[q u] c].
  apply Matches_cat in M as (p1 & t1 & c1 & M1 & M).
  apply Matches_cat in M as (p2 & t2 & c2 & M2 & M).
  apply Matches_cat in M as (p3 & t3 & c3 & M3 & M).
  apply Matches_cat in M as (p4 & t4 & c4 & M4 & M).
  apply Matches_cat in M as (p5 & t5 & c5 & M5 & M6).
  apply Matches_lit in M1 as [C1 E1]. apply Matches_plus in M2 as [C2 (mid & E2 & Hm)].
  apply Matches_lit in M3 as [C3 E3]. apply Matches_plus in M4 as [C4 (s1 & E4 & Hs)].
  apply Matches_str in M5 as [C5 E5]. apply Matches_eol in M6 as (E6 & C6 & E7).
  cbn [fst snd] in *. subst. rewrite app_nil_r. exists mid, s1. auto.
Qed.

Lemma legacy_matches (mid s1 : jsstring) :
  runOf isWord mid = true -> runOf isSpace s1 = true ->
  exists b,
    Matches (cats [lit 64; plus isWord; lit 64; plus isSpace; str "INDI"; Eol])
      (None, 64%N :: mid ++ 64%N :: s1 ++ js "INDI", []) b.
Proof.
  intros Hm Hs.
  destruct (plus_matches isWord (Some 64%N) mid (64%N :: s1 ++ js "INDI" ++ []) [] Hm)
    as [q2 M2].
  destruct (plus_matches isSpace (Some 64%N) s1 (js "INDI" ++ []) [] Hs) as [q4 M4].
  destruct (str_matches "INDI" q4 [] []) as [q5 M5].
  exists (q5, [], []). rewrite <- (app_nil_r (js "INDI")). cbn [cats].
  eapply M_Cat; [apply lit_matches|]. eapply M_Cat; [apply M2|].
  eapply M_Cat; [apply lit_matches|]. eapply M_Cat; [apply M4|].
  eapply M_Cat; [apply M5|apply M_Eol].
Qed.

Lemma word_run_nonspace (w : jsstring) : runOf isWord w = true -> runOf isNonSpace w = true.
Proof.
  unfold runOf. intros [Ht Hw]%andb_prop. rewrite Ht. cbn [andb].
  apply forallb_forall. intros x Hx. rewrite forallb_forall in Hw.
  unfold isNonSpace. rewrite (word_not_space x (Hw x Hx)). reflexivity.
Qed.

Lemma full_matches (mid s1 : jsstring) :
  runOf isNonSpace mid = true -> runOf isSpace s1 = true ->
  exists b,
    Matches (cats [Group 1 reXref; plus isSpace; str "INDI"; Eol])
      (None, 64%N :: mid ++ 64%N :: s1 ++ js "INDI", []) b.
Proof.
  intros Hm Hs.
  destruct (plus_matches isNonSpace (Some 64%N) mid (64%N :: s1 ++ js "INDI" ++ []) [] Hm)
    as [q2 M2].
  destruct (plus_matches isSpace (Some 64%N) s1 (js "INDI" ++ [])
              [(1%nat, 64%N :: mid ++ [64%N])] Hs) as [q4 M4].
  destruct (str_matches "INDI" q4 [] [(1%nat, 64%N :: mid ++ [64%N])]) as [q5 M5].
  eexists. rewrite <- (app_nil_r (js "INDI")). cbn [cats].
  eapply M_Cat; [|eapply M_Cat; [apply M4|eapply M_Cat; [apply M5|apply M_Eol]]].
  replace (64%N :: mid ++ 64%N :: s1 ++ js "INDI" ++ [])
    with ((64%N :: mid ++ [64%N]) ++ s1 ++ js "INDI" ++ [])
    by (cbn [app]; rewrite <- app_assoc; reflexivity).
  apply group_matches. unfold reXref. cbn [cats].
  cbn [app]. rewrite <- app_assoc. cbn [app].
  eapply M_Cat; [apply lit_matches|]. eapply M_Cat; [apply M2|apply lit_matches].
Qed.

(** The two patterns of a header agree on a rest whose identifier, if the
    full parser reads one, is made of word characters. *)
Lemma headers_agree (rest : jsstring) :
  (forall id, match1 (reRecord "INDI") rest = Some id -> isWordRef id = true) ->
  test reLegacyIndi rest
  = match match1 (reRecord "INDI") rest with Some _ => true | None => false end.
Proof.
  intros Hid.
  change reLegacyIndi with
    (Cat Bol (cats [lit 64; plus isWord; lit 64; plus isSpace; str "INDI"; Eol])).
  unfold match1 in *.
  change (reRecord "INDI") with
    (Cat Bol (cats [Group 1 reXref; plus isSpace; str "INDI"; Eol])) in *.
  destruct (search (Cat Bol (cats [Group 1 reXref; plus isSpace; str "INDI"; Eol])) rest)
    as [f|] eqn:Ef.
  - specialize (Hid _ eq_refl).
    apply search_bol_sound in Ef as [q M].
    apply header_inv in M as (w & s1 & E & _ & Hs & _ & Hc). cbn [snd] in Hc.
    unfold group in Hid. rewrite Hc in Hid. cbn [capture Nat.eqb] in Hid.
    apply isWordRef_facts in Hid as (mid & -> & Hm). subst rest.
    destruct (legacy_matches mid s1 Hm Hs) as [b M].
    apply (test_bol _ _ b).
    cbn [app] in *. rewrite <- app_assoc. exact M.
  - unfold test.
    destruct (search (Cat Bol (cats [lit 64; plus isWord; lit 64; plus isSpace;
                                     str "INDI"; Eol])) rest) as [f|] eqn:El;
      [|reflexivity].
    exfalso. apply search_bol_sound in El as [q M].
    apply legacy_inv in M as (mid & s1 & -> & Hm & Hs).
    destruct (full_matches mid s1 (word_run_nonspace mid Hm) Hs) as [b M].
    apply test_bol in M. unfold test in M.
    match type of M with
    | match ?x with _ => _ end = _ =>
        replace x with (@None found) in M by (symmetry; exact Ef)
    end.
    discriminate.
Qed.

Lemma withoutId_level2 (ctx : Subcontext) (rest : jsstring) (i : Indi) :
  withoutId (indiLevel2 ctx rest i) = indiLevel2 ctx rest (withoutId i).
Proof.
  unfold indiLevel2, whenMatch.
  destruct ctx as [| |[| |]];
    repeat match goal with |- context [match1 ?r ?s] => destruct (match1 r s) end;
    reflexivity.
Qed.

Lemma withoutId_level1 `{UnicodeCase} (rest : jsstring) (i : Indi) :
  withoutId (fst (indiLevel1 rest i)) = withoutId i
  /\ snd (indiLevel1 rest i) = legacyLevel1 rest.
Proof.
  unfold indiLevel1, legacyLevel1, whenMatch.
  destruct (eqStr rest (js "BIRT")); [split; reflexivity|].
  destruct (eqStr rest (js "DEAT")); [split; reflexivity|].
  destruct (eqStr rest (js "BURI")); [split; reflexivity|].
  destruct (match1 reSex rest); split; reflexivity.
Qed.

Lemma withoutId_push (l : list Indi) (o : option Indi) :
  map withoutId (pushOpt l o) = pushOpt (map withoutId l) (option_map withoutId o).
Proof. destruct o; cbn [pushOpt option_map]; [apply map_app|reflexivity]. Qed.

Lemma withoutId_events `{UnicodeCase} (l : list Indi) :
  flat_map eventsOfIndi (map withoutId l) = flat_map eventsOfIndi l.
Proof.
  induction l as [|i l IH]; [reflexivity|]. cbn [map flat_map]. rewrite IH.
  reflexivity.
Qed.

(** One line: the legacy loop keeps, of the state of the full loop, the
    individuals without identifier and sex. *)
Lemma step_sim `{UnicodeCase} (st : ParserState) (lst : LegacyState) (line : jsstring) :
  lg_individuals lst = map withoutId (individuals st) ->
  lg_currentIndi lst = option_map withoutId (currentIndi st) ->
  lg_currentEvent lst = currentEvent st ->
  match headerOf "INDI" line with Some id => isWordRef id | None => true end = true ->
  lg_individuals (legacyStep lst line) = map withoutId (individuals (step st line))
  /\ lg_currentIndi (legacyStep lst line)
     = option_map withoutId (currentIndi (step st line))
  /\ lg_currentEvent (legacyStep lst line) = currentEvent (step st line).
Proof.
  intros HI HC HE Hid. unfold headerOf, levelAndRest in Hid.
  unfold step, legacyStep.
  destruct (search reLine line) as [m|]; [|auto].
  cbn zeta. destruct (parseInt (group 1 m) =? 0)%N.
  - unfold startRecord.
    cbn [lg_individuals lg_currentIndi lg_currentEvent individuals currentIndi
         currentEvent].
    rewrite withoutId_push, HI, HC. split; [reflexivity|]. split; [|reflexivity].
    rewrite headers_agree.
    + destruct (match1 (reRecord "INDI") (group 2 m)); reflexivity.
    + intros id E. rewrite E in Hid. exact Hid.
  - destruct st as [I F [i|] cf ce], lst as [LI lc le];
      cbn [lg_individuals lg_currentIndi lg_currentEvent individuals currentIndi
           currentEvent famRecords currentFam option_map] in *; subst.
    + destruct (withoutId_level1 (group 2 m) i) as [H1 H2].
      destruct (parseInt (group 1 m) =? 1)%N.
      * destruct (indiLevel1 (group 2 m) i) as [i' c'].
        cbn [fst snd] in H1, H2. cbn. rewrite H1, H2. auto.
      * destruct (parseInt (group 1 m) =? 2)%N; cbn.
        -- rewrite withoutId_level2. auto.
        -- auto.
    + cbn. auto.
Qed.

Lemma fold_sim `{UnicodeCase} (lines : list jsstring) :
  forall (st : ParserState) (lst : LegacyState),
    lg_individuals lst = map withoutId (individuals st) ->
    lg_currentIndi lst = option_map withoutId (currentIndi st) ->
    lg_currentEvent lst = currentEvent st ->
    wordIds lines = true ->
    pushOpt (lg_individuals (fold_left legacyStep lines lst))
      (lg_currentIndi (fold_left legacyStep lines lst))
    = map withoutId (fst (closed (fold_left step lines st))).
Proof.
  induction lines as [|line lines IH]; intros st lst HI HC HE Hw; cbn [fold_left].
  - unfold closed. cbn [fst]. rewrite withoutId_push, HI, HC. reflexivity.
  - cbn [wordIds forallb] in Hw. apply andb_prop in Hw as [Hl Hw].
    destruct (step_sim st lst line HI HC HE Hl) as (HI' & HC' & HE').
    apply IH; assumption.
Qed.

(** X15: for a file in which the identifier of every individual is made
    of word characters, the legacy parser [parseGedcom] returns the events
    of [parseGedcomFull]. *)
Theorem legacy_parser_agrees `{UnicodeCase} (content : jsstring) :
  wordIds (split reNewline content) = true ->
  parseGedcom content = events (parseGedcomFull content).
Proof.
  intros Hw. unfold parseGedcom, parseGedcomFull, parseRecords. cbn zeta.
  cbn [buildResult events].
  rewrite (fold_sim _ initialState legacyInitial eq_refl eq_refl eq_refl Hw).
  apply withoutId_events.
Qed.

Lemma legacy_parser_agrees_witness :
  wordIds (split reNewline johnSmithFile) = true
  /\ @parseGedcom asciiCase johnSmithFile
     = events (@parseGedcomFull asciiCase johnSmithFile).
Proof.
  split; [vm_compute; reflexivity|].
  apply (@legacy_parser_agrees asciiCase johnSmithFile). vm_compute. reflexivity.
Defined.

(** When an identifier has another character, the legacy parser does
    not open the individual: it returns no event where the full parser
    returns one. *)
Example legacy_parser_misses_other_ids :
  let file := textOf [ "0 @I-1@ INDI"; "1 NAME John /Smith/"; "2 GIVN John";
                       "2 SURN Smith"; "1 BIRT"; "2 DATE 12 OCT 1982";
                       "2 PLAC Sydney, Australia" ]%string in
  @parseGedcom asciiCase file = []
  /\ length (events (@parseGedcomFull asciiCase file)) = 1%nat.
Proof. cbn zeta. split; vm_compute; reflexivity. Qed.

End LegacyProofs.

(* ===================================================================== *)
(** * gedcomParser.js: the events and the people of one file             *)
(* ===================================================================== *)

Module PeopleProofs.
Import EventProofs.

Lemma people_of_parsed `{UnicodeCase} (content : jsstring) :
  people (parseGedcomFull content)
  = map personOfIndi
      (List.filter (fun i => truthy (nameOf i)) (fst (parseRecords content))).
Proof. unfold parseGedcomFull. destruct (parseRecords content). reflexivity. Qed.

(** The person of an individual carries what each of its events
    carries. *)
Lemma eventsOfIndi_person `{UnicodeCase} (i : Indi) (e : DerivedEvent) :
  In e (eventsOfIndi i) ->
  truthy (nameOf i) = true
  /\ p_name (personOfIndi i) = ev_name e
  /\ match ev_type e with
     | birth => p_birthDate (personOfIndi i) = Some (ev_date e)
                /\ p_birthPlace (personOfIndi i) = Some (ev_place e)
     | death => p_deathDate (personOfIndi i) = Some (ev_date e)
                /\ p_deathPlace (personOfIndi i) = Some (ev_place e)
     | burial => orElse (p_deathDate (personOfIndi i)) (p_birthDate (personOfIndi i))
                 = Some (ev_date e)
     end.
Proof.
  unfold eventsOfIndi, personOfIndi.
  cbn [p_name p_birthDate p_birthPlace p_deathDate p_deathPlace].
  destruct (truthy (nameOf i)); [|intros []]. cbn [negb].
  rewrite !in_app_iff. intros [He|[He|He]].
  - destruct (parseDate (birth_date i)) as [d|]; [|destruct He].
    destruct (birth_place i) as [p|]; [|destruct He].
    destruct (truthy d && usablePlace (Some p)) eqn:E; [|destruct He].
    destruct He as [<-|[]]. cbn [ev_name ev_type ev_date ev_place].
    apply andb_prop in E as [_ [Hp _]%andb_prop].
    unfold orNull. cbn [truthyOpt]. rewrite Hp. auto.
  - destruct (parseDate (death_date i)) as [d|]; [|destruct He].
    destruct (death_place i) as [p|]; [|destruct He].
    destruct (truthy d && usablePlace (Some p)) eqn:E; [|destruct He].
    destruct He as [<-|[]]. cbn [ev_name ev_type ev_date ev_place].
    apply andb_prop in E as [_ [Hp _]%andb_prop].
    unfold orNull. cbn [truthyOpt]. rewrite Hp. auto.
  - destruct (burial_place i) as [p|]; [|destruct He].
    destruct (usablePlace (Some p)); [|destruct He].
    destruct (orElse (parseDate (death_date i)) (parseDate (birth_date i)))
      as [d|] eqn:Ed; [|destruct He].
    destruct (truthy d); [|destruct He].
    destruct He as [<-|[]]. cbn [ev_name ev_type ev_date]. auto.
Qed.

(** X14: every event that [parseGedcomFull] returns belongs to a person
    that it returns: the person has the name of the event; an event of
    birth or of death has the date and the place of the person's birth or
    death, and a burial the date of the death, else of the birth. *)
Theorem events_belong_to_people `{UnicodeCase} (content : jsstring) (e : DerivedEvent) :
  In e (events (parseGedcomFull content)) ->
  exists p,
    In p (people (parseGedcomFull content))
    /\ p_name p = ev_name e
    /\ match ev_type e with
       | birth => p_birthDate p = Some (ev_date e) /\ p_birthPlace p = Some (ev_place e)
       | death => p_deathDate p = Some (ev_date e) /\ p_deathPlace p = Some (ev_place e)
       | burial => orElse (p_deathDate p) (p_birthDate p) = Some (ev_date e)
       end.
Proof.
  rewrite events_of_parsed, people_of_parsed.
  intros (i & Hi & He)%in_flat_map.
  destruct (eventsOfIndi_person i e He) as (Hn & Hname & Hkind).
  exists (personOfIndi i). split; [|auto].
  apply in_map, filter_In. auto.
Qed.

Lemma events_belong_to_people_witness :
  exists e p,
    events (@parseGedcomFull asciiCase johnSmithFile) = [e]
    /\ In p (people (@parseGedcomFull asciiCase johnSmithFile))
    /\ p_name p = js "John Smith"
    /\ p_birthDate p = Some (js "1982-10-12").
Proof.
  destruct (events (@parseGedcomFull asciiCase johnSmithFile)) as [|e l] eqn:Ev;
    [vm_compute in Ev; discriminate Ev|].
  destruct (@events_belong_to_people asciiCase johnSmithFile e) as (p & Hp & Hn & Hk).
  { rewrite Ev. left. reflexivity. }
  exists e, p.
  assert (El : l = []) by (vm_compute in Ev; injection Ev as _ <-; reflexivity).
  subst l. split; [reflexivity|]. split; [exact Hp|].
  assert (Ee : e = hd e (events (@parseGedcomFull asciiCase johnSmithFile)))
    by (rewrite Ev; reflexivity).
  vm_compute in Ee. subst e. cbn [ev_type ev_name ev_date] in Hn, Hk.
  destruct Hk as [Hd _]. split; [exact Hn|exact Hd].
Defined.

End PeopleProofs.
